(** * TinyGrad: a scalar reverse-mode automatic differentiation engine

    Shallow embedding of [TinyGrad.py] (class [Value]) and the properties
    its specification states about it.

    Modelling decisions.
    - A Python [Value] object is a cell of a heap (a list of records); its
      identity is its index. Operations allocate cells and never free them.
    - The [_backward] closures are a tagged variant holding the references
      they capture ([self], [other], [out]); they read [data] and [grad]
      from the heap when they are called, as the Python closures do.
    - Numbers are real numbers. Rounding is not modelled (nor [nan],
      underflow); the exceptions Python raises are: [ZeroDivisionError] of
      [/] and [**], [OverflowError] of [**] and [math.exp] (when the exact
      result exceeds the largest double), [ValueError] of [math.log],
      [AttributeError] of [.data] on a raw number. Python integers
      ([0], [1], [-1] in the source) are read as the same reals.
    - [+] and [*] on floats raise nothing: when they overflow Python goes
      on with an infinity, and the model with their exact result, a real
      beyond [DBL_MAX], which stands for that infinity. [math.exp] of an
      infinity raises nothing either ([inf] or [0.0]), and so does
      [math_exp] on such a real.
    - The recursion depth left when [backward] is entered is a parameter
      ([fuel]): [build_topo] uses one frame for each nested call, a closure
      one frame, and the closure of [elu] two more in its negative branch
      (for [out.exp()] and the [Value.__init__] under it).
    - [_prev] is a Python set of objects: it is kept as a duplicate-free
      list, and the order in which it is iterated is a parameter
      ([iter_order]) of the traversal, constrained only to be a permutation.
    - Names are the source's; the methods [exp] and [tanh] are [exp_] and
      [tanh_] here, [exp] being the real exponential.
    - [NeuralNetwork.py] (classes [Module], [Neuron], [Layer], [MLP]) is
      embedded over the same heap; its state adds the number of draws made
      from [random], and its outcomes the [TypeError] of iterating over a
      [Value]. The numbers [random.uniform(-1, 1)] returns are a parameter. *)

From Stdlib Require Import Reals Lra Lia ZArith.
From stdpp Require Import base list relations.

Open Scope R_scope.

(** ** Outcomes of Python evaluations *)

Inductive exn :=
  | ZeroDivisionError
  | OverflowError
  | ValueError
  | AttributeError
  | RecursionError.

(** [Complex]: Python goes on with a complex number (a negative float raised
    to a fractional power); node values of this model are reals, so the
    model does not follow the evaluation further. It is not an exception. *)
Inductive outcome (A : Type) :=
  | Ok (a : A)
  | Raise (e : exn)
  | Complex.
Arguments Ok {A} a.
Arguments Raise {A} e.
Arguments Complex {A}.

(** ** Float primitives *)

(** Largest finite double, (2 - 2^-52) * 2^1023. *)
Definition DBL_MAX : R := IZR (2 ^ 1024 - 2 ^ 971).

(** A finite double-precision number, as a real. *)
Definition finite (x : R) : Prop := Rabs x <= DBL_MAX.

(** Result of a libm call: [OverflowError] when it is out of range. *)
Definition in_range (x : R) : outcome R :=
  if Rle_dec (Rabs x) DBL_MAX then Ok x else Raise OverflowError.

(** [x / y] on floats. *)
Definition float_div (x y : R) : outcome R :=
  if Req_dec_T y 0 then Raise ZeroDivisionError else Ok (x / y).

(** [y] is an integer ([iw == floor(iw)] in CPython's [float_pow]). *)
Definition is_integer (y : R) : {IZR (Int_part y) = y} + {IZR (Int_part y) ≠ y} :=
  Req_dec_T (IZR (Int_part y)) y.

(** [x ** y] on floats, after CPython's [float_pow]. *)
Definition float_pow (x y : R) : outcome R :=
  if Req_dec_T y 0 then Ok 1
  else if Req_dec_T x 0 then
    if Rlt_dec y 0 then Raise ZeroDivisionError else Ok 0
  else if Rlt_dec 0 x then in_range (Rpower x y)
  else if is_integer y then
    in_range (if Z.odd (Int_part y) then - Rpower (- x) y else Rpower (- x) y)
  else Complex.

(** [math.exp(x)]: [OverflowError] when the exponential of a finite [x] is
    out of range. On a real beyond [DBL_MAX], which stands for an infinity,
    it returns as Python does on [inf] (an infinity) and [-inf] (zero). *)
Definition math_exp (x : R) : outcome R :=
  if Rle_dec (Rabs x) DBL_MAX then in_range (exp x) else Ok (exp x).

(** [math.log(x)]. *)
Definition math_log (x : R) : outcome R :=
  if Rlt_dec 0 x then Ok (ln x) else Raise ValueError.

(** ** The heap of [Value] objects *)

(** The identity of an object: its index in the heap. *)
Abbreviation ident := nat.

(** An operand of an operator: a raw number or a [Value] object. *)
Inductive operand :=
  | Num (x : R)
  | Ref (v : ident).

(** The [_op] string; the two formatted ones keep their coefficient. *)
Inductive op_tag :=
  | OpLeaf
  | OpAdd
  | OpMul
  | OpPow
  | OpReLU
  | OpSigmoid
  | OpTanh
  | OpLeakyReLU (alpha : R)
  | OpELU (alpha : R)
  | OpExp.

(** The [_backward] closures, one constructor per [def _backward] of the
    source (and the default [lambda: None]), with their captured variables. *)
Inductive closure :=
  | bw_none
  | bw_add (self other out : ident)
  | bw_mul (self other out : ident)
  | bw_truediv (self : ident) (other : operand) (out : ident)
  | bw_pow (self other out : ident)
  | bw_relu (self out : ident)
  | bw_sigmoid (self out : ident)
  | bw_tanh (self out : ident)
  | bw_leaky_relu (alpha : R) (self out : ident)
  | bw_elu (alpha : R) (self out : ident)
  | bw_exp (self out : ident).

Record Value := mkValue {
  data : R;
  grad : R;
  _backward : closure;
  _prev : list ident;
  _op : op_tag
}.

Abbreviation store := (list Value).

#[global] Instance Value_inhabited : Inhabited Value :=
  populate (mkValue 0 0 bw_none [] OpLeaf).

Definition data_of (st : store) (v : ident) : R := data (st !!! v).
Definition grad_of (st : store) (v : ident) : R := grad (st !!! v).
Definition prev_of (st : store) (v : ident) : list ident := _prev (st !!! v).
Definition backward_of (st : store) (v : ident) : closure := _backward (st !!! v).
Definition op_of (st : store) (v : ident) : op_tag := _op (st !!! v).

Definition with_grad (g : R) (n : Value) : Value :=
  mkValue (data n) g (_backward n) (_prev n) (_op n).

Definition with_backward (c : closure) (n : Value) : Value :=
  mkValue (data n) (grad n) c (_prev n) (_op n).

(** [v.grad = g] *)
Definition set_grad (v : ident) (g : R) (st : store) : store :=
  alter (with_grad g) v st.

(** ** Evaluation monad: the heap is threaded, and survives an exception *)

Definition M (A : Type) : Type := store → outcome A * store.

Definition ret {A : Type} (a : A) : M A := λ st, (Ok a, st).

Definition bind {A B : Type} (m : M A) (k : A → M B) : M B :=
  λ st,
    match m st with
    | (Ok a, st') => k a st'
    | (Raise e, st') => (Raise e, st')
    | (Complex, st') => (Complex, st')
    end.

Definition lift {A : Type} (o : outcome A) : M A := λ st, (o, st).
Definition gets {A : Type} (f : store → A) : M A := λ st, (Ok (f st), st).
Definition modify (f : store → store) : M unit := λ st, (Ok tt, f st).

Notation "'let*' x ':=' m 'in' k" := (bind m (λ x, k))
  (at level 10, x pattern, m at level 100, k at level 200).
Notation "m ;;; k" := (bind m (λ _, k))
  (at level 100, k at level 200, right associativity).

(** The set built by [set(_children)]. *)
Definition set_of (children : list ident) : list ident := remove_dups children.

(** [Value(data, _children, _op)]: a fresh object with gradient 0 and the
    no-op closure. *)
Definition Value_init (d : R) (children : list ident) (op : op_tag) : M ident :=
  λ st, (Ok (length st), st ++ [mkValue d 0 bw_none (set_of children) op]).

(** [out._backward = _backward] *)
Definition set_backward (out : ident) (c : closure) : M unit :=
  modify (alter (with_backward c) out).

(** [v.grad += x] *)
Definition grad_iadd (v : ident) (x : R) : M unit :=
  modify (λ st, set_grad v (grad_of st v + x) st).

(** [v.grad -= x] *)
Definition grad_isub (v : ident) (x : R) : M unit :=
  modify (λ st, set_grad v (grad_of st v - x) st).

(** [other if isinstance(other, Value) else Value(other)] *)
Definition wrap (other : operand) : M ident :=
  match other with
  | Ref o => ret o
  | Num x => Value_init x [] OpLeaf
  end.

(** [other.data]: a raw number has no such attribute. *)
Definition operand_data (other : operand) : M R :=
  match other with
  | Ref o => gets (λ st, data_of st o)
  | Num _ => lift (Raise AttributeError)
  end.

(** ** The operations of class [Value] *)

Definition __add__ (self : ident) (other : operand) : M ident :=
  let* other := wrap other in
  let* d := gets (λ st, data_of st self + data_of st other) in
  let* out := Value_init d [self; other] OpAdd in
  set_backward out (bw_add self other out);;;
  ret out.

Definition __mul__ (self : ident) (other : operand) : M ident :=
  let* other := wrap other in
  let* d := gets (λ st, data_of st self * data_of st other) in
  let* out := Value_init d [self; other] OpMul in
  set_backward out (bw_mul self other out);;;
  ret out.

Definition __pow__ (self : ident) (other : operand) : M ident :=
  let* other := wrap other in
  let* d := (λ st, (float_pow (data_of st self) (data_of st other), st)) in
  let* out := Value_init d [self; other] OpPow in
  set_backward out (bw_pow self other out);;;
  ret out.

(** [other ** -1] in [__truediv__]: [Value.__pow__] on an object, the float
    power on a raw number. *)
Definition pow_neg1 (other : operand) : M operand :=
  match other with
  | Ref o => let* p := __pow__ o (Num (-1)) in ret (Ref p)
  | Num x => let* r := lift (float_pow x (-1)) in ret (Num r)
  end.

Definition __truediv__ (self : ident) (other : operand) : M ident :=
  let* inv := pow_neg1 other in
  let* out := __mul__ self inv in
  set_backward out (bw_truediv self other out);;;
  ret out.

Definition relu (self : ident) : M ident :=
  let* d := gets (λ st, if Rlt_dec (data_of st self) 0 then 0 else data_of st self) in
  let* out := Value_init d [self] OpReLU in
  set_backward out (bw_relu self out);;;
  ret out.

Definition exp_ (self : ident) : M ident :=
  let* d := (λ st, (math_exp (data_of st self), st)) in
  let* out := Value_init d [self] OpExp in
  set_backward out (bw_exp self out);;;
  ret out.

Definition __neg__ (self : ident) : M ident := __mul__ self (Num (-1)).

(** [-other] in [__sub__]. *)
Definition neg_operand (other : operand) : M operand :=
  match other with
  | Ref o => let* n := __neg__ o in ret (Ref n)
  | Num x => ret (Num (- x))
  end.

Definition __sub__ (self : ident) (other : operand) : M ident :=
  let* n := neg_operand other in
  __add__ self n.

Definition __radd__ (self : ident) (other : operand) : M ident := __add__ self other.
Definition __rmul__ (self : ident) (other : operand) : M ident := __mul__ self other.

Definition sigmoid (self : ident) : M ident :=
  let* n := __neg__ self in
  let* e := exp_ n in
  let* d := (λ st, (float_div 1 (1 + data_of st e), st)) in
  let* out := Value_init d [self] OpSigmoid in
  set_backward out (bw_sigmoid self out);;;
  ret out.

(** [-2 * self] is [self.__rmul__(-2)]; when the product is beyond the
    double range Python goes on with an infinity, of which [math.exp]
    raises nothing: see [math_exp]. *)
Definition tanh_ (self : ident) : M ident :=
  let* n := __rmul__ self (Num (-2)) in
  let* e := exp_ n in
  let* q := (λ st, (float_div 2 (1 + data_of st e), st)) in
  let* out := Value_init (q - 1) [self] OpTanh in
  set_backward out (bw_tanh self out);;;
  ret out.

Definition leaky_relu (self : ident) (alpha : R) : M ident :=
  let* d := gets (λ st, if Rlt_dec (data_of st self) 0
                        then alpha * data_of st self else data_of st self) in
  let* out := Value_init d [self] (OpLeakyReLU alpha) in
  set_backward out (bw_leaky_relu alpha self out);;;
  ret out.

Definition elu (self : ident) (alpha : R) : M ident :=
  let* d := (λ st, if Rlt_dec (data_of st self) 0
                   then (let* e := exp_ self in
                         gets (λ st, alpha * (data_of st e - 1))) st
                   else (Ok (data_of st self), st)) in
  let* out := Value_init d [self] (OpELU alpha) in
  set_backward out (bw_elu alpha self out);;;
  ret out.

(** ** The [_backward] closures *)

(** [other.grad -= x] where [other] may be a raw number. *)
Definition operand_grad_isub (other : operand) (x : R) : M unit :=
  match other with
  | Ref o => grad_isub o x
  | Num _ => lift (Raise AttributeError)
  end.

(** The body of a closure, that of the corresponding [def _backward], run
    with the recursion depth it needs ([call_closure] below counts the
    frames). *)
Definition call_backward (c : closure) : M unit :=
  match c with
  | bw_none => ret tt
  | bw_add self other out =>
      (let* g := gets (λ st, grad_of st out) in grad_iadd self g);;;
      (let* g := gets (λ st, grad_of st out) in grad_iadd other g)
  | bw_mul self other out =>
      (let* x := gets (λ st, data_of st other * grad_of st out) in
       grad_iadd self x);;;
      (let* x := gets (λ st, data_of st self * grad_of st out) in
       grad_iadd other x)
  | bw_truediv self other out =>
      (let* g := gets (λ st, grad_of st out) in
       let* b := operand_data other in
       let* x := lift (float_div g b) in
       grad_iadd self x);;;
      (let* n := gets (λ st, grad_of st out * data_of st self) in
       let* b := operand_data other in
       let* b2 := lift (float_pow b 2) in
       let* x := lift (float_div n b2) in
       operand_grad_isub other x)
  | bw_pow self other out =>
      let* a := gets (λ st, data_of st self) in
      let* b := gets (λ st, data_of st other) in
      let* grad_a := (if Req_dec_T a 0 then ret 0
                      else let* p := lift (float_pow a (b - 1)) in ret (b * p)) in
      let* grad_b := (if Rlt_dec 0 a
                      then let* p := lift (float_pow a b) in
                           let* l := lift (math_log a) in ret (p * l)
                      else ret 0) in
      (let* g := gets (λ st, grad_of st out) in grad_iadd self (grad_a * g));;;
      (let* g := gets (λ st, grad_of st out) in grad_iadd other (grad_b * g))
  | bw_relu self out =>
      let* x := gets (λ st, (if Rlt_dec 0 (data_of st out) then 1 else 0)
                            * grad_of st out) in
      grad_iadd self x
  | bw_sigmoid self out =>
      let* x := gets (λ st, data_of st out * (1 - data_of st out)
                            * grad_of st out) in
      grad_iadd self x
  | bw_tanh self out =>
      let* d := gets (λ st, data_of st out) in
      let* d2 := lift (float_pow d 2) in
      let* g := gets (λ st, grad_of st out) in
      grad_iadd self ((1 - d2) * g)
  | bw_leaky_relu alpha self out =>
      let* x := gets (λ st, (if Rlt_dec (data_of st self) 0 then alpha else 1)
                            * grad_of st out) in
      grad_iadd self x
  | bw_elu alpha self out =>
      let* k := (λ st, if Rlt_dec (data_of st self) 0
                       then (let* e := exp_ out in
                             gets (λ st, alpha * data_of st e)) st
                       else (Ok 1, st)) in
      let* g := gets (λ st, grad_of st out) in
      grad_iadd self (k * g)
  | bw_exp self out =>
      let* x := gets (λ st, data_of st out * grad_of st out) in
      grad_iadd self x
  end.

(** [v._backward()] with [fuel] frames of recursion depth left. The call
    pushes one frame. The closure of [elu] calls [out.exp()] in its negative
    branch: a second frame, in which [math.exp] is evaluated and then
    [Value(...)] called, whose [__init__] is a third frame. The other
    closures call no Python function. Python raises [RecursionError] when a
    frame is pushed and none is left; nothing has been written then. *)
Definition call_closure (fuel : nat) (c : closure) : M unit :=
  λ st,
    match fuel with
    | O => (Raise RecursionError, st)
    | S fuel1 =>
        match c with
        | bw_elu alpha self out =>
            if Rlt_dec (data_of st self) 0 then
              match fuel1 with
              | O => (Raise RecursionError, st)
              | S fuel2 =>
                  match math_exp (data_of st out), fuel2 with
                  | Ok _, O => (Raise RecursionError, st)
                  | _, _ => call_backward c st
                  end
              end
            else call_backward c st
        | _ => call_backward c st
        end
    end.

(** ** The backward pass *)

(** [for x in l: f(x)] over a state [S], stopping at the first exception. *)
Definition for_each {S : Type} (f : ident → S → outcome S) (l : list ident)
    (o : outcome S) : outcome S :=
  foldl (λ acc x, match acc with Ok s => f x s | _ => acc end) o l.

Section Backward.

(** The order in which the set [_prev] of a node is iterated. *)
Variable iter_order : ident → list ident → list ident.

Definition children (st : store) (v : ident) : list ident :=
  iter_order v (prev_of st v).

(** The local function [build_topo] of [backward]; the state is the pair
    ([visited], [topo]). [fuel] is the recursion depth left: Python raises
    [RecursionError] when it is used up. *)
Fixpoint build_topo (fuel : nat) (st : store) (v : ident)
    (s : list ident * list ident) : outcome (list ident * list ident) :=
  match fuel with
  | O => Raise RecursionError
  | S fuel' =>
      if decide (v ∈ s.1) then Ok s
      else
        match
          for_each (build_topo fuel' st) (children st v) (Ok (v :: s.1, s.2))
        with
        | Ok s' => Ok (s'.1, s'.2 ++ [v])
        | o => o
        end
  end.

(** [for v in reversed(topo): v._backward()], with [fuel] frames left.
    The first component is the list of the nodes whose [_backward] was
    called, in call order. *)
Fixpoint run_backward (fuel : nat) (l : list ident) (st : store)
    : list ident * outcome unit * store :=
  match l with
  | [] => ([], Ok tt, st)
  | v :: l' =>
      match call_closure fuel (backward_of st v) st with
      | (Ok _, st') =>
          let '(tr, o, st'') := run_backward fuel l' st' in (v :: tr, o, st'')
      | (o, st') => ([v], o, st')
      end
  end.

(** [Value.backward]. *)
Definition backward (fuel : nat) (self : ident) (st : store)
    : list ident * outcome unit * store :=
  match build_topo fuel st self ([], []) with
  | Ok s => run_backward fuel (rev s.2) (set_grad self 1 st)
  | Raise e => ([], Raise e, st)
  | Complex => ([], Complex, st)
  end.

End Backward.

Close Scope R_scope.

(** ** Graph vocabulary *)

(** [edge st v c]: [c] is an operand of [v] (and [v] a consumer of [c]). *)
Definition edge (st : store) (v c : ident) : Prop := c ∈ prev_of st v.

Definition reachable (st : store) (root v : ident) : Prop := rtc (edge st) root v.

Definition acyclic (st : store) : Prop := ∀ v, ¬ tc (edge st) v v.

(** [x] occurs in [l] before an occurrence of [y]. *)
Definition before {A : Type} (x y : A) (l : list A) : Prop :=
  ∃ l1 l2, l = l1 ++ y :: l2 ∧ x ∈ l1.

(** State of the traversal: duplicate-free post-order list inside the
    visited set, every operand of a listed node listed earlier. *)
Definition post_inv (st : store) (s : list ident * list ident) : Prop :=
  NoDup s.2 ∧ (∀ x, x ∈ s.2 → x ∈ s.1) ∧
  (∀ l1 x l2, s.2 = l1 ++ x :: l2 → ∀ c, edge st x c → c ∈ l1).

(** Nodes entered but not yet appended: the recursion stack. *)
Definition pending (s : list ident * list ident) (x : ident) : Prop :=
  x ∈ s.1 ∧ x ∉ s.2.

(** Number of objects of the heap not yet visited: bounds the recursion
    depth of the traversal. *)
Definition unvisited (st : store) (visited : list ident) : nat :=
  length (filter (λ x, x ∉ visited) (seq 0 (length st))).

(** What one call of [build_topo] guarantees. *)
Definition visit_post (st : store) (v : ident)
    (s s' : list ident * list ident) : Prop :=
  post_inv st s' ∧ v ∈ s'.2 ∧
  (∃ new, s'.2 = s.2 ++ new ∧
          ∀ x, x ∈ new → reachable st v x ∧ x ∉ s.1) ∧
  (∀ x, pending s' x → pending s x) ∧
  (∀ x, x ∈ s.1 → x ∈ s'.1).

(** ** Well-formed heaps *)

(** No dangling operand. *)
Definition closed (st : store) : Prop := ∀ v c, edge st v c → c < length st.

(** Operands are allocated before their consumers: what the constructors
    of [Value] maintain. *)
Definition arena (st : store) : Prop := ∀ v c, edge st v c → c < v.

(** The node a closure was created for ([out]). *)
Definition closure_out (c : closure) : option ident :=
  match c with
  | bw_none => None
  | bw_add _ _ out | bw_mul _ _ out | bw_truediv _ _ out | bw_pow _ _ out
  | bw_relu _ out | bw_sigmoid _ out | bw_tanh _ out
  | bw_leaky_relu _ _ out | bw_elu _ _ out | bw_exp _ out => Some out
  end.

(** The nodes whose gradient a closure writes. *)
Definition targets (c : closure) : list ident :=
  match c with
  | bw_none => []
  | bw_add self other _ | bw_mul self other _ | bw_pow self other _ =>
      [self; other]
  | bw_truediv self (Ref other) _ => [self; other]
  | bw_truediv _ (Num _) _ => []
  | bw_relu self _ | bw_sigmoid self _ | bw_tanh self _
  | bw_leaky_relu _ self _ | bw_elu _ self _ | bw_exp self _ => [self]
  end.

(** The closure of [v] is attached to [v] and writes only to nodes that are
    strictly upstream of [v]. *)
Definition closure_wf (st : store) (v : ident) (c : closure) : Prop :=
  (∀ o, closure_out c = Some o → o = v) ∧
  (∀ t, t ∈ targets c → tc (edge st) v t).

Definition closures_ok (st : store) : Prop :=
  ∀ v, closure_wf st v (backward_of st v).

Definition well_formed (st : store) : Prop :=
  acyclic st ∧ closed st ∧ closures_ok st.

(** [st'] extends [st] and differs from it on the objects of [st] in the
    [grad] fields only. *)
Definition same_graph (st st' : store) : Prop :=
  length st ≤ length st' ∧
  ∀ v, v < length st →
    data_of st' v = data_of st v ∧ prev_of st' v = prev_of st v ∧
    op_of st' v = op_of st v ∧ backward_of st' v = backward_of st v.

(** No closure of the list writes to a node at or before its own position. *)
Definition no_back_push (st : store) (l : list ident) : Prop :=
  ∀ l1 u l2, l = l1 ++ u :: l2 →
    ∀ t, t ∈ targets (backward_of st u) → (t ∉ l1) ∧ (t ≠ u).

(** The closures of the list are attached to their nodes and write in range. *)
Definition attached (st : store) (l : list ident) : Prop :=
  ∀ u, u ∈ l →
    u < length st ∧
    (∀ o, closure_out (backward_of st u) = Some o → o = u) ∧
    (∀ t, t ∈ targets (backward_of st u) → t < length st).

Open Scope R_scope.

(** ** Gradient contributions, as the table of operations gives them *)

(** Value of a float primitive when it returns one. *)
Definition value_or_0 (o : outcome R) : R :=
  match o with Ok r => r | _ => 0 end.

(** The additions a closure makes, in order: (node, amount). *)
Definition pushes (c : closure) (st : store) : list (ident * R) :=
  match c with
  | bw_none => []
  | bw_add self other out =>
      [(self, grad_of st out); (other, grad_of st out)]
  | bw_mul self other out =>
      [(self, data_of st other * grad_of st out);
       (other, data_of st self * grad_of st out)]
  | bw_truediv self (Ref other) out =>
      [(self, grad_of st out / data_of st other);
       (other, - (grad_of st out * data_of st self
                  / value_or_0 (float_pow (data_of st other) 2)))]
  | bw_truediv self (Num _) out => []
  | bw_pow self other out =>
      let a := data_of st self in
      let b := data_of st other in
      [(self, (if Req_dec_T a 0 then 0
               else b * value_or_0 (float_pow a (b - 1))) * grad_of st out);
       (other, (if Rlt_dec 0 a
                then value_or_0 (float_pow a b) * ln a
                else 0) * grad_of st out)]
  | bw_relu self out =>
      [(self, (if Rlt_dec 0 (data_of st out) then 1 else 0) * grad_of st out)]
  | bw_sigmoid self out =>
      [(self, data_of st out * (1 - data_of st out) * grad_of st out)]
  | bw_tanh self out =>
      [(self, (1 - value_or_0 (float_pow (data_of st out) 2)) * grad_of st out)]
  | bw_leaky_relu alpha self out =>
      [(self, (if Rlt_dec (data_of st self) 0 then alpha else 1)
              * grad_of st out)]
  | bw_elu alpha self out =>
      [(self, (if Rlt_dec (data_of st self) 0
               then alpha * exp (data_of st out) else 1) * grad_of st out)]
  | bw_exp self out =>
      [(self, data_of st out * grad_of st out)]
  end.

(** Total amount a list of additions gives to node [t]. *)
Fixpoint amount (ps : list (ident * R)) (t : ident) : R :=
  match ps with
  | [] => 0
  | p :: ps' => (if decide (p.1 = t) then p.2 else 0) + amount ps' t
  end.

(** What the closure [c], called on [st], adds to the gradient of [t]. *)
Definition push (c : closure) (st : store) (t : ident) : R :=
  amount (pushes c st) t.

(** Sum of what the closures of the nodes of [l] add to [t], each called
    with the gradients of [st]. *)
Fixpoint pushed (l : list ident) (st : store) (t : ident) : R :=
  match l with
  | [] => 0
  | v :: l' => push (backward_of st v) st t + pushed l' st t
  end.

Close Scope R_scope.

(** A leaf object, as [Value(x)] builds it. *)
Definition leaf (x : R) : Value := mkValue x 0 bw_none [] OpLeaf.

(** ** Iteration orders *)

(** Sets iterated in the order of the tuple they were built from. *)
Definition tuple_order : ident → list ident → list ident := λ _ l, l.

(** The iteration order given node by node by a table. *)
Definition order_table (tbl : list (list ident)) : ident → list ident → list ident :=
  λ v _, nth v tbl [].

(** ** Test scenarios *)

Open Scope R_scope.

(** [a = Value(x); b = Value(y); c = a / b] *)
Definition div_program (x y : R) : M ident :=
  let* a := Value_init x [] OpLeaf in
  let* b := Value_init y [] OpLeaf in
  __truediv__ a (Ref b).

Close Scope R_scope.

(** The heap after the additions [ps] (node, amount), made in order. *)
Definition accumulate (ps : list (ident * R)) (st : store) : store :=
  foldl (λ s p, set_grad p.1 (grad_of s p.1 + p.2)%R s) st ps.

Open Scope R_scope.

(** [a = Value(x); c = a ** y] *)
Definition pow_program (x y : R) : M ident :=
  let* a := Value_init x [] OpLeaf in
  __pow__ a (Num y).

Close Scope R_scope.

Open Scope R_scope.

(** [a = Value(x); c = a.elu(alpha)] *)
Definition elu_program (x alpha : R) : M ident :=
  let* a := Value_init x [] OpLeaf in
  elu a alpha.

Close Scope R_scope.

Open Scope R_scope.

(** [a = Value(v); c = a / x] with a raw number [x] *)
Definition div_raw_program (v x : R) : M ident :=
  let* a := Value_init v [] OpLeaf in
  __truediv__ a (Num x).

Close Scope R_scope.

(** The number an operand stands for, and whether it is an object of the heap. *)
Definition operand_value (st : store) (other : operand) : R :=
  match other with
  | Num x => x
  | Ref o => data_of st o
  end.

Definition operand_in (st : store) (other : operand) : Prop :=
  match other with
  | Num _ => True
  | Ref o => o < length st
  end.

Open Scope R_scope.

(** [a = Value(x); c = a.exp()] *)
Definition exp_program (x : R) : M ident :=
  let* a := Value_init x [] OpLeaf in
  exp_ a.

Close Scope R_scope.

(** ** Stability of heap properties *)

(** Computations that change, on the existing objects, gradients only. *)
Definition frames {A : Type} (m : M A) : Prop :=
  ∀ st o st', m st = (o, st') → same_graph st st'.

(** Computations under which a property of the heap is stable. *)
Definition preserves {A : Type} (P : store → Prop) (m : M A) : Prop :=
  ∀ st o st', P st → m st = (o, st') → P st'.

(** Well formed, with node [n] allocated. *)
Definition wf_with (n : ident) (st : store) : Prop :=
  well_formed st ∧ n < length st.


Open Scope R_scope.

(** [x = Value(3); p = x * 2; q = x + 1; r = p * q]: [x] is used twice. *)
Definition diamond_program : M ident :=
  let* x := Value_init 3 [] OpLeaf in
  let* p := __mul__ x (Num 2) in
  let* q := __add__ x (Num 1) in
  __mul__ p (Ref q).

(** The heap it builds. *)
Definition diamond_heap : store :=
  [leaf 3; leaf 2;
   mkValue (3 * 2) 0 (bw_mul 0 1 2) [0; 1]%nat OpMul;
   leaf 1;
   mkValue (3 + 1) 0 (bw_add 0 3 4) [0; 3]%nat OpAdd;
   mkValue (3 * 2 * (3 + 1)) 0 (bw_mul 2 4 5) [2; 4]%nat OpMul].

(** [a = Value(1); b = a * 2; c = b * 3] *)
Definition chain_program : M ident :=
  let* a := Value_init 1 [] OpLeaf in
  let* b := __mul__ a (Num 2) in
  __mul__ b (Num 3).

(** The heap it builds. *)
Definition chain_heap : store :=
  [leaf 1; leaf 2;
   mkValue (1 * 2) 0 (bw_mul 0 1 2) [0; 1]%nat OpMul;
   leaf 3;
   mkValue (1 * 2 * 3) 0 (bw_mul 2 3 4) [2; 3]%nat OpMul].

Close Scope R_scope.

Open Scope R_scope.

(** The heap after [sigmoid] or [tanh]: the leaf [k], the product
    [self * k], its exponential, and the output node [n]. *)
Definition with_activation (st : store) (self : ident) (k e : R) (n : Value)
    : store :=
  st ++ [leaf k;
         mkValue (data_of st self * k) 0
           (bw_mul self (length st) (S (length st))) [self; length st] OpMul;
         mkValue e 0 (bw_exp (S (length st)) (length st + 2)%nat)
           [S (length st)] OpExp;
         n].

Close Scope R_scope.
Close Scope R_scope.

(** * Path sums: what a backward pass computes *)

Open Scope R_scope.

(** Sum of a list of reals. *)
Fixpoint Rsum (l : list R) : R :=
  match l with
  | [] => 0
  | x :: l' => x + Rsum l'
  end.

(** What the closure [c] adds to its targets when the gradient of its
    [out] node is 1: the local partial derivatives, as the code computes them. *)
Definition unit_pushes (c : closure) (st : store) : list (ident * R) :=
  match closure_out c with
  | Some o => pushes c (set_grad o 1 st)
  | None => []
  end.

(** The local partial derivatives of node [v]. *)
Definition partials (st : store) (v : ident) : list (ident * R) :=
  unit_pushes (backward_of st v) st.

(** Sum, over the paths from [v] to [t], of the products of the local
    partial derivatives along the path. *)
Fixpoint path_sum (fuel : nat) (st : store) (v t : ident) : R :=
  match fuel with
  | O => 0
  | S fuel' =>
      if decide (v = t) then 1
      else Rsum ((λ p, p.2 * path_sum fuel' st p.1 t) <$> partials st v)
  end.

(** Operands precede their consumers, so a path from [v] has at most
    [v] edges. *)
Definition deriv (st : store) (v t : ident) : R := path_sum (S v) st v t.

Close Scope R_scope.

(** Every closure writes to older nodes only. *)
Definition upstream (st : store) : Prop :=
  ∀ v t, t ∈ targets (backward_of st v) → t < v.

(** The heaps the operations of [Value] build. *)
Definition built (st : store) : Prop := arena st ∧ closures_ok st.

(** No gradient is pending on a node that has a closure. *)
Definition clean (st : store) : Prop :=
  ∀ u, u < length st → backward_of st u ≠ bw_none → grad_of st u = 0%R.

Close Scope R_scope.

(** The closure [c] returns when it is called on [st]. *)
Definition returns (c : closure) (st : store) : Prop :=
  (call_backward c st).1 = Ok tt.

(** The closures whose body has no partial operation. *)
Definition never_raises (c : closure) : bool :=
  match c with
  | bw_none | bw_add _ _ _ | bw_mul _ _ _ | bw_relu _ _ | bw_sigmoid _ _
  | bw_leaky_relu _ _ _ | bw_exp _ _ => true
  | bw_truediv _ _ _ | bw_pow _ _ _ | bw_tanh _ _ | bw_elu _ _ _ => false
  end.

Close Scope R_scope.

(** A heap on which [backward] can be called: built by the operations, no
    gradient pending on a node that has a closure, and no closure that
    raises. *)
Definition ready (st : store) : Prop :=
  built st ∧ clean st ∧ ∀ u, u < length st → returns (backward_of st u) st.

Close Scope R_scope.

(** * NeuralNetwork.py *)

(** ** The state of the module: the heap of [Value] objects and the number
    of draws made from [random] *)

Record world := mkWorld {
  heap : store;
  drawn : nat
}.

(** An evaluation outside the class [Value] ends as an evaluation of the
    engine does, or with a [TypeError]: that of iterating over a [Value],
    or that of an operator which the class does not define. *)
Inductive net_outcome (A : Type) :=
  | Engine (o : outcome A)
  | TypeError.
Arguments Engine {A} o.
Arguments TypeError {A}.

Definition N (A : Type) : Type := world → net_outcome A * world.

Definition nret {A : Type} (a : A) : N A := λ w, (Engine (Ok a), w).

Definition nbind {A B : Type} (m : N A) (k : A → N B) : N B :=
  λ w,
    match m w with
    | (Engine (Ok a), w') => k a w'
    | (Engine (Raise e), w') => (Engine (Raise e), w')
    | (Engine Complex, w') => (Engine Complex, w')
    | (TypeError, w') => (TypeError, w')
    end.

(** ** Operators with a raw number on the left *)

Inductive binop := Plus | Times | Minus | Over | Power.

(** The outcome of an evaluation of the engine, seen from outside. *)
Definition in_engine {A : Type} (r : outcome A * store)
    : net_outcome A * store :=
  (Engine r.1, r.2).

(** [x op v] for a raw number [x] and a [Value] object [v]. The method of
    the number does not know [Value] and returns [NotImplemented]; Python
    then calls the reflected method of [Value] when the class defines it
    ([__radd__], [__rmul__]) and raises [TypeError] when it does not (there
    is no [__rsub__], [__rtruediv__] or [__rpow__]). *)
Definition reflected (op : binop) (x : R) (v : ident)
    : store → net_outcome ident * store :=
  λ st,
    match op with
    | Plus => in_engine (__radd__ v (Num x) st)
    | Times => in_engine (__rmul__ v (Num x) st)
    | Minus | Over | Power => (TypeError, st)
    end.

(** An evaluation of the engine, on the heap of the world. *)
Definition engine {A : Type} (m : M A) : N A :=
  λ w, let (o, st') := m (heap w) in (Engine o, mkWorld st' (drawn w)).

Notation "'let!' x ':=' m 'in' k" := (nbind m (λ x, k))
  (at level 10, x pattern, m at level 100, k at level 200).

(** [[f(x) for x in l]] *)
Fixpoint mapN {A B : Type} (f : A → N B) (l : list A) : N (list B) :=
  match l with
  | [] => nret []
  | x :: l' =>
      let! y := f x in
      let! ys := mapN f l' in
      nret (y :: ys)
  end.

(** [for x in l: s = body(x, s)] *)
Fixpoint forN {A S : Type} (l : list A) (body : A → S → N S) (s : S) : N S :=
  match l with
  | [] => nret s
  | x :: l' => let! s' := body x s in forN l' body s'
  end.

(** [range(n)]: empty when [n] is negative. *)
Definition range (n : Z) : list nat := seq 0 (Z.to_nat n).

(** [for x in l: body(x)] in the engine. *)
Fixpoint for_in {A : Type} (l : list A) (body : A → M unit) : M unit :=
  match l with
  | [] => ret tt
  | x :: l' => body x;;; for_in l' body
  end.

(** ** class Module *)

(** The method [parameters], which every subclass overrides. *)
Class Module_ (T : Type) := parameters : T → list ident.

(** [Module.zero_grad] *)
Definition zero_grad {T : Type} `{Module_ T} (self : T) : M unit :=
  for_in (parameters self) (λ p, modify (set_grad p 0%R)).

(** An object of the base class. *)
Inductive BaseModule := mkModule.

#[global] Instance BaseModule_parameters : Module_ BaseModule := λ _, [].

(** ** class Neuron *)

Record Neuron := mkNeuron {
  weights : list ident;
  bias : ident;
  nonlin : bool
}.

(** The argument [x] of a call: a list of numbers or [Value] objects, or a
    single [Value] object (what a layer of one neuron returns). *)
Inductive input :=
  | Items (xs : list operand)
  | Single (v : ident).

(** [sum((w * xi for w, xi in zip(ws, xs)), acc)]: the products are made
    and added one pair at a time, until either list ends. *)
Fixpoint sum_products (ws : list ident) (xs : list operand) (acc : ident)
    : M ident :=
  match ws, xs with
  | w :: ws', xi :: xs' =>
      let* p := __mul__ w xi in
      let* acc' := __add__ acc (Ref p) in
      sum_products ws' xs' acc'
  | _, _ => ret acc
  end.

(** [Neuron.__call__]; [zip] raises on a [Value], which is not iterable. *)
Definition Neuron_call (self : Neuron) (x : input) : N ident :=
  match x with
  | Single _ => λ w, (TypeError, w)
  | Items xs =>
      let! activation := engine (sum_products (weights self) xs (bias self)) in
      if nonlin self then engine (relu activation) else nret activation
  end.

#[global] Instance Neuron_parameters : Module_ Neuron :=
  λ self, weights self ++ [bias self].

(** ** class Layer *)

Record Layer := mkLayer {
  neurons : list Neuron
}.

(** [Layer.__call__] *)
Definition Layer_call (self : Layer) (x : input) : N input :=
  let! outputs := mapN (λ neuron, Neuron_call neuron x) (neurons self) in
  nret (match outputs with
        | [o] => Single o
        | _ => Items (Ref <$> outputs)
        end).

#[global] Instance Layer_parameters : Module_ Layer :=
  λ self, concat ((λ neuron, parameters neuron) <$> neurons self).

(** ** class MLP *)

Record MLP := mkMLP {
  layers : list Layer
}.

(** [MLP.__call__] *)
Definition MLP_call (self : MLP) (x : input) : N input :=
  forN (layers self) (λ layer x, Layer_call layer x) x.

#[global] Instance MLP_parameters : Module_ MLP :=
  λ self, concat ((λ layer, parameters layer) <$> layers self).

(** ** The constructors *)

Section Constructors.

(** The numbers that the calls of [random.uniform(-1, 1)] return, in order. *)
Variable uniform : nat → R.

Definition random_uniform : N R :=
  λ w, (Engine (Ok (uniform (drawn w))), mkWorld (heap w) (S (drawn w))).

(** [Neuron.__init__] *)
Definition Neuron_init (input_size : Z) (nonlin : bool) : N Neuron :=
  let! ws := mapN (λ _, let! u := random_uniform in
                        engine (Value_init u [] OpLeaf))
                  (range input_size) in
  let! b := engine (Value_init 0%R [] OpLeaf) in
  nret (mkNeuron ws b nonlin).

(** [Layer.__init__]; [kwargs] is the optional keyword [nonlin], which
    [Neuron.__init__] defaults to [True]. *)
Definition Layer_init (input_size output_size : Z) (kwargs : option bool)
    : N Layer :=
  let! ns := mapN (λ _, Neuron_init input_size (default true kwargs))
                  (range output_size) in
  nret (mkLayer ns).

(** [MLP.__init__] *)
Definition MLP_init (input_size : Z) (layer_sizes : list Z) : N MLP :=
  let sizes := input_size :: layer_sizes in
  let! ls :=
    forN (range (Z.of_nat (length layer_sizes)))
      (λ i ls,
         let! layer :=
           Layer_init (sizes !!! i) (sizes !!! S i)
             (Some (bool_decide (Z.of_nat i ≠ Z.of_nat (length layer_sizes) - 1)%Z)) in
         nret (ls ++ [layer]))
      [] in
  nret (mkMLP ls).

End Constructors.

(** ** What a neuron computes *)

Open Scope R_scope.

(** The sum [b + w1 * x1 + ...] over the pairs of [zip(ws, xs)], from the
    values of the heap [st]. *)
Definition weighted_sum (st : store) (ws : list ident) (xs : list operand)
    (b : R) : R :=
  foldl (λ a p, a + data_of st p.1 * operand_value st p.2) b (zip ws xs).

(** Path sums from an operand: a raw number depends on nothing. *)
Definition operand_deriv (st : store) (x : operand) (t : ident) : R :=
  match x with
  | Num _ => 0
  | Ref v => deriv st v t
  end.

(** Path sums from the weighted sum. *)
Definition weighted_sum_deriv (st : store) (ws : list ident)
    (xs : list operand) (t : ident) : R :=
  Rsum ((λ p, operand_value st p.2 * deriv st p.1 t
              + data_of st p.1 * operand_deriv st p.2 t) <$> zip ws xs).

(** The value of [relu] on [pre] when [nonlin] is set. *)
Definition activation_of (nonlin : bool) (pre : R) : R :=
  if nonlin then (if Rlt_dec pre 0 then 0 else pre) else pre.

(** The factor the closure of [relu] applies when [nonlin] is set. *)
Definition gate_of (nonlin : bool) (pre : R) : R :=
  if nonlin then (if Rlt_dec 0 pre then 1 else 0) else 1.

Close Scope R_scope.

(** The parameters of a module are objects of the heap. *)
Definition allocated {T : Type} `{Module_ T} (self : T) (st : store) : Prop :=
  Forall (λ p, p < length st) (parameters self).

(** An argument made of numbers and objects of the heap. *)
Definition input_in (st : store) (x : input) : Prop :=
  match x with
  | Items xs => Forall (operand_in st) xs
  | Single v => v < length st
  end.

(** The weights of a network, in the order of [parameters()], and its
    biases. *)
Definition all_weights (self : MLP) : list ident :=
  layers self ≫= (λ layer, neurons layer ≫= weights).

Definition all_biases (self : MLP) : list ident :=
  layers self ≫= (λ layer, bias <$> neurons layer).

(** The objects [cells] are those of the heap [st] from index [base] on. *)
Definition placed (st : store) (base : nat) (cells : store) : Prop :=
  ∀ i c, cells !! i = Some c → st !! (base + i) = Some c.

(** The number of neurons of each layer. *)
Definition widths (self : MLP) : list nat :=
  (λ layer, length (neurons layer)) <$> layers self.

(** Whether a call meets a layer with neurons while its argument is a
    single [Value]; [single] tells whether the argument is one now. *)
Fixpoint meets_single (single : bool) (ws : list nat) : bool :=
  match ws with
  | [] => false
  | k :: ws' =>
      if single then
        match k with O => meets_single false ws' | S _ => true end
      else meets_single (bool_decide (k = 1)) ws'
  end.

Close Scope R_scope.

(** ** What the constructors build *)

Section Built.

Variable uniform : nat → R.

(** The objects [Neuron.__init__] allocates after [d] draws: the [k]
    weights, then the bias. *)
Definition neuron_cells (d k : nat) : store :=
  ((λ j, leaf (uniform j)) <$> seq d k) ++ [leaf 0%R].

(** The neuron built on a heap of [base] objects. *)
Definition neuron_at (base k : nat) (nonlin : bool) : Neuron :=
  mkNeuron (seq base k) (base + k) nonlin.

(** The same for the [m] neurons of a layer. *)
Fixpoint layer_cells (d k m : nat) : store :=
  match m with
  | O => []
  | S m' => neuron_cells d k ++ layer_cells (d + k) k m'
  end.

Fixpoint neurons_at (base k m : nat) (nonlin : bool) : list Neuron :=
  match m with
  | O => []
  | S m' => neuron_at base k nonlin :: neurons_at (base + k + 1) k m' nonlin
  end.

(** The same for the layers of a network of architecture [arch]. *)
Fixpoint network_cells (d : nat) (arch : list (Z * Z * bool)) : store :=
  match arch with
  | [] => []
  | (k, m, _) :: rest =>
      layer_cells d (Z.to_nat k) (Z.to_nat m)
      ++ network_cells (d + Z.to_nat m * Z.to_nat k) rest
  end.

(** A leaf holding 0 (a bias) or a draw (a weight). *)
Definition fresh_cell (c : Value) : Prop :=
  ∃ x, c = leaf x ∧ (x = 0%R ∨ ∃ j, x = uniform j).

End Built.

Fixpoint layers_at (base : nat) (arch : list (Z * Z * bool)) : list Layer :=
  match arch with
  | [] => []
  | (k, m, nl) :: rest =>
      mkLayer (neurons_at base (Z.to_nat k) (Z.to_nat m) nl)
      :: layers_at (base + Z.to_nat m * (Z.to_nat k + 1)) rest
  end.

(** The number of draws the construction makes: one for each weight. *)
Fixpoint weight_count (arch : list (Z * Z * bool)) : nat :=
  match arch with
  | [] => 0
  | (k, m, _) :: rest => Z.to_nat m * Z.to_nat k + weight_count rest
  end.

(** The layers [MLP.__init__] asks for: input size, output size and
    [nonlin] of each, the last one being linear. *)
Fixpoint architecture (input_size : Z) (layer_sizes : list Z)
    : list (Z * Z * bool) :=
  match layer_sizes with
  | [] => []
  | m :: rest =>
      (input_size, m, bool_decide (rest ≠ [])) :: architecture m rest
  end.

(** The number of parameters of a network of that architecture. *)
Fixpoint parameter_count (arch : list (Z * Z * bool)) : nat :=
  match arch with
  | [] => 0
  | (k, m, _) :: rest => Z.to_nat m * (Z.to_nat k + 1) + parameter_count rest
  end.

Close Scope R_scope.

(** An evaluation that leaves the objects of [st] as they are and appends
    to them; when it returns, its result is the last object appended, with
    gradient 0, and a heap that was built by the operations still is. *)
Definition appends (m : M ident) (st : store) : Prop :=
  ∃ ext, (m st).2 = st ++ ext ∧
    ∀ out, (m st).1 = Ok out →
      S out = length (st ++ ext) ∧ length st ≤ out ∧
      grad_of (st ++ ext) out = 0%R ∧
      (built st → built (st ++ ext)).

Close Scope R_scope.

Open Scope R_scope.

(** [a = Value(x); b = a ** 2 + 1; c = b.relu(); d = c * 3], the graph of
    [test_chain_rule]. *)
Definition chain_rule_program (x : R) : M ident :=
  let* a := Value_init x [] OpLeaf in
  let* p := __pow__ a (Num 2) in
  let* b := __add__ p (Num 1) in
  let* c := relu b in
  __mul__ c (Num 3).

(** The heap it builds. *)
Definition chain_rule_heap (x : R) : store :=
  [leaf x; leaf 2;
   mkValue (x * x) 0 (bw_pow 0 1 2) [0; 1]%nat OpPow;
   leaf 1;
   mkValue (x * x + 1) 0 (bw_add 2 3 4) [2; 3]%nat OpAdd;
   mkValue (if Rlt_dec (x * x + 1) 0 then 0 else x * x + 1) 0
     (bw_relu 4 5) [4]%nat OpReLU;
   leaf 3;
   mkValue ((if Rlt_dec (x * x + 1) 0 then 0 else x * x + 1) * 3) 0
     (bw_mul 5 6 7) [5; 6]%nat OpMul].

Close Scope R_scope.


(** * Facts *)

(** ** Lists *)

Lemma NoDup_split_unique {A : Type} (x : A) (l1 l2 k1 k2 : list A) :
  NoDup (l1 ++ x :: l2) → l1 ++ x :: l2 = k1 ++ x :: k2 → l1 = k1.
Proof.
  revert k1. induction l1 as [|a l1 IH]; intros k1 Hnd Heq.
  - destruct k1 as [|b k1]; [done|]. simplify_eq/=.
    apply NoDup_cons in Hnd as [Hx _]. exfalso. apply Hx. set_solver.
  - destruct k1 as [|b k1]; simplify_eq/=.
    + apply NoDup_cons in Hnd as [Hx _]. exfalso. apply Hx. set_solver.
    + f_equal. apply NoDup_cons in Hnd as [_ Hnd]. by apply IH.
Qed.

Lemma before_prefix {A : Type} (x y : A) (tr rest : list A) :
  NoDup (tr ++ rest) → before x y (tr ++ rest) → y ∈ tr → before x y tr.
Proof.
  intros Hnd (l1 & l2 & Heq & Hx) Hy.
  apply list_elem_of_split in Hy as (t1 & t2 & ->).
  exists t1, t2. split; [done|].
  rewrite <- app_assoc in Heq, Hnd. simpl in Heq, Hnd.
  by rewrite (NoDup_split_unique _ _ _ _ _ Hnd Heq).
Qed.

Lemma before_rev {A : Type} (c v : A) (l1 l2 : list A) :
  c ∈ l1 → before v c (rev (l1 ++ v :: l2)).
Proof.
  intros Hc. apply list_elem_of_split in Hc as (a & b & ->).
  exists (rev l2 ++ v :: rev b), (rev a). split.
  - rewrite !rev_app_distr. simpl. by rewrite <- !app_assoc.
  - set_solver.
Qed.

(** ** The traversal *)

Lemma for_each_not_ok {S : Type} (f : ident → S → outcome S) l o :
  (∀ s, o ≠ Ok s) → for_each f l o = o.
Proof.
  unfold for_each. induction l as [|x l IH]; intros Ho; [done|].
  simpl. destruct o; [by destruct (Ho a)|apply IH; done..].
Qed.

Lemma for_each_cons {S : Type} (f : ident → S → outcome S) x l s :
  for_each f (x :: l) (Ok s) = for_each f l (f x s).
Proof. done. Qed.

Lemma for_each_ok_inv {S : Type} (f : ident → S → outcome S) x l s s' :
  for_each f (x :: l) (Ok s) = Ok s' →
  ∃ s1, f x s = Ok s1 ∧ for_each f l (Ok s1) = Ok s'.
Proof.
  rewrite for_each_cons. destruct (f x s) as [s1| |] eqn:E.
  - eauto.
  - rewrite for_each_not_ok; done.
  - rewrite for_each_not_ok; done.
Qed.

Section Traversal.

Variable iter_order : ident → list ident → list ident.
Hypothesis iter_order_perm : ∀ v l, iter_order v l ≡ₚ l.

Lemma elem_of_children st v c :
  c ∈ children iter_order st v ↔ edge st v c.
Proof. unfold children, edge. by rewrite iter_order_perm. Qed.

Lemma build_topo_post st (Hacyc : acyclic st) fuel :
  ∀ v s s',
    post_inv st s →
    (∀ x, pending s x → tc (edge st) x v) →
    build_topo iter_order fuel st v s = Ok s' →
    visit_post st v s s'.
Proof.
  induction fuel as [|fuel IH]; intros v s s' Hinv Hpend Hrun; [done|].
  simpl in Hrun. destruct (decide (v ∈ s.1)) as [Hv|Hv].
  - (* already visited: it cannot be on the stack, so it is listed *)
    simplify_eq. split_and!; try done.
    + destruct (decide (v ∈ s'.2)) as [|Hn]; [done|].
      destruct (Hacyc v). apply Hpend. by split.
    + exists []. split; [by rewrite app_nil_r|]. intros x Hx. set_solver.
  - (* the loop over the operands *)
    assert (Hloop : ∀ cs s0 s1,
      (∀ c, c ∈ cs → edge st v c) →
      post_inv st s0 →
      (∀ x, pending s0 x → x = v ∨ tc (edge st) x v) →
      for_each (build_topo iter_order fuel st) cs (Ok s0) = Ok s1 →
      post_inv st s1 ∧ (∀ c, c ∈ cs → c ∈ s1.2) ∧
      (∃ new, s1.2 = s0.2 ++ new ∧
              ∀ x, x ∈ new → reachable st v x ∧ x ∉ s0.1) ∧
      (∀ x, pending s1 x → pending s0 x) ∧
      (∀ x, x ∈ s0.1 → x ∈ s1.1) ∧ (∀ x, x ∈ s0.2 → x ∈ s1.2)).
    { induction cs as [|c cs IHcs]; intros s0 s1 Hcs Hinv0 Hpend0 Hfold.
      - simplify_eq/=. split_and!; try done; [set_solver|].
        exists []. split; [by rewrite app_nil_r|set_solver].
      - apply for_each_ok_inv in Hfold as (sm & Hc & Hrest).
        assert (Hvc : edge st v c) by (apply Hcs; set_solver).
        apply IH in Hc as (Hinvm & Hcm & (n1 & Hn1 & Hr1) & Hpm & Hvm);
          [|done|].
        2:{ intros x Hx. destruct (Hpend0 x Hx) as [->|Hx'].
            - by apply tc_once.
            - eapply tc_r; done. }
        apply IHcs in Hrest as (Hinv1 & Hcs1 & (n2 & Hn2 & Hr2) & Hp1 & Hv1 & Ht1);
          [|set_solver|done|by intros x Hx; apply Hpend0, Hpm].
        split_and!; try done.
        + intros c' [->|Hc']%elem_of_cons; [by apply Ht1|by apply Hcs1].
        + exists (n1 ++ n2). split; [by rewrite Hn2, Hn1, app_assoc|].
          intros x [Hx|Hx]%elem_of_app.
          * destruct (Hr1 x Hx) as [Hxr Hxn]. split; [|done].
            eapply rtc_l; [exact Hvc|done].
          * destruct (Hr2 x Hx) as [Hxr Hxn]. split; [done|].
            intros Hx0. by apply Hxn, Hvm.
        + intros x Hx. by apply Hpm, Hp1.
        + intros x Hx. by apply Hv1, Hvm.
        + intros x Hx. apply Ht1. rewrite Hn1. set_solver. }
    destruct (for_each _ _ _) as [s1| |] eqn:Hfold; [|done..].
    simplify_eq/=.
    destruct Hinv as (Hnd & Hsub & Hord).
    apply Hloop in Hfold as (Hinv1 & Hcs & (new & Hnew & Hreach) & Hp1 & Hv1 & Ht1).
    2:{ intros c. by rewrite elem_of_children. }
    2:{ split_and!; simpl; [done|set_solver|done]. }
    2:{ intros x [Hx1 Hx2]. simpl in *.
        apply elem_of_cons in Hx1 as [->|Hx1]; [by left|].
        right. apply Hpend. by split. }
    assert (Hvp : v ∉ s1.2).
    { intros Hin. assert (Hpv : pending (v :: s.1, s.2) v).
      { split; simpl; [set_solver|]. intros Hv2. by apply Hv, Hsub. }
      rewrite Hnew in Hin. apply elem_of_app in Hin as [Hin|Hin].
      - by destruct Hpv.
      - destruct (Hreach v Hin) as [_ Hn]. simpl in Hn. set_solver. }
    destruct Hinv1 as (Hnd1 & Hsub1 & Hord1).
    split_and!; simpl.
    + split_and!; simpl.
      * apply NoDup_app. split_and!; [done| |apply NoDup_singleton].
        intros x Hx ->%list_elem_of_singleton. done.
      * intros x [Hx| ->%list_elem_of_singleton]%elem_of_app; [by apply Hsub1|].
        apply Hv1. simpl. set_solver.
      * intros l1 x l2 Heq c Hxc.
        destruct l2 as [|y l2 _] using rev_ind.
        -- apply app_inj_tail in Heq as [<- <-].
           apply Hcs. by apply elem_of_children.
        -- rewrite app_comm_cons, app_assoc in Heq.
           apply app_inj_tail in Heq as [Heq _].
           by eapply Hord1.
    + set_solver.
    + exists (new ++ [v]). split; [by rewrite Hnew, app_assoc|].
      intros x [Hx| ->%list_elem_of_singleton]%elem_of_app.
      * destruct (Hreach x Hx) as [? Hn]. split; [done|]. simpl in Hn. set_solver.
      * split; [apply rtc_refl|done].
    + intros x [Hx1 Hx2]. simpl in *.
      assert (Hx3 : x ∉ s1.2) by set_solver.
      destruct (Hp1 x (conj Hx1 Hx3)) as [Hx4 Hx5]. simpl in *.
      split; [|done]. set_solver.
    + intros x Hx. apply Hv1. simpl. set_solver.
Qed.

End Traversal.

(** ** Float primitives *)

Section FloatFacts.
Local Open Scope R_scope.

Lemma DBL_MAX_million : 1000000 <= DBL_MAX.
Proof. unfold DBL_MAX. apply IZR_le. apply Z.leb_le. by vm_compute. Qed.

Lemma DBL_MAX_lt_pow : DBL_MAX < 2 ^ 1024.
Proof.
  unfold DBL_MAX. change 2 with (IZR 2). rewrite pow_IZR.
  apply IZR_lt. apply Z.ltb_lt. by vm_compute.
Qed.

Lemma in_range_finite x : finite x → in_range x = Ok x.
Proof. unfold finite, in_range. intros H. by destruct (Rle_dec _ _). Qed.

Lemma in_range_overflow x : DBL_MAX < Rabs x → in_range x = Raise OverflowError.
Proof. unfold in_range. intros H. destruct (Rle_dec _ _); [lra|done]. Qed.

Lemma finite_small x : Rabs x <= 1000000 → finite x.
Proof. unfold finite. pose proof DBL_MAX_million. lra. Qed.

Lemma float_div_nonzero x y : y ≠ 0 → float_div x y = Ok (x / y).
Proof. intros H. unfold float_div. by destruct (Req_dec_T y 0). Qed.

Lemma float_div_zero x : float_div x 0 = Raise ZeroDivisionError.
Proof. unfold float_div. by destruct (Req_dec_T 0 0). Qed.

Lemma Int_part_IZR n : Int_part (IZR n) = n.
Proof. symmetry. apply Int_part_spec. lra. Qed.

Lemma powerRZ_m1 n : powerRZ (-1) n = if Z.odd n then -1 else 1.
Proof.
  assert (Hp : ∀ p, (-1) ^ Pos.to_nat p = if Z.odd (Zpos p) then -1 else 1).
  { intros [p|p|]; simpl Z.odd.
    - rewrite Pos2Nat.inj_xI. apply pow_1_odd.
    - rewrite Pos2Nat.inj_xO. apply pow_1_even.
    - rewrite Pos2Nat.inj_1. simpl. lra. }
  destruct n as [|p|p]; [done|apply Hp|].
  unfold powerRZ. rewrite Hp.
  destruct p; simpl; rewrite <- ?Rinv_opp, ?Rinv_1; lra.
Qed.

Lemma powerRZ_opp x n :
  powerRZ (- x) n = if Z.odd n then - powerRZ x n else powerRZ x n.
Proof.
  replace (- x) with (-1 * x) by lra.
  rewrite powerRZ_mult, powerRZ_m1. destruct (Z.odd n); lra.
Qed.

(** [x ** n] for an integer [n] and a non-zero base. *)
Lemma float_pow_int x n :
  x ≠ 0 → float_pow x (IZR n) = in_range (powerRZ x n).
Proof.
  intros Hx. unfold float_pow.
  destruct (Req_dec_T (IZR n) 0) as [Hn|Hn].
  - apply eq_IZR in Hn. subst. simpl. symmetry. apply in_range_finite.
    apply finite_small. rewrite Rabs_R1. lra.
  - destruct (Req_dec_T x 0) as [|_]; [done|].
    destruct (Rlt_dec 0 x) as [Hpos|Hneg].
    + by rewrite <- powerRZ_Rpower.
    + unfold is_integer. rewrite Int_part_IZR.
      destruct (Req_dec_T (IZR n) (IZR n)) as [_|]; [|done].
      f_equal. rewrite <- powerRZ_Rpower by lra.
      rewrite powerRZ_opp. destruct (Z.odd n); lra.
Qed.

Lemma float_pow_zero_neg y : y < 0 → float_pow 0 y = Raise ZeroDivisionError.
Proof.
  intros Hy. unfold float_pow.
  destruct (Req_dec_T y 0); [lra|].
  destruct (Req_dec_T 0 0); [|done].
  by destruct (Rlt_dec y 0).
Qed.

Lemma float_pow_neg1 y : y ≠ 0 → finite (/ y) → float_pow y (-1) = Ok (/ y).
Proof.
  intros Hy Hf. rewrite (float_pow_int y (-1)) by done.
  simpl. rewrite Rmult_1_r. by apply in_range_finite.
Qed.

Lemma float_pow_2 y : finite (y * y) → float_pow y 2 = Ok (y * y).
Proof.
  intros Hf. destruct (Req_dec_T y 0) as [->|Hy].
  - unfold float_pow. destruct (Req_dec_T 2 0); [lra|].
    destruct (Req_dec_T 0 0); [|done]. destruct (Rlt_dec 2 0); [lra|].
    f_equal. lra.
  - rewrite (float_pow_int y 2) by done. simpl. rewrite Rmult_1_r.
    by apply in_range_finite.
Qed.

Lemma float_pow_neg2 y :
  y ≠ 0 → finite (/ (y * y)) → float_pow y (-1 - 1) = Ok (/ (y * y)).
Proof.
  intros Hy Hf. replace (-1 - 1) with (IZR (-2)) by lra.
  rewrite float_pow_int by done. simpl. rewrite Rmult_1_r.
  by apply in_range_finite.
Qed.

Lemma finite_inv_of_sq y : y ≠ 0 → finite (/ (y * y)) → finite (/ y).
Proof.
  unfold finite. intros Hy Hf.
  rewrite Rabs_inv in *. rewrite Rabs_mult in Hf.
  assert (H0 : 0 < Rabs y) by by apply Rabs_pos_lt.
  destruct (Rle_dec 1 (Rabs y)) as [H1|H1].
  - pose proof DBL_MAX_million.
    assert (/ Rabs y <= 1); [|lra].
    rewrite <- Rinv_1. apply Rinv_le_contravar; lra.
  - etrans; [|exact Hf]. apply Rinv_le_contravar; nra.
Qed.

Lemma exp_INR n : exp (INR n) = exp 1 ^ n.
Proof.
  induction n as [|n IH]; [simpl; apply exp_0|].
  rewrite S_INR, exp_plus, IH. simpl. lra.
Qed.

Lemma exp_1_gt_2 : 2 < exp 1.
Proof. pose proof (exp_ineq1 1). lra. Qed.

(** [math.exp] overflows well before 2000. *)
Lemma exp_overflow x : 2000 <= x → DBL_MAX < exp x.
Proof.
  intros Hx. apply Rlt_le_trans with (exp 2000).
  - replace 2000 with (INR 2000) by (rewrite INR_IZR_INZ; f_equal).
    rewrite exp_INR.
    apply Rlt_le_trans with (2 ^ 2000).
    + eapply Rlt_trans; [apply DBL_MAX_lt_pow|].
      apply Rlt_pow; [lra|lia].
    + apply pow_incr. pose proof exp_1_gt_2. lra.
  - destruct Hx as [Hx| <-]; [|lra]. left. by apply exp_increasing.
Qed.

Lemma exp_neg_lt_1 x : x < 0 → exp x < 1.
Proof. intros Hx. pose proof (exp_increasing x 0 Hx) as H. by rewrite exp_0 in H. Qed.

Lemma math_exp_finite x : finite (exp x) → math_exp x = Ok (exp x).
Proof.
  intros Hf. unfold math_exp. destruct (Rle_dec _ _); [|done].
  by apply in_range_finite.
Qed.

(** A real beyond the double range stands for an infinity. *)
Lemma math_exp_infinite x : ¬ finite x → math_exp x = Ok (exp x).
Proof. unfold math_exp, finite. intros Hx. by destruct (Rle_dec _ _). Qed.

Lemma math_exp_range x :
  finite x → ¬ finite (exp x) → math_exp x = Raise OverflowError.
Proof.
  unfold math_exp, finite. intros Hx Hf. destruct (Rle_dec _ _); [|done].
  apply in_range_overflow. lra.
Qed.

Lemma math_exp_overflow x :
  2000 <= x → x <= DBL_MAX → math_exp x = Raise OverflowError.
Proof.
  intros Hx Hm. apply math_exp_range.
  - unfold finite. rewrite Rabs_pos_eq; lra.
  - unfold finite. rewrite Rabs_pos_eq by (left; apply exp_pos).
    pose proof (exp_overflow x Hx). lra.
Qed.

Lemma math_exp_nonpos x : x <= 0 → math_exp x = Ok (exp x).
Proof.
  intros Hx. apply math_exp_finite, finite_small.
  rewrite Rabs_pos_eq by (left; apply exp_pos).
  assert (exp x <= 1); [|lra].
  rewrite <- exp_0. destruct Hx as [Hx| ->]; [|lra]. left. by apply exp_increasing.
Qed.

End FloatFacts.

Lemma filter_notin_mono (vis vis' l : list ident) :
  (∀ x, x ∈ vis → x ∈ vis') →
  length (filter (λ x, x ∉ vis') l) ≤ length (filter (λ x, x ∉ vis) l).
Proof.
  intros Hsub. induction l as [|a l IH]; [done|].
  rewrite !filter_cons. repeat case_decide; simpl; try lia.
  exfalso. naive_solver.
Qed.

Lemma filter_notin_cons (vis l : list ident) (v : ident) :
  v ∈ l → v ∉ vis →
  length (filter (λ x, x ∉ v :: vis) l) < length (filter (λ x, x ∉ vis) l).
Proof.
  intros Hv Hn. induction l as [|a l IH]; [by apply elem_of_nil in Hv|].
  rewrite !filter_cons. apply elem_of_cons in Hv as [<-|Hv].
  - rewrite decide_False, decide_True by set_solver. simpl.
    pose proof (filter_notin_mono vis (v :: vis) l). 
    assert (∀ x, x ∈ vis → x ∈ v :: vis) by set_solver. naive_solver lia.
  - specialize (IH Hv). repeat case_decide; simpl; try lia.
    exfalso. set_solver.
Qed.

Lemma unvisited_mono st vis vis' :
  (∀ x, x ∈ vis → x ∈ vis') → unvisited st vis' ≤ unvisited st vis.
Proof. apply filter_notin_mono. Qed.

Lemma unvisited_cons st vis v :
  v < length st → v ∉ vis → unvisited st (v :: vis) < unvisited st vis.
Proof.
  intros Hv Hn. apply filter_notin_cons; [|done].
  apply elem_of_seq. lia.
Qed.

Lemma prev_of_out_of_range (st : store) v : length st ≤ v → prev_of st v = [].
Proof.
  intros Hv. unfold prev_of. by rewrite list_lookup_total_alt, lookup_ge_None_2.
Qed.

Section TraversalTotal.

Variable iter_order : ident → list ident → list ident.
Hypothesis iter_order_perm : ∀ v l, iter_order v l ≡ₚ l.

(** The traversal terminates on every heap, cyclic or not: a recursion
    depth above the number of unvisited objects is never used up. *)
Lemma build_topo_total st fuel :
  ∀ v s, unvisited st s.1 < fuel →
    ∃ s', build_topo iter_order fuel st v s = Ok s' ∧ ∀ x, x ∈ s.1 → x ∈ s'.1.
Proof.
  induction fuel as [|fuel IH]; intros v s Hfuel; [lia|].
  simpl. destruct (decide (v ∈ s.1)) as [Hv|Hv]; [by exists s|].
  assert (Hloop : ∀ cs s0, unvisited st s0.1 < fuel →
    ∃ s1, for_each (build_topo iter_order fuel st) cs (Ok s0) = Ok s1 ∧
          ∀ x, x ∈ s0.1 → x ∈ s1.1).
  { induction cs as [|c cs IHcs]; intros s0 H0; [by exists s0|].
    destruct (IH c s0 H0) as (sm & Hc & Hsub).
    destruct (IHcs sm) as (s1 & Hrest & Hsub1).
    { pose proof (unvisited_mono st _ _ Hsub). lia. }
    exists s1. rewrite for_each_cons, Hc. split; [done|].
    intros x Hx. by apply Hsub1, Hsub. }
  destruct (decide (v < length st)) as [Hlt|Hge].
  - destruct (Hloop (children iter_order st v) (v :: s.1, s.2)) as (s1 & -> & Hsub).
    { pose proof (unvisited_cons st _ _ Hlt Hv). cbn [fst]. lia. }
    eexists. split; [done|]. simpl. intros x Hx. apply Hsub. simpl. set_solver.
  - unfold children. rewrite prev_of_out_of_range by lia.
    pose proof (iter_order_perm v []) as ->%Permutation_nil_r.
    simpl. eexists. split; [done|]. simpl. set_solver.
Qed.

Lemma build_topo_last st fuel v s s' :
  v ∉ s.1 → build_topo iter_order fuel st v s = Ok s' → ∃ l, s'.2 = l ++ [v].
Proof.
  destruct fuel as [|fuel]; [done|]. simpl. intros Hv.
  rewrite decide_False by done.
  destruct (for_each _ _ _) as [s1| |]; [|done..].
  intros [= <-]. by exists s1.2.
Qed.

(** The list built from the root: each reachable node once, operands
    before their consumers, the root last. *)
Lemma build_topo_root st fuel root s :
  acyclic st →
  build_topo iter_order fuel st root ([], []) = Ok s →
  NoDup s.2 ∧ (∀ x, x ∈ s.2 ↔ reachable st root x) ∧
  (∀ l1 x l2, s.2 = l1 ++ x :: l2 → ∀ c, edge st x c → c ∈ l1) ∧
  (∃ l, s.2 = l ++ [root]).
Proof.
  intros Hacyc Hrun.
  assert (Hlast : ∃ l, s.2 = l ++ [root]).
  { eapply build_topo_last; [|exact Hrun]. simpl. apply not_elem_of_nil. }
  apply (build_topo_post iter_order iter_order_perm st Hacyc) in Hrun
    as ((Hnd & Hsub & Hord) & Hroot & (new & Hnew & Hreach) & _ & _).
  - split_and!; [done| |done|done].
    intros x. split.
    + rewrite Hnew. simpl. intros Hx. by apply Hreach.
    + intros Hx. revert x Hx. apply rtc_ind_r; [done|].
      intros y z Hxy Hyz IHx.
      apply list_elem_of_split in IHx as (l1 & l2 & Heq).
      rewrite Heq. specialize (Hord _ _ _ Heq _ Hyz). set_solver.
  - split_and!; simpl; [apply NoDup_nil_2|done|].
    intros l1 x l2 Heq. by destruct l1.
  - intros x [Hx _]. by apply elem_of_nil in Hx.
Qed.

End TraversalTotal.

(** ** The loop over the reversed list *)

Lemma run_backward_trace fuel l : ∀ st tr o st',
  run_backward fuel l st = (tr, o, st') →
  ∃ rest, l = tr ++ rest ∧ (o = Ok tt → rest = []).
Proof.
  induction l as [|v l IH]; intros st tr o st' Hrun; simpl in Hrun.
  - simplify_eq. by exists [].
  - destruct (call_closure _ _ _) as [[[]| |] st1] eqn:Hc.
    + destruct (run_backward fuel l st1) as [[tr1 o1] st2] eqn:Hr. simplify_eq.
      destruct (IH _ _ _ _ Hr) as (rest & -> & Hrest). by exists rest.
    + simplify_eq. by exists l.
    + simplify_eq. by exists l.
Qed.

(** ** Order of the calls *)

Lemma arena_acyclic (st : store) :
  (∀ v c, edge st v c → c < v) → acyclic st.
Proof.
  intros Hlt v Hv.
  assert (Hdec : ∀ x y, tc (edge st) x y → y < x).
  { intros x y H. induction H as [x y H|x y z H _ IH].
    - by apply Hlt.
    - apply Hlt in H. lia. }
  apply Hdec in Hv. lia.
Qed.

(** C1 — Topological order of the backward pass. On an acyclic graph,
    [backward] calls the [_backward] of a node at most once, and only after
    the [_backward] of every consumer of that node that is reachable from the
    root; only reachable nodes are called. This holds for the calls made
    before an exception, too. When the pass completes, every reachable node
    has been called, and with a recursion depth above the size of the heap
    the traversal itself does not fail and the root is called first. *)
Theorem backward_topological_order
    (iter_order : ident → list ident → list ident)
    (fuel : nat) (st : store) (root : ident)
    (tr : list ident) (o : outcome unit) (st' : store) :
  (∀ v l, iter_order v l ≡ₚ l) →
  acyclic st →
  backward iter_order fuel root st = (tr, o, st') →
  NoDup tr ∧
  (∀ c v, c ∈ tr → reachable st root v → edge st v c → before v c tr) ∧
  (∀ v, v ∈ tr → reachable st root v) ∧
  (o = Ok tt → ∀ v, reachable st root v → v ∈ tr) ∧
  (length st < fuel → ∃ tr', tr = root :: tr').
Proof.
  intros Hperm Hacyc Hrun. unfold backward in Hrun.
  destruct (build_topo iter_order fuel st root ([], [])) as [s| |] eqn:Htopo.
  - destruct (build_topo_root iter_order Hperm st fuel root s Hacyc Htopo)
      as (Hnd & Hreach & Hord & (l & Hlast)).
    destruct (run_backward_trace _ _ _ _ _ _ Hrun) as (rest & Hrev & Hdone).
    assert (Hnd' : NoDup (tr ++ rest)).
    { rewrite <- Hrev. by apply NoDup_ListNoDup, List.NoDup_rev, NoDup_ListNoDup. }
    assert (Hin : ∀ x, x ∈ tr ++ rest ↔ reachable st root x).
    { intros x. rewrite <- Hrev, <- Hreach, !list_elem_of_In. symmetry. apply in_rev. }
    split_and!.
    + by apply NoDup_app in Hnd' as (? & _).
    + intros c v Hc Hv Hvc.
      apply Hreach, list_elem_of_split in Hv as (l1 & l2 & Heq).
      apply (before_prefix _ _ _ rest); [done| |done].
      rewrite <- Hrev, Heq. apply before_rev. by eapply Hord.
    + intros v Hv. apply Hin. set_solver.
    + intros Hok v Hv. rewrite (Hdone Hok), app_nil_r in Hin. by apply Hin.
    + intros _. rewrite Hlast, rev_app_distr in Hrun. simpl in Hrun.
      destruct (call_closure _ _ _) as [[[]| |] st1].
      * destruct (run_backward _ _ st1) as [[tr1 o1] stb]. simplify_eq. by eexists.
      * simplify_eq. by eexists.
      * simplify_eq. by eexists.
  - assert (Hno : ¬ length st < fuel).
    { intros Hfuel.
      destruct (build_topo_total iter_order Hperm st fuel root ([], []))
        as (s & Hs & _); [|congruence].
      simpl. unfold unvisited.
      pose proof (length_filter (λ x, x ∉ []) (seq 0 (length st))) as Hle.
      rewrite length_seq in Hle. lia. }
    simplify_eq. split_and!; [apply NoDup_nil_2|set_solver..|done].
  - assert (Hno : ¬ length st < fuel).
    { intros Hfuel.
      destruct (build_topo_total iter_order Hperm st fuel root ([], []))
        as (s & Hs & _); [|congruence].
      simpl. unfold unvisited.
      pose proof (length_filter (λ x, x ∉ []) (seq 0 (length st))) as Hle.
      rewrite length_seq in Hle. lia. }
    simplify_eq. split_and!; [apply NoDup_nil_2|set_solver..|done].
Qed.

(** ** Reading the heap after a write *)

Lemma lookup_total_snoc (st : store) (n : Value) (v : ident) :
  (st ++ [n]) !!! v = if decide (v = length st) then n else st !!! v.
Proof.
  case_decide as Hv.
  - subst. by apply list_lookup_total_middle.
  - destruct (decide (v < length st)) as [Hlt|Hge].
    + by apply lookup_total_app_l.
    + rewrite !list_lookup_total_alt, !lookup_ge_None_2; [done|lia|].
      rewrite length_app. simpl. lia.
Qed.

Lemma lookup_total_set_grad (st : store) v g u :
  set_grad v g st !!! u =
    if decide (u = v ∧ v < length st) then with_grad g (st !!! v) else st !!! u.
Proof.
  unfold set_grad. rewrite list_lookup_total_alter.
  repeat case_decide; naive_solver.
Qed.

Lemma length_set_grad (st : store) v g : length (set_grad v g st) = length st.
Proof. apply length_alter. Qed.

Lemma grad_of_set_grad (st : store) v g u :
  grad_of (set_grad v g st) u =
    if decide (u = v ∧ v < length st) then g else grad_of st u.
Proof. unfold grad_of. rewrite lookup_total_set_grad. by case_decide. Qed.

Lemma data_of_set_grad (st : store) v g u :
  data_of (set_grad v g st) u = data_of st u.
Proof.
  unfold data_of. rewrite lookup_total_set_grad.
  case_decide as H; [by destruct H as [-> _]|done].
Qed.

Lemma prev_of_set_grad (st : store) v g u :
  prev_of (set_grad v g st) u = prev_of st u.
Proof.
  unfold prev_of. rewrite lookup_total_set_grad.
  case_decide as H; [by destruct H as [-> _]|done].
Qed.

Lemma op_of_set_grad (st : store) v g u :
  op_of (set_grad v g st) u = op_of st u.
Proof.
  unfold op_of. rewrite lookup_total_set_grad.
  case_decide as H; [by destruct H as [-> _]|done].
Qed.

Lemma backward_of_set_grad (st : store) v g u :
  backward_of (set_grad v g st) u = backward_of st u.
Proof.
  unfold backward_of. rewrite lookup_total_set_grad.
  case_decide as H; [by destruct H as [-> _]|done].
Qed.

Lemma edge_set_grad (st : store) v g x y :
  edge (set_grad v g st) x y ↔ edge st x y.
Proof. unfold edge. by rewrite prev_of_set_grad. Qed.

(** ** [same_graph] *)

Lemma same_graph_refl st : same_graph st st.
Proof. by split. Qed.

Lemma same_graph_trans st1 st2 st3 :
  same_graph st1 st2 → same_graph st2 st3 → same_graph st1 st3.
Proof.
  intros [Hl1 H1] [Hl2 H2]. split; [lia|]. intros v Hv.
  destruct (H1 v Hv) as (<- & <- & <- & <-). apply H2. lia.
Qed.

Lemma same_graph_set_grad st v g : same_graph st (set_grad v g st).
Proof.
  split; [by rewrite length_set_grad|]. intros u _.
  by rewrite data_of_set_grad, prev_of_set_grad, op_of_set_grad,
    backward_of_set_grad.
Qed.

Lemma same_graph_alloc st n c :
  same_graph st (alter (with_backward c) (length st) (st ++ [n])).
Proof.
  split; [rewrite length_alter, length_app; lia|]. intros v Hv.
  unfold data_of, prev_of, op_of, backward_of.
  rewrite list_lookup_total_alter_ne by lia.
  rewrite lookup_total_snoc, decide_False by lia. done.
Qed.

Lemma frames_ret {A : Type} (a : A) : frames (ret a).
Proof. intros st o st' [= <- <-]. apply same_graph_refl. Qed.

Lemma frames_lift {A : Type} (o : outcome A) : frames (lift o).
Proof. intros st o' st' [= <- <-]. apply same_graph_refl. Qed.

Lemma frames_gets {A : Type} (f : store → A) : frames (gets f).
Proof. intros st o st' [= <- <-]. apply same_graph_refl. Qed.

Lemma frames_pure {A : Type} (f : store → outcome A) : frames (λ st, (f st, st)).
Proof. intros st o st' [= <- <-]. apply same_graph_refl. Qed.

Lemma frames_bind {A B : Type} (m : M A) (k : A → M B) :
  frames m → (∀ a, frames (k a)) → frames (bind m k).
Proof.
  intros Hm Hk st o st' Hrun. unfold bind in Hrun.
  destruct (m st) as [[a|e|] st1] eqn:E; apply Hm in E.
  - eapply same_graph_trans; [done|]. by eapply Hk.
  - by simplify_eq.
  - by simplify_eq.
Qed.

Lemma frames_grad_iadd v x : frames (grad_iadd v x).
Proof. intros st o st' [= <- <-]. apply same_graph_set_grad. Qed.

Lemma frames_grad_isub v x : frames (grad_isub v x).
Proof. intros st o st' [= <- <-]. apply same_graph_set_grad. Qed.

Lemma frames_if {A : Type} (P : store → Prop) (d : ∀ st, {P st} + {¬ P st})
    (m1 m2 : M A) :
  frames m1 → frames m2 → frames (λ st, if d st then m1 st else m2 st).
Proof. intros H1 H2 st o st' Hrun. destruct (d st); eauto. Qed.

Lemma frames_exp_ self : frames (exp_ self).
Proof.
  intros st o st' Hrun. unfold exp_, bind, Value_init, set_backward, modify, ret in Hrun.
  destruct (math_exp _); simplify_eq; try apply same_graph_refl.
  apply same_graph_alloc.
Qed.

Lemma frames_call_backward c : frames (call_backward c).
Proof.
  destruct c as [| | |? []| | | | | | |]; simpl;
    repeat first
      [ apply frames_ret | apply frames_lift | apply frames_gets
      | apply frames_grad_iadd | apply frames_grad_isub | apply frames_exp_
      | apply frames_bind; [|intros ?]
      | case_match
      | apply (frames_if (λ st, data_of st _ < 0)%R (λ st, Rlt_dec (data_of st _) 0))
      | apply (frames_pure (λ st, Ok 1%R)) ].
Qed.

Lemma lookup_total_alloc (st : store) n c u :
  alter (with_backward c) (length st) (st ++ [n]) !!! u =
    if decide (u = length st) then with_backward c n else st !!! u.
Proof.
  destruct (decide (u = length st)) as [->|Hu].
  - rewrite list_lookup_total_alter_eq by (rewrite length_app; simpl; lia).
    by rewrite lookup_total_snoc, decide_True.
  - rewrite list_lookup_total_alter_ne by done.
    by rewrite lookup_total_snoc, decide_False.
Qed.

Lemma grad_of_alloc (st : store) n c u :
  u < length st →
  grad_of (alter (with_backward c) (length st) (st ++ [n])) u = grad_of st u.
Proof.
  intros Hu. unfold grad_of. rewrite lookup_total_alloc, decide_False by lia. done.
Qed.

Lemma data_of_alloc (st : store) n c u :
  data_of (alter (with_backward c) (length st) (st ++ [n])) u =
    if decide (u = length st) then data n else data_of st u.
Proof. unfold data_of. rewrite lookup_total_alloc. by case_decide. Qed.

Lemma data_of_alloc_new (st : store) n c :
  data_of (alter (with_backward c) (length st) (st ++ [n])) (length st) = data n.
Proof. by rewrite data_of_alloc, decide_True. Qed.

Lemma length_alloc (st : store) n c :
  length (alter (with_backward c) (length st) (st ++ [n])) = S (length st).
Proof. rewrite length_alter, length_app. simpl. lia. Qed.

Lemma grad_of_set_grad_ne (st : store) v g u :
  u ≠ v → grad_of (set_grad v g st) u = grad_of st u.
Proof. intros Hu. rewrite grad_of_set_grad, decide_False; [done|]. by intros [? _]. Qed.

Lemma in_range_Ok x y : in_range x = Ok y → y = x.
Proof. unfold in_range. case_match; congruence. Qed.

Lemma math_exp_Ok x y : math_exp x = Ok y → y = exp x.
Proof.
  unfold math_exp. destruct (Rle_dec _ _); [apply in_range_Ok|congruence].
Qed.

Lemma float_div_Ok x y q : float_div x y = Ok q → q = (x / y)%R.
Proof. unfold float_div. case_match; congruence. Qed.

Lemma math_log_pos x : (0 < x)%R → math_log x = Ok (ln x).
Proof. intros Hx. unfold math_log. by destruct (Rlt_dec 0 x). Qed.

(** ** What a closure adds *)

Ltac run_monad H :=
  unfold bind, gets, grad_iadd, grad_isub, modify, lift, ret, operand_data,
    operand_grad_isub in H; simpl in H.

(** Case analysis on the float primitives met while running [H]. *)
Ltac step_outcomes H out :=
  repeat (
    run_monad H;
    rewrite ?data_of_set_grad, ?(grad_of_set_grad_ne _ _ _ out) in H by done;
    match type of H with
    | context [match ?o with Ok _ => _ | Raise _ => _ | Complex => _ end] =>
        let E := fresh "E" in
        destruct o as [?| |] eqn:E; simpl in H; [|discriminate H..]
    end);
  run_monad H.

Ltac close_grads :=
  repeat case_decide; destruct_and?; simplify_eq; try lra;
  try (exfalso; intuition lia).

Lemma call_backward_pushes c st st' v :
  call_backward c st = (Ok tt, st') →
  (∀ o, closure_out c = Some o → o < length st ∧ o ∉ targets c) →
  (∀ t, t ∈ targets c → t < length st) →
  v < length st →
  grad_of st' v = (grad_of st v + push c st v)%R.
Proof.
  intros Hrun Hout Htg Hv.
  destruct c as [|self other out|self other out|self [x|other] out
                 |self other out|self out|self out|self out
                 |alpha self out|alpha self out|self out];
    simpl in Hout, Htg;
    try (destruct (Hout out eq_refl) as [Ho Hno]);
    try (assert (Hs : self < length st) by (apply Htg; set_solver));
    try (assert (Hos : out ≠ self) by set_solver);
    try (assert (Hot : other < length st) by (apply Htg; set_solver));
    try (assert (Hoo : out ≠ other) by set_solver);
    clear Hout Htg; try clear Hno;
    unfold call_backward in Hrun; run_monad Hrun;
    rewrite ?data_of_set_grad, ?(grad_of_set_grad_ne _ _ _ out) in Hrun by done.
  - simplify_eq. unfold push; simpl. lra.
  - simplify_eq. unfold push; simpl. rewrite !grad_of_set_grad, ?length_set_grad.
    close_grads.
  - simplify_eq. unfold push; simpl. rewrite !grad_of_set_grad, ?length_set_grad.
    close_grads.
  - done.
  - step_outcomes Hrun out. simplify_eq. unfold push; simpl.
        rewrite !grad_of_set_grad, ?length_set_grad. rewrite E0. simpl.
    apply float_div_Ok in E, E1. subst. close_grads.
  - unfold push; simpl.
    destruct (Req_dec_T (data_of st self) 0) as [Ha|Ha];
      destruct (Rlt_dec 0 (data_of st self)) as [Hp|Hp]; simpl in Hrun;
      rewrite ?(math_log_pos _ Hp) in Hrun;
      step_outcomes Hrun out;
      simplify_eq; rewrite !grad_of_set_grad, ?length_set_grad;
      repeat match goal with E : float_pow _ _ = _ |- _ => rewrite E; clear E end;
      simpl; close_grads.
  - simplify_eq. unfold push; simpl. rewrite !grad_of_set_grad. close_grads.
  - simplify_eq. unfold push; simpl. rewrite !grad_of_set_grad. close_grads.
  - step_outcomes Hrun out. simplify_eq. unfold push; simpl.
    rewrite !grad_of_set_grad, E. simpl. close_grads.
  - simplify_eq. unfold push; simpl. rewrite !grad_of_set_grad. close_grads.
  - unfold push; simpl. destruct (Rlt_dec (data_of st self) 0) as [Hneg|Hneg].
    + unfold exp_, Value_init, set_backward in Hrun. run_monad Hrun.
      step_outcomes Hrun out. simplify_eq.
      apply math_exp_Ok in E. subst.
      rewrite !grad_of_set_grad, !grad_of_alloc, data_of_alloc_new by done.
      simpl. rewrite length_alloc. close_grads.
    + simplify_eq. rewrite !grad_of_set_grad. close_grads.
  - simplify_eq. unfold push; simpl. rewrite !grad_of_set_grad. close_grads.
Qed.
Close Scope R_scope.

(** ** Calls of closures and the recursion depth *)

(** A call runs the body of the closure, or raises [RecursionError] before
    anything is written. *)
Lemma call_closure_cases fuel c st :
  call_closure fuel c st = call_backward c st ∨
  call_closure fuel c st = (Raise RecursionError, st).
Proof.
  unfold call_closure. destruct fuel as [|[|[|fuel]]]; [by right|..];
    destruct c; try (by left); destruct (Rlt_dec _ _); try (by left);
    try (by right); destruct (math_exp _); by (left + right).
Qed.

(** Three frames are enough for every closure. *)
Lemma call_closure_enough fuel c st :
  3 ≤ fuel → call_closure fuel c st = call_backward c st.
Proof.
  intros Hf. destruct fuel as [|[|[|fuel]]]; [lia..|].
  unfold call_closure. destruct c; try done.
  destruct (Rlt_dec _ _); [|done]. by destruct (math_exp _).
Qed.

(** One frame is enough for the closures that call no Python function. *)
Lemma call_closure_plain fuel c st :
  0 < fuel → (∀ alpha self out, c ≠ bw_elu alpha self out) →
  call_closure fuel c st = call_backward c st.
Proof.
  intros Hf Hc. destruct fuel; [lia|]. unfold call_closure.
  destruct c; try done. by destruct (Hc alpha self out).
Qed.

Lemma call_closure_Ok fuel c st st' :
  call_closure fuel c st = (Ok tt, st') → call_backward c st = (Ok tt, st').
Proof. intros H. by destruct (call_closure_cases fuel c st) as [<-|?]; [|congruence]. Qed.

Lemma frames_call_closure fuel c : frames (call_closure fuel c).
Proof.
  intros st o st' H. destruct (call_closure_cases fuel c st) as [E|E]; rewrite E in H.
  - by eapply frames_call_backward.
  - simplify_eq. apply same_graph_refl.
Qed.

(** ** Contributions depend on values and on the gradient of [out] only *)

Lemma pushes_targets c st : (pushes c st).*1 = targets c.
Proof. by destruct c as [| | |? []| | | | | | |]. Qed.

Lemma amount_not_in ps t : t ∉ ps.*1 → amount ps t = 0%R.
Proof.
  induction ps as [|p ps IH]; [done|]. simpl. intros Hn.
  rewrite decide_False, IH by set_solver. lra.
Qed.

Lemma push_not_target c st t : t ∉ targets c → push c st t = 0%R.
Proof. intros Hn. apply amount_not_in. by rewrite pushes_targets. Qed.

Lemma pushes_ext c st1 st2 :
  (∀ x, x ∈ targets c → data_of st1 x = data_of st2 x) →
  (∀ o, closure_out c = Some o →
     data_of st1 o = data_of st2 o ∧ grad_of st1 o = grad_of st2 o) →
  pushes c st1 = pushes c st2.
Proof.
  intros Hd Ho.
  destruct c as [|self other out|self other out|self [x|other] out
                 |self other out|self out|self out|self out
                 |alpha self out|alpha self out|self out]; simpl in *;
    try done;
    destruct (Ho out eq_refl) as [Hdo Hgo];
    rewrite ?Hdo, ?Hgo, ?(Hd self), ?(Hd other) by set_solver; done.
Qed.

Lemma pushed_none l st t :
  (∀ u, u ∈ l → t ∉ targets (backward_of st u)) → pushed l st t = 0%R.
Proof.
  induction l as [|u l IH]; [done|]. intros Hn. simpl.
  rewrite push_not_target, IH by set_solver. lra.
Qed.

Lemma pushed_ext l st1 st2 t :
  (∀ u, u ∈ l →
     (backward_of st1 u = backward_of st2 u) ∧
     (pushes (backward_of st1 u) st1 = pushes (backward_of st1 u) st2)) →
  pushed l st1 t = pushed l st2 t.
Proof.
  induction l as [|u l IH]; [done|]. intros H. simpl.
  destruct (H u) as [Hb Hp]; [set_solver|].
  rewrite IH by set_solver. unfold push. by rewrite <- Hb, Hp.
Qed.

(** ** The loop accumulates *)

Lemma run_backward_same_graph fuel l : ∀ st tr o st',
  run_backward fuel l st = (tr, o, st') → same_graph st st'.
Proof.
  induction l as [|v l IH]; intros st tr o st' Hrun; simpl in Hrun.
  - simplify_eq. apply same_graph_refl.
  - destruct (call_closure _ _ _) as [[[]| |] st1] eqn:Hc;
      apply frames_call_closure in Hc.
    + destruct (run_backward fuel l st1) as [[tr1 o1] st2] eqn:Hr. simplify_eq.
      eapply same_graph_trans; [done|]. by eapply IH.
    + by simplify_eq.
    + by simplify_eq.
Qed.

Lemma run_backward_accumulates fuel l : ∀ st tr st',
  run_backward fuel l st = (tr, Ok tt, st') →
  attached st l → no_back_push st l →
  tr = l ∧
  ∀ t, t < length st → grad_of st' t = (grad_of st t + pushed l st' t)%R.
Proof.
  induction l as [|v l IH]; intros st tr st' Hrun Hatt Hnb; simpl in Hrun.
  - simplify_eq. split; [done|]. intros t _. simpl. lra.
  - destruct (call_closure _ _ _) as [[[]| |] st1] eqn:Hc; [|by simplify_eq..].
    apply call_closure_Ok in Hc.
    destruct (run_backward fuel l st1) as [[tr1 o1] st2] eqn:Hr. simplify_eq.
    pose proof (frames_call_backward _ _ _ _ Hc) as [Hlen Hsame].
    pose proof (run_backward_same_graph _ _ _ _ _ _ Hr) as [Hlen' Hsame'].
    destruct (Hatt v) as (Hv & Hout & Htg); [set_solver|].
    assert (Hself : ∀ t, t ∈ targets (backward_of st v) → t ≠ v).
    { intros t Ht. by destruct (Hnb [] v l eq_refl t Ht). }
    assert (Hcl : ∀ u, u ∈ l → backward_of st1 u = backward_of st u).
    { intros u Hu. destruct (Hatt u) as (Hu' & _); [set_solver|].
      by destruct (Hsame u Hu') as (_ & _ & _ & ->). }
    apply IH in Hr as [-> Hgr].
    2:{ intros u Hu. rewrite (Hcl u Hu). destruct (Hatt u) as (? & ? & ?); [set_solver|].
        split_and!; [lia|done|]. intros t Ht. specialize (H1 t Ht). lia. }
    2:{ intros l1 u l2 -> t Ht. rewrite Hcl in Ht by set_solver.
        destruct (Hnb (v :: l1) u l2 eq_refl t Ht) as [Hn1 Hn2].
        split; [set_solver|done]. }
    split; [done|]. intros t Ht.
    assert (Hcl' : ∀ u, u ∈ v :: l → backward_of st' u = backward_of st u).
    { intros u Hu. destruct (Hatt u Hu) as (Hu' & _).
      destruct (Hsame' u) as (_ & _ & _ & ->); [lia|].
      by destruct (Hsame u Hu') as (_ & _ & _ & ->). }
    assert (Hdata : ∀ x, x < length st → data_of st x = data_of st' x).
    { intros x Hx. destruct (Hsame' x) as (-> & _); [lia|].
      by destruct (Hsame x Hx) as (-> & _). }
    (* the gradient of [v] is final when its closure runs *)
    assert (Hgv : grad_of st v = grad_of st' v).
    { rewrite (Hgr v) by lia.
      rewrite (call_backward_pushes _ _ _ v Hc); [| |done|done].
      2:{ intros o Ho. rewrite (Hout o Ho). split; [done|].
          intros Hin. by apply (Hself v). }
      rewrite push_not_target by (intros Hin; by apply (Hself v)).
      rewrite pushed_none; [lra|].
      intros u Hu Hin. rewrite Hcl' in Hin by set_solver.
      apply list_elem_of_split in Hu as (l1 & l2 & ->).
      destruct (Hnb (v :: l1) u l2 eq_refl v Hin) as [Hn _]. set_solver. }
    rewrite (Hgr t) by lia.
    rewrite (call_backward_pushes _ _ _ t Hc); [| |done|done].
    2:{ intros o Ho. rewrite (Hout o Ho). split; [done|].
        intros Hin. by apply (Hself v). }
    simpl. rewrite (Hcl' v) by set_solver. unfold push at 1 2.
    rewrite (pushes_ext _ st st'); [lra| |].
    + intros x Hx. apply Hdata. by apply Htg.
    + intros o Ho. rewrite (Hout o Ho). split; [by apply Hdata|done].
Qed.

(** ** The whole pass accumulates *)

Lemma reachable_in_range st root v :
  closed st → root < length st → reachable st root v → v < length st.
Proof.
  intros Hcl Hroot Hr. induction Hr as [|x y z Hxy _ IH]; [done|].
  apply IH. by eapply Hcl.
Qed.

Lemma tc_in_range st v t : closed st → tc (edge st) v t → t < length st.
Proof.
  intros Hcl Ht. induction Ht as [x y H|x y z _ _ IH]; [by eapply Hcl|done].
Qed.

(** In a post-order list every node strictly upstream of a listed node is
    listed earlier. *)
Lemma post_order_tc st (topo : list ident) :
  (∀ l1 x l2, topo = l1 ++ x :: l2 → ∀ c, edge st x c → c ∈ l1) →
  ∀ x t, tc (edge st) x t → ∀ l1 l2, topo = l1 ++ x :: l2 → t ∈ l1.
Proof.
  intros Hord x t Ht. induction Ht as [x y H|x y z H _ IH]; intros l1 l2 Heq.
  - by eapply Hord.
  - pose proof (Hord _ _ _ Heq _ H) as Hy.
    apply list_elem_of_split in Hy as (a & b & ->).
    rewrite <- app_assoc in Heq. simpl in Heq.
    specialize (IH _ _ Heq). set_solver.
Qed.

Lemma rev_split {A : Type} (l l1 l2 : list A) (x : A) :
  rev l = l1 ++ x :: l2 → l = rev l2 ++ x :: rev l1.
Proof.
  intros H. rewrite <- (rev_involutive l), H, rev_app_distr. simpl.
  by rewrite <- app_assoc.
Qed.

Section Accumulation.

Variable iter_order : ident → list ident → list ident.
Hypothesis iter_order_perm : ∀ v l, iter_order v l ≡ₚ l.

(** On a well-formed heap a completed pass leaves the graph as it was,
    the gradient of the root at 1, and has added to the gradient of every
    other node what the closures of the called nodes push to it, each
    computed from the final gradient of the node it belongs to. *)
Lemma backward_accumulates fuel st root tr st' :
  well_formed st → root < length st →
  backward iter_order fuel root st = (tr, Ok tt, st') →
  same_graph st st' ∧ NoDup tr ∧
  (∀ v, v ∈ tr ↔ reachable st root v) ∧
  grad_of st' root = 1%R ∧
  ∀ t, t < length st → t ≠ root →
    grad_of st' t = (grad_of st t + pushed tr st' t)%R.
Proof.
  intros (Hacyc & Hclosed & Hcl) Hroot Hrun. unfold backward in Hrun.
  destruct (build_topo iter_order fuel st root ([], [])) as [s| |] eqn:Htopo;
    [|by simplify_eq..].
  destruct (build_topo_root iter_order iter_order_perm st fuel root s Hacyc Htopo)
    as (Hnd & Hreach & Hord & (l & Hlast)).
  set (st0 := set_grad root 1 st) in *.
  assert (Hatt : attached st0 (rev s.2)).
  { intros u Hu. apply list_elem_of_In, in_rev, list_elem_of_In, Hreach in Hu.
    unfold st0. rewrite length_set_grad, backward_of_set_grad.
    destruct (Hcl u) as [Hout Htg]. split_and!; [|done|].
    - by eapply reachable_in_range.
    - intros t Ht. eapply tc_in_range; [done|]. by apply Htg. }
  assert (Hnb : no_back_push st0 (rev s.2)).
  { intros l1 u l2 Heq t Ht. unfold st0 in Ht. rewrite backward_of_set_grad in Ht.
    destruct (Hcl u) as [_ Htg]. apply Htg in Ht.
    split; [|intros ->; by apply (Hacyc u)].
    apply rev_split in Heq.
    pose proof (post_order_tc st s.2 Hord _ _ Ht _ _ Heq) as Hin.
    intros Hin1. rewrite Heq in Hnd.
    apply NoDup_app in Hnd as (_ & Hdisj & _).
    apply (Hdisj t Hin). apply elem_of_cons. right.
    by apply list_elem_of_In, in_rev, list_elem_of_In in Hin1. }
  pose proof (run_backward_same_graph _ _ _ _ _ _ Hrun) as Hsame.
  destruct (run_backward_accumulates _ _ _ _ _ Hrun Hatt Hnb) as [-> Hgr].
  assert (Hsg : same_graph st st').
  { eapply same_graph_trans; [apply same_graph_set_grad|exact Hsame]. }
  split_and!; [done| | | |].
  - by apply NoDup_ListNoDup, List.NoDup_rev, NoDup_ListNoDup.
  - intros v. rewrite <- Hreach, !list_elem_of_In. symmetry. apply in_rev.
  - rewrite Hgr by (unfold st0; by rewrite length_set_grad).
    unfold st0 at 1. rewrite grad_of_set_grad, decide_True by done.
    rewrite pushed_none; [lra|].
    intros u Hu Hin.
    assert (Hb : backward_of st' u = backward_of st0 u).
    { destruct Hsame as [_ Hs]. destruct (Hatt u Hu) as (Hu' & _).
      by destruct (Hs u Hu') as (_ & _ & _ & ->). }
    rewrite Hb in Hin.
    rewrite Hlast, rev_app_distr in Hu, Hnb. simpl in Hu, Hnb.
    apply elem_of_cons in Hu as [->|Hu].
    + by destruct (Hnb [] root (rev l) eq_refl root Hin).
    + apply list_elem_of_split in Hu as (l1 & l2 & Heq).
      destruct (Hnb (root :: l1) u l2) with (t := root) as [Hn _];
        [by rewrite Heq|done|set_solver].
  - intros t Ht Hne. rewrite Hgr by (unfold st0; by rewrite length_set_grad).
    unfold st0 at 1. rewrite grad_of_set_grad, decide_False; [done|].
    by intros [? _].
Qed.

End Accumulation.

(** ** Allocation keeps the heap well formed *)

Lemma tc_sub {A : Type} (R R' : relation A) (x y : A) :
  (∀ a b, R a b → R' a b) → tc R x y → tc R' x y.
Proof. intros H. apply (tc_congruence (λ a, a) R'). exact H. Qed.

Lemma alloc_eq (st : store) n c :
  alter (with_backward c) (length st) (st ++ [n]) = st ++ [with_backward c n].
Proof.
  apply list_eq. intros i.
  destruct (decide (i = length st)) as [->|Hi].
  - rewrite list_lookup_alter_eq, !list_lookup_middle by done. done.
  - rewrite list_lookup_alter_ne by done.
    destruct (decide (i < length st)) as [Hlt|Hge].
    + by rewrite !lookup_app_l by done.
    + rewrite !lookup_ge_None_2; [done|rewrite length_app; simpl; lia..].
Qed.

Lemma prev_of_snoc (st : store) n v :
  prev_of (st ++ [n]) v = if decide (v = length st) then _prev n else prev_of st v.
Proof. unfold prev_of. rewrite lookup_total_snoc. by case_decide. Qed.

Lemma backward_of_snoc (st : store) n v :
  backward_of (st ++ [n]) v =
    if decide (v = length st) then _backward n else backward_of st v.
Proof. unfold backward_of. rewrite lookup_total_snoc. by case_decide. Qed.

Lemma data_of_snoc (st : store) n v :
  data_of (st ++ [n]) v = if decide (v = length st) then data n else data_of st v.
Proof. unfold data_of. rewrite lookup_total_snoc. by case_decide. Qed.

Lemma grad_of_snoc (st : store) n v :
  grad_of (st ++ [n]) v = if decide (v = length st) then grad n else grad_of st v.
Proof. unfold grad_of. rewrite lookup_total_snoc. by case_decide. Qed.

Lemma op_of_snoc (st : store) n v :
  op_of (st ++ [n]) v = if decide (v = length st) then _op n else op_of st v.
Proof. unfold op_of. rewrite lookup_total_snoc. by case_decide. Qed.

Lemma edge_snoc (st : store) n v c :
  edge (st ++ [n]) v c ↔
    (v ≠ length st ∧ edge st v c) ∨ (v = length st ∧ c ∈ _prev n).
Proof. unfold edge. rewrite prev_of_snoc. case_decide; naive_solver. Qed.

Lemma edge_in_range (st : store) v c : edge st v c → v < length st.
Proof.
  unfold edge. intros H. destruct (decide (v < length st)); [done|].
  rewrite prev_of_out_of_range in H by lia. by apply elem_of_nil in H.
Qed.

Lemma tc_edge_mono (st : store) n v t :
  tc (edge st) v t → tc (edge (st ++ [n])) v t.
Proof.
  apply tc_sub. intros x y H. apply edge_snoc. left. split; [|done].
  apply edge_in_range in H. lia.
Qed.

(** A path in the extended heap that starts at an old object is a path of
    the old heap. *)
Lemma tc_edge_snoc_old (st : store) n v t :
  closed st → v < length st →
  tc (edge (st ++ [n])) v t → tc (edge st) v t.
Proof.
  intros Hcl Hv Ht. induction Ht as [x y H|x y z H _ IH].
  - apply edge_snoc in H as [[_ H]|[-> _]]; [by apply tc_once|lia].
  - apply edge_snoc in H as [[_ H]|[-> _]]; [|lia].
    eapply tc_l; [done|]. apply IH. by eapply Hcl.
Qed.

Lemma closure_wf_mono (st : store) n v c :
  closure_wf st v c → closure_wf (st ++ [n]) v c.
Proof. intros [Ho Ht]. split; [done|]. intros t Hin. by apply tc_edge_mono, Ht. Qed.

Lemma well_formed_snoc (st : store) n :
  well_formed st →
  (∀ x, x ∈ _prev n → x < length st) →
  closure_wf (st ++ [n]) (length st) (_backward n) →
  well_formed (st ++ [n]).
Proof.
  intros (Hacyc & Hcl & Hok) Hprev Hwf.
  assert (Hcl' : closed (st ++ [n])).
  { intros v c [[_ H]|[_ H]]%edge_snoc; rewrite length_app; simpl.
    - apply Hcl in H. lia.
    - apply Hprev in H. lia. }
  split_and!; [|done|].
  - intros v Hv.
    assert (Hlt : ∀ x y, tc (edge (st ++ [n])) x y → y < length st).
    { intros x y Hxy. induction Hxy as [x y H|x y z _ _ IH]; [|done].
      apply edge_snoc in H as [[_ H]|[_ H]]; [by eapply Hcl|by apply Hprev]. }
    specialize (Hlt v v Hv).
    apply (Hacyc v). by eapply tc_edge_snoc_old.
  - intros v. rewrite backward_of_snoc. case_decide as Hv; [by subst|].
    apply closure_wf_mono, Hok.
Qed.

Lemma well_formed_set_grad (st : store) v g :
  well_formed st → well_formed (set_grad v g st).
Proof.
  intros (Hacyc & Hcl & Hok).
  assert (Hsub : ∀ x y, tc (edge (set_grad v g st)) x y ↔ tc (edge st) x y).
  { intros x y. split; apply tc_sub; intros a b; by rewrite edge_set_grad. }
  split_and!.
  - intros x Hx. apply (Hacyc x). by apply Hsub.
  - intros x c Hx. rewrite length_set_grad. apply edge_set_grad in Hx. by eapply Hcl.
  - intros x. rewrite backward_of_set_grad. destruct (Hok x) as [Ho Ht].
    split; [done|]. intros t Hin. by apply Hsub, Ht.
Qed.

Lemma arena_well_formed (st : store) :
  arena st → closures_ok st → well_formed st.
Proof.
  intros Har Hok. split_and!; [by apply arena_acyclic| |done].
  intros v c H. pose proof (edge_in_range _ _ _ H). apply Har in H. lia.
Qed.

Lemma well_formed_nil : well_formed [].
Proof.
  apply arena_well_formed.
  - intros v c H. apply edge_in_range in H. simpl in H. lia.
  - intros v. split; [done|]. unfold backward_of. simpl. intros t Ht.
    by apply elem_of_nil in Ht.
Qed.

(** ** What the operations build *)

Lemma length_snoc (st : store) (n : Value) : length (st ++ [n]) = S (length st).
Proof. rewrite length_app. simpl. lia. Qed.

Lemma data_of_snoc_old (st : store) n v :
  v < length st → data_of (st ++ [n]) v = data_of st v.
Proof. intros Hv. rewrite data_of_snoc, decide_False by lia. done. Qed.

Lemma data_of_snoc_new (st : store) n : data_of (st ++ [n]) (length st) = data n.
Proof. by rewrite data_of_snoc, decide_True. Qed.

Lemma set_of_pair_ne (a b : ident) : a ≠ b → set_of [a; b] = [a; b].
Proof.
  intros Hab. unfold set_of. simpl.
  repeat destruct (decide_rel _ _ _); set_solver.
Qed.

Lemma set_of_pair_eq (a : ident) : set_of [a; a] = [a].
Proof. unfold set_of. simpl. repeat destruct (decide_rel _ _ _); set_solver. Qed.

(** [out = Value(d, children, op); out._backward = c; return out] *)
Lemma alloc_run d ch op (c : ident → closure) (st : store) :
  (let* out := Value_init d ch op in set_backward out (c out);;; ret out) st =
  (Ok (length st), st ++ [mkValue d 0 (c (length st)) (set_of ch) op]).
Proof.
  unfold bind, Value_init, set_backward, modify, ret. simpl.
  by rewrite alloc_eq.
Qed.

Lemma alloc_eq_gen (st : store) n c k :
  k = length st →
  alter (with_backward c) k (st ++ [n]) = st ++ [with_backward c n].
Proof. intros ->. apply alloc_eq. Qed.

Section Runs.
Local Open Scope R_scope.

Lemma add_run self o (st : store) :
  __add__ self (Ref o) st =
  (Ok (length st),
   st ++ [mkValue (data_of st self + data_of st o) 0
            (bw_add self o (length st)) (set_of [self; o]) OpAdd]).
Proof.
  unfold __add__. unfold bind at 1 2. unfold wrap, gets, ret.
  apply (alloc_run _ _ _ (λ out, bw_add self o out)).
Qed.

Lemma mul_run self o (st : store) :
  __mul__ self (Ref o) st =
  (Ok (length st),
   st ++ [mkValue (data_of st self * data_of st o) 0
            (bw_mul self o (length st)) (set_of [self; o]) OpMul]).
Proof.
  unfold __mul__. unfold bind at 1 2. unfold wrap, gets, ret.
  apply (alloc_run _ _ _ (λ out, bw_mul self o out)).
Qed.

Lemma pow_run self o (st : store) :
  __pow__ self (Ref o) st =
  match float_pow (data_of st self) (data_of st o) with
  | Ok d => (Ok (length st),
             st ++ [mkValue d 0 (bw_pow self o (length st))
                      (set_of [self; o]) OpPow])
  | Raise e => (Raise e, st)
  | Complex => (Complex, st)
  end.
Proof.
  unfold __pow__. unfold bind at 1 2. unfold wrap, ret.
  destruct (float_pow _ _); [|done..].
  apply (alloc_run _ _ _ (λ out, bw_pow self o out)).
Qed.

(** A raw operand is first wrapped into a leaf. *)
Lemma add_num self x (st : store) :
  __add__ self (Num x) st = __add__ self (Ref (length st)) (st ++ [leaf x]).
Proof. done. Qed.

Lemma mul_num self x (st : store) :
  __mul__ self (Num x) st = __mul__ self (Ref (length st)) (st ++ [leaf x]).
Proof. done. Qed.

Lemma pow_num self x (st : store) :
  __pow__ self (Num x) st = __pow__ self (Ref (length st)) (st ++ [leaf x]).
Proof. done. Qed.

Lemma exp_run self (st : store) :
  exp_ self st =
  match math_exp (data_of st self) with
  | Ok d => (Ok (length st),
             st ++ [mkValue d 0 (bw_exp self (length st)) [self] OpExp])
  | Raise e => (Raise e, st)
  | Complex => (Complex, st)
  end.
Proof.
  unfold exp_. unfold bind at 1.
  destruct (math_exp _); [|done..].
  by rewrite (alloc_run _ _ _ (λ out, bw_exp self out)).
Qed.

Lemma relu_run self (st : store) :
  relu self st =
  (Ok (length st),
   st ++ [mkValue (if Rlt_dec (data_of st self) 0 then 0 else data_of st self)
            0 (bw_relu self (length st)) [self] OpReLU]).
Proof.
  unfold relu. unfold bind at 1. unfold gets.
  by rewrite (alloc_run _ _ _ (λ out, bw_relu self out)).
Qed.

Lemma leaky_relu_run self alpha (st : store) :
  leaky_relu self alpha st =
  (Ok (length st),
   st ++ [mkValue (if Rlt_dec (data_of st self) 0
                   then alpha * data_of st self else data_of st self)
            0 (bw_leaky_relu alpha self (length st)) [self]
            (OpLeakyReLU alpha)]).
Proof.
  unfold leaky_relu. unfold bind at 1. unfold gets.
  by rewrite (alloc_run _ _ _ (λ out, bw_leaky_relu alpha self out)).
Qed.

Lemma neg_run self (st : store) :
  (self < length st)%nat →
  __neg__ self st =
  (Ok (S (length st)),
   st ++ [leaf (-1);
          mkValue (data_of st self * -1) 0
            (bw_mul self (length st) (S (length st)))
            [self; length st] OpMul]).
Proof.
  intros Hs. unfold __neg__. rewrite mul_num, mul_run.
  rewrite length_snoc, data_of_snoc_old, data_of_snoc_new by done.
  rewrite set_of_pair_ne by lia. by rewrite <- app_assoc.
Qed.

Lemma sub_num self x (st : store) :
  __sub__ self (Num x) st = __add__ self (Num (- x)) st.
Proof. done. Qed.

Lemma sub_run self o (st : store) :
  (self < length st)%nat → (o < length st)%nat →
  __sub__ self (Ref o) st =
  (Ok (length st + 2)%nat,
   st ++ [leaf (-1);
          mkValue (data_of st o * -1) 0
            (bw_mul o (length st) (S (length st))) [o; length st] OpMul;
          mkValue (data_of st self + data_of st o * -1) 0
            (bw_add self (S (length st)) (length st + 2)%nat)
            [self; S (length st)] OpAdd]).
Proof.
  intros Hs Ho. unfold __sub__, neg_operand. unfold bind at 1 2.
  rewrite neg_run by done. unfold ret. rewrite add_run.
  rewrite length_app. simpl length.
  rewrite set_of_pair_ne by lia.
  replace (data_of (st ++ _) self) with (data_of st self).
  2:{ unfold data_of. by rewrite lookup_total_app_l. }
  replace (data_of (st ++ _) (S (length st))) with (data_of st o * -1).
  2:{ unfold data_of.
      rewrite (lookup_total_app_r st) by lia.
      by replace (S (length st) - length st)%nat with 1%nat by lia. }
  rewrite <- app_assoc. simpl. do 3 f_equal.
Qed.

Lemma truediv_run self o (st : store) :
  (self < length st)%nat → (o < length st)%nat →
  __truediv__ self (Ref o) st =
  match float_pow (data_of st o) (-1) with
  | Ok r =>
      (Ok (length st + 2)%nat,
       st ++ [leaf (-1);
              mkValue r 0 (bw_pow o (length st) (S (length st)))
                [o; length st] OpPow;
              mkValue (data_of st self * r) 0
                (bw_truediv self (Ref o) (length st + 2)%nat)
                [self; S (length st)] OpMul])
  | Raise e => (Raise e, st ++ [leaf (-1)])
  | Complex => (Complex, st ++ [leaf (-1)])
  end.
Proof.
  intros Hs Ho. unfold __truediv__, pow_neg1. unfold bind at 1 2.
  rewrite pow_num, pow_run.
  rewrite data_of_snoc_old, data_of_snoc_new by done. simpl data.
  destruct (float_pow _ _) as [r| |]; [|done..].
  unfold ret. unfold bind at 1. rewrite mul_run.
  unfold bind, set_backward, modify, ret.
  rewrite !length_snoc. rewrite alloc_eq_gen by (rewrite !length_snoc; lia).
  rewrite !set_of_pair_ne by lia.
  replace (data_of (_ ++ _) self) with (data_of st self).
  2:{ unfold data_of. rewrite <- app_assoc. by rewrite lookup_total_app_l. }
  replace (data_of (_ ++ _) (S (length st))) with r.
  2:{ unfold data_of. rewrite lookup_total_snoc, decide_True; [done|].
      by rewrite length_snoc. }
  rewrite <- !app_assoc. simpl.
  replace (length st + 2)%nat with (S (S (length st))) by lia. done.
Qed.

Lemma truediv_num self x (st : store) :
  (self < length st)%nat →
  __truediv__ self (Num x) st =
  match float_pow x (-1) with
  | Ok r =>
      (Ok (S (length st)),
       st ++ [leaf r;
              mkValue (data_of st self * r) 0
                (bw_truediv self (Num x) (S (length st)))
                [self; length st] OpMul])
  | Raise e => (Raise e, st)
  | Complex => (Complex, st)
  end.
Proof.
  intros Hs. unfold __truediv__, pow_neg1. unfold bind at 1 2. unfold lift.
  destruct (float_pow _ _) as [r| |]; [|done..].
  unfold ret. unfold bind at 1. rewrite mul_num, mul_run.
  unfold bind, set_backward, modify, ret.
  rewrite !length_snoc. rewrite alloc_eq_gen by (rewrite !length_snoc; lia).
  rewrite !set_of_pair_ne by lia.
  rewrite data_of_snoc_old, data_of_snoc_new by done.
  by rewrite <- !app_assoc.
Qed.

(** The auxiliary nodes of [sigmoid] and [tanh]: [(k * self).exp()]. *)
Lemma scaled_exp_run {A : Type} self k (K : ident → M A) (st : store) :
  (self < length st)%nat →
  (let* n := __mul__ self (Num k) in let* e := exp_ n in K e) st =
  match math_exp (data_of st self * k) with
  | Ok d =>
      K (length st + 2)%nat
        (st ++ [leaf k;
                mkValue (data_of st self * k) 0
                  (bw_mul self (length st) (S (length st)))
                  [self; length st] OpMul;
                mkValue d 0 (bw_exp (S (length st)) (length st + 2)%nat)
                  [S (length st)] OpExp])
  | Raise e =>
      (Raise e,
       st ++ [leaf k;
              mkValue (data_of st self * k) 0
                (bw_mul self (length st) (S (length st)))
                [self; length st] OpMul])
  | Complex =>
      (Complex,
       st ++ [leaf k;
              mkValue (data_of st self * k) 0
                (bw_mul self (length st) (S (length st)))
                [self; length st] OpMul])
  end.
Proof.
  intros Hs. unfold bind at 1. rewrite mul_num, mul_run.
  unfold bind at 1. rewrite exp_run.
  rewrite data_of_snoc_new. simpl data.
  rewrite data_of_snoc_old, data_of_snoc_new by done. simpl data.
  rewrite !length_snoc. rewrite set_of_pair_ne by lia.
  rewrite <- !app_assoc. simpl.
  replace (length st + 2)%nat with (S (S (length st))) by lia.
  destruct (math_exp _); [|done..].
  by rewrite <- !app_assoc.
Qed.

Lemma sigmoid_run self (st : store) :
  (self < length st)%nat →
  sigmoid self st =
  match math_exp (data_of st self * -1) with
  | Ok d =>
      (Ok (length st + 3)%nat,
       st ++ [leaf (-1);
              mkValue (data_of st self * -1) 0
                (bw_mul self (length st) (S (length st)))
                [self; length st] OpMul;
              mkValue d 0 (bw_exp (S (length st)) (length st + 2)%nat)
                [S (length st)] OpExp;
              mkValue (1 / (1 + d)) 0
                (bw_sigmoid self (length st + 3)%nat) [self] OpSigmoid])
  | Raise e =>
      (Raise e,
       st ++ [leaf (-1);
              mkValue (data_of st self * -1) 0
                (bw_mul self (length st) (S (length st)))
                [self; length st] OpMul])
  | Complex =>
      (Complex,
       st ++ [leaf (-1);
              mkValue (data_of st self * -1) 0
                (bw_mul self (length st) (S (length st)))
                [self; length st] OpMul])
  end.
Proof.
  intros Hs. unfold sigmoid, __neg__. rewrite scaled_exp_run by done.
  destruct (math_exp _) as [d| |] eqn:Hd; [|done..].
  apply math_exp_Ok in Hd.
  unfold bind at 1.
  replace (data_of (_ ++ _) (length st + 2)) with d.
  2:{ unfold data_of. rewrite (lookup_total_app_r st) by lia.
      by replace (length st + 2 - length st)%nat with 2%nat by lia. }
  rewrite float_div_nonzero by (pose proof (exp_pos (data_of st self * -1)); lra).
  rewrite (alloc_run _ _ _ (λ out, bw_sigmoid self out)).
  rewrite length_app. simpl length. rewrite <- !app_assoc. simpl.
  by replace (length st + 3)%nat with (length st + 3)%nat by lia.
Qed.

Lemma tanh_run self (st : store) :
  (self < length st)%nat →
  tanh_ self st =
  match math_exp (data_of st self * -2) with
  | Ok d =>
      (Ok (length st + 3)%nat,
       st ++ [leaf (-2);
              mkValue (data_of st self * -2) 0
                (bw_mul self (length st) (S (length st)))
                [self; length st] OpMul;
              mkValue d 0 (bw_exp (S (length st)) (length st + 2)%nat)
                [S (length st)] OpExp;
              mkValue (2 / (1 + d) - 1) 0
                (bw_tanh self (length st + 3)%nat) [self] OpTanh])
  | Raise e =>
      (Raise e,
       st ++ [leaf (-2);
              mkValue (data_of st self * -2) 0
                (bw_mul self (length st) (S (length st)))
                [self; length st] OpMul])
  | Complex =>
      (Complex,
       st ++ [leaf (-2);
              mkValue (data_of st self * -2) 0
                (bw_mul self (length st) (S (length st)))
                [self; length st] OpMul])
  end.
Proof.
  intros Hs. unfold tanh_, __rmul__. rewrite scaled_exp_run by done.
  destruct (math_exp _) as [d| |] eqn:Hd; [|done..].
  apply math_exp_Ok in Hd.
  unfold bind at 1.
  replace (data_of (_ ++ _) (length st + 2)) with d.
  2:{ unfold data_of. rewrite (lookup_total_app_r st) by lia.
      by replace (length st + 2 - length st)%nat with 2%nat by lia. }
  rewrite float_div_nonzero by (pose proof (exp_pos (data_of st self * -2)); lra).
  rewrite (alloc_run _ _ _ (λ out, bw_tanh self out)).
  rewrite length_app. simpl length. by rewrite <- !app_assoc.
Qed.

Lemma elu_run self alpha (st : store) :
  elu self alpha st =
  if Rlt_dec (data_of st self) 0 then
    (Ok (S (length st)),
     st ++ [mkValue (exp (data_of st self)) 0 (bw_exp self (length st))
              [self] OpExp;
            mkValue (alpha * (exp (data_of st self) - 1)) 0
              (bw_elu alpha self (S (length st))) [self] (OpELU alpha)])
  else
    (Ok (length st),
     st ++ [mkValue (data_of st self) 0 (bw_elu alpha self (length st))
              [self] (OpELU alpha)]).
Proof.
  unfold elu. unfold bind at 1.
  destruct (Rlt_dec (data_of st self) 0) as [Hneg|Hpos].
  - unfold bind at 1. rewrite exp_run, math_exp_nonpos by lra.
    unfold gets. rewrite data_of_snoc_new. simpl data.
    rewrite (alloc_run _ _ _ (λ out, bw_elu alpha self out)).
    by rewrite length_snoc, <- app_assoc.
  - by rewrite (alloc_run _ _ _ (λ out, bw_elu alpha self out)).
Qed.

End Runs.

(** ** The traversal depends on the iteration order of the graph's sets only *)

Lemma tuple_order_perm v (l : list ident) : tuple_order v l ≡ₚ l.
Proof. done. Qed.

Lemma for_each_ext {S : Type} (f g : ident → S → outcome S) l o :
  (∀ x s, f x s = g x s) → for_each f l o = for_each g l o.
Proof.
  intros H. unfold for_each. revert o.
  induction l as [|x l IH]; intros o; [done|]. simpl.
  destruct o; rewrite ?H; apply IH.
Qed.

Lemma build_topo_ext iter1 iter2 (st : store) :
  (∀ v, iter1 v (prev_of st v) = iter2 v (prev_of st v)) →
  ∀ fuel v s, build_topo iter1 fuel st v s = build_topo iter2 fuel st v s.
Proof.
  intros H. induction fuel as [|fuel IH]; intros v s; [done|].
  simpl. unfold children. rewrite H.
  by rewrite (for_each_ext _ _ _ _ (IH)).
Qed.

Lemma backward_ext iter1 iter2 fuel root (st : store) :
  (∀ v, iter1 v (prev_of st v) = iter2 v (prev_of st v)) →
  backward iter1 fuel root st = backward iter2 fuel root st.
Proof. intros H. unfold backward. by rewrite (build_topo_ext _ _ _ H). Qed.

Lemma perm_pair {A : Type} (l : list A) (a b : A) :
  l ≡ₚ [a; b] → l = [a; b] ∨ l = [b; a].
Proof.
  intros H. pose proof (Permutation_length H) as Hlen.
  destruct l as [|x [|y [|z l]]]; simplify_eq/=.
  assert (Hx : x ∈ [a; b]) by (rewrite <- H; set_solver).
  assert (Hy : y ∈ [a; b]) by (rewrite <- H; set_solver).
  assert (Ha : a ∈ [x; y]) by (rewrite H; set_solver).
  assert (Hb : b ∈ [x; y]) by (rewrite H; set_solver).
  set_unfold. naive_solver.
Qed.

Lemma backward_table iter_order tbl fuel root (st : store) :
  (∀ v l, iter_order v l ≡ₚ l) →
  length tbl = length st →
  (∀ v, v < length st → iter_order v (prev_of st v) = nth v tbl []) →
  backward iter_order fuel root st = backward (order_table tbl) fuel root st.
Proof.
  intros Hperm Hlen Htbl. apply backward_ext. intros v. unfold order_table.
  destruct (decide (v < length st)) as [Hv|Hv]; [by apply Htbl|].
  rewrite prev_of_out_of_range by lia.
  rewrite nth_overflow by lia. apply Permutation_nil_r, Hperm.
Qed.

(** ** Sums of contributions *)

Lemma pushed_single l st t p :
  NoDup l → p ∈ l →
  (∀ u, u ∈ l → u ≠ p → t ∉ targets (backward_of st u)) →
  pushed l st t = push (backward_of st p) st t.
Proof.
  induction l as [|u l IH]; intros Hnd Hp Hno; [by apply elem_of_nil in Hp|].
  apply NoDup_cons in Hnd as [Hu Hnd]. simpl.
  apply elem_of_cons in Hp as [->|Hp].
  - rewrite pushed_none; [lra|]. intros w Hw. apply Hno; set_solver.
  - rewrite push_not_target by (apply Hno; set_solver).
    rewrite IH; [lra|done|done|]. intros w Hw. apply Hno. set_solver.
Qed.

Lemma pushed_two l st t p q :
  NoDup l → p ∈ l → q ∈ l → p ≠ q →
  (∀ u, u ∈ l → u ≠ p → u ≠ q → t ∉ targets (backward_of st u)) →
  pushed l st t =
    (push (backward_of st p) st t + push (backward_of st q) st t)%R.
Proof.
  induction l as [|u l IH]; intros Hnd Hp Hq Hpq Hno; [by apply elem_of_nil in Hp|].
  apply NoDup_cons in Hnd as [Hu Hnd]. simpl.
  apply elem_of_cons in Hp as [->|Hp]; apply elem_of_cons in Hq as [->|Hq];
    try done.
  - rewrite (pushed_single l st t q); [lra|done|done|].
    intros w Hw Hwq. apply Hno; set_solver.
  - rewrite (pushed_single l st t p); [lra|done|done|].
    intros w Hw Hwp. apply Hno; set_solver.
  - rewrite push_not_target by (apply Hno; set_solver).
    rewrite IH; [lra|done..|]. intros w Hw. apply Hno. set_solver.
Qed.

(** ** The pass keeps the heap well formed *)

Lemma reachable_same_graph st st' root v :
  same_graph st st' → closed st → root < length st →
  reachable st' root v ↔ reachable st root v.
Proof.
  intros [Hlen Hsame] Hcl Hroot. split.
  - intros Hr. cut (reachable st root v ∧ v < length st); [by intros []|].
    revert v Hr. apply rtc_ind_r; [split; [apply rtc_refl|done]|].
    intros y z Hxy Hyz [IH1 IH2].
    assert (Hedge : edge st y z).
    { unfold edge in *. by destruct (Hsame y IH2) as (_ & <- & _). }
    split; [by eapply rtc_r|by eapply Hcl].
  - revert v. apply rtc_ind_r; [apply rtc_refl|].
    intros y z Hxy Hyz IH.
    eapply rtc_r; [done|].
    unfold edge in *. destruct (Hsame y) as (_ & -> & _); [|done].
    by eapply edge_in_range.
Qed.

Lemma preserves_ret {A : Type} P (a : A) : preserves P (ret a).
Proof. by intros st o st' HP [= <- <-]. Qed.

Lemma preserves_lift {A : Type} P (o : outcome A) : preserves P (lift o).
Proof. by intros st o' st' HP [= <- <-]. Qed.

Lemma preserves_gets {A : Type} P (f : store → A) : preserves P (gets f).
Proof. by intros st o st' HP [= <- <-]. Qed.

Lemma preserves_pure {A : Type} P (f : store → outcome A) :
  preserves P (λ st, (f st, st)).
Proof. by intros st o st' HP [= <- <-]. Qed.

Lemma preserves_bind {A B : Type} P (m : M A) (k : A → M B) :
  preserves P m → (∀ a, preserves P (k a)) → preserves P (bind m k).
Proof.
  intros Hm Hk st o st' HP Hrun. unfold bind in Hrun.
  destruct (m st) as [[a|e|] st1] eqn:E; apply Hm in E; try done.
  - by eapply Hk.
  - by simplify_eq.
  - by simplify_eq.
Qed.

Lemma preserves_if {A : Type} P (Q : store → Prop) (d : ∀ st, {Q st} + {¬ Q st})
    (m1 m2 : M A) :
  preserves P m1 → preserves P m2 →
  preserves P (λ st, if d st then m1 st else m2 st).
Proof. intros H1 H2 st o st' HP Hrun. destruct (d st); eauto. Qed.

Lemma preserves_grad_iadd n v x : preserves (wf_with n) (grad_iadd v x).
Proof.
  intros st o st' [Hwf Hn] [= <- <-]. split.
  - by apply well_formed_set_grad.
  - by rewrite length_set_grad.
Qed.

Lemma preserves_grad_isub n v x : preserves (wf_with n) (grad_isub v x).
Proof.
  intros st o st' [Hwf Hn] [= <- <-]. split.
  - by apply well_formed_set_grad.
  - by rewrite length_set_grad.
Qed.

Lemma well_formed_alloc (st : store) d g c ch op :
  well_formed st →
  (∀ x, x ∈ ch → x < length st) →
  (∀ o, closure_out c = Some o → o = length st) →
  (∀ t, t ∈ targets c → t ∈ ch ∨ ∃ m, m ∈ ch ∧ tc (edge st) m t) →
  well_formed (st ++ [mkValue d g c ch op]).
Proof.
  intros Hwf Hch Hout Htg. apply well_formed_snoc; [done|done|].
  simpl. split; [done|]. intros t Ht.
  assert (Hedge : ∀ m, m ∈ ch → edge (st ++ [mkValue d g c ch op]) (length st) m).
  { intros m Hm. apply edge_snoc. right. by split. }
  destruct (Htg t Ht) as [Hin|(m & Hm & Hmt)].
  - by apply tc_once, Hedge.
  - eapply tc_l; [by apply Hedge|]. by apply tc_edge_mono.
Qed.

Lemma preserves_exp_ out : preserves (wf_with out) (exp_ out).
Proof.
  intros st o st' [Hwf Hn] Hrun. rewrite exp_run in Hrun.
  destruct (math_exp _); simplify_eq; try done.
  split; [|rewrite length_app; simpl; lia].
  apply well_formed_alloc; [done|..].
  - by intros x ->%list_elem_of_singleton.
  - by intros o [= <-].
  - simpl. intros t Ht. by left.
Qed.

Lemma call_backward_well_formed c st o st' :
  well_formed st → (∀ n, closure_out c = Some n → n < length st) →
  call_backward c st = (o, st') → well_formed st' ∧ length st ≤ length st'.
Proof.
  intros Hwf Hout Hrun. split; [|by apply frames_call_backward in Hrun as [? _]].
  destruct c as [|self other out|self other out|self [x|other] out
                 |self other out|self out|self out|self out
                 |alpha self out|alpha self out|self out]; simpl in Hout;
    [by (unfold call_backward, ret in Hrun; simplify_eq)|..];
    specialize (Hout out eq_refl);
    match type of Hrun with
    | call_backward ?c _ = _ =>
        cut (preserves (wf_with out) (call_backward c));
        [intros Hp; exact (proj1 (Hp _ _ _ (conj Hwf Hout) Hrun))|]
    end.
  all: simpl; unfold operand_data, operand_grad_isub;
    repeat first
      [ apply preserves_ret | apply preserves_lift | apply preserves_gets
      | apply preserves_grad_iadd | apply preserves_grad_isub | apply preserves_exp_
      | apply preserves_bind; [|intros ?]
      | case_match
      | apply (preserves_if _ (λ st, data_of st _ < 0)%R (λ st, Rlt_dec (data_of st _) 0))
      | apply (preserves_pure _ (λ st, Ok 1%R)) ].
Qed.

Lemma call_closure_well_formed fuel c st o st' :
  well_formed st → (∀ n, closure_out c = Some n → n < length st) →
  call_closure fuel c st = (o, st') → well_formed st' ∧ length st ≤ length st'.
Proof.
  intros Hwf Hout Hrun.
  destruct (call_closure_cases fuel c st) as [E|E]; rewrite E in Hrun.
  - by eapply call_backward_well_formed.
  - by simplify_eq.
Qed.

Lemma run_backward_well_formed fuel l : ∀ st tr o st',
  well_formed st →
  (∀ u, u ∈ l → u < length st ∧
     ∀ n, closure_out (backward_of st u) = Some n → n < length st) →
  run_backward fuel l st = (tr, o, st') → well_formed st'.
Proof.
  induction l as [|v l IH]; intros st tr o st' Hwf Hl Hrun; simpl in Hrun.
  - by simplify_eq.
  - destruct (call_closure _ _ _) as [o1 st1] eqn:Hc.
    pose proof (frames_call_closure _ _ _ _ _ Hc) as [Hlen Hsame].
    apply call_closure_well_formed in Hc as [Hwf1 _]; [|done|by apply Hl; left].
    destruct o1 as [[]| |]; [|by simplify_eq..].
    destruct (run_backward fuel l st1) as [[tr1 o2] st2] eqn:Hr. simplify_eq.
    eapply IH; [exact Hwf1| |exact Hr].
    intros u Hu. destruct (Hl u) as [Hu1 Hu2]; [by right|].
    split; [lia|]. intros n Hn.
    destruct (Hsame u Hu1) as (_ & _ & _ & Hb). rewrite Hb in Hn.
    specialize (Hu2 n Hn). lia.
Qed.

Lemma backward_same_graph iter_order fuel root st tr o st' :
  backward iter_order fuel root st = (tr, o, st') → same_graph st st'.
Proof.
  unfold backward. intros Hrun.
  destruct (build_topo _ _ _ _ _) as [s| |]; [|simplify_eq; apply same_graph_refl..].
  eapply same_graph_trans; [apply same_graph_set_grad|].
  by eapply run_backward_same_graph.
Qed.

Lemma backward_well_formed iter_order fuel root st tr o st' :
  (∀ v l, iter_order v l ≡ₚ l) →
  well_formed st → root < length st →
  backward iter_order fuel root st = (tr, o, st') → well_formed st'.
Proof.
  intros Hperm Hwf Hroot Hrun. unfold backward in Hrun.
  destruct (build_topo _ _ _ _ _) as [s| |] eqn:Htopo; [|by simplify_eq..].
  destruct Hwf as (Hacyc & Hclosed & Hcl).
  destruct (build_topo_root iter_order Hperm st fuel root s Hacyc Htopo)
    as (_ & Hreach & _ & _).
  eapply run_backward_well_formed; [|  |exact Hrun].
  - by apply well_formed_set_grad.
  - intros u Hu. apply list_elem_of_In, in_rev, list_elem_of_In, Hreach in Hu.
    rewrite length_set_grad, backward_of_set_grad.
    assert (Hur : u < length st) by by eapply reachable_in_range.
    split; [done|]. intros n Hn. destruct (Hcl u) as [Ho _].
    by rewrite (Ho n Hn).
Qed.

(** Evaluation of the model on concrete heaps; real arithmetic is left alone. *)
Ltac py_eval :=
  cbv -[Rplus Rmult Rminus Ropp Rinv Rdiv IZR exp ln Rpower Rlt_dec Rle_dec
        Req_dec_T Rabs float_pow math_exp math_log float_div in_range DBL_MAX
        Rlt Rle Rgt Rge Z.pow].

Ltac py_eval_in H :=
  cbv -[Rplus Rmult Rminus Ropp Rinv Rdiv IZR exp ln Rpower Rlt_dec Rle_dec
        Req_dec_T Rabs float_pow math_exp math_log float_div in_range DBL_MAX
        Rlt Rle Rgt Rge Z.pow] in H.

Section Division.
Local Open Scope R_scope.

Lemma div_program_run x y :
  y ≠ 0 → finite (/ (y * y)) →
  div_program x y [] =
  (Ok 4%nat,
   [leaf x; leaf y; leaf (-1);
    mkValue (/ y) 0 (bw_pow 1 2 3) [1; 2]%nat OpPow;
    mkValue (x * / y) 0 (bw_truediv 0 (Ref 1%nat) 4) [0; 3]%nat OpMul]).
Proof.
  intros Hy Hf. unfold div_program. py_eval.
  rewrite float_pow_neg1 by auto using finite_inv_of_sq. done.
Qed.

Lemma div_backward iter_order fuel x y :
  (∀ v l, iter_order v l ≡ₚ l) → (3 ≤ fuel)%nat →
  y ≠ 0 → finite (y * y) → finite (/ (y * y)) →
  ∃ tr st',
    backward iter_order fuel 4
      [leaf x; leaf y; leaf (-1);
       mkValue (/ y) 0 (bw_pow 1 2 3) [1; 2]%nat OpPow;
       mkValue (x * / y) 0 (bw_truediv 0 (Ref 1%nat) 4) [0; 3]%nat OpMul]
    = (tr, Ok tt, st') ∧
    grad_of st' 0 = 1 / y ∧ grad_of st' 1 = - x / (y * y).
Proof.
  intros Hperm Hfuel Hy Hf2 Hfi2.
  pose proof (finite_inv_of_sq y Hy Hfi2) as Hfi.
  destruct fuel as [|[|[|fuel]]]; [lia..|].
  destruct (perm_pair _ _ _ (Hperm 3%nat [1; 2]%nat)) as [E3|E3];
    destruct (perm_pair _ _ _ (Hperm 4%nat [0; 3]%nat)) as [E4|E4].
  all: erewrite (backward_table iter_order
               [[]; []; []; iter_order 3%nat [1; 2]%nat; iter_order 4%nat [0; 3]%nat]);
    [|done|done|].
  all: try (intros v Hv; simpl in Hv;
            do 5 (destruct v as [|v]; [try done; by apply Permutation_nil_r, Hperm|]);
            lia).
  all: rewrite E3, E4.
  all: assert (Hyy : y * y ≠ 0) by nra.
  all: repeat (py_eval;
               first [ rewrite float_pow_2 by done
                     | rewrite float_div_nonzero by done
                     | rewrite float_pow_neg2 by done
                     | rewrite float_pow_neg1 by done
                     | rewrite math_log_pos by done
                     | match goal with
                       | |- context [Req_dec_T ?a 0] =>
                           destruct (Req_dec_T a 0) as [|_]; [done|]
                       | |- context [Rlt_dec 0 ?a] => destruct (Rlt_dec 0 a)
                       end ]).
  all: eexists _, _; split; [reflexivity|]; py_eval; split; field; done.
Qed.

End Division.

Section Power.
Local Open Scope R_scope.

Lemma in_range_raise x e : in_range x = Raise e → e = OverflowError.
Proof. unfold in_range. case_match; congruence. Qed.

(** The only exceptions of [**]: a zero base with a negative exponent,
    and a result out of range. *)
Lemma float_pow_raise x y e :
  float_pow x y = Raise e →
  (e = ZeroDivisionError ∧ x = 0 ∧ y < 0) ∨ (e = OverflowError ∧ x ≠ 0).
Proof.
  unfold float_pow. intros H.
  destruct (Req_dec_T y 0); [done|].
  destruct (Req_dec_T x 0) as [->|Hx].
  - destruct (Rlt_dec y 0); [|done]. left. split_and!; congruence.
  - right. split; [|done].
    destruct (Rlt_dec 0 x); [by eapply in_range_raise|].
    destruct (is_integer y); [by eapply in_range_raise|done].
Qed.

(** C7 — Backward step of [pow] (amended: [OverflowError] is possible).
    With [a], [b] the values of the base and of the exponent and [g] the
    gradient of the output, the step adds [da * g] to the base and
    [db * g] to the exponent, where [da] is [b * a**(b-1)] when [a] is
    non-zero and 0 otherwise, and [db] is [a**b * ln a] when [a] is
    positive and 0 otherwise. The logarithm is taken of a positive
    number only, and the step raises neither [ZeroDivisionError] nor a
    math domain error: the only exception it raises is the
    [OverflowError] of [**]. *)
Theorem pow_backward_step (st : store) (self other out : ident) :
  out ≠ self →
  let a := data_of st self in
  let b := data_of st other in
  let g := grad_of st out in
  (a = 0 →
     call_backward (bw_pow self other out) st =
     (Ok tt, accumulate [(self, 0 * g); (other, 0 * g)] st)) ∧
  (a < 0 → ∀ p, float_pow a (b - 1) = Ok p →
     call_backward (bw_pow self other out) st =
     (Ok tt, accumulate [(self, b * p * g); (other, 0 * g)] st)) ∧
  (0 < a → ∀ p q, float_pow a (b - 1) = Ok p → float_pow a b = Ok q →
     call_backward (bw_pow self other out) st =
     (Ok tt, accumulate [(self, b * p * g); (other, q * ln a * g)] st)) ∧
  (∀ e st', call_backward (bw_pow self other out) st = (Raise e, st') →
     e = OverflowError ∧ a ≠ 0 ∧ st' = st).
Proof.
  intros Hos a b g. subst a b g. unfold call_backward, accumulate.
  unfold bind, gets, grad_iadd, modify, lift, ret. simpl.
  split_and!.
  - intros Ha. destruct (Req_dec_T _ 0) as [_|]; [|done].
    destruct (Rlt_dec 0 _) as [|_]; [lra|].
    by rewrite (grad_of_set_grad_ne _ self _ out) by done.
  - intros Ha p Hp. destruct (Req_dec_T _ 0) as [|_]; [lra|].
    destruct (Rlt_dec 0 _) as [|_]; [lra|]. rewrite Hp.
    by rewrite (grad_of_set_grad_ne _ self _ out) by done.
  - intros Ha p q Hp Hq. destruct (Req_dec_T _ 0) as [|_]; [lra|].
    destruct (Rlt_dec 0 _) as [_|]; [|done]. rewrite Hp, Hq.
    rewrite math_log_pos by done.
    by rewrite (grad_of_set_grad_ne _ self _ out) by done.
  - intros e st' H.
    destruct (Req_dec_T _ 0) as [Ha|Ha].
    { destruct (Rlt_dec 0 _); [lra|]. done. }
    destruct (float_pow _ (_ - 1)) as [p| |] eqn:Hp.
    + destruct (Rlt_dec 0 _) as [Hpos|]; [|done].
      rewrite math_log_pos in H by done.
      destruct (float_pow (data_of st self) (data_of st other))
        as [q|e'|] eqn:Hq; [done| |done].
      injection H as <- <-.
      apply float_pow_raise in Hq as [(_ & ? & _)|[-> _]]; done.
    + injection H as <- <-.
      apply float_pow_raise in Hp as [(_ & ? & _)|[-> _]]; done.
    + done.
Qed.

Lemma pow_backward_step_witness :
  (2 ≠ 0)%nat ∧
  call_backward (bw_pow 0 1 2)
    [leaf 2; leaf 3; mkValue 8 1 (bw_pow 0 1 2) [0; 1]%nat OpPow] =
  (Ok tt,
   accumulate [(0%nat, 3 * 4 * 1); (1%nat, 8 * ln 2 * 1)]
     [leaf 2; leaf 3; mkValue 8 1 (bw_pow 0 1 2) [0; 1]%nat OpPow]).
Proof.
  split; [lia|].
  destruct (pow_backward_step
              [leaf 2; leaf 3; mkValue 8 1 (bw_pow 0 1 2) [0; 1]%nat OpPow]
              0 1 2 ltac:(lia)) as (_ & _ & Hpos & _).
  apply Hpos.
  - unfold data_of. simpl. lra.
  - unfold data_of. simpl. replace (3 - 1) with (IZR 2) by lra.
    rewrite float_pow_int by lra. simpl.
    rewrite in_range_finite; [f_equal; lra|].
    apply finite_small. rewrite Rabs_pos_eq; lra.
  - unfold data_of. simpl. rewrite (float_pow_int 2 3) by lra. simpl.
    rewrite in_range_finite; [f_equal; lra|].
    apply finite_small. rewrite Rabs_pos_eq; lra.
Defined.

(** A finite base and exponent for which the forward power is computed
    and the backward step raises: 2^-600 and -1. *)
Lemma pow_backward_overflows :
  finite (/ IZR (2 ^ 600)) ∧ finite (-1) ∧
  ∃ st tr st',
    pow_program (/ IZR (2 ^ 600)) (-1) [] = (Ok 2%nat, st) ∧
    data_of st 2 = IZR (2 ^ 600) ∧ finite (data_of st 2) ∧
    backward tuple_order 3 2 st = (tr, Raise OverflowError, st').
Proof.
  assert (Hpos : 0 < IZR (2 ^ 600)).
  { apply IZR_lt. apply Z.ltb_lt. by vm_compute. }
  assert (Hinv : 0 < / IZR (2 ^ 600)) by by apply Rinv_0_lt_compat.
  assert (Hbig : finite (IZR (2 ^ 600))).
  { unfold finite, DBL_MAX. rewrite Rabs_pos_eq by lra.
    apply IZR_le. apply Z.leb_le. by vm_compute. }
  assert (Hfwd : float_pow (/ IZR (2 ^ 600)) (-1) = Ok (IZR (2 ^ 600))).
  { change (-1) with (IZR (-1)). rewrite float_pow_int by lra.
    simpl powerRZ. rewrite Rmult_1_r, Rinv_inv. by apply in_range_finite. }
  assert (Hbwd : float_pow (/ IZR (2 ^ 600)) (-1 - 1) = Raise OverflowError).
  { replace (-1 - 1) with (IZR (-2)) by lra. rewrite float_pow_int by lra.
    apply in_range_overflow. simpl powerRZ.
    rewrite Rmult_1_r, Rinv_mult, Rinv_inv, <- mult_IZR.
    rewrite Rabs_pos_eq by (apply IZR_le; apply Z.leb_le; by vm_compute).
    unfold DBL_MAX. apply IZR_lt. apply Z.ltb_lt. by vm_compute. }
  split_and!.
  - apply finite_small. rewrite Rabs_pos_eq by lra.
    assert (/ IZR (2 ^ 600) <= 1); [|lra].
    rewrite <- Rinv_1. apply Rinv_le_contravar; [lra|].
    apply IZR_le. apply Z.leb_le. by vm_compute.
  - apply finite_small. rewrite Rabs_left; lra.
  - eexists _, _, _. unfold pow_program. py_eval. rewrite Hfwd.
    split_and!; [reflexivity|done|done|].
    py_eval.
    destruct (Req_dec_T (/ IZR (2 ^ 600)) 0) as [|_]; [lra|].
    rewrite Hbwd. reflexivity.
Qed.

End Power.

Section Elu.
Local Open Scope R_scope.

(** C8 — ELU (amended: in the negative branch the backward step can raise
    [OverflowError]). [elu(a, alpha)] always produces a node, whose only
    operand is [a] and whose value is [a.value] if [a.value >= 0] and
    [alpha * (e^(a.value) - 1)] otherwise. Its backward step (the body of
    the closure, on any later state [s] of the heap) adds [1 * out.grad] to
    the gradient of [a] if [a.value >= 0], without evaluating any
    exponential. If [a.value < 0] it adds [alpha * e^(out.value) * out.grad],
    the exponential being taken of the value of the output, when that
    exponential is a finite double; when it is not (for a finite [alpha]),
    it raises [OverflowError] and adds nothing. *)
Theorem elu_value_and_backward_step (st : store) (self : ident) (alpha : R) :
  (self < length st)%nat →
  let a := data_of st self in
  ∃ out st',
    elu self alpha st = (Ok out, st') ∧
    same_graph st st' ∧ (∀ v, (v < length st)%nat → grad_of st' v = grad_of st v) ∧
    (length st ≤ out < length st')%nat ∧
    data_of st' out = (if Rlt_dec a 0 then alpha * (exp a - 1) else a) ∧
    prev_of st' out = [self] ∧ op_of st' out = OpELU alpha ∧
    backward_of st' out = bw_elu alpha self out ∧
    ∀ s : store,
      same_graph st' s →
      let d := data_of st' out in
      let g := grad_of s out in
      (¬ a < 0 →
         call_backward (bw_elu alpha self out) s =
         (Ok tt, accumulate [(self, 1 * g)] s)) ∧
      (a < 0 → finite (exp d) →
         ∃ s', call_backward (bw_elu alpha self out) s = (Ok tt, s') ∧
               same_graph s s' ∧
               ∀ v, (v < length s)%nat →
                 grad_of s' v =
                 grad_of s v + (if decide (v = self) then alpha * exp d * g else 0)) ∧
      (a < 0 → finite alpha → ¬ finite (exp d) →
         ∃ s', call_backward (bw_elu alpha self out) s = (Raise OverflowError, s') ∧
               same_graph s s' ∧
               ∀ v, (v < length s)%nat → grad_of s' v = grad_of s v).
Proof.
  intros Hs a. subst a. rewrite elu_run.
  assert (Hstep : ∀ out s, (self < out)%nat → (out < length s)%nat →
    let d := data_of s out in
    let g := grad_of s out in
    (¬ data_of s self < 0 →
       call_backward (bw_elu alpha self out) s =
       (Ok tt, accumulate [(self, 1 * g)] s)) ∧
    (data_of s self < 0 → finite (exp d) →
       ∃ s', call_backward (bw_elu alpha self out) s = (Ok tt, s') ∧
             same_graph s s' ∧
             ∀ v, (v < length s)%nat →
               grad_of s' v =
               grad_of s v + (if decide (v = self) then alpha * exp d * g else 0)) ∧
    (data_of s self < 0 → finite d → ¬ finite (exp d) →
       ∃ s', call_backward (bw_elu alpha self out) s = (Raise OverflowError, s') ∧
             same_graph s s' ∧
             ∀ v, (v < length s)%nat → grad_of s' v = grad_of s v)).
  { intros out s Hso Hout d g. subst d g. split_and!.
    - intros Hge. unfold call_backward, bind, gets, grad_iadd, modify, accumulate.
      simpl. by destruct (Rlt_dec (data_of s self) 0).
    - intros Hneg Hfin.
      destruct (call_backward (bw_elu alpha self out) s) as [o s'] eqn:Hrun.
      pose proof (frames_call_backward _ _ _ _ Hrun) as Hsame.
      assert (o = Ok tt) as ->.
      { unfold call_backward, bind, gets, grad_iadd, modify in Hrun.
        destruct (Rlt_dec (data_of s self) 0); [|done].
        rewrite exp_run in Hrun.
        rewrite math_exp_finite in Hrun by done. by simplify_eq. }
      exists s'. split_and!; [done|done|].
      intros v Hv. rewrite (call_backward_pushes _ _ _ v Hrun); [| | |done].
      + unfold push. simpl. destruct (Rlt_dec (data_of s self) 0); [|done].
        repeat case_decide; subst; try lra; done.
      + intros o [= <-]. split; [done|]. simpl. rewrite list_elem_of_singleton. lia.
      + simpl. intros t ->%list_elem_of_singleton. lia.
    - intros Hneg Hfd Hinf.
      unfold call_backward, bind, gets, grad_iadd, modify.
      destruct (Rlt_dec (data_of s self) 0); [|done].
      rewrite exp_run, math_exp_range by done.
      exists s. split_and!; [done|apply same_graph_refl|done]. }
  assert (Hsmall : ∀ x, x < 0 → finite alpha → finite (alpha * (exp x - 1))).
  { unfold finite. intros x Hx Hal. rewrite Rabs_mult.
    assert (Rabs (exp x - 1) <= 1).
    { pose proof (exp_pos x). pose proof (exp_neg_lt_1 x Hx).
      rewrite Rabs_left; lra. }
    pose proof (Rabs_pos alpha). nra. }
  assert (Hback : ∀ (ext : store) out d,
    (self < out)%nat → (out < length (st ++ ext))%nat →
    data_of (st ++ ext) out = d →
    (data_of st self < 0 → finite alpha → finite d) →
    ∀ s : store, same_graph (st ++ ext) s →
      let g := grad_of s out in
      (¬ data_of st self < 0 →
         call_backward (bw_elu alpha self out) s =
         (Ok tt, accumulate [(self, 1 * g)] s)) ∧
      (data_of st self < 0 → finite (exp d) →
         ∃ s', call_backward (bw_elu alpha self out) s = (Ok tt, s') ∧
               same_graph s s' ∧
               ∀ v, (v < length s)%nat →
                 grad_of s' v =
                 grad_of s v + (if decide (v = self) then alpha * exp d * g else 0)) ∧
      (data_of st self < 0 → finite alpha → ¬ finite (exp d) →
         ∃ s', call_backward (bw_elu alpha self out) s = (Raise OverflowError, s') ∧
               same_graph s s' ∧
               ∀ v, (v < length s)%nat → grad_of s' v = grad_of s v)).
  { intros ext out d Hso Hout Hd Hfd s [Hl2 Hg2] g. subst g.
    destruct (Hg2 out Hout) as (Hdo & _).
    destruct (Hg2 self) as (Hds & _); [rewrite length_app; lia|].
    assert (Hself : data_of (st ++ ext) self = data_of st self)
      by (unfold data_of; by rewrite lookup_total_app_l).
    rewrite Hself in Hds.
    destruct (Hstep out s Hso ltac:(lia)) as (H1 & H2 & H3).
    rewrite Hds in H1, H2, H3. rewrite Hdo, Hd in H2, H3.
    split_and!; [exact H1|exact H2|].
    intros Ha Hal Hnf. apply H3; [done|by apply Hfd|done]. }
  destruct (Rlt_dec (data_of st self) 0) as [Hneg|Hpos];
    (eexists _, _; split; [done|]);
    (split; [|split; [|split; [|split; [|split; [|split; [|split]]]]]]).
  all: try (rewrite length_app; simpl; lia).
  all: try (intros v Hv; unfold grad_of; by rewrite lookup_total_app_l).
  all: try (split; [rewrite length_app; simpl; lia|]; intros v Hv;
            unfold data_of, prev_of, op_of, backward_of;
            by rewrite lookup_total_app_l).
  all: try (apply Hback; [lia|rewrite length_app; simpl; lia|done|];
            intros Ha Hal;
            first [ lra
                  | unfold data_of; rewrite (lookup_total_app_r st) by lia;
                    replace (S (length st) - length st)%nat with 1%nat by lia;
                    simpl; by apply Hsmall ]).
  all: unfold data_of, prev_of, op_of, backward_of.
  all: try (rewrite (lookup_total_app_r st) by lia;
            by replace (S (length st) - length st)%nat with 1%nat by lia).
  all: by rewrite lookup_total_snoc, decide_True.
Qed.

Lemma elu_value_and_backward_step_witness :
  (0 < length [leaf (-1)])%nat ∧
  ∃ out st' s',
    elu 0 1 [leaf (-1)] = (Ok out, st') ∧
    data_of st' out = 1 * (exp (-1) - 1) ∧
    prev_of st' out = [0%nat] ∧
    call_backward (bw_elu 1 0 out) (set_grad out 1 st') = (Ok tt, s') ∧
    grad_of s' 0 = 0 + 1 * exp (1 * (exp (-1) - 1)) * 1.
Proof.
  assert (H : (0 < length [leaf (-1)])%nat) by (simpl; lia).
  split; [exact H|].
  destruct (elu_value_and_backward_step [leaf (-1)] 0 1 H)
    as (out & st' & Hrun & _ & Hg0 & Hout & Hd & Hp & _ & _ & Hstep).
  assert (Hneg : data_of [leaf (-1)] 0 < 0) by (unfold data_of; simpl; lra).
  assert (Hd' : data_of st' out = 1 * (exp (-1) - 1)).
  { rewrite Hd. unfold data_of. simpl. destruct (Rlt_dec (-1) 0); [done|lra]. }
  destruct (Hstep (set_grad out 1 st') (same_graph_set_grad _ _ _))
    as (_ & Hok & _).
  destruct (Hok Hneg) as (s' & Hcall & _ & Hg).
  { rewrite Hd'. apply finite_small. rewrite Rabs_pos_eq by (left; apply exp_pos).
    assert (exp (1 * (exp (-1) - 1)) < 1); [|lra].
    apply exp_neg_lt_1. assert (exp (-1) < 1); [|lra]. apply exp_neg_lt_1. lra. }
  exists out, st', s'. split_and!; [done|done|done|done|].
  simpl in Hout. rewrite Hg by (rewrite length_set_grad; lia).
  rewrite decide_True by done.
  rewrite grad_of_set_grad_ne by lia.
  rewrite Hg0 by (simpl; lia).
  rewrite grad_of_set_grad, decide_True by (split; [done|lia]).
  rewrite Hd'. unfold grad_of. simpl. lra.
Defined.

(** An input and a coefficient for which the backward step of [elu] adds
    nothing and raises: -10 and -3000. *)
Lemma elu_backward_overflows :
  ∃ st tr st',
    elu_program (-10) (-3000) [] = (Ok 2%nat, st) ∧
    backward tuple_order 2 2 st = (tr, Raise OverflowError, st') ∧
    grad_of st' 0 = 0.
Proof.
  assert (Hneg : -10 < 0) by lra.
  assert (Hbig : 2000 <= -3000 * (exp (-10) - 1)).
  { assert (exp (-10) < / 11); [|lra].
    replace (-10) with (- (10)) by lra.
    rewrite exp_Ropp. apply Rinv_lt_contravar.
    - pose proof (exp_pos 10). lra.
    - pose proof (exp_ineq1 10). lra. }
  eexists _, _, _. unfold elu_program. py_eval.
  destruct (Rlt_dec (-10) 0) as [_|]; [|done].
  rewrite math_exp_nonpos by lra. py_eval.
  split; [reflexivity|]. py_eval.
  destruct (Rlt_dec (-10) 0) as [_|]; [|done].
  rewrite math_exp_overflow
    by first [done|pose proof DBL_MAX_million; pose proof (exp_pos (-10)); lra].
  split; [reflexivity|]. py_eval. done.
Qed.

End Elu.

Section Totality.
Local Open Scope R_scope.

(** [self ** other]: the float power decides the outcome. *)
Lemma pow_operand_run self other (st : store) :
  (self < length st)%nat → operand_in st other →
  match float_pow (data_of st self) (operand_value st other) with
  | Ok d => ∃ out st', __pow__ self other st = (Ok out, st') ∧
                       data_of st' out = d
  | Raise e => ∃ st', __pow__ self other st = (Raise e, st')
  | Complex => ∃ st', __pow__ self other st = (Complex, st')
  end.
Proof.
  intros Hs Ho. destruct other as [x|o]; simpl in *.
  - rewrite pow_num, pow_run.
    rewrite data_of_snoc_old, data_of_snoc_new by done. simpl.
    destruct (float_pow _ _); eauto.
    eexists _, _. split; [done|]. by rewrite data_of_snoc_new.
  - rewrite pow_run. destruct (float_pow _ _); eauto.
    eexists _, _. split; [done|]. by rewrite data_of_snoc_new.
Qed.

Lemma pow_raises self other (st : store) e st' :
  (self < length st)%nat → operand_in st other →
  __pow__ self other st = (Raise e, st') →
  float_pow (data_of st self) (operand_value st other) = Raise e.
Proof.
  intros Hs Ho H.
  pose proof (pow_operand_run self other st Hs Ho) as Hr.
  destruct (float_pow _ _); [destruct Hr as (? & ? & Hr & _)|destruct Hr as [? Hr]..];
    rewrite Hr in H; by simplify_eq.
Qed.

Lemma truediv_operand_run self other (st : store) :
  (self < length st)%nat → operand_in st other →
  match float_pow (operand_value st other) (-1) with
  | Ok r => ∃ out st', __truediv__ self other st = (Ok out, st') ∧
                       data_of st' out = data_of st self * r
  | Raise e => ∃ st', __truediv__ self other st = (Raise e, st')
  | Complex => ∃ st', __truediv__ self other st = (Complex, st')
  end.
Proof.
  intros Hs Ho. destruct other as [x|o]; simpl in *.
  - rewrite truediv_num by done. destruct (float_pow _ _); eauto.
    eexists _, _. split; [done|].
    unfold data_of. rewrite (lookup_total_app_r st) by lia.
    by replace (S (length st) - length st)%nat with 1%nat by lia.
  - rewrite truediv_run by done. destruct (float_pow _ _); eauto.
    eexists _, _. split; [done|].
    unfold data_of at 1. rewrite (lookup_total_app_r st) by lia.
    by replace (length st + 2 - length st)%nat with 2%nat by lia.
Qed.

Lemma float_pow_neg1_overflow y :
  y ≠ 0 → ¬ finite (/ y) → float_pow y (-1) = Raise OverflowError.
Proof.
  intros Hy Hf. rewrite (float_pow_int y (-1)) by done.
  simpl. rewrite Rmult_1_r. apply in_range_overflow. unfold finite in Hf. lra.
Qed.

Lemma float_pow_pos x y :
  0 < x → float_pow x y = in_range (Rpower x y).
Proof.
  intros Hx. unfold float_pow.
  destruct (Req_dec_T y 0) as [->|Hy].
  - rewrite Rpower_O by done. symmetry. apply in_range_finite, finite_small.
    rewrite Rabs_R1. lra.
  - destruct (Req_dec_T x 0); [lra|]. by destruct (Rlt_dec 0 x).
Qed.

(** When [2x] is beyond the double range, the value of [tanh] is -1 or 1
    up to less than the smallest normal double: what Python computes from
    the infinite product, [2 / (1 + inf) - 1] or [2 / (1 + 0.0) - 1]. *)
Lemma tanh_saturates (a : R) :
  ¬ finite (a * -2) →
  Rabs (2 / (1 + exp (a * -2)) - 1 - (if Rlt_dec a 0 then -1 else 1))
  < 2 / DBL_MAX.
Proof.
  unfold finite. intros Hf. pose proof DBL_MAX_million as HM.
  destruct (Rlt_dec a 0) as [Ha|Ha].
  - assert (Hx : DBL_MAX < a * -2) by (rewrite Rabs_pos_eq in Hf by lra; lra).
    pose proof (exp_ineq1 (a * -2)) as He.
    assert (He' : 1 + a * -2 < exp (a * -2)) by (apply He; lra).
    revert He'. generalize (exp (a * -2)). intros e He'.
    replace (2 / (1 + e) - 1 - -1) with (2 * / (1 + e)) by (field; lra).
    assert (Hi : 0 < / (1 + e) < / DBL_MAX).
    { split; [apply Rinv_0_lt_compat; lra|].
      apply Rinv_lt_contravar; nra. }
    rewrite Rabs_pos_eq by lra. unfold Rdiv. lra.
  - assert (Hx : DBL_MAX < a * 2) by (rewrite Rabs_left1 in Hf by lra; lra).
    pose proof (exp_ineq1 (a * 2)) as He.
    assert (He' : 1 + a * 2 < exp (a * 2)) by (apply He; lra).
    replace (a * -2) with (- (a * 2)) by lra. rewrite exp_Ropp.
    revert He'. generalize (exp (a * 2)). intros E He'.
    assert (Hi : 0 < / E < / DBL_MAX).
    { split; [apply Rinv_0_lt_compat; lra|].
      apply Rinv_lt_contravar; nra. }
    revert Hi. generalize (/ E). intros e Hi.
    replace (2 / (1 + e) - 1 - 1) with (- (2 * e * / (1 + e))) by (field; lra).
    assert (Hq : 0 < / (1 + e) < 1).
    { split; [apply Rinv_0_lt_compat; lra|].
      rewrite <- Rinv_1. apply Rinv_lt_contravar; lra. }
    rewrite Rabs_Ropp, Rabs_pos_eq by nra. unfold Rdiv. nra.
Qed.

(** C4 — Totality of the forward pass (amended: [exp], [sigmoid], [tanh],
    [pow] and [div] do raise on finite inputs, and nothing degrades to a
    zero gradient in the forward pass). On every input, [add], [mul],
    [sub], negation, [relu], [leaky_relu] and [elu] complete.
    [exp] and [sigmoid] complete when [e^x], resp. [e^-x], is a finite
    double, and raise [OverflowError] on a finite input otherwise. [tanh]
    completes when [e^-2x] is a finite double, and also when [2x] itself
    is beyond the double range (the product [-2 * x] is then an infinity,
    of which [math.exp] raises nothing); it raises [OverflowError]
    otherwise; in the second case its value is -1 or 1 up to less than
    [2 / DBL_MAX]. [pow] completes on a zero exponent (value 1), on a zero base
    with a positive exponent (value 0), on a positive base when the power
    is a finite double, and on a non-zero base with an integer exponent
    when the power is a finite double; it raises [ZeroDivisionError] on a
    zero base with a negative exponent, [OverflowError] on a non-zero base
    when the power is out of range, and nothing else. [div] raises
    [ZeroDivisionError] on a zero divisor, completes on a non-zero divisor
    whose inverse is a finite double, and raises [OverflowError] when the
    inverse is out of range. *)
Theorem forward_totality (st : store) (self : ident) (other : operand) (alpha : R) :
  (self < length st)%nat → operand_in st other →
  let a := data_of st self in
  let b := operand_value st other in
  (∃ out st', __add__ self other st = (Ok out, st')) ∧
  (∃ out st', __mul__ self other st = (Ok out, st')) ∧
  (∃ out st', __sub__ self other st = (Ok out, st')) ∧
  (∃ out st', __neg__ self st = (Ok out, st')) ∧
  (∃ out st', relu self st = (Ok out, st')) ∧
  (∃ out st', leaky_relu self alpha st = (Ok out, st')) ∧
  (∃ out st', elu self alpha st = (Ok out, st')) ∧
  (* exp *)
  (finite (exp a) →
     ∃ out st', exp_ self st = (Ok out, st') ∧ data_of st' out = exp a) ∧
  (finite a → ¬ finite (exp a) →
     ∃ st', exp_ self st = (Raise OverflowError, st')) ∧
  (* sigmoid *)
  (finite (exp (a * -1)) →
     ∃ out st', sigmoid self st = (Ok out, st') ∧
                data_of st' out = 1 / (1 + exp (a * -1))) ∧
  (finite a → ¬ finite (exp (a * -1)) →
     ∃ st', sigmoid self st = (Raise OverflowError, st')) ∧
  (* tanh *)
  (finite (exp (a * -2)) ∨ ¬ finite (a * -2) →
     ∃ out st', tanh_ self st = (Ok out, st') ∧
                data_of st' out = 2 / (1 + exp (a * -2)) - 1) ∧
  (¬ finite (a * -2) →
     ∃ out st', tanh_ self st = (Ok out, st') ∧
                Rabs (data_of st' out - (if Rlt_dec a 0 then -1 else 1))
                < 2 / DBL_MAX) ∧
  (finite (a * -2) → ¬ finite (exp (a * -2)) →
     ∃ st', tanh_ self st = (Raise OverflowError, st')) ∧
  (* pow *)
  (b = 0 →
     ∃ out st', __pow__ self other st = (Ok out, st') ∧ data_of st' out = 1) ∧
  (a = 0 → 0 < b →
     ∃ out st', __pow__ self other st = (Ok out, st') ∧ data_of st' out = 0) ∧
  (0 < a → finite (Rpower a b) →
     ∃ out st', __pow__ self other st = (Ok out, st') ∧
                data_of st' out = Rpower a b) ∧
  (∀ n : Z, a ≠ 0 → b = IZR n → finite (powerRZ a n) →
     ∃ out st', __pow__ self other st = (Ok out, st') ∧
                data_of st' out = powerRZ a n) ∧
  (a = 0 → b < 0 → ∃ st', __pow__ self other st = (Raise ZeroDivisionError, st')) ∧
  (0 < a → ¬ finite (Rpower a b) →
     ∃ st', __pow__ self other st = (Raise OverflowError, st')) ∧
  (∀ n : Z, a ≠ 0 → b = IZR n → ¬ finite (powerRZ a n) →
     ∃ st', __pow__ self other st = (Raise OverflowError, st')) ∧
  (∀ e st', __pow__ self other st = (Raise e, st') →
     (e = ZeroDivisionError ∧ a = 0 ∧ b < 0) ∨ (e = OverflowError ∧ a ≠ 0)) ∧
  (* div *)
  (b = 0 → ∃ st', __truediv__ self other st = (Raise ZeroDivisionError, st')) ∧
  (b ≠ 0 → finite (/ b) →
     ∃ out st', __truediv__ self other st = (Ok out, st') ∧
                data_of st' out = a * / b) ∧
  (b ≠ 0 → ¬ finite (/ b) →
     ∃ st', __truediv__ self other st = (Raise OverflowError, st')).
Proof.
  intros Hs Ho a b. subst a b.
  assert (Hlast : ∀ (n1 n2 n3 n4 : Value),
    data_of (st ++ [n1; n2; n3; n4]) (length st + 3) = data n4).
  { intros. unfold data_of. rewrite (lookup_total_app_r st) by lia.
    by replace (length st + 3 - length st)%nat with 3%nat by lia. }
  assert (Hfin2 : ∀ x, finite x → finite (x * -1)).
  { unfold finite. intros x Hx. replace (x * -1) with (- x) by lra.
    by rewrite Rabs_Ropp. }
  assert (Hover : ∀ x, ¬ finite x → DBL_MAX < Rabs x).
  { unfold finite. intros x Hx. lra. }
  pose proof (pow_operand_run self other st Hs Ho) as Hpow.
  pose proof (truediv_operand_run self other st Hs Ho) as Hdiv.
  split_and!.
  - destruct other; [rewrite add_num|]; rewrite add_run; eauto.
  - destruct other; [rewrite mul_num|]; rewrite mul_run; eauto.
  - destruct other as [x|o]; simpl in Ho.
    + rewrite sub_num, add_num, add_run; eauto.
    + rewrite sub_run by done; eauto.
  - rewrite neg_run by done; eauto.
  - rewrite relu_run; eauto.
  - rewrite leaky_relu_run; eauto.
  - rewrite elu_run. destruct (Rlt_dec _ _); eauto.
  - intros Hf. rewrite exp_run, math_exp_finite by done.
    eexists _, _. split; [done|]. by rewrite data_of_snoc_new.
  - intros Hfa Hf. rewrite exp_run, math_exp_range by done. eauto.
  - intros Hf. rewrite sigmoid_run, math_exp_finite by done.
    eexists _, _. split; [done|]. by rewrite Hlast.
  - intros Hfa Hf. rewrite sigmoid_run, math_exp_range by auto. eauto.
  - intros [Hf|Hf]; rewrite tanh_run by done;
      [rewrite math_exp_finite by done|rewrite math_exp_infinite by done];
      (eexists _, _; split; [done|]; by rewrite Hlast).
  - intros Hf. rewrite tanh_run, math_exp_infinite by done.
    eexists _, _. split; [done|]. rewrite Hlast. by apply tanh_saturates.
  - intros Hfa Hf. rewrite tanh_run, math_exp_range by done. eauto.
  - intros Hb. rewrite Hb in Hpow. unfold float_pow in Hpow.
    by destruct (Req_dec_T 0 0).
  - intros Ha Hb. rewrite Ha in Hpow. unfold float_pow in Hpow.
    destruct (Req_dec_T _ 0); [lra|]. destruct (Req_dec_T 0 0); [|done].
    destruct (Rlt_dec _ 0); [lra|done].
  - intros Ha Hf. by rewrite float_pow_pos, in_range_finite in Hpow.
  - intros n Ha Hb Hf. by rewrite Hb, float_pow_int, in_range_finite in Hpow.
  - intros Ha Hb. by rewrite Ha, float_pow_zero_neg in Hpow.
  - intros Ha Hf. by rewrite float_pow_pos, in_range_overflow in Hpow by auto.
  - intros n Ha Hb Hf.
    by rewrite Hb, float_pow_int, in_range_overflow in Hpow by auto.
  - intros e st' H. apply pow_raises in H; [|done..].
    by apply float_pow_raise in H.
  - intros Hb. by rewrite Hb, float_pow_zero_neg in Hdiv by lra.
  - intros Hb Hf. by rewrite float_pow_neg1 in Hdiv.
  - intros Hb Hf. by rewrite float_pow_neg1_overflow in Hdiv.
Qed.

Lemma forward_totality_witness :
  (0 < length [leaf 1; leaf 2])%nat ∧ operand_in [leaf 1; leaf 2] (Ref 1%nat) ∧
  (∃ out st', __add__ 0 (Ref 1%nat) [leaf 1; leaf 2] = (Ok out, st')) ∧
  (∃ out st', tanh_ 0 [leaf 1; leaf 2] = (Ok out, st') ∧
              data_of st' out = 2 / (1 + exp (1 * -2)) - 1) ∧
  (∃ out st', __pow__ 0 (Ref 1%nat) [leaf 1; leaf 2] = (Ok out, st') ∧
              data_of st' out = Rpower 1 2) ∧
  (∃ out st', __truediv__ 0 (Ref 1%nat) [leaf 1; leaf 2] = (Ok out, st') ∧
              data_of st' out = 1 * / 2).
Proof.
  assert (H0 : (0 < length [leaf 1; leaf 2])%nat) by (simpl; lia).
  assert (H1 : operand_in [leaf 1; leaf 2] (Ref 1%nat)) by (simpl; lia).
  split_and!; [exact H0|exact H1|..];
    destruct (forward_totality [leaf 1; leaf 2] 0 (Ref 1%nat) 1 H0 H1)
      as (Hadd & _ & _ & _ & _ & _ & _ & _ & _ & _ & _ & Htanh & _ & _ & _ & _
          & Hpow & _ & _ & _ & _ & _ & _ & Hdiv & _).
  - exact Hadd.
  - apply Htanh. left. apply finite_small.
    rewrite Rabs_pos_eq by (left; apply exp_pos).
    assert (exp (data_of [leaf 1; leaf 2] 0 * -2) < 1); [|lra].
    apply exp_neg_lt_1. unfold data_of. simpl. lra.
  - apply Hpow; unfold data_of; simpl; [lra|].
    unfold Rpower. rewrite ln_1, Rmult_0_r, exp_0.
    apply finite_small. rewrite Rabs_pos_eq; lra.
  - apply Hdiv; simpl; unfold data_of; simpl; [lra|].
    apply finite_small. rewrite Rabs_pos_eq; lra.
Defined.

(** Finite inputs on which the forward pass raises: [Value(0) ** -1],
    [Value(1) / Value(0)] and [Value(2000).exp()]. *)
Lemma forward_pass_raises :
  finite 0 ∧ finite (-1) ∧ finite 1 ∧ finite 2000 ∧
  (∃ st, pow_program 0 (-1) [] = (Raise ZeroDivisionError, st)) ∧
  (∃ st, div_program 1 0 [] = (Raise ZeroDivisionError, st)) ∧
  (∃ st, exp_program 2000 [] = (Raise OverflowError, st)).
Proof.
  split_and!.
  - apply finite_small. rewrite Rabs_R0. lra.
  - apply finite_small. rewrite Rabs_left; lra.
  - apply finite_small. rewrite Rabs_pos_eq; lra.
  - apply finite_small. rewrite Rabs_pos_eq; lra.
  - eexists. unfold pow_program. py_eval.
    rewrite float_pow_zero_neg by lra. reflexivity.
  - eexists. unfold div_program. py_eval.
    rewrite float_pow_zero_neg by lra. reflexivity.
  - eexists. unfold exp_program. py_eval.
    rewrite math_exp_overflow by (pose proof DBL_MAX_million; lra). reflexivity.
Qed.

End Totality.

(** ** Concrete heaps *)

Lemma well_formed_node (st : store) (n : Value) :
  well_formed st →
  (∀ x, x ∈ _prev n → x < length st) →
  (∀ o, closure_out (_backward n) = Some o → o = length st) →
  (∀ t, t ∈ targets (_backward n) → t ∈ _prev n) →
  well_formed (st ++ [n]).
Proof.
  intros Hwf Hp Ho Ht. destruct n as [d g c ch op].
  apply well_formed_alloc; [done..|]. intros t Hin. left. by apply Ht.
Qed.

(** Well-formedness of a heap given as a list of nodes whose closures write
    to their operands. *)
Ltac wf_literal :=
  lazymatch goal with
  | |- well_formed [] => apply well_formed_nil
  | |- well_formed ?l =>
      let l' := eval cbv [List.removelast] in (List.removelast l) in
      let n := eval cbv [List.last] in (List.last l (leaf 0%R)) in
      change l with (l' ++ [n]);
      apply well_formed_node;
      [ wf_literal
      | unfold leaf; simpl; intros ? ?; set_unfold; lia
      | unfold leaf; simpl; intros ? ?; simplify_eq; done
      | unfold leaf; simpl; intros ? ?; set_unfold; tauto ]
  end.

Lemma backward_trace_reachable iter_order fuel root st tr o st' :
  (∀ v l, iter_order v l ≡ₚ l) → acyclic st →
  backward iter_order fuel root st = (tr, o, st') →
  ∀ v, v ∈ tr → reachable st root v.
Proof.
  intros Hperm Hacyc Hrun v Hv. unfold backward in Hrun.
  destruct (build_topo _ _ _ _ _) as [s| |] eqn:Htopo;
    [|simplify_eq; by apply elem_of_nil in Hv..].
  destruct (build_topo_root iter_order Hperm st fuel root s Hacyc Htopo)
    as (_ & Hreach & _ & _).
  destruct (run_backward_trace _ _ _ _ _ _ Hrun) as (rest & Hrev & _).
  apply Hreach, list_elem_of_In, in_rev, list_elem_of_In. rewrite Hrev. set_solver.
Qed.

Section Diamond.
Local Open Scope R_scope.

Lemma diamond_program_run : diamond_program [] = (Ok 5%nat, diamond_heap).
Proof. unfold diamond_program. by py_eval. Qed.

Lemma diamond_heap_well_formed : well_formed diamond_heap.
Proof. unfold diamond_heap. wf_literal. Qed.

Lemma diamond_backward :
  ∃ st',
    backward tuple_order 6 5 diamond_heap = ([5; 4; 3; 2; 1; 0]%nat, Ok tt, st') ∧
    grad_of st' 0 = 14 ∧ grad_of st' 2 = 4 ∧ grad_of st' 4 = 6 ∧
    grad_of st' 5 = 1.
Proof.
  eexists. split; [by py_eval|]. py_eval. split_and!; lra.
Qed.

Lemma chain_program_run : chain_program [] = (Ok 4%nat, chain_heap).
Proof. unfold chain_program. by py_eval. Qed.

Lemma chain_heap_well_formed : well_formed chain_heap.
Proof. unfold chain_heap. wf_literal. Qed.

End Diamond.

Lemma backward_topological_order_witness :
  let r := backward tuple_order 6 5 diamond_heap in
  (∀ v l, tuple_order v l ≡ₚ l) ∧ acyclic diamond_heap ∧
  r = (r.1.1, r.1.2, r.2) ∧
  NoDup r.1.1 ∧
  (∀ c v, c ∈ r.1.1 → reachable diamond_heap 5 v → edge diamond_heap v c →
          before v c r.1.1) ∧
  (length diamond_heap < 6 → ∃ tr', r.1.1 = 5 :: tr').
Proof.
  intros r.
  assert (Hacyc : acyclic diamond_heap) by apply diamond_heap_well_formed.
  assert (Hr : r = (r.1.1, r.1.2, r.2)) by by destruct r as [[? ?] ?].
  destruct (backward_topological_order tuple_order 6 diamond_heap 5
              r.1.1 r.1.2 r.2 tuple_order_perm Hacyc Hr)
    as (Hnd & Hord & _ & _ & Hfirst).
  split_and!; [apply tuple_order_perm|done..].
Defined.


Section Accumulating.
Local Open Scope R_scope.

(** C2 — Diamond dependency. On a well-formed graph, when [backward] on
    the root completes, a node [x] to which exactly two reachable nodes
    [p] and [q] push gradient ends with its former gradient plus the two
    contributions, each the local derivative of [p] (of [q]) in [x] times
    the final gradient of [p] (of [q]): nothing is overwritten. The same
    holds of every node but the root, with the sum of all the
    contributions it receives; the gradient of the root is 1. *)
Theorem diamond_gradient_is_sum
    (iter_order : ident → list ident → list ident) (fuel : nat)
    (st : store) (root : ident) (tr : list ident) (st' : store)
    (x p q : ident) :
  (∀ v l, iter_order v l ≡ₚ l) →
  well_formed st → (root < length st)%nat →
  backward iter_order fuel root st = (tr, Ok tt, st') →
  (x < length st)%nat → x ≠ root → p ≠ q →
  reachable st root p → reachable st root q →
  x ∈ targets (backward_of st p) → x ∈ targets (backward_of st q) →
  (∀ u, reachable st root u → x ∈ targets (backward_of st u) → u = p ∨ u = q) →
  grad_of st' x =
    grad_of st x + push (backward_of st p) st' x + push (backward_of st q) st' x ∧
  grad_of st' root = 1 ∧
  ∀ t, (t < length st)%nat → t ≠ root →
    grad_of st' t = grad_of st t + pushed tr st' t.
Proof.
  intros Hperm Hwf Hroot Hrun Hx Hxr Hpq Hp Hq Hxp Hxq Honly.
  destruct (backward_accumulates iter_order Hperm fuel st root tr st' Hwf Hroot Hrun)
    as ((Hlen & Hsame) & Hnd & Htr & Hg1 & Hacc).
  assert (Hrange : ∀ u, reachable st root u → (u < length st)%nat).
  { intros u Hu. destruct Hwf as (_ & Hclosed & _).
    by apply (reachable_in_range st root u). }
  assert (Hcl : ∀ u, reachable st root u → backward_of st' u = backward_of st u).
  { intros u Hu. by destruct (Hsame u (Hrange u Hu)) as (_ & _ & _ & ->). }
  split_and!; [|done|done].
  rewrite (Hacc x Hx Hxr).
  rewrite (pushed_two tr st' x p q); [|done|by apply Htr|by apply Htr|done|].
  - rewrite !Hcl by done. lra.
  - intros u Hu Hup Huq Hin. apply Htr in Hu. rewrite Hcl in Hin by done.
    destruct (Honly u Hu Hin); done.
Qed.

(** C9 — Frame of the backward pass. Whatever its outcome, [backward]
    leaves the value, the operands, the operation tag and the closure of
    every node as they were. When it completes on a well-formed graph the
    gradient of the root is 1, whatever it was, and the gradient of every
    other node is its former gradient plus the contributions pushed to it
    by the closures of the called nodes. *)
Theorem backward_changes_gradients_only
    (iter_order : ident → list ident → list ident) (fuel : nat)
    (st : store) (root : ident) (tr : list ident) (o : outcome unit)
    (st' : store) :
  (∀ v l, iter_order v l ≡ₚ l) →
  backward iter_order fuel root st = (tr, o, st') →
  (∀ v, (v < length st)%nat →
     data_of st' v = data_of st v ∧ prev_of st' v = prev_of st v ∧
     op_of st' v = op_of st v ∧ backward_of st' v = backward_of st v) ∧
  (well_formed st → (root < length st)%nat → o = Ok tt →
     grad_of st' root = 1 ∧
     ∀ t, (t < length st)%nat → t ≠ root →
       grad_of st' t = grad_of st t + pushed tr st' t).
Proof.
  intros Hperm Hrun. split.
  - by apply backward_same_graph in Hrun as [_ ?].
  - intros Hwf Hroot ->.
    by destruct (backward_accumulates iter_order Hperm fuel st root tr st'
                   Hwf Hroot Hrun) as (_ & _ & _ & Hg1 & Hacc).
Qed.

(** C6 — Second backward pass (amended: doubling holds for the nodes that
    receive gradient from the root only). On a well-formed graph, for a
    node whose gradient is 0 before the first pass and to which only the
    closure of the root pushes, a second [backward] on the root, with no
    gradient reset in between, leaves exactly twice the gradient of the
    first pass; the gradient of the root is 1 after each pass. *)
Theorem second_backward_doubles
    (iter_order : ident → list ident → list ident) (fuel : nat)
    (st : store) (root : ident) (tr1 tr2 : list ident) (st1 st2 : store)
    (t : ident) :
  (∀ v l, iter_order v l ≡ₚ l) →
  well_formed st → (root < length st)%nat →
  backward iter_order fuel root st = (tr1, Ok tt, st1) →
  backward iter_order fuel root st1 = (tr2, Ok tt, st2) →
  (t < length st)%nat → t ≠ root → grad_of st t = 0 →
  (∀ u, reachable st root u → t ∈ targets (backward_of st u) → u = root) →
  grad_of st2 t = 2 * grad_of st1 t ∧
  grad_of st1 root = 1 ∧ grad_of st2 root = 1.
Proof.
  intros Hperm Hwf Hroot Hrun1 Hrun2 Ht Htr Hg0 Honly.
  pose proof (backward_well_formed _ _ _ _ _ _ _ Hperm Hwf Hroot Hrun1) as Hwf1.
  destruct (backward_accumulates iter_order Hperm fuel st root tr1 st1 Hwf Hroot Hrun1)
    as (Hsg1 & Hnd1 & Htr1 & Hr1 & Hacc1).
  assert (Hroot1 : (root < length st1)%nat) by (destruct Hsg1; lia).
  destruct (backward_accumulates iter_order Hperm fuel st1 root tr2 st2 Hwf1 Hroot1 Hrun2)
    as (Hsg2 & Hnd2 & Htr2 & Hr2 & Hacc2).
  split_and!; [|done|done].
  assert (Hclosed : closed st) by (by destruct Hwf as (_ & ? & _)).
  assert (Hrange : ∀ u, reachable st root u → (u < length st)%nat).
  { intros u Hu. by apply (reachable_in_range st root u). }
  assert (Hcl1 : ∀ u, reachable st root u → backward_of st1 u = backward_of st u).
  { intros u Hu. destruct Hsg1 as [_ Hs].
    by destruct (Hs u (Hrange u Hu)) as (_ & _ & _ & ->). }
  assert (Hcl2 : ∀ u, reachable st root u → backward_of st2 u = backward_of st u).
  { intros u Hu. destruct Hsg2 as [_ Hs], Hsg1 as [Hl1 _].
    destruct (Hs u) as (_ & _ & _ & ->); [specialize (Hrange u Hu); lia|].
    by apply Hcl1. }
  assert (Hreach1 : ∀ u, reachable st1 root u ↔ reachable st root u).
  { intros u. by apply reachable_same_graph. }
  assert (Hroot_in : reachable st root root) by apply rtc_refl.
  rewrite (Hacc2 t) by (destruct Hsg1; lia || done).
  rewrite (Hacc1 t Ht Htr), Hg0.
  rewrite (pushed_single tr1 st1 t root); [|done|by apply Htr1|].
  2:{ intros u Hu Hne Hin. apply Htr1 in Hu. rewrite Hcl1 in Hin by done.
      by apply Hne, Honly. }
  rewrite (pushed_single tr2 st2 t root); [|done|by apply Htr2, Hreach1|].
  2:{ intros u Hu Hne Hin. apply Htr2, Hreach1 in Hu. rewrite Hcl2 in Hin by done.
      by apply Hne, Honly. }
  rewrite Hcl1, Hcl2 by done.
  unfold push. rewrite (pushes_ext _ st1 st2); [lra| |].
  - intros y Hy. destruct Hsg2 as [_ Hs].
    destruct (Hs y) as (-> & _); [|done].
    destruct Hwf as (_ & _ & Hok). destruct (Hok root) as [_ Htg].
    apply Htg, (tc_in_range _ _ _ Hclosed) in Hy. destruct Hsg1; lia.
  - intros n Hn. destruct Hwf as (_ & _ & Hok). destruct (Hok root) as [Hout _].
    rewrite (Hout n Hn). destruct Hsg2 as [_ Hs].
    destruct (Hs root Hroot1) as (-> & _). split; [done|lra].
Qed.

Lemma diamond_reachable_2 : reachable diamond_heap 5 2.
Proof.
  eapply rtc_l; [|apply rtc_refl]. unfold edge, prev_of, diamond_heap. simpl.
  set_solver.
Qed.

Lemma diamond_reachable_4 : reachable diamond_heap 5 4.
Proof.
  eapply rtc_l; [|apply rtc_refl]. unfold edge, prev_of, diamond_heap. simpl.
  set_solver.
Qed.

Lemma diamond_pushers u :
  (0%nat ∈ targets (backward_of diamond_heap u)) → u = 2%nat ∨ u = 4%nat.
Proof.
  intros Hin. unfold backward_of, diamond_heap in Hin.
  do 6 (destruct u as [|u]; [simpl in Hin; set_unfold in Hin; naive_solver lia|]).
  simpl in Hin. by apply elem_of_nil in Hin.
Qed.

Lemma diamond_gradient_is_sum_witness :
  let r := backward tuple_order 6 5 diamond_heap in
  well_formed diamond_heap ∧ (5 < length diamond_heap)%nat ∧
  r = (r.1.1, Ok tt, r.2) ∧
  reachable diamond_heap 5 2 ∧ reachable diamond_heap 5 4 ∧
  grad_of r.2 0 =
    grad_of diamond_heap 0 + push (backward_of diamond_heap 2) r.2 0
    + push (backward_of diamond_heap 4) r.2 0 ∧
  grad_of r.2 0 = 0 + 2 * 4 + 6.
Proof.
  intros r.
  assert (Hlen : (5 < length diamond_heap)%nat) by (simpl; lia).
  assert (Hr : r = (r.1.1, Ok tt, r.2)) by (subst r; by py_eval).
  assert (H0 : (0 < length diamond_heap)%nat) by (simpl; lia).
  destruct (diamond_gradient_is_sum tuple_order 6 diamond_heap 5 r.1.1 r.2 0 2 4
              tuple_order_perm diamond_heap_well_formed Hlen Hr H0
              ltac:(lia) ltac:(lia) diamond_reachable_2 diamond_reachable_4)
    as (Hsum & _ & _).
  - unfold backward_of, diamond_heap. simpl. set_solver.
  - unfold backward_of, diamond_heap. simpl. set_solver.
  - intros u _. apply diamond_pushers.
  - split_and!; try done; [apply diamond_heap_well_formed
                          |apply diamond_reachable_2|apply diamond_reachable_4|].
    subst r. py_eval. lra.
Defined.

Lemma backward_changes_gradients_only_witness :
  let r := backward tuple_order 6 5 diamond_heap in
  (∀ v l, tuple_order v l ≡ₚ l) ∧ r = (r.1.1, r.1.2, r.2) ∧
  (∀ v, (v < length diamond_heap)%nat →
     data_of r.2 v = data_of diamond_heap v ∧
     prev_of r.2 v = prev_of diamond_heap v ∧
     op_of r.2 v = op_of diamond_heap v ∧
     backward_of r.2 v = backward_of diamond_heap v) ∧
  grad_of r.2 5 = 1.
Proof.
  intros r.
  assert (Hr : r = (r.1.1, r.1.2, r.2)) by by destruct r as [[? ?] ?].
  destruct (backward_changes_gradients_only tuple_order 6 diamond_heap 5
              r.1.1 r.1.2 r.2 tuple_order_perm Hr) as [Hframe Hgrad].
  split_and!; [apply tuple_order_perm|done|done|].
  apply Hgrad; [apply diamond_heap_well_formed|simpl; lia|].
  subst r. by py_eval.
Defined.

(** Two passes on [c = (a * 2) * 3] with [a = Value(1)]: the gradient of
    the leaf [a] is 6 after the first and 18 after the second. *)
Lemma second_backward_triples_deep_leaf :
  ∃ st1 st2,
    chain_program [] = (Ok 4%nat, chain_heap) ∧
    prev_of chain_heap 0 = [] ∧ grad_of chain_heap 0 = 0 ∧
    backward tuple_order 5 4 chain_heap = ([4; 3; 2; 1; 0]%nat, Ok tt, st1) ∧
    backward tuple_order 5 4 st1 = ([4; 3; 2; 1; 0]%nat, Ok tt, st2) ∧
    grad_of st1 0 = 6 ∧ grad_of st2 0 = 18 ∧
    grad_of st2 0 ≠ 2 * grad_of st1 0.
Proof.
  eexists _, _. split; [apply chain_program_run|].
  split; [done|]. split; [done|].
  split; [by py_eval|]. split; [by py_eval|].
  py_eval. split_and!; lra.
Qed.

Lemma chain_pushers u :
  (3%nat ∈ targets (backward_of chain_heap u)) → u = 4%nat.
Proof.
  intros Hin. unfold backward_of, chain_heap in Hin.
  do 5 (destruct u as [|u]; [simpl in Hin; set_unfold in Hin; naive_solver lia|]).
  simpl in Hin. by apply elem_of_nil in Hin.
Qed.

Lemma second_backward_doubles_witness :
  let r1 := backward tuple_order 5 4 chain_heap in
  let r2 := backward tuple_order 5 4 r1.2 in
  well_formed chain_heap ∧ (4 < length chain_heap)%nat ∧
  r1 = (r1.1.1, Ok tt, r1.2) ∧ r2 = (r2.1.1, Ok tt, r2.2) ∧
  grad_of chain_heap 3 = 0 ∧
  grad_of r2.2 3 = 2 * grad_of r1.2 3 ∧ grad_of r1.2 3 = 1 * 2.
Proof.
  intros r1 r2.
  assert (Hlen : (4 < length chain_heap)%nat) by (simpl; lia).
  assert (H3 : (3 < length chain_heap)%nat) by (simpl; lia).
  assert (Hr1 : r1 = (r1.1.1, Ok tt, r1.2)) by (subst r1; by py_eval).
  assert (Hr2 : r2 = (r2.1.1, Ok tt, r2.2)) by (subst r2 r1; by py_eval).
  assert (Hg : grad_of chain_heap 3 = 0) by done.
  destruct (second_backward_doubles tuple_order 5 chain_heap 4
              r1.1.1 r2.1.1 r1.2 r2.2 3
              tuple_order_perm chain_heap_well_formed Hlen Hr1 Hr2 H3
              ltac:(lia) Hg (λ u _, chain_pushers u))
    as (Hdouble & _ & _).
  split_and!; try done; [apply chain_heap_well_formed|].
  subst r1. py_eval. lra.
Defined.

End Accumulating.

(** ** Activations computed through auxiliary nodes *)

Lemma same_graph_app (st ext : store) :
  same_graph st (st ++ ext) ∧ ∀ v, v < length st → grad_of (st ++ ext) v = grad_of st v.
Proof.
  split; [split|].
  - rewrite length_app. lia.
  - intros v Hv. unfold data_of, prev_of, op_of, backward_of.
    by rewrite lookup_total_app_l.
  - intros v Hv. unfold grad_of. by rewrite lookup_total_app_l.
Qed.

Section Activation.
Local Open Scope R_scope.

Variable iter_order : ident → list ident → list ident.
Hypothesis iter_order_perm : ∀ v l, iter_order v l ≡ₚ l.

Lemma with_activation_facts st self k e n :
  well_formed st → (self < length st)%nat →
  _prev n = [self] → targets (_backward n) = [self] →
  closure_out (_backward n) = Some (length st + 3)%nat →
  let st1 := with_activation st self k e n in
  let out := (length st + 3)%nat in
  well_formed st1 ∧ st1 !!! out = n ∧ length st1 = (length st + 4)%nat ∧
  (∀ u, reachable st1 out u → u = out ∨ reachable st self u) ∧
  ∀ fuel tr o st2, backward iter_order fuel out st1 = (tr, o, st2) →
    (∀ u, u ∈ tr → u = out ∨ (u < length st)%nat) ∧
    (o = Ok tt →
       grad_of st2 self = grad_of st self + push (_backward n) st2 self ∧
       grad_of st2 out = 1 ∧ data_of st2 out = data n).
Proof.
  intros Hwf Hs Hprev Htg Hout st1 out.
  assert (Hst1 : st1 =
    (((st ++ [leaf k]) ++
      [mkValue (data_of st self * k) 0
         (bw_mul self (length st) (S (length st))) [self; length st] OpMul]) ++
      [mkValue e 0 (bw_exp (S (length st)) (length st + 2)%nat)
         [S (length st)] OpExp]) ++ [n]).
  { unfold st1, with_activation. by rewrite <- !app_assoc. }
  assert (Hwf1 : well_formed st1).
  { rewrite Hst1.
    assert (Hlit : ∀ (s : store) m, well_formed s →
      (∀ x, x ∈ _prev m → (x < length s)%nat) →
      (∀ o, closure_out (_backward m) = Some o → o = length s) →
      (∀ t, t ∈ targets (_backward m) → t ∈ _prev m) →
      well_formed (s ++ [m])) by (intros; by apply well_formed_node).
    apply Hlit; [apply Hlit; [apply Hlit; [apply Hlit|..]|..]|..];
      rewrite ?length_snoc.
    1: done.
    all: try (simpl; intros ? ?; set_unfold; lia).
    all: try (simpl; intros ? ?; simplify_eq; lia).
    all: try (simpl; intros ? ?; set_unfold; tauto).
    - rewrite Hprev. intros ? ?; set_unfold; lia.
    - rewrite Hprev, Htg. done. }
  assert (Hlen : length st1 = (length st + 4)%nat).
  { unfold st1, with_activation. rewrite length_app. simpl. lia. }
  assert (Hn : st1 !!! out = n).
  { unfold st1, with_activation, out. rewrite lookup_total_app_r by lia.
    by replace (length st + 3 - length st)%nat with 3%nat by lia. }
  destruct (same_graph_app st
              [leaf k;
               mkValue (data_of st self * k) 0
                 (bw_mul self (length st) (S (length st))) [self; length st] OpMul;
               mkValue e 0 (bw_exp (S (length st)) (length st + 2)%nat)
                 [S (length st)] OpExp; n]) as [Hsame Hgrads].
  fold (with_activation st self k e n) in Hsame, Hgrads. fold st1 in Hsame, Hgrads.
  destruct Hwf as (Hacyc & Hclosed & Hok).
  assert (Hreach : ∀ u, reachable st1 out u → u = out ∨ reachable st self u).
  { intros u Hu. apply rtc_inv in Hu as [->|(y & Hy & Hyu)]; [by left|].
    right. unfold edge, prev_of in Hy. rewrite Hn, Hprev in Hy.
    apply list_elem_of_singleton in Hy as ->.
    by apply (reachable_same_graph st st1 self u). }
  split_and!; [done..|].
  intros fuel tr o st2 Hrun.
  assert (Htr : ∀ u, u ∈ tr → u = out ∨ reachable st self u).
  { intros u Hu. apply Hreach.
    eapply backward_trace_reachable; [exact iter_order_perm| |exact Hrun|exact Hu].
    apply Hwf1. }
  split.
  { intros u Hu. destruct (Htr u Hu) as [->|Hr]; [by left|right].
    by apply (reachable_in_range st self u). }
  intros ->.
  destruct (backward_accumulates iter_order iter_order_perm fuel st1 out tr st2
              Hwf1 ltac:(lia) Hrun) as ((_ & Hs2) & Hnd & Htr2 & Hg1 & Hacc).
  assert (Hb2 : backward_of st2 out = _backward n).
  { destruct (Hs2 out) as (_ & _ & _ & ->); [lia|]. unfold backward_of. by rewrite Hn. }
  split_and!; [|done|].
  - rewrite (Hacc self) by (unfold out; lia). rewrite Hgrads by done.
    rewrite (pushed_single tr st2 self out); [by rewrite Hb2|done| |].
    + apply Htr2. apply rtc_refl.
    + intros u Hu Hne Hin. destruct (Htr u Hu) as [->|Hr]; [done|].
      assert (Hur : (u < length st)%nat) by by apply (reachable_in_range st self u).
      destruct (Hs2 u) as (_ & _ & _ & Hbu); [lia|]. rewrite Hbu in Hin.
      destruct Hsame as [_ Hs1]. destruct (Hs1 u Hur) as (_ & _ & _ & Hbu1).
      rewrite Hbu1 in Hin. destruct (Hok u) as [_ Htgu].
      apply (Hacyc u). eapply tc_rtc_r; [by apply Htgu|done].
  - destruct (Hs2 out) as (-> & _); [lia|]. unfold data_of. by rewrite Hn.
Qed.

End Activation.
Close Scope R_scope.

Open Scope R_scope.

Lemma Rsum_app l1 l2 : Rsum (l1 ++ l2) = Rsum l1 + Rsum l2.
Proof. induction l1 as [|x l1 IH]; csimpl; [lra|]. rewrite IH. lra. Qed.

Lemma Rsum_ext {A : Type} (f g : A → R) (l : list A) :
  (∀ x, x ∈ l → f x = g x) → Rsum (f <$> l) = Rsum (g <$> l).
Proof.
  induction l as [|x l IH]; [done|]. intros H. csimpl.
  rewrite (H x), IH by set_solver. done.
Qed.

Lemma Rsum_zero {A : Type} (f : A → R) (l : list A) :
  (∀ x, x ∈ l → f x = 0) → Rsum (f <$> l) = 0.
Proof.
  induction l as [|x l IH]; [done|]. intros H. csimpl.
  rewrite (H x), IH by set_solver. lra.
Qed.

Lemma Rsum_plus {A : Type} (f g : A → R) (l : list A) :
  Rsum ((λ x, f x + g x) <$> l) = Rsum (f <$> l) + Rsum (g <$> l).
Proof. induction l as [|x l IH]; csimpl; [lra|]. rewrite IH. lra. Qed.

Lemma Rsum_scal {A : Type} (c : R) (f : A → R) (l : list A) :
  Rsum ((λ x, c * f x) <$> l) = c * Rsum (f <$> l).
Proof. induction l as [|x l IH]; csimpl; [lra|]. rewrite IH. lra. Qed.

Lemma Rsum_scal_r {A : Type} (c : R) (f : A → R) (l : list A) :
  Rsum ((λ x, f x * c) <$> l) = Rsum (f <$> l) * c.
Proof. induction l as [|x l IH]; csimpl; [lra|]. rewrite IH. lra. Qed.

Lemma Rsum_exchange {A B : Type} (f : A → B → R) (l1 : list A) (l2 : list B) :
  Rsum ((λ x, Rsum ((λ y, f x y) <$> l2)) <$> l1) =
  Rsum ((λ y, Rsum ((λ x, f x y) <$> l1)) <$> l2).
Proof.
  induction l1 as [|x l1 IH]; csimpl.
  - symmetry. by apply Rsum_zero.
  - rewrite IH, <- Rsum_plus. done.
Qed.

Lemma Rsum_perm l1 l2 : l1 ≡ₚ l2 → Rsum l1 = Rsum l2.
Proof. induction 1; simpl; lra. Qed.

(** A sum over a duplicate-free list of indices extends to the whole range
    when the other terms vanish. *)
Lemma Rsum_range (f : nat → R) (l : list nat) (n : nat) :
  NoDup l → (∀ x, x ∈ l → (x < n)%nat) →
  (∀ x, (x < n)%nat → x ∉ l → f x = 0) →
  Rsum (f <$> l) = Rsum (f <$> seq 0 n).
Proof.
  intros Hnd Hin Hz.
  assert (Hsub : l ⊆+ seq 0 n).
  { apply NoDup_submseteq; [done|]. intros x Hx. apply elem_of_seq.
    specialize (Hin x Hx). lia. }
  apply submseteq_Permutation in Hsub as [k Hk].
  rewrite (Rsum_perm (f <$> seq 0 n) (f <$> (l ++ k))) by by rewrite Hk.
  rewrite fmap_app, Rsum_app, (Rsum_zero f k); [lra|].
  intros x Hx. apply Hz.
  - assert (x ∈ seq 0 n) as Hs by (rewrite Hk; set_solver).
    apply elem_of_seq in Hs. lia.
  - pose proof (NoDup_seq 0 n) as Hnds. rewrite Hk in Hnds.
    apply NoDup_app in Hnds as (_ & Hd & _). intros Hl. by apply (Hd x).
Qed.

Lemma Rsum_delta (n a : nat) (c : R) :
  (a < n)%nat →
  Rsum ((λ x, if decide (a = x) then c else 0) <$> seq 0 n) = c.
Proof.
  intros Ha.
  replace n with (a + S (n - S a))%nat by lia.
  rewrite seq_app, fmap_app, Rsum_app. simpl.
  rewrite decide_True by done.
  rewrite !Rsum_zero; [lra| |].
  - intros x Hx. apply elem_of_seq in Hx. rewrite decide_False; [done|lia].
  - intros x Hx. apply elem_of_seq in Hx. rewrite decide_False; [done|lia].
Qed.

Lemma amount_Rsum ps t :
  amount ps t = Rsum ((λ p, p.2 * (if decide (p.1 = t) then 1 else 0)) <$> ps).
Proof.
  induction ps as [|p ps IH]; [done|]. csimpl. rewrite IH.
  destruct (decide _); lra.
Qed.

Lemma pushed_Rsum l st t :
  pushed l st t = Rsum ((λ v, push (backward_of st v) st t) <$> l).
Proof. induction l as [|v l IH]; [done|]. csimpl. by rewrite IH. Qed.

(** *** The local partial derivatives *)

Lemma unit_pushes_targets c st : (unit_pushes c st).*1 = targets c.
Proof.
  unfold unit_pushes. destruct (closure_out c) eqn:E.
  - apply pushes_targets.
  - by destruct c.
Qed.

(** The additions of a closure are its unit additions scaled by the
    gradient of its node. *)
Lemma pushes_linear c st o :
  closure_out c = Some o → (o < length st)%nat →
  pushes c st = (λ p, (p.1, p.2 * grad_of st o)) <$> unit_pushes c st.
Proof.
  intros Ho Hlt. unfold unit_pushes. rewrite Ho.
  destruct c as [|self other out|self other out|self [x|other] out
                 |self other out|self out|self out|self out
                 |alpha self out|alpha self out|self out]; simpl in *;
    simplify_eq; try done;
    rewrite ?data_of_set_grad, ?grad_of_set_grad, ?decide_True by done;
    repeat match goal with
           | |- _ :: _ = _ :: _ => f_equal
           | |- (_, _) = (_, _) => f_equal
           end; unfold Rdiv; lra.
Qed.

Lemma push_linear c st o t :
  closure_out c = Some o → (o < length st)%nat →
  push c st t = amount (unit_pushes c st) t * grad_of st o.
Proof.
  intros Ho Hlt. unfold push. rewrite (pushes_linear c st o) by done.
  induction (unit_pushes c st) as [|p ps IH]; csimpl; [lra|].
  rewrite IH. destruct (decide _); lra.
Qed.

Lemma unit_pushes_ext c st1 st2 :
  (∀ x, data_of st1 x = data_of st2 x) → length st1 = length st2 →
  unit_pushes c st1 = unit_pushes c st2.
Proof.
  intros Hd Hl. unfold unit_pushes. destruct (closure_out c) as [o|] eqn:Ho; [|done].
  apply pushes_ext.
  - intros x _. by rewrite !data_of_set_grad.
  - intros o' Ho'. simplify_eq. rewrite !data_of_set_grad, !grad_of_set_grad.
    split; [done|]. rewrite Hl.
    destruct (decide (o = o ∧ (o < length st2)%nat)) as [|Hn]; [done|].
    unfold grad_of. rewrite !list_lookup_total_alt, !lookup_ge_None_2; [done|lia..].
Qed.

(** *** Path sums *)

Lemma tc_arena st v t : arena st → tc (edge st) v t → (t < v)%nat.
Proof.
  intros Ha Ht. induction Ht as [x y H|x y z H _ IH]; [by apply Ha|].
  apply Ha in H. lia.
Qed.

Lemma built_upstream st : built st → upstream st.
Proof.
  intros [Ha Hc] v t Ht. destruct (Hc v) as [_ Htg].
  eapply tc_arena; [done|]. by apply Htg.
Qed.

Lemma built_well_formed st : built st → well_formed st.
Proof. intros [Ha Hc]. by apply arena_well_formed. Qed.

Lemma partials_target st v p :
  upstream st → p ∈ partials st v → (p.1 < v)%nat.
Proof.
  intros Hup Hp. apply (Hup v). unfold partials in Hp.
  rewrite <- (unit_pushes_targets _ st). by apply list_elem_of_fmap_2.
Qed.

Lemma path_sum_fuel st :
  upstream st → ∀ fuel v t, (v < fuel)%nat → path_sum fuel st v t = deriv st v t.
Proof.
  intros Hup fuel. induction fuel as [fuel IH] using lt_wf_ind.
  intros v t Hv. unfold deriv. destruct fuel as [|fuel]; [lia|]. simpl.
  destruct (decide (v = t)); [done|].
  apply Rsum_ext. intros p Hp. apply partials_target in Hp; [|done].
  rewrite (IH fuel), (IH v) by lia. done.
Qed.

Lemma deriv_unfold st v t :
  upstream st →
  deriv st v t =
    if decide (v = t) then 1
    else Rsum ((λ p, p.2 * deriv st p.1 t) <$> partials st v).
Proof.
  intros Hup. unfold deriv at 1. simpl. destruct (decide (v = t)); [done|].
  apply Rsum_ext. intros p Hp. apply partials_target in Hp; [|done].
  by rewrite path_sum_fuel.
Qed.

Lemma deriv_refl st v : deriv st v v = 1.
Proof. unfold deriv. simpl. by rewrite decide_True. Qed.

(** No path leads to a younger node. *)
Lemma deriv_above st v t : upstream st → (v < t)%nat → deriv st v t = 0.
Proof.
  intros Hup. revert t. induction v as [v IH] using lt_wf_ind. intros t Hlt.
  rewrite deriv_unfold, decide_False by (done || lia).
  apply Rsum_zero. intros p Hp. apply partials_target in Hp; [|done].
  rewrite IH by lia. lra.
Qed.

(** A path is its first edge followed by a path. *)
Lemma deriv_first_edge st v t :
  upstream st →
  deriv st v t =
    (if decide (v = t) then 1 else 0)
    + Rsum ((λ p, p.2 * deriv st p.1 t) <$> partials st v).
Proof.
  intros Hup. rewrite deriv_unfold by done.
  destruct (decide (v = t)) as [->|]; [|lra].
  rewrite Rsum_zero; [lra|]. intros p Hp. apply partials_target in Hp; [|done].
  rewrite deriv_above by done. lra.
Qed.

(** A path is a path followed by its last edge. *)
Lemma deriv_last_edge st n :
  upstream st → ∀ c u, (c < n)%nat →
  deriv st c u =
    (if decide (c = u) then 1 else 0)
    + Rsum ((λ v, deriv st c v * amount (partials st v) u) <$> seq 0 n).
Proof.
  intros Hup c. induction c as [c IH] using lt_wf_ind. intros u Hc.
  rewrite (Rsum_ext _
    (λ v, (if decide (c = v) then amount (partials st c) u else 0)
          + Rsum ((λ p, p.2 * (deriv st p.1 v * amount (partials st v) u))
                    <$> partials st c))).
  2:{ intros v _. rewrite (deriv_first_edge st c v) by done.
      rewrite Rmult_plus_distr_r, <- Rsum_scal_r. f_equal.
      - destruct (decide (c = v)) as [->|]; lra.
      - apply Rsum_ext. intros p _. lra. }
  rewrite Rsum_plus, Rsum_delta by done.
  rewrite Rsum_exchange.
  rewrite (Rsum_ext _
    (λ p, p.2 * deriv st p.1 u
          - p.2 * (if decide (p.1 = u) then 1 else 0))).
  2:{ intros p Hp. apply partials_target in Hp; [|done].
      rewrite Rsum_scal. rewrite (IH p.1 Hp u) at 1 by lia. lra. }
  rewrite (deriv_first_edge st c u) by done.
  rewrite (amount_Rsum (partials st c) u).
  assert (Hminus : ∀ (f g : ident * R → R) l,
            Rsum ((λ p, f p - g p) <$> l) = Rsum (f <$> l) - Rsum (g <$> l)).
  { intros f g l. induction l as [|x l IHl]; csimpl; [lra|]. rewrite IHl. lra. }
  rewrite Hminus. lra.
Qed.

Lemma deriv_unreachable st v t :
  built st → ¬ reachable st v t → deriv st v t = 0.
Proof.
  intros Hb. pose proof (built_upstream st Hb) as Hup.
  revert t. induction v as [v IH] using lt_wf_ind. intros t Hn.
  rewrite deriv_unfold by done.
  destruct (decide (v = t)) as [->|]; [destruct Hn; apply rtc_refl|].
  apply Rsum_zero. intros p Hp.
  rewrite IH; [lra|by apply (partials_target st v)|].
  intros Hr. apply Hn.
  destruct Hb as [_ Hc]. destruct (Hc v) as [_ Htg].
  assert (Ht : p.1 ∈ targets (backward_of st v)).
  { rewrite <- (unit_pushes_targets _ st). by apply list_elem_of_fmap_2. }
  apply Htg, tc_rtc in Ht. unfold reachable in *. by etrans.
Qed.

(** The path sums see the values and closures of the nodes up to the
    start of the paths only. *)
Lemma deriv_ext st1 st2 v t :
  upstream st1 →
  (∀ u, (u ≤ v)%nat → partials st1 u = partials st2 u) →
  deriv st1 v t = deriv st2 v t.
Proof.
  intros Hup. revert t. induction v as [v IH] using lt_wf_ind. intros t Hp.
  assert (Hup2 : ∀ u p, (u ≤ v)%nat → p ∈ partials st2 u → (p.1 < u)%nat).
  { intros u p Hu Hin. rewrite <- Hp in Hin by done. by eapply partials_target. }
  unfold deriv at 2. simpl. rewrite deriv_unfold by done.
  destruct (decide (v = t)); [done|].
  rewrite <- Hp by done. apply Rsum_ext. intros p Hin.
  pose proof (partials_target _ _ _ Hup Hin) as Hlt.
  f_equal. rewrite (IH p.1 Hlt t) by (intros; apply Hp; lia).
  clear IH Hin. revert Hlt. generalize p.1. intros c Hc.
  (* fuel of the right-hand side *)
  assert (Hfuel : ∀ f c, (c < f)%nat → (c ≤ v)%nat →
            path_sum f st2 c t = path_sum (S c) st2 c t).
  { intros f. induction f as [f IHf] using lt_wf_ind. intros c' Hc' Hle.
    destruct f as [|f]; [lia|]. simpl.
    destruct (decide (c' = t)); [done|].
    apply Rsum_ext. intros q Hq. apply Hup2 in Hq; [|done].
    rewrite (IHf f), (IHf c') by lia. done. }
  unfold deriv. symmetry. apply Hfuel; lia.
Qed.

(** *** The backward pass computes the path sums *)

Lemma partials_same_graph st st' v :
  same_graph st st' → closed st → closures_ok st → (v < length st)%nat →
  partials st' v = partials st v.
Proof.
  intros [Hlen Hs] Hcl Hok Hv. unfold partials.
  destruct (Hs v Hv) as (_ & _ & _ & ->).
  destruct (Hok v) as [Hout Htg].
  unfold unit_pushes. destruct (closure_out _) as [o|] eqn:Ho; [|done].
  pose proof (Hout o eq_refl) as ->.
  apply pushes_ext.
  - intros x Hx. rewrite !data_of_set_grad.
    apply Htg, (tc_in_range _ _ _ Hcl) in Hx. by destruct (Hs x Hx) as [-> _].
  - intros o' Ho'. assert (o' = v) as -> by congruence.
    rewrite !data_of_set_grad, !grad_of_set_grad.
    rewrite !decide_True by (split; [done|lia]).
    by destruct (Hs v Hv) as [-> _].
Qed.

Lemma push_partials st st' v t :
  same_graph st st' → closed st → closures_ok st → (v < length st)%nat →
  push (backward_of st' v) st' t = amount (partials st v) t * grad_of st' v.
Proof.
  intros Hsg Hcl Hok Hv.
  rewrite <- (partials_same_graph st st' v) by done.
  destruct Hsg as [Hlen Hs]. destruct (Hs v Hv) as (_ & _ & _ & Hb).
  destruct (Hok v) as [Hout _]. rewrite <- Hb in Hout.
  unfold partials.
  destruct (closure_out (backward_of st' v)) as [o|] eqn:Ho.
  - pose proof (Hout o eq_refl) as ->. apply push_linear; [done|lia].
  - unfold push, unit_pushes. rewrite Ho.
    destruct (backward_of st' v); simplify_eq. simpl. lra.
Qed.

Section PathSums.

Variable iter_order : ident → list ident → list ident.
Hypothesis iter_order_perm : ∀ v l, iter_order v l ≡ₚ l.

Lemma backward_deriv fuel st root tr st' :
  built st → (root < length st)%nat →
  (∀ u, reachable st root u → u ≠ root →
        backward_of st u ≠ bw_none → grad_of st u = 0) →
  backward iter_order fuel root st = (tr, Ok tt, st') →
  ∀ t, (t < length st)%nat → t ≠ root →
    grad_of st' t = grad_of st t + deriv st root t.
Proof.
  intros Hb Hroot Hclean Hrun.
  pose proof (built_well_formed st Hb) as Hwf.
  pose proof (built_upstream st Hb) as Hup.
  destruct (backward_accumulates iter_order iter_order_perm fuel st root tr st'
              Hwf Hroot Hrun) as (Hsg & Hnd & Hreach & Hg1 & Hacc).
  destruct Hwf as (Hacyc & Hcl & Hok).
  assert (Hin : ∀ v, v ∈ tr → (v < length st)%nat).
  { intros v Hv. apply Hreach in Hv. by eapply reachable_in_range. }
  intros t. remember (length st - t)%nat as k eqn:Hk. revert t Hk.
  induction k as [k IH] using lt_wf_ind. intros t Hk Ht Hne.
  rewrite Hacc by done. f_equal.
  rewrite pushed_Rsum.
  rewrite (Rsum_ext _ (λ v, deriv st root v * amount (partials st v) t)).
  2:{ intros v Hv. rewrite (push_partials st st') by auto.
      destruct (decide (t ∈ targets (backward_of st v))) as [Hin'|Hn].
      - pose proof (Hup v t Hin') as Hlt.
        destruct (decide (v = root)) as [->|Hvr].
        + rewrite Hg1, deriv_refl. lra.
        + rewrite (IH (length st - v)%nat) with (t := v); [|lia|done|auto|done].
          rewrite Hclean; [lra|by apply Hreach|done|].
          intros Hnone. rewrite Hnone in Hin'. simpl in Hin'. set_solver.
      - rewrite amount_not_in; [lra|].
        unfold partials. by rewrite unit_pushes_targets. }
  rewrite (Rsum_range _ tr (length st)); [|done|done|].
  2:{ intros v Hv Hn. rewrite deriv_unreachable; [lra|done|].
      intros Hr. by apply Hn, Hreach. }
  rewrite (deriv_last_edge st (length st) Hup root t) by done.
  rewrite decide_False by done. lra.
Qed.

End PathSums.

(** *** Heaps built by the operations *)

Close Scope R_scope.

Lemma built_nil : built [].
Proof.
  split.
  - intros v c H. unfold edge, prev_of in H. by rewrite lookup_total_nil in H; set_solver.
  - apply well_formed_nil.
Qed.

Lemma arena_snoc (st : store) n :
  arena st → (∀ x, x ∈ _prev n → x < length st) → arena (st ++ [n]).
Proof.
  intros Ha Hp v c [[_ H]|[-> H]]%edge_snoc; [by apply Ha|by apply Hp].
Qed.

Lemma built_alloc (st : store) d g c ch op :
  built st →
  (∀ x, x ∈ ch → x < length st) →
  (∀ o, closure_out c = Some o → o = length st) →
  (∀ t, t ∈ targets c → t ∈ ch ∨ ∃ m, m ∈ ch ∧ tc (edge st) m t) →
  built (st ++ [mkValue d g c ch op]).
Proof.
  intros Hb Hch Hout Htg. pose proof (built_well_formed st Hb) as Hwf.
  destruct Hb as [Ha Hok]. split; [by apply arena_snoc|].
  by apply well_formed_alloc.
Qed.

Lemma built_leaf (st : store) x : built st → built (st ++ [leaf x]).
Proof. intros Hb. apply built_alloc; [done|set_solver..]. Qed.

Lemma built_set_grad (st : store) v g : built st → built (set_grad v g st).
Proof.
  intros Hb. pose proof (built_well_formed st Hb) as Hwf. destruct Hb as [Ha Hok].
  split; [|by apply well_formed_set_grad].
  intros x y H. apply edge_set_grad in H. by apply Ha.
Qed.

Lemma built_closed st : built st → closed st.
Proof. intros Hb. by destruct (built_well_formed st Hb) as (_ & ? & _). Qed.

Open Scope R_scope.

Lemma deriv_leaf st v t :
  backward_of st v = bw_none → deriv st v t = if decide (v = t) then 1 else 0.
Proof.
  intros Hn. unfold deriv. simpl. destruct (decide _); [done|].
  unfold partials. by rewrite Hn.
Qed.

Lemma deriv_same_graph st st' v t :
  built st → same_graph st st' → (v < length st)%nat →
  deriv st' v t = deriv st v t.
Proof.
  intros Hb Hsg Hv. symmetry. apply deriv_ext; [by apply built_upstream|].
  intros u Hu. symmetry. apply partials_same_graph; [done| | |lia].
  - by apply built_closed.
  - by destruct Hb.
Qed.

Lemma deriv_app st ext v t :
  built st → (v < length st)%nat → deriv (st ++ ext) v t = deriv st v t.
Proof. intros Hb Hv. apply deriv_same_graph; [done| |done]. apply same_graph_app. Qed.

Close Scope R_scope.

(** Whether a closure raises depends on the values it reads only. *)
Lemma call_backward_outcome c st1 st2 :
  (∀ x, x ∈ targets c → data_of st1 x = data_of st2 x) →
  (∀ o, closure_out c = Some o → data_of st1 o = data_of st2 o) →
  (call_backward c st1).1 = (call_backward c st2).1.
Proof.
  intros Hd Ho.
  destruct c as [|self other out|self other out|self [x|other] out
                 |self other out|self out|self out|self out
                 |alpha self out|alpha self out|self out]; simpl in *;
    try done;
    pose proof (Ho out eq_refl) as Hdo;
    try (pose proof (Hd self ltac:(set_solver)) as Hds);
    try (pose proof (Hd other ltac:(set_solver)) as Hdt).
  - (* truediv *)
    unfold bind, gets, lift, grad_iadd, modify, operand_data, operand_grad_isub,
      grad_isub, ret. simpl.
    unfold float_div. rewrite Hdt.
    destruct (Req_dec_T (data_of st2 other) 0); simpl; [done|].
    rewrite !data_of_set_grad, Hdt.
    destruct (float_pow (data_of st2 other) 2) as [r| |]; simpl; try done.
    destruct (Req_dec_T r 0); done.
  - (* pow *)
    unfold bind, gets, lift, grad_iadd, modify, ret. simpl.
    rewrite Hds, Hdt.
    destruct (Req_dec_T (data_of st2 self) 0); simpl.
    + destruct (Rlt_dec 0 (data_of st2 self)); simpl; [|done].
      destruct (float_pow _ _); simpl; try done.
      destruct (math_log _); simpl; done.
    + destruct (float_pow (data_of st2 self) (data_of st2 other - 1)); simpl; try done.
      destruct (Rlt_dec 0 (data_of st2 self)); simpl; [|done].
      destruct (float_pow _ _); simpl; try done.
      destruct (math_log _); simpl; done.
  - (* tanh *)
    unfold bind, gets, lift, grad_iadd, modify, ret. simpl. rewrite Hdo.
    destruct (float_pow _ _); simpl; done.
  - (* elu *)
    unfold bind, gets, lift, grad_iadd, modify, ret. simpl. rewrite Hds.
    destruct (Rlt_dec (data_of st2 self) 0); simpl; [|done].
    rewrite !exp_run, Hdo. destruct (math_exp _); simpl; done.
Qed.

Lemma never_raises_returns c st : never_raises c = true → returns c st.
Proof. by destruct c. Qed.

(** With the recursion depth above the number of objects, every closure
    of a well-formed heap has the frames it needs: the closure of [elu]
    belongs to a node that is not the first object. *)
Lemma closure_depth (st st0 : store) fuel v :
  acyclic st → closed st → closures_ok st → v < length st → length st < fuel →
  call_closure fuel (backward_of st v) st0
  = call_backward (backward_of st v) st0.
Proof.
  intros Hacyc Hcl Hok Hv Hf. destruct (Hok v) as [_ Htg].
  destruct (backward_of st v) eqn:E;
    try (apply call_closure_plain; [lia|intros; discriminate]).
  apply call_closure_enough.
  assert (Ht : tc (edge st) v self) by (apply Htg; simpl; set_solver).
  pose proof (tc_in_range _ _ _ Hcl Ht) as Hs.
  assert (self ≠ v) by (intros ->; by apply (Hacyc v)).
  lia.
Qed.

Lemma run_backward_returns fuel l : ∀ st st0,
  acyclic st → closed st → closures_ok st → same_graph st st0 →
  length st < fuel →
  (∀ u, u ∈ l → u < length st ∧ returns (backward_of st u) st) →
  ∃ st', run_backward fuel l st0 = (l, Ok tt, st').
Proof.
  induction l as [|v l IH]; intros st st0 Hacyc Hcl Hok Hsg Hfuel Hl; simpl;
    [by eexists|].
  destruct (Hl v) as [Hv Hret]; [set_solver|].
  pose proof Hsg as [Hlen Hs].
  destruct (Hs v Hv) as (_ & _ & _ & Hb). rewrite Hb.
  rewrite closure_depth by done.
  destruct (Hok v) as [Hout Htg].
  assert (Ho : (call_backward (backward_of st v) st0).1 = Ok tt).
  { rewrite <- Hret. apply call_backward_outcome.
    - intros x Hx. apply Htg, (tc_in_range _ _ _ Hcl) in Hx.
      by destruct (Hs x Hx) as [-> _].
    - intros o Hoo. apply Hout in Hoo as ->. by destruct (Hs v Hv) as [-> _]. }
  destruct (call_backward (backward_of st v) st0) as [o st1] eqn:Hc.
  simpl in Ho. subst o.
  apply frames_call_backward in Hc.
  destruct (IH st st1) as [st' Hrun]; [done|done|done| |done|set_solver|].
  { by eapply same_graph_trans. }
  rewrite Hrun. by eexists.
Qed.

Section Returns.

Variable iter_order : ident → list ident → list ident.
Hypothesis iter_order_perm : ∀ v l, iter_order v l ≡ₚ l.

(** With the recursion depth above the number of objects, the pass
    completes when the closures of the nodes it reaches do. *)
Lemma backward_returns fuel st root :
  built st → root < length st → length st < fuel →
  (∀ u, reachable st root u → returns (backward_of st u) st) →
  ∃ tr st', backward iter_order fuel root st = (tr, Ok tt, st').
Proof.
  intros Hb Hroot Hfuel Hret.
  destruct (built_well_formed st Hb) as (Hacyc & Hcl & Hok).
  unfold backward.
  destruct (build_topo_total iter_order iter_order_perm st fuel root ([], []))
    as (s & Hs & _).
  { simpl. unfold unvisited.
    pose proof (length_filter (λ x, x ∉ []) (seq 0 (length st))) as Hle.
    rewrite length_seq in Hle. lia. }
  rewrite Hs.
  destruct (build_topo_root iter_order iter_order_perm st fuel root s Hacyc Hs)
    as (_ & Hreach & _).
  destruct (run_backward_returns fuel (rev s.2) st (set_grad root 1 st))
    as [st' Hrun]; [done|done|done|apply same_graph_set_grad|done| |by eauto].
  intros u Hu. apply list_elem_of_In, in_rev, list_elem_of_In, Hreach in Hu.
  split; [by eapply reachable_in_range|by apply Hret].
Qed.

End Returns.

Close Scope R_scope.

Lemma ready_nil : ready [].
Proof. split_and!; [apply built_nil|intros u Hu; simpl in Hu; lia..]. Qed.

Lemma returns_same_graph st st' v :
  closed st → closures_ok st → same_graph st st' → v < length st →
  returns (backward_of st' v) st' ↔ returns (backward_of st v) st.
Proof.
  intros Hcl Hok [Hlen Hs] Hv. unfold returns.
  destruct (Hs v Hv) as (_ & _ & _ & ->).
  destruct (Hok v) as [Hout Htg].
  rewrite (call_backward_outcome _ st' st); [done| |].
  - intros x Hx. apply Htg, (tc_in_range _ _ _ Hcl) in Hx.
    by destruct (Hs x Hx) as [-> _].
  - intros o Ho. apply Hout in Ho as ->. by destruct (Hs v Hv) as [-> _].
Qed.

(** Allocating a node with gradient 0 whose closure does not raise. *)
Lemma ready_alloc (st : store) d c ch op :
  ready st →
  (∀ x, x ∈ ch → x < length st) →
  (∀ o, closure_out c = Some o → o = length st) →
  (∀ t, t ∈ targets c → t ∈ ch ∨ ∃ m, m ∈ ch ∧ tc (edge st) m t) →
  returns c (st ++ [mkValue d 0 c ch op]) →
  ready (st ++ [mkValue d 0 c ch op]).
Proof.
  intros (Hb & Hclean & Hret) Hch Hout Htg Hc.
  pose proof (built_closed st Hb) as Hcl.
  split_and!; [by apply built_alloc| |].
  - intros u Hu. rewrite backward_of_snoc, grad_of_snoc.
    case_decide; [done|]. apply Hclean.
    rewrite length_app in Hu. simpl in Hu. lia.
  - intros u Hu. rewrite length_app in Hu. simpl in Hu.
    destruct (decide (u = length st)) as [->|Hne].
    + by rewrite backward_of_snoc, decide_True.
    + apply (returns_same_graph st); [done|by destruct Hb|apply same_graph_app|lia|].
      apply Hret. lia.
Qed.

Lemma ready_leaf (st : store) x : ready st → ready (st ++ [leaf x]).
Proof. intros Hr. apply ready_alloc; [done|set_solver..|done]. Qed.

Section ReadyBackward.

Variable iter_order : ident → list ident → list ident.
Hypothesis iter_order_perm : ∀ v l, iter_order v l ≡ₚ l.

Lemma ready_backward fuel st root :
  ready st → root < length st → length st < fuel →
  ∃ tr st', backward iter_order fuel root st = (tr, Ok tt, st') ∧
    same_graph st st' ∧ grad_of st' root = 1%R ∧
    ∀ t, t < length st → t ≠ root →
      grad_of st' t = (grad_of st t + deriv st root t)%R.
Proof.
  intros (Hb & Hclean & Hret) Hroot Hfuel.
  pose proof (built_well_formed st Hb) as Hwf.
  destruct (backward_returns iter_order iter_order_perm fuel st root)
    as (tr & st' & Hrun); [done..| |].
  { intros u Hu. apply Hret. eapply reachable_in_range; [|done..].
    by apply built_closed. }
  exists tr, st'. split; [done|].
  destruct (backward_accumulates iter_order iter_order_perm fuel st root tr st'
              Hwf Hroot Hrun) as (Hsg & _ & _ & Hg1 & _).
  split_and!; [done..|].
  eapply backward_deriv; [done..| |done].
  intros u Hu _ Hn. apply Hclean; [|done].
  eapply reachable_in_range; [|done..]. by apply built_closed.
Qed.

End ReadyBackward.

Open Scope R_scope.

(** The path sums from a node just allocated. *)
Lemma deriv_new (st : store) n t :
  built st → built (st ++ [n]) → (t < length st)%nat →
  deriv (st ++ [n]) (length st) t =
    Rsum ((λ p, p.2 * deriv st p.1 t) <$> unit_pushes (_backward n) (st ++ [n])).
Proof.
  intros Hb Hb' Ht. pose proof (built_upstream _ Hb') as Hup.
  rewrite deriv_unfold, decide_False by (done || lia).
  unfold partials. rewrite backward_of_snoc, decide_True by done.
  apply Rsum_ext. intros p Hp. f_equal. apply deriv_app; [done|].
  assert (Hin : p ∈ partials (st ++ [n]) (length st)).
  { unfold partials. by rewrite backward_of_snoc, decide_True. }
  by apply partials_target in Hin.
Qed.

Lemma grad_of_snoc_new (st : store) n : grad_of (st ++ [n]) (length st) = grad n.
Proof. by rewrite grad_of_snoc, decide_True. Qed.

Lemma set_grad_snoc_new (st : store) n g :
  set_grad (length st) g (st ++ [n]) = st ++ [with_grad g n].
Proof.
  unfold set_grad. rewrite alter_app_r_alt by done.
  by replace (length st - length st)%nat with 0%nat by lia.
Qed.

Lemma data_of_app_old (st ext : store) v :
  (v < length st)%nat → data_of (st ++ ext) v = data_of st v.
Proof. intros Hv. unfold data_of. by rewrite lookup_total_app_l. Qed.

Lemma grad_of_app_old (st ext : store) v :
  (v < length st)%nat → grad_of (st ++ ext) v = grad_of st v.
Proof. intros Hv. unfold grad_of. by rewrite lookup_total_app_l. Qed.

Lemma elem_of_set_of_pair (a b x : ident) : x ∈ set_of [a; b] ↔ x = a ∨ x = b.
Proof.
  unfold set_of. rewrite elem_of_remove_dups, !elem_of_cons, elem_of_nil. tauto.
Qed.

Lemma built_binary (st : store) a b d c op :
  built st → (a < length st)%nat → (b < length st)%nat →
  closure_out c = Some (length st) → targets c = [a; b] →
  built (st ++ [mkValue d 0 c (set_of [a; b]) op]).
Proof.
  intros Hb Ha Hb' Ho Ht. apply built_alloc; [done| | |].
  - by intros x [->| ->]%elem_of_set_of_pair.
  - intros o Hoo. congruence.
  - intros t. rewrite Ht. intros Hin. left. apply elem_of_set_of_pair.
    rewrite !elem_of_cons, elem_of_nil in Hin. tauto.
Qed.

Lemma deriv_add_node (st : store) a b d t :
  built st → (a < length st)%nat → (b < length st)%nat → (t < length st)%nat →
  deriv (st ++ [mkValue d 0 (bw_add a b (length st)) (set_of [a; b]) OpAdd])
    (length st) t = deriv st a t + deriv st b t.
Proof.
  intros Hb Ha Hb' Ht. rewrite deriv_new; [|done| |done].
  - unfold unit_pushes. simpl. rewrite set_grad_snoc_new, grad_of_snoc_new.
    simpl. lra.
  - by apply built_binary.
Qed.

Lemma deriv_mul_node (st : store) a b d t :
  built st → (a < length st)%nat → (b < length st)%nat → (t < length st)%nat →
  deriv (st ++ [mkValue d 0 (bw_mul a b (length st)) (set_of [a; b]) OpMul])
    (length st) t = data_of st b * deriv st a t + data_of st a * deriv st b t.
Proof.
  intros Hb Ha Hb' Ht. rewrite deriv_new; [|done| |done].
  - unfold unit_pushes. simpl. rewrite set_grad_snoc_new, grad_of_snoc_new.
    rewrite !data_of_app_old by done. simpl. lra.
  - by apply built_binary.
Qed.

Lemma built_unary (st : store) a d c op :
  built st → (a < length st)%nat →
  closure_out c = Some (length st) → targets c = [a] →
  built (st ++ [mkValue d 0 c [a] op]).
Proof.
  intros Hb Ha Ho Ht. apply built_alloc; [done|set_solver| |].
  - intros o Hoo. congruence.
  - intros t. rewrite Ht. by left.
Qed.

Lemma deriv_relu_node (st : store) a d t :
  built st → (a < length st)%nat → (t < length st)%nat →
  deriv (st ++ [mkValue d 0 (bw_relu a (length st)) [a] OpReLU]) (length st) t =
    (if Rlt_dec 0 d then 1 else 0) * deriv st a t.
Proof.
  intros Hb Ha Ht. rewrite deriv_new; [|done|by apply built_unary|done].
  unfold unit_pushes. simpl. rewrite set_grad_snoc_new, grad_of_snoc_new.
  rewrite data_of_snoc_new. simpl. lra.
Qed.

Lemma deriv_leaky_relu_node (st : store) a alpha d t :
  built st → (a < length st)%nat → (t < length st)%nat →
  deriv (st ++ [mkValue d 0 (bw_leaky_relu alpha a (length st)) [a]
                  (OpLeakyReLU alpha)]) (length st) t =
    (if Rlt_dec (data_of st a) 0 then alpha else 1) * deriv st a t.
Proof.
  intros Hb Ha Ht. rewrite deriv_new; [|done|by apply built_unary|done].
  unfold unit_pushes. simpl. rewrite set_grad_snoc_new, grad_of_snoc_new.
  rewrite data_of_app_old by done. simpl. lra.
Qed.

Lemma deriv_exp_node (st : store) a d t :
  built st → (a < length st)%nat → (t < length st)%nat →
  deriv (st ++ [mkValue d 0 (bw_exp a (length st)) [a] OpExp]) (length st) t =
    d * deriv st a t.
Proof.
  intros Hb Ha Ht. rewrite deriv_new; [|done|by apply built_unary|done].
  unfold unit_pushes. simpl. rewrite set_grad_snoc_new, grad_of_snoc_new.
  rewrite data_of_snoc_new. simpl. lra.
Qed.

Lemma ready_built st : ready st → built st.
Proof. by intros [? _]. Qed.

Lemma ready_binary (st : store) a b d c op :
  ready st → (a < length st)%nat → (b < length st)%nat →
  closure_out c = Some (length st) → targets c = [a; b] →
  never_raises c = true →
  ready (st ++ [mkValue d 0 c (set_of [a; b]) op]).
Proof.
  intros Hr Ha Hb Ho Ht Hn. apply ready_alloc; [done| | | |].
  - by intros x [->| ->]%elem_of_set_of_pair.
  - intros o Hoo. congruence.
  - intros t. rewrite Ht. intros Hin. left. apply elem_of_set_of_pair.
    rewrite !elem_of_cons, elem_of_nil in Hin. tauto.
  - by apply never_raises_returns.
Qed.

Lemma ready_unary (st : store) a d c op :
  ready st → (a < length st)%nat →
  closure_out c = Some (length st) → targets c = [a] →
  never_raises c = true →
  ready (st ++ [mkValue d 0 c [a] op]).
Proof.
  intros Hr Ha Ho Ht Hn. apply ready_alloc; [done|set_solver| | |].
  - intros o Hoo. congruence.
  - intros t. rewrite Ht. by left.
  - by apply never_raises_returns.
Qed.

Close Scope R_scope.

Lemma ready_two (x y : R) : ready [leaf x; leaf y].
Proof. exact (ready_leaf [leaf x] y (ready_leaf [] x ready_nil)). Qed.

Lemma ready_one (x : R) : ready [leaf x].
Proof. exact (ready_leaf [] x ready_nil). Qed.
Close Scope R_scope.

Open Scope R_scope.

(** What each operation appends, with the path sums of the new node. *)
Lemma mul_facts (a b : ident) (st : store) :
  (a < length st)%nat → (b < length st)%nat →
  ∃ n, __mul__ a (Ref b) st = (Ok (length st), st ++ [n]) ∧
    data n = data_of st a * data_of st b ∧ grad n = 0 ∧
    (ready st → ready (st ++ [n])) ∧
    (built st → built (st ++ [n])) ∧
    (built st → ∀ t, (t < length st)%nat →
       deriv (st ++ [n]) (length st) t
         = data_of st b * deriv st a t + data_of st a * deriv st b t).
Proof.
  intros Ha Hb. eexists. split; [apply mul_run|]. simpl.
  split_and!; [done|done| | |].
  - intros Hr. by apply ready_binary.
  - intros Hr. by apply built_binary.
  - intros Hr t Ht. by apply deriv_mul_node.
Qed.

Lemma add_facts (a b : ident) (st : store) :
  (a < length st)%nat → (b < length st)%nat →
  ∃ n, __add__ a (Ref b) st = (Ok (length st), st ++ [n]) ∧
    data n = data_of st a + data_of st b ∧ grad n = 0 ∧
    (ready st → ready (st ++ [n])) ∧
    (built st → built (st ++ [n])) ∧
    (built st → ∀ t, (t < length st)%nat →
       deriv (st ++ [n]) (length st) t = deriv st a t + deriv st b t).
Proof.
  intros Ha Hb. eexists. split; [apply add_run|]. simpl.
  split_and!; [done|done| | |].
  - intros Hr. by apply ready_binary.
  - intros Hr. by apply built_binary.
  - intros Hr t Ht. by apply deriv_add_node.
Qed.

Lemma relu_facts (a : ident) (st : store) :
  (a < length st)%nat →
  ∃ n, relu a st = (Ok (length st), st ++ [n]) ∧
    data n = (if Rlt_dec (data_of st a) 0 then 0 else data_of st a) ∧
    grad n = 0 ∧
    (ready st → ready (st ++ [n])) ∧
    (built st → built (st ++ [n])) ∧
    (built st → ∀ t, (t < length st)%nat →
       deriv (st ++ [n]) (length st) t
         = (if Rlt_dec 0 (data_of st a) then 1 else 0) * deriv st a t).
Proof.
  intros Ha. eexists. split; [apply relu_run|]. simpl.
  split_and!; [done|done| | |].
  - intros Hr. by apply ready_unary.
  - intros Hr. by apply built_unary.
  - intros Hr t Ht. rewrite deriv_relu_node by done.
    repeat destruct (Rlt_dec _ _); lra.
Qed.

Lemma leaky_relu_facts (a : ident) (alpha : R) (st : store) :
  (a < length st)%nat →
  ∃ n, leaky_relu a alpha st = (Ok (length st), st ++ [n]) ∧
    data n = (if Rlt_dec (data_of st a) 0 then alpha * data_of st a
              else data_of st a) ∧
    grad n = 0 ∧
    (ready st → ready (st ++ [n])) ∧
    (built st → built (st ++ [n])) ∧
    (built st → ∀ t, (t < length st)%nat →
       deriv (st ++ [n]) (length st) t
         = (if Rlt_dec (data_of st a) 0 then alpha else 1) * deriv st a t).
Proof.
  intros Ha. eexists. split; [apply leaky_relu_run|]. simpl.
  split_and!; [done|done| | |].
  - intros Hr. by apply ready_unary.
  - intros Hr. by apply built_unary.
  - intros Hr t Ht. by rewrite deriv_leaky_relu_node.
Qed.

Lemma exp_facts (a : ident) (st : store) :
  (a < length st)%nat → finite (exp (data_of st a)) →
  ∃ n, exp_ a st = (Ok (length st), st ++ [n]) ∧
    data n = exp (data_of st a) ∧ grad n = 0 ∧
    (ready st → ready (st ++ [n])) ∧
    (built st → built (st ++ [n])) ∧
    (built st → ∀ t, (t < length st)%nat →
       deriv (st ++ [n]) (length st) t = exp (data_of st a) * deriv st a t).
Proof.
  intros Ha Hf. eexists. split.
  { by rewrite exp_run, math_exp_finite. }
  simpl. split_and!; [done|done| | |].
  - intros Hr. by apply ready_unary.
  - intros Hr. by apply built_unary.
  - intros Hr t Ht. by rewrite deriv_exp_node.
Qed.

Lemma neg_facts (a : ident) (st : store) :
  (a < length st)%nat →
  ∃ ext, __neg__ a st = (Ok (S (length st)), st ++ ext) ∧
    length ext = 2%nat ∧
    data_of (st ++ ext) (length st) = -1 ∧
    data_of (st ++ ext) (S (length st)) = data_of st a * -1 ∧
    (ready st → ready (st ++ ext)) ∧
    (built st → built (st ++ ext)) ∧
    (built st → ∀ t, (t < length st)%nat →
       deriv (st ++ ext) (S (length st)) t = -1 * deriv st a t).
Proof.
  intros Ha. unfold __neg__. rewrite mul_num.
  destruct (mul_facts a (length st) (st ++ [leaf (-1)]))
    as (n & Hrun & Hd & Hg & Hrd & Hbt & Hdv).
  1-2: rewrite length_snoc; lia.
  rewrite length_snoc in Hrun.
  exists [leaf (-1); n].
  replace (st ++ [leaf (-1); n]) with ((st ++ [leaf (-1)]) ++ [n])
    by (by rewrite <- app_assoc).
  split_and!; [done|done| | | | |].
  - rewrite data_of_snoc_old by (rewrite length_snoc; lia).
    by rewrite data_of_snoc_new.
  - rewrite <- (length_snoc st (leaf (-1))), data_of_snoc_new, Hd.
    by rewrite data_of_snoc_old, data_of_snoc_new.
  - intros Hr. by apply Hrd, ready_leaf.
  - intros Hb. by apply Hbt, built_leaf.
  - intros Hb t Ht. rewrite <- (length_snoc st (leaf (-1))).
    rewrite Hdv; [|by apply built_leaf|rewrite length_snoc; lia].
    rewrite data_of_snoc_new, data_of_snoc_old by done.
    rewrite deriv_app by done.
    rewrite (deriv_leaf (st ++ [leaf (-1)]) (length st))
      by (by rewrite backward_of_snoc, decide_True).
    rewrite decide_False by lia. simpl. lra.
Qed.

Lemma sub_facts (a b : ident) (st : store) :
  (a < length st)%nat → (b < length st)%nat →
  ∃ ext, __sub__ a (Ref b) st = (Ok (length st + 2)%nat, st ++ ext) ∧
    length ext = 3%nat ∧
    data_of (st ++ ext) (length st + 2) = data_of st a + data_of st b * -1 ∧
    (ready st → ready (st ++ ext)) ∧
    (built st → built (st ++ ext)) ∧
    (built st → ∀ t, (t < length st)%nat →
       deriv (st ++ ext) (length st + 2) t = deriv st a t - deriv st b t).
Proof.
  intros Ha Hb.
  destruct (neg_facts b st Hb) as (ext & Hneg & Hlen & _ & Hd & Hrd & Hbt & Hdv).
  assert (Hl : length (st ++ ext) = (length st + 2)%nat)
    by (rewrite length_app; lia).
  destruct (add_facts a (S (length st)) (st ++ ext))
    as (n & Hadd & Hdn & Hgn & Hrdn & Hbtn & Hdvn); [lia..|].
  rewrite Hl in Hadd.
  exists (ext ++ [n]). rewrite app_assoc. split_and!.
  - unfold __sub__, neg_operand, bind. rewrite Hneg. simpl. exact Hadd.
  - rewrite length_app. simpl. lia.
  - rewrite <- Hl, data_of_snoc_new, Hdn, Hd. by rewrite data_of_app_old.
  - intros Hr. by apply Hrdn, Hrd.
  - intros Hbd. by apply Hbtn, Hbt.
  - intros Hbd t Ht. rewrite <- Hl. rewrite Hdvn; [|by apply Hbt|lia].
    rewrite deriv_app, Hdv by done. lra.
Qed.

Close Scope R_scope.

Section EngineGradients.

Variable iter_order : ident → list ident → list ident.
Hypothesis iter_order_perm : ∀ v l, iter_order v l ≡ₚ l.

Local Open Scope R_scope.

(** The pass from the node just allocated. *)
Lemma backward_new fuel (st : store) (n : Value) :
  ready (st ++ [n]) → (length st + 1 < fuel)%nat →
  ∃ tr st2,
    backward iter_order fuel (length st) (st ++ [n]) = (tr, Ok tt, st2) ∧
    same_graph (st ++ [n]) st2 ∧
    grad_of st2 (length st) = 1 ∧
    ∀ t, (t < length st)%nat →
      grad_of st2 t = grad_of st t + deriv (st ++ [n]) (length st) t.
Proof.
  intros Hr Hfuel.
  destruct (ready_backward iter_order iter_order_perm fuel (st ++ [n]) (length st) Hr)
    as (tr & st2 & Hrun & Hsg & Hg1 & Hg).
  { rewrite length_snoc. lia. }
  { rewrite length_snoc. lia. }
  exists tr, st2. split_and!; [done..|].
  intros t Ht. rewrite Hg by (rewrite ?length_snoc; lia).
  by rewrite grad_of_app_old.
Qed.

(** The pass from a node of the part just appended. *)
Lemma backward_appended fuel (st ext : store) (out : ident) :
  ready (st ++ ext) → (length st ≤ out < length (st ++ ext))%nat →
  (length (st ++ ext) < fuel)%nat →
  ∃ tr st2,
    backward iter_order fuel out (st ++ ext) = (tr, Ok tt, st2) ∧
    same_graph (st ++ ext) st2 ∧
    grad_of st2 out = 1 ∧
    ∀ t, (t < length st)%nat →
      grad_of st2 t = grad_of st t + deriv (st ++ ext) out t.
Proof.
  intros Hr Hout Hfuel.
  destruct (ready_backward iter_order iter_order_perm fuel (st ++ ext) out Hr)
    as (tr & st2 & Hrun & Hsg & Hg1 & Hg); [lia..|].
  exists tr, st2. split_and!; [done..|].
  intros t Ht. rewrite Hg by (rewrite ?length_app; lia).
  by rewrite grad_of_app_old.
Qed.

End EngineGradients.

Close Scope R_scope.

(** ** Division *)

Open Scope R_scope.

(** What [a / b] appends on two objects, with the path sums of the new
    node. *)
Lemma truediv_facts (a b : ident) (st : store) :
  (a < length st)%nat → (b < length st)%nat →
  let x := data_of st a in
  let y := data_of st b in
  y ≠ 0 → finite (y * y) → finite (/ (y * y)) →
  __truediv__ a (Ref b) st =
    (Ok (length st + 2)%nat,
     st ++ [leaf (-1);
            mkValue (/ y) 0 (bw_pow b (length st) (S (length st)))
              [b; length st] OpPow;
            mkValue (x * / y) 0 (bw_truediv a (Ref b) (length st + 2)%nat)
              [a; S (length st)] OpMul]) ∧
  ∀ st1,
    st1 = st ++ [leaf (-1);
                 mkValue (/ y) 0 (bw_pow b (length st) (S (length st)))
                   [b; length st] OpPow;
                 mkValue (x * / y) 0 (bw_truediv a (Ref b) (length st + 2)%nat)
                   [a; S (length st)] OpMul] →
    (ready st → ready st1) ∧
    (built st → ∀ t, (t < length st)%nat →
       deriv st1 (length st + 2) t
       = 1 / y * deriv st a t - x / (y * y) * deriv st b t).
Proof.
  intros Ha Hb x y Hy Hf2 Hfi2.
  pose proof (finite_inv_of_sq y Hy Hfi2) as Hfi.
  assert (Hyy : y * y ≠ 0) by nra.
  split.
  { rewrite truediv_run by done. fold y. by rewrite float_pow_neg1. }
  intros st1 ->.
  set (p := mkValue (/ y) 0 (bw_pow b (length st) (S (length st)))
              [b; length st] OpPow).
  set (n := mkValue (x * / y) 0 (bw_truediv a (Ref b) (length st + 2)%nat)
              [a; S (length st)] OpMul).
  set (s1 := st ++ [leaf (-1)]).
  set (s2 := s1 ++ [p]).
  assert (Heq : st ++ [leaf (-1); p; n] = s2 ++ [n]).
  { unfold s2, s1. by rewrite <- !app_assoc. }
  assert (Hl1 : length s1 = S (length st)) by (unfold s1; by rewrite length_snoc).
  assert (Hl2 : length s2 = (length st + 2)%nat)
    by (unfold s2; rewrite length_snoc; lia).
  assert (Hdb2 : ∀ ext : store, data_of ((s2 ++ ext)) b = y).
  { intros ext. unfold s2, s1, data_of. rewrite <- !app_assoc.
    by rewrite lookup_total_app_l. }
  assert (Hda2 : ∀ ext : store, data_of ((s2 ++ ext)) a = x).
  { intros ext. unfold s2, s1, data_of. rewrite <- !app_assoc.
    by rewrite lookup_total_app_l. }
  assert (Hbuilt : built st → built s2 ∧ built (s2 ++ [n])).
  { intros Hbt.
    assert (Hb1 : built s1) by by apply built_leaf.
    assert (Hb2 : built s2).
    { unfold s2, p. apply built_alloc; [done| | |]; rewrite ?Hl1.
      - intros u Hu. set_unfold. lia.
      - by intros o [= <-].
      - simpl. intros t Ht. by left. }
    split; [done|]. unfold n. apply built_alloc; [done| | |]; rewrite ?Hl2.
    - intros u Hu. set_unfold. lia.
    - by intros o [= <-].
    - simpl. intros t Ht. apply elem_of_cons in Ht as [->|Ht]; [left; set_solver|].
      apply list_elem_of_singleton in Ht as ->. right.
      exists (S (length st)). split; [set_solver|]. apply tc_once.
      unfold edge, prev_of, s2. rewrite <- Hl1, lookup_total_snoc.
      rewrite decide_True by done. simpl. set_solver. }
  rewrite Heq. split.
  - intros Hr. unfold n. apply ready_alloc; rewrite ?Hl2.
    + unfold s2, p. apply ready_alloc; rewrite ?Hl1.
      * by apply ready_leaf.
      * intros u Hu. set_unfold. lia.
      * by intros o [= <-].
      * simpl. intros t Ht. by left.
      * unfold returns, call_backward, bind, gets, lift, grad_iadd, modify, ret.
        fold p. fold s2. simpl.
        replace (data_of s2 b) with y
          by (unfold s2, s1, data_of; rewrite <- !app_assoc;
              by rewrite lookup_total_app_l).
        replace (data_of s2 (length st)) with (-1).
        2:{ unfold s2. rewrite data_of_snoc_old by lia.
            unfold s1. by rewrite data_of_snoc_new. }
        destruct (Req_dec_T y 0) as [|_]; [done|].
        rewrite float_pow_neg2 by done.
        destruct (Rlt_dec 0 y); [|done].
        by rewrite float_pow_neg1, math_log_pos.
    + intros u Hu. set_unfold. lia.
    + by intros o [= <-].
    + simpl. intros t Ht. apply elem_of_cons in Ht as [->|Ht]; [left; set_solver|].
      apply list_elem_of_singleton in Ht as ->. right.
      exists (S (length st)). split; [set_solver|]. apply tc_once.
      unfold edge, prev_of, s2. rewrite <- Hl1, lookup_total_snoc.
      rewrite decide_True by done. simpl. set_solver.
    + unfold returns, call_backward, bind, gets, lift, grad_iadd, grad_isub,
        modify, ret, operand_data, operand_grad_isub.
      fold n. simpl. rewrite ?data_of_set_grad, !Hdb2.
      rewrite float_div_nonzero by done. simpl.
      rewrite ?data_of_set_grad, !Hdb2.
      rewrite float_pow_2 by done. simpl.
      by rewrite float_div_nonzero by done.
  - intros Hbt t Ht. destruct (Hbuilt Hbt) as [Hb2 Hb3].
    rewrite <- Hl2. rewrite deriv_new by (done || lia).
    unfold unit_pushes. simpl. rewrite <- Hl2.
    rewrite set_grad_snoc_new, grad_of_snoc_new.
    rewrite !Hdb2, !Hda2. rewrite float_pow_2 by done. simpl.
    unfold s2, s1. rewrite <- !app_assoc.
    rewrite !deriv_app by done. field. done.
Qed.

Close Scope R_scope.

Section DivisionGradients.
Local Open Scope R_scope.

Variable iter_order : ident → list ident → list ident.
Hypothesis iter_order_perm : ∀ v l, iter_order v l ≡ₚ l.

(** The pass from the node of a division. *)
Lemma truediv_backward fuel (st : store) (a b : ident) :
  ready st →
  (a < length st)%nat → (b < length st)%nat → (length st + 3 < fuel)%nat →
  let x := data_of st a in
  let y := data_of st b in
  y ≠ 0 → finite (y * y) → finite (/ (y * y)) →
  ∃ st1 tr st2,
    __truediv__ a (Ref b) st = (Ok (length st + 2)%nat, st1) ∧
    st1 = st ++ [leaf (-1);
                 mkValue (/ y) 0 (bw_pow b (length st) (S (length st)))
                   [b; length st] OpPow;
                 mkValue (x * / y) 0 (bw_truediv a (Ref b) (length st + 2)%nat)
                   [a; S (length st)] OpMul] ∧
    backward iter_order fuel (length st + 2) st1 = (tr, Ok tt, st2) ∧
    grad_of st2 (length st + 2) = 1 ∧
    ∀ t, (t < length st)%nat →
      grad_of st2 t
      = grad_of st t + (1 / y * deriv st a t - x / (y * y) * deriv st b t).
Proof.
  intros Hr Ha Hb Hfuel x y Hy Hf2 Hfi2.
  destruct (truediv_facts a b st Ha Hb Hy Hf2 Hfi2) as [Hrun Hfacts].
  destruct (Hfacts _ eq_refl) as [Hrd Hdv].
  destruct (backward_appended iter_order iter_order_perm fuel st _
              (length st + 2) (Hrd Hr))
    as (tr & st2 & Hback & _ & Hg1 & Hgr); [rewrite length_app; simpl; lia..|].
  pose proof (ready_built st Hr) as Hbt.
  eexists _, tr, st2. split_and!; [exact Hrun|reflexivity|exact Hback|exact Hg1|].
  intros t Ht. by rewrite Hgr, Hdv.
Qed.

End DivisionGradients.

Section DivisionTheorem.
Local Open Scope R_scope.

(** C3 — Division (amended: the divisor's square and inverse square must
    be within the double range, and [a], [b] must be distinct nodes neither
    of which is computed from the other). On a heap that is ready for a
    pass, for two objects [a] and [b] with [b.value] non-zero and
    [b.value^2], [1/b.value^2] finite doubles, [a / b] is the node
    [a * b**-1]: a product whose second operand is the power node of [b]
    and the leaf -1, with value [a.value * b.value^-1]. [backward] on it
    completes, whatever the iteration order of the operand sets (the
    recursion depth being above the number of objects), and adds
    to the gradient of every older node [t]
    [1/b.value * d(a, t) - a.value/b.value^2 * d(b, t)]. When [a] and [b]
    are distinct and neither is reachable from the other, that is
    [1/b.value] for [a] and [-a.value/b.value^2] for [b]: their gradients
    after the pass when these were zero before. For [a / a] the gradient of
    [a] is left as it was. *)
Theorem truediv_value_and_gradients
    (iter_order : ident → list ident → list ident) (fuel : nat)
    (st : store) (a b : ident) :
  (∀ v l, iter_order v l ≡ₚ l) → ready st →
  (a < length st)%nat → (b < length st)%nat → (length st + 3 < fuel)%nat →
  let x := data_of st a in
  let y := data_of st b in
  y ≠ 0 → finite (y * y) → finite (/ (y * y)) →
  ∃ out st1 tr st2,
    __truediv__ a (Ref b) st = (Ok out, st1) ∧
    length st1 = (length st + 3)%nat ∧ out = (length st + 2)%nat ∧
    data_of st1 out = x * / y ∧
    op_of st1 out = OpMul ∧ prev_of st1 out = [a; S (length st)] ∧
    op_of st1 (S (length st)) = OpPow ∧
    prev_of st1 (S (length st)) = [b; length st] ∧
    data_of st1 (length st) = -1 ∧ data_of st1 (S (length st)) = / y ∧
    backward iter_order fuel out st1 = (tr, Ok tt, st2) ∧
    grad_of st2 out = 1 ∧
    (∀ t, (t < length st)%nat →
       grad_of st2 t
       = grad_of st t + (1 / y * deriv st a t - x / (y * y) * deriv st b t)) ∧
    (a ≠ b → ¬ reachable st a b → ¬ reachable st b a →
       grad_of st2 a = grad_of st a + 1 / y ∧
       grad_of st2 b = grad_of st b - x / (y * y) ∧
       (grad_of st a = 0 → grad_of st b = 0 →
          grad_of st2 a = 1 / y ∧ grad_of st2 b = - x / (y * y))) ∧
    (a = b → grad_of st2 a = grad_of st a).
Proof.
  intros Hperm Hr Ha Hb Hfuel x y Hy Hf2 Hfi2.
  destruct (truediv_backward iter_order Hperm fuel st a b Hr Ha Hb Hfuel
              Hy Hf2 Hfi2) as (st1 & tr & st2 & Hrun & Hst1 & Hback & Hg1 & Hall).
  fold x y in Hst1, Hall.
  pose proof (ready_built st Hr) as Hbt.
  assert (Hlook : ∀ i (n1 n2 n3 : Value), (i < 3)%nat →
            (st ++ [n1; n2; n3]) !!! (length st + i)%nat = [n1; n2; n3] !!! i).
  { intros i n1 n2 n3 Hi. rewrite lookup_total_app_r by lia. f_equal. lia. }
  exists (length st + 2)%nat, st1, tr, st2.
  split_and!; try done.
  - rewrite Hst1, length_app. simpl. lia.
  - rewrite Hst1. unfold data_of. by rewrite (Hlook 2%nat) by lia.
  - rewrite Hst1. unfold op_of. by rewrite (Hlook 2%nat) by lia.
  - rewrite Hst1. unfold prev_of. by rewrite (Hlook 2%nat) by lia.
  - rewrite Hst1. unfold op_of.
    replace (S (length st)) with (length st + 1)%nat by lia. by rewrite Hlook by lia.
  - rewrite Hst1. unfold prev_of.
    replace (S (length st)) with (length st + 1)%nat at 1 by lia.
    by rewrite Hlook by lia.
  - rewrite Hst1. unfold data_of.
    rewrite lookup_total_app_r by lia. by rewrite Nat.sub_diag.
  - rewrite Hst1. unfold data_of.
    replace (S (length st)) with (length st + 1)%nat by lia. by rewrite Hlook by lia.
  - intros Hne Hab Hba.
    assert (Hga : grad_of st2 a = grad_of st a + 1 / y).
    { rewrite Hall by done. rewrite deriv_refl.
      rewrite (deriv_unreachable st b a) by done. lra. }
    assert (Hgb : grad_of st2 b = grad_of st b - x / (y * y)).
    { rewrite Hall by done. rewrite deriv_refl.
      rewrite (deriv_unreachable st a b) by done. lra. }
    split_and!; [done|done|]. intros Ha0 Hb0. rewrite Hga, Hgb, Ha0, Hb0.
    split; lra.
  - intros ->. rewrite Hall by done. rewrite deriv_refl.
    subst x y. field. done.
Qed.

Lemma truediv_value_and_gradients_witness :
  ∃ out st1 tr st2,
    __truediv__ 0 (Ref 1%nat) [leaf 6; leaf 2] = (Ok out, st1) ∧
    data_of st1 out = 3 ∧
    backward tuple_order 6 out st1 = (tr, Ok tt, st2) ∧
    grad_of st2 0 = 0.5 ∧ grad_of st2 1 = -1.5.
Proof.
  assert (H2 : data_of [leaf 6; leaf 2] 1 ≠ 0) by (unfold data_of; simpl; lra).
  assert (Hf : finite (data_of [leaf 6; leaf 2] 1 * data_of [leaf 6; leaf 2] 1)).
  { unfold data_of. simpl. apply finite_small. rewrite Rabs_pos_eq; lra. }
  assert (Hi : finite (/ (data_of [leaf 6; leaf 2] 1 * data_of [leaf 6; leaf 2] 1))).
  { unfold data_of. simpl. apply finite_small. rewrite Rabs_pos_eq; lra. }
  destruct (truediv_value_and_gradients tuple_order 6 [leaf 6; leaf 2] 0 1
              tuple_order_perm (ready_two 6 2) ltac:(simpl; lia) ltac:(simpl; lia)
              ltac:(simpl; lia) H2 Hf Hi)
    as (out & st1 & tr & st2 & Hrun & _ & _ & Hd & _ & _ & _ & _ & _ & _
        & Hback & _ & _ & Hind & _).
  destruct Hind as (_ & _ & Hzero).
  - lia.
  - intros H. apply rtc_inv in H as [?|(y & Hy & _)]; [lia|].
    unfold edge, prev_of in Hy. simpl in Hy. set_solver.
  - intros H. apply rtc_inv in H as [?|(y & Hy & _)]; [lia|].
    unfold edge, prev_of in Hy. simpl in Hy. set_solver.
  - destruct Hzero as [Hga Hgb]; [done..|].
    exists out, st1, tr, st2. split_and!; [done| |done| |].
    + rewrite Hd. unfold data_of. simpl. lra.
    + rewrite Hga. unfold data_of. simpl. lra.
    + rewrite Hgb. unfold data_of. simpl. lra.
Defined.

(** Four ways in which the division departs from the formulas. A finite,
    non-zero divisor for which it raises: the subnormal double 2^-1060.
    The same node on both sides: [a / a] for [a = Value(2)] leaves
    [a.grad] at 0, not at 1/2. A dividend computed from the divisor:
    for [b = Value(2)] and [a = b * 3], [a / b] leaves [b.grad] at 0, not
    at -6/4. A dividend whose own backward step raises: for
    [a = Value(2^-600) ** -1] and [b = Value(1)], [a / b] is computed and
    its pass raises [OverflowError]. *)
Lemma truediv_tiny_divisor_overflows :
  (finite (/ IZR (2 ^ 1060)) ∧ / IZR (2 ^ 1060) ≠ 0 ∧
   ∃ st, div_program 6 (/ IZR (2 ^ 1060)) [] = (Raise OverflowError, st)) ∧
  (∃ out st1 tr st2,
     __truediv__ 0 (Ref 0%nat) [leaf 2] = (Ok out, st1) ∧
     backward tuple_order 5 out st1 = (tr, Ok tt, st2) ∧
     grad_of st2 0 = 0 ∧ 1 / 2 ≠ 0) ∧
  (∃ out st1 tr st2,
     __truediv__ 2 (Ref 0%nat)
       [leaf 2; leaf 3; mkValue (2 * 3) 0 (bw_mul 0 1 2) [0; 1]%nat OpMul]
     = (Ok out, st1) ∧
     backward tuple_order 7 out st1 = (tr, Ok tt, st2) ∧
     grad_of st2 0 = 0 ∧ - (2 * 3) / (2 * 2) ≠ 0) ∧
  (∃ st tr st',
     (let* a := pow_program (/ IZR (2 ^ 600)) (-1) in
      let* b := Value_init 1 [] OpLeaf in
      __truediv__ a (Ref b)) [] = (Ok 6%nat, st) ∧
     backward tuple_order 7 6 st = (tr, Raise OverflowError, st')).
Proof.
  assert (Hpos : 0 < IZR (2 ^ 1060)).
  { apply IZR_lt. apply Z.ltb_lt. by vm_compute. }
  assert (Hinv : 0 < / IZR (2 ^ 1060)) by by apply Rinv_0_lt_compat.
  assert (Hsmall : ∀ x, 0 <= x <= 1000000 → finite x).
  { intros x Hx. apply finite_small. rewrite Rabs_pos_eq; lra. }
  split_and!.
  - apply finite_small. rewrite Rabs_pos_eq by lra.
    assert (/ IZR (2 ^ 1060) <= 1); [|lra].
    rewrite <- Rinv_1. apply Rinv_le_contravar; [lra|].
    apply IZR_le. apply Z.leb_le. by vm_compute.
  - lra.
  - eexists. unfold div_program. py_eval.
    change (-1) with (IZR (-1)). rewrite float_pow_int by lra.
    rewrite in_range_overflow; [reflexivity|].
    simpl powerRZ. rewrite Rmult_1_r, Rinv_inv, Rabs_pos_eq by lra.
    unfold DBL_MAX. apply IZR_lt. apply Z.ltb_lt. by vm_compute.
  - destruct (truediv_backward tuple_order tuple_order_perm 5 [leaf 2] 0 0
                (ready_one 2)) as (st1 & tr & st2 & Hrun & _ & Hback & _ & Hall);
      try (simpl; lia); try (unfold data_of; simpl; (lra || apply Hsmall; lra)).
    exists 3%nat, st1, tr, st2. split_and!; [exact Hrun|exact Hback| |lra].
    rewrite Hall by (simpl; lia). rewrite deriv_refl.
    unfold grad_of, data_of. simpl. lra.
  - set (st := [leaf 2; leaf 3; mkValue (2 * 3) 0 (bw_mul 0 1 2) [0; 1]%nat OpMul]).
    assert (Hr : ready st).
    { apply (ready_binary [leaf 2; leaf 3] 0 1 (2 * 3) (bw_mul 0 1 2) OpMul);
        [apply ready_two|simpl; lia..|done|done|done]. }
    destruct (truediv_backward tuple_order tuple_order_perm 7 st 2 0 Hr)
      as (st1 & tr & st2 & Hrun & _ & Hback & _ & Hall);
      try (simpl; lia); try (unfold data_of; simpl; (lra || apply Hsmall; lra)).
    exists 5%nat, st1, tr, st2. split_and!; [exact Hrun|exact Hback| |lra].
    rewrite Hall by (simpl; lia). rewrite deriv_refl.
    unfold deriv. simpl. unfold grad_of, data_of. simpl. lra.
  - assert (Hp6 : 0 < IZR (2 ^ 600)).
    { apply IZR_lt. apply Z.ltb_lt. by vm_compute. }
    assert (Hi6 : 0 < / IZR (2 ^ 600)) by by apply Rinv_0_lt_compat.
    assert (Hfwd : float_pow (/ IZR (2 ^ 600)) (-1) = Ok (IZR (2 ^ 600))).
    { change (-1) with (IZR (-1)). rewrite float_pow_int by lra.
      simpl powerRZ. rewrite Rmult_1_r, Rinv_inv. apply in_range_finite.
      unfold finite, DBL_MAX. rewrite Rabs_pos_eq by lra.
      apply IZR_le. apply Z.leb_le. by vm_compute. }
    assert (Hbwd : float_pow (/ IZR (2 ^ 600)) (-1 - 1) = Raise OverflowError).
    { replace (-1 - 1) with (IZR (-2)) by lra. rewrite float_pow_int by lra.
      apply in_range_overflow. simpl powerRZ.
      rewrite Rmult_1_r, Rinv_mult, Rinv_inv, <- mult_IZR.
      rewrite Rabs_pos_eq by (apply IZR_le; apply Z.leb_le; by vm_compute).
      unfold DBL_MAX. apply IZR_lt. apply Z.ltb_lt. by vm_compute. }
    assert (H1 : (1 : R) ≠ 0) by lra.
    assert (H11 : (1 : R) * 1 ≠ 0) by lra.
    assert (Hf1 : finite (/ 1)) by (rewrite Rinv_1; apply Hsmall; lra).
    assert (Hf2 : finite (1 * 1)) by (apply Hsmall; lra).
    assert (Hf3 : finite (/ (1 * 1)))
      by (rewrite Rmult_1_r, Rinv_1; apply Hsmall; lra).
    eexists _, _, _. unfold pow_program. py_eval. rewrite Hfwd. py_eval.
    rewrite float_pow_neg1 by done. py_eval.
    split; [reflexivity|].
    repeat (py_eval;
            first [ rewrite Hbwd
                  | rewrite float_pow_2 by done
                  | rewrite float_div_nonzero by done
                  | rewrite float_pow_neg2 by done
                  | rewrite float_pow_neg1 by done
                  | rewrite math_log_pos by lra
                  | match goal with
                    | |- context [Req_dec_T ?a 0] =>
                        destruct (Req_dec_T a 0) as [|_]; [lra|]
                    | |- context [Rlt_dec 0 ?a] =>
                        destruct (Rlt_dec 0 a) as [_|]; [|lra]
                    end ]).
    reflexivity.
Qed.

End DivisionTheorem.
Close Scope R_scope.

(** ** Raw operands *)

Section Lifting.
Local Open Scope R_scope.

Variable iter_order : ident → list ident → list ident.
Hypothesis iter_order_perm : ∀ v l, iter_order v l ≡ₚ l.

(** The passes from [self + l] and from [l + self], [l] being a fresh leaf,
    give the objects of [st] the same gradients; likewise for [*]. *)
Lemma commuted_backward fuel (st : store) (self : ident) (x : R)
    (f : ident → operand → M ident) (n1 n2 : Value) :
  ready st → (self < length st)%nat → (length st + 2 < fuel)%nat →
  let s := st ++ [leaf x] in
  f self (Ref (length st)) s = (Ok (length s), s ++ [n1]) →
  f (length st) (Ref self) s = (Ok (length s), s ++ [n2]) →
  ready (s ++ [n1]) → ready (s ++ [n2]) →
  (∀ t, (t < length st)%nat →
     deriv (s ++ [n1]) (length s) t = deriv (s ++ [n2]) (length s) t) →
  ∃ tr1 s1' tr2 s2',
    backward iter_order fuel (length s) (s ++ [n1]) = (tr1, Ok tt, s1') ∧
    backward iter_order fuel (length s) (s ++ [n2]) = (tr2, Ok tt, s2') ∧
    ∀ t, (t < length st)%nat → grad_of s1' t = grad_of s2' t.
Proof.
  intros Hr Hs Hfuel s _ _ Hr1 Hr2 Hdv.
  assert (Hl : length s = S (length st)) by (unfold s; by rewrite length_snoc).
  destruct (backward_new iter_order iter_order_perm fuel s n1 Hr1)
    as (tr1 & s1' & Hb1 & _ & _ & Hg1); [lia|].
  destruct (backward_new iter_order iter_order_perm fuel s n2 Hr2)
    as (tr2 & s2' & Hb2 & _ & _ & Hg2); [lia|].
  exists tr1, s1', tr2, s2'. split_and!; [done..|].
  intros t Ht. rewrite Hg1, Hg2 by lia. by rewrite Hdv.
Qed.

End Lifting.

Section LiftingTheorem.
Local Open Scope R_scope.

(** C5 — Raw operands (amended: identical for [+] and [*] in either order
    and for [**] with the number as exponent; not for [-] and [/]; the
    other orders raise [TypeError]). A raw number combined with a node by
    [+], [*] or [**], the number on the right, is first wrapped into a
    fresh leaf (gradient 0, no operand, no-op closure), and the operation
    then runs exactly as on that leaf: same outcome, same heap, hence same
    value, graph and gradients. With the number on the left, [+] and [*]
    go through [__radd__] and [__rmul__] and run as [self + leaf] and
    [self * leaf]; compared with [leaf + self] and [leaf * self] the
    node has the same value, the same operands and the same tag, and
    [backward] gives the existing objects the same gradients. With the
    number on the left, [-], [/] and [**] raise [TypeError] and allocate
    nothing. For [-] and [/] with the number on the right the number is
    negated, or raised to -1, as a number, and the result is wrapped: the
    value of the node is the one obtained with an explicit leaf, but the
    graph is not (two objects are allocated, against four with the explicit
    leaf, which goes through a [*] or [**] node of its own); for [-] the
    passes from the two nodes give the existing objects the same
    gradients. *)
Theorem raw_operand_lifting
    (iter_order : ident → list ident → list ident) (fuel : nat)
    (st : store) (self : ident) (x : R) :
  (∀ u l, iter_order u l ≡ₚ l) → ready st →
  (self < length st)%nat → (length st + 4 < fuel)%nat →
  let wrapped (f : ident → M ident) : M ident :=
    let* l := Value_init x [] OpLeaf in f l in
  (* the wrapped leaf *)
  Value_init x [] OpLeaf st = (Ok (length st), st ++ [leaf x]) ∧
  grad (leaf x) = 0 ∧ _prev (leaf x) = [] ∧ _backward (leaf x) = bw_none ∧
  (* the number on the right: [+], [*], [**] *)
  __add__ self (Num x) st = wrapped (λ l, __add__ self (Ref l)) st ∧
  __mul__ self (Num x) st = wrapped (λ l, __mul__ self (Ref l)) st ∧
  __pow__ self (Num x) st = wrapped (λ l, __pow__ self (Ref l)) st ∧
  (* the number on the left: [+], [*] *)
  reflected Plus x self st = in_engine (wrapped (λ l, __add__ self (Ref l)) st) ∧
  reflected Times x self st = in_engine (wrapped (λ l, __mul__ self (Ref l)) st) ∧
  (∃ o s1 s2 tr1 s1' tr2 s2',
     reflected Plus x self st = (Engine (Ok o), s1) ∧
     wrapped (λ l, __add__ l (Ref self)) st = (Ok o, s2) ∧
     data_of s1 o = data_of s2 o ∧ prev_of s1 o ≡ₚ prev_of s2 o ∧
     op_of s1 o = op_of s2 o ∧
     backward iter_order fuel o s1 = (tr1, Ok tt, s1') ∧
     backward iter_order fuel o s2 = (tr2, Ok tt, s2') ∧
     ∀ t, (t < length st)%nat → grad_of s1' t = grad_of s2' t) ∧
  (∃ o s1 s2 tr1 s1' tr2 s2',
     reflected Times x self st = (Engine (Ok o), s1) ∧
     wrapped (λ l, __mul__ l (Ref self)) st = (Ok o, s2) ∧
     data_of s1 o = data_of s2 o ∧ prev_of s1 o ≡ₚ prev_of s2 o ∧
     op_of s1 o = op_of s2 o ∧
     backward iter_order fuel o s1 = (tr1, Ok tt, s1') ∧
     backward iter_order fuel o s2 = (tr2, Ok tt, s2') ∧
     ∀ t, (t < length st)%nat → grad_of s1' t = grad_of s2' t) ∧
  (* the number on the left: [-], [/], [**] *)
  reflected Minus x self st = (TypeError, st) ∧
  reflected Over x self st = (TypeError, st) ∧
  reflected Power x self st = (TypeError, st) ∧
  (* [-]: same value, another graph *)
  (∃ o1 s1 o2 s2,
     __sub__ self (Num x) st = (Ok o1, s1) ∧
     wrapped (λ l, __sub__ self (Ref l)) st = (Ok o2, s2) ∧
     data_of s1 o1 = data_of s2 o2 ∧
     length s1 = (length st + 2)%nat ∧ length s2 = (length st + 4)%nat) ∧
  (* [/]: same value, another graph *)
  (∀ r, float_pow x (-1) = Ok r →
     ∃ o1 s1 o2 s2,
       __truediv__ self (Num x) st = (Ok o1, s1) ∧
       wrapped (λ l, __truediv__ self (Ref l)) st = (Ok o2, s2) ∧
       data_of s1 o1 = data_of s2 o2 ∧
       length s1 = (length st + 2)%nat ∧ length s2 = (length st + 4)%nat) ∧
  (* [-]: same gradients for the existing objects *)
  (∃ o1 s1 tr1 s1' o2 s2 tr2 s2',
     __sub__ self (Num x) st = (Ok o1, s1) ∧
     wrapped (λ l, __sub__ self (Ref l)) st = (Ok o2, s2) ∧
     backward iter_order fuel o1 s1 = (tr1, Ok tt, s1') ∧
     backward iter_order fuel o2 s2 = (tr2, Ok tt, s2') ∧
     ∀ t, (t < length st)%nat → grad_of s1' t = grad_of s2' t).
Proof.
  intros Hperm Hr Hs Hfuel wrapped.
  pose proof (ready_built st Hr) as Hbt.
  assert (Hl : ∀ y, length (st ++ [leaf y]) = S (length st))
    by (intros; by rewrite length_snoc).
  assert (Hrl : ∀ y, ready (st ++ [leaf y])) by (intros; by apply ready_leaf).
  assert (Hbl : ∀ y, built (st ++ [leaf y])) by (intros; by apply built_leaf).
  assert (Hw : ∀ f, wrapped f st = f (length st) (st ++ [leaf x])) by done.
  assert (Hdl : ∀ y t, (t < length st)%nat →
            deriv (st ++ [leaf y]) (length st) t = 0).
  { intros y t Ht. rewrite deriv_leaf by (by rewrite backward_of_snoc, decide_True).
    rewrite decide_False; [done|lia]. }
  split_and!; try done.
  - (* [x + self] against [leaf + self] *)
    destruct (add_facts self (length st) (st ++ [leaf x]))
      as (n1 & Hr1 & Hd1 & _ & Hrd1 & _ & Hdv1); [rewrite Hl; lia..|].
    destruct (add_facts (length st) self (st ++ [leaf x]))
      as (n2 & Hr2 & Hd2 & _ & Hrd2 & _ & Hdv2); [rewrite Hl; lia..|].
    destruct (commuted_backward iter_order Hperm fuel st self x
                (λ a b, __add__ a b) n1 n2 Hr Hs ltac:(lia) Hr1 Hr2
                (Hrd1 (Hrl x)) (Hrd2 (Hrl x)))
      as (tr1 & s1' & tr2 & s2' & Hb1 & Hb2 & Hg).
    { intros t Ht. rewrite Hdv1, Hdv2 by (done || rewrite Hl; lia). lra. }
    exists (length (st ++ [leaf x])), ((st ++ [leaf x]) ++ [n1]),
      ((st ++ [leaf x]) ++ [n2]), tr1, s1', tr2, s2'.
    split_and!; [|by rewrite Hw| | | |done..].
    + unfold reflected, in_engine, __radd__. by rewrite add_num, Hr1.
    + rewrite !data_of_snoc_new, Hd1, Hd2. lra.
    + rewrite add_run in Hr1, Hr2. simplify_eq.
      unfold prev_of. rewrite !lookup_total_snoc, !decide_True by done.
      cbn [_prev]. rewrite !set_of_pair_ne by lia. apply perm_swap.
    + rewrite add_run in Hr1, Hr2. simplify_eq.
      unfold op_of. by rewrite !lookup_total_snoc, !decide_True.
  - (* [x * self] against [leaf * self] *)
    destruct (mul_facts self (length st) (st ++ [leaf x]))
      as (n1 & Hr1 & Hd1 & _ & Hrd1 & _ & Hdv1); [rewrite Hl; lia..|].
    destruct (mul_facts (length st) self (st ++ [leaf x]))
      as (n2 & Hr2 & Hd2 & _ & Hrd2 & _ & Hdv2); [rewrite Hl; lia..|].
    destruct (commuted_backward iter_order Hperm fuel st self x
                (λ a b, __mul__ a b) n1 n2 Hr Hs ltac:(lia) Hr1 Hr2
                (Hrd1 (Hrl x)) (Hrd2 (Hrl x)))
      as (tr1 & s1' & tr2 & s2' & Hb1 & Hb2 & Hg).
    { intros t Ht. rewrite Hdv1, Hdv2 by (done || rewrite Hl; lia). lra. }
    exists (length (st ++ [leaf x])), ((st ++ [leaf x]) ++ [n1]),
      ((st ++ [leaf x]) ++ [n2]), tr1, s1', tr2, s2'.
    split_and!; [|by rewrite Hw| | | |done..].
    + unfold reflected, in_engine, __rmul__. by rewrite mul_num, Hr1.
    + rewrite !data_of_snoc_new, Hd1, Hd2. lra.
    + rewrite mul_run in Hr1, Hr2. simplify_eq.
      unfold prev_of. rewrite !lookup_total_snoc, !decide_True by done.
      cbn [_prev]. rewrite !set_of_pair_ne by lia. apply perm_swap.
    + rewrite mul_run in Hr1, Hr2. simplify_eq.
      unfold op_of. by rewrite !lookup_total_snoc, !decide_True.
  - (* [-]: values and sizes *)
    rewrite sub_num, add_num, add_run, Hw.
    rewrite sub_run by (rewrite length_snoc; lia).
    eexists _, _, _, _. split_and!; [done|done| |..].
    + rewrite data_of_snoc_new. simpl data.
      unfold data_of at 3.
      rewrite !length_snoc.
      rewrite (lookup_total_app_r (st ++ [leaf x])) by (rewrite length_snoc; lia).
      rewrite length_snoc.
      replace (S (length st) + 2 - S (length st))%nat with 2%nat by lia.
      simpl. rewrite !data_of_snoc_old, !data_of_snoc_new by (rewrite ?length_snoc; lia).
      simpl. rewrite ?data_of_snoc_old by lia. lra.
    + rewrite !length_app. simpl. lia.
    + rewrite !length_app. simpl. lia.
  - (* [/]: values and sizes *)
    intros r Hrx. rewrite truediv_num, Hrx, Hw by done.
    rewrite truediv_run by (rewrite length_snoc; lia).
    rewrite data_of_snoc_new. simpl data. rewrite Hrx.
    eexists _, _, _, _. split_and!; [done|done| |..].
    + unfold data_of at 1 3.
      rewrite !length_snoc.
      rewrite (lookup_total_app_r st) by lia.
      rewrite (lookup_total_app_r (st ++ [leaf x])) by (rewrite length_snoc; lia).
      rewrite length_snoc.
      replace (S (length st) - length st)%nat with 1%nat by lia.
      replace (S (length st) + 2 - S (length st))%nat with 2%nat by lia.
      simpl. by rewrite data_of_snoc_old by lia.
    + rewrite !length_app. simpl. lia.
    + rewrite !length_app. simpl. lia.
  - (* [-]: gradients *)
    destruct (add_facts self (length st) (st ++ [leaf (- x)]))
      as (n1 & Hr1 & _ & _ & Hrd1 & _ & Hdv1); [rewrite Hl; lia..|].
    destruct (sub_facts self (length st) (st ++ [leaf x]))
      as (ext & Hr2 & Hlen2 & _ & Hrd2 & _ & Hdv2); [rewrite Hl; lia..|].
    rewrite Hl in Hr1, Hr2.
    destruct (backward_appended iter_order Hperm fuel st ([leaf (- x)] ++ [n1])
                (S (length st)))
      as (tr1 & s1' & Hb1 & _ & _ & Hg1).
    { rewrite app_assoc. by apply Hrd1. }
    { rewrite length_app. simpl. lia. }
    { rewrite length_app. simpl. lia. }
    destruct (backward_appended iter_order Hperm fuel st ([leaf x] ++ ext)
                (S (length st) + 2)%nat)
      as (tr2 & s2' & Hb2 & _ & _ & Hg2).
    { rewrite app_assoc. by apply Hrd2. }
    { rewrite !length_app. simpl. lia. }
    { rewrite !length_app. simpl. lia. }
    rewrite !app_assoc in Hb1, Hb2, Hg1, Hg2.
    eexists _, _, tr1, s1', _, _, tr2, s2'.
    split_and!; [by rewrite sub_num, add_num|by rewrite Hw|done|done|].
    intros t Ht. rewrite Hg1, Hg2 by done.
    rewrite <- (Hl (- x)) at 1. rewrite Hdv1 by (done || rewrite Hl; lia).
    rewrite <- (Hl x). rewrite Hdv2 by (done || rewrite Hl; lia).
    rewrite !deriv_app, !Hdl by done. rewrite ?deriv_app by done. lra.
Qed.

Lemma raw_operand_lifting_witness :
  __add__ 0 (Num 2) [leaf 5] =
    (let* l := Value_init 2 [] OpLeaf in __add__ 0 (Ref l)) [leaf 5] ∧
  __pow__ 0 (Num 2) [leaf 5] =
    (let* l := Value_init 2 [] OpLeaf in __pow__ 0 (Ref l)) [leaf 5] ∧
  reflected Times 2 0 [leaf 5] =
    in_engine ((let* l := Value_init 2 [] OpLeaf in __mul__ 0 (Ref l)) [leaf 5]) ∧
  reflected Power 2 0 [leaf 5] = (TypeError, [leaf 5]) ∧
  ∃ o1 s1 tr1 s1' o2 s2 tr2 s2',
    __sub__ 0 (Num 2) [leaf 5] = (Ok o1, s1) ∧
    (let* l := Value_init 2 [] OpLeaf in __sub__ 0 (Ref l)) [leaf 5] = (Ok o2, s2) ∧
    backward tuple_order 6 o1 s1 = (tr1, Ok tt, s1') ∧
    backward tuple_order 6 o2 s2 = (tr2, Ok tt, s2') ∧
    grad_of s1' 0 = grad_of s2' 0.
Proof.
  destruct (raw_operand_lifting tuple_order 6 [leaf 5] 0 2
              tuple_order_perm (ready_one 5) ltac:(simpl; lia) ltac:(simpl; lia))
    as (_ & _ & _ & _ & Hadd & _ & Hpow & _ & Hmul & _ & _ & _ & _ & Hrpow
        & _ & _ & Hsub).
  destruct Hsub as (o1 & s1 & tr1 & s1' & o2 & s2 & tr2 & s2'
                    & Hr1 & Hr2 & Hb1 & Hb2 & Hg).
  split_and!; [exact Hadd|exact Hpow|exact Hmul|exact Hrpow|].
  exists o1, s1, tr1, s1', o2, s2, tr2, s2'.
  split_and!; [done..|]. apply Hg. simpl. lia.
Defined.

(** Subtraction and division of a raw number do not go through a wrapped
    leaf: [Value(5) - 2] builds another heap than [Value(5) - Value(2)],
    and the backward pass of [Value(6) / 2] raises [AttributeError], while
    that of [Value(6) / Value(2)] completes. With the number on the left,
    [2 ** Value(5)], [2 - Value(5)] and [2 / Value(5)] raise [TypeError]. *)
Lemma raw_operand_not_lifted_by_sub_and_div :
  __sub__ 0 (Num 2) [leaf 5] ≠
    (let* l := Value_init 2 [] OpLeaf in __sub__ 0 (Ref l)) [leaf 5] ∧
  reflected Power 2 0 [leaf 5] = (TypeError, [leaf 5]) ∧
  reflected Minus 2 0 [leaf 5] = (TypeError, [leaf 5]) ∧
  reflected Over 2 0 [leaf 5] = (TypeError, [leaf 5]) ∧
  (∃ st tr st',
     div_raw_program 6 2 [] = (Ok 2%nat, st) ∧
     backward tuple_order 3 2 st = (tr, Raise AttributeError, st')) ∧
  (∃ st tr st',
     div_program 6 2 [] = (Ok 4%nat, st) ∧
     backward tuple_order 3 4 st = (tr, Ok tt, st')).
Proof.
  assert (H2 : (2 : R) ≠ 0) by lra.
  assert (Hi : finite (/ 2)).
  { apply finite_small. rewrite Rabs_pos_eq; lra. }
  split_and!; [|done|done|done|..].
  - intros H. py_eval_in H. discriminate H.
  - eexists _, _, _. unfold div_raw_program. py_eval.
    rewrite float_pow_neg1 by done.
    split; [reflexivity|]. py_eval. reflexivity.
  - assert (Hf : finite (2 * 2)).
    { apply finite_small. rewrite Rabs_pos_eq; lra. }
    assert (Hi2 : finite (/ (2 * 2))).
    { apply finite_small. rewrite Rabs_pos_eq; lra. }
    destruct (div_backward tuple_order 3 6 2 tuple_order_perm (le_n 3) H2 Hf Hi2)
      as (tr & st' & Hb & _).
    eexists _, tr, st'. by rewrite div_program_run.
Qed.

End LiftingTheorem.
Close Scope R_scope.

(** ** The nodes of [sigmoid] and [tanh] *)

Lemma ready_with_activation (st : store) self k e d c op :
  ready st → self < length st →
  targets c = [self] → closure_out c = Some (length st + 3) →
  returns c (with_activation st self k e (mkValue d 0 c [self] op)) →
  ready (with_activation st self k e (mkValue d 0 c [self] op)).
Proof.
  intros Hr Hs Htg Hout Hret.
  assert (Heq : with_activation st self k e (mkValue d 0 c [self] op) =
    (((st ++ [leaf k]) ++
      [mkValue (data_of st self * k) 0
         (bw_mul self (length st) (S (length st))) [self; length st] OpMul]) ++
      [mkValue e 0 (bw_exp (S (length st)) (length st + 2)) [S (length st)] OpExp])
    ++ [mkValue d 0 c [self] op]).
  { unfold with_activation. by rewrite <- !app_assoc. }
  rewrite Heq in *.
  apply ready_alloc; [apply ready_alloc; [apply ready_alloc; [by apply ready_leaf|..]|..]|..];
    rewrite ?length_snoc; try done.
  all: try (simpl; intros ? ?; set_unfold; lia).
  all: try (simpl; intros ? ?; simplify_eq; lia).
  all: try (simpl; intros ? ?; set_unfold; tauto).
  rewrite Htg. intros t Ht. by left.
Qed.

Section ActivationNodes.
Local Open Scope R_scope.

Variable iter_order : ident → list ident → list ident.
Hypothesis iter_order_perm : ∀ v l, iter_order v l ≡ₚ l.

(** C10 — Operands of [sigmoid] and [tanh]. [sigmoid(a)] returns a node
    when [e^-a] is a finite double (or [a] is itself beyond the double
    range), and [tanh(a)] when [e^-2a] is (or [2a] is beyond the range);
    otherwise they raise [OverflowError] and there is no output node. The
    node returned has exactly one operand, [a]; its value is [1/(1+e^-a)]
    (resp. [2/(1+e^-2a) - 1]); the three auxiliary nodes allocated for the
    forward value are not reachable from it. A backward pass from it,
    whatever its outcome, calls none of them, and when it completes the
    gradient of [a] is its former gradient plus [out*(1-out)] (resp.
    [1-out^2]) times the gradient 1 of the output: the closed-form
    derivative, applied once. The pass does complete on a heap that is
    ready for it, with the recursion depth above the number of objects. *)
Theorem activation_has_single_operand (fuel : nat) (st : store) (self : ident) :
  well_formed st → (self < length st)%nat →
  let a := data_of st self in
  (finite (exp (a * -1)) ∨ ¬ finite (a * -1) →
   ∃ out st1,
     sigmoid self st = (Ok out, st1) ∧
     let d := data_of st1 out in
     prev_of st1 out = [self] ∧
     d = 1 / (1 + exp (a * -1)) ∧
     out = (length st + 3)%nat ∧ length st1 = (length st + 4)%nat ∧
     (∀ u, reachable st1 out u → u = out ∨ (u < length st)%nat) ∧
     (∀ tr o st2, backward iter_order fuel out st1 = (tr, o, st2) →
        (∀ u, u ∈ tr → u = out ∨ (u < length st)%nat) ∧
        (o = Ok tt → grad_of st2 self = grad_of st self + d * (1 - d) * 1)) ∧
     (ready st → (length st + 4 < fuel)%nat →
        ∃ tr st2, backward iter_order fuel out st1 = (tr, Ok tt, st2))) ∧
  (finite (exp (a * -2)) ∨ ¬ finite (a * -2) →
   ∃ out st1,
     tanh_ self st = (Ok out, st1) ∧
     let d := data_of st1 out in
     prev_of st1 out = [self] ∧
     d = 2 / (1 + exp (a * -2)) - 1 ∧
     out = (length st + 3)%nat ∧ length st1 = (length st + 4)%nat ∧
     (∀ u, reachable st1 out u → u = out ∨ (u < length st)%nat) ∧
     (∀ tr o st2, backward iter_order fuel out st1 = (tr, o, st2) →
        (∀ u, u ∈ tr → u = out ∨ (u < length st)%nat) ∧
        (o = Ok tt → grad_of st2 self = grad_of st self + (1 - d * d) * 1)) ∧
     (ready st → (length st + 4 < fuel)%nat →
        ∃ tr st2, backward iter_order fuel out st1 = (tr, Ok tt, st2))) ∧
  (finite (a * -1) → ¬ finite (exp (a * -1)) →
   ∃ st1, sigmoid self st = (Raise OverflowError, st1)) ∧
  (finite (a * -2) → ¬ finite (exp (a * -2)) →
   ∃ st1, tanh_ self st = (Raise OverflowError, st1)).
Proof.
  intros Hwf Hs a. subst a.
  assert (Hclosed : closed st) by (by destruct Hwf as (_ & ? & _)).
  assert (Hexp : ∀ x, finite (exp x) ∨ ¬ finite x → math_exp x = Ok (exp x)).
  { intros x [H|H]; [by apply math_exp_finite|by apply math_exp_infinite]. }
  assert (Hpass : ∀ (s1 : store) out,
    ready s1 → (out < length s1)%nat → (length s1 < fuel)%nat →
    ∃ tr st2, backward iter_order fuel out s1 = (tr, Ok tt, st2)).
  { intros s1 out Hr Ho Hf.
    destruct (ready_backward iter_order iter_order_perm fuel s1 out Hr Ho Hf)
      as (tr & st2 & Hb & _). eauto. }
  split_and!.
  - intros Hc. rewrite sigmoid_run, (Hexp _ Hc) by done.
    set (e := exp (data_of st self * -1)).
    set (n := mkValue (1 / (1 + e)) 0 (bw_sigmoid self (length st + 3)) [self] OpSigmoid).
    destruct (with_activation_facts iter_order iter_order_perm st self (-1) e n
                Hwf Hs eq_refl eq_refl eq_refl)
      as (Hwf1 & Hn & Hlen & Hreach & Hback).
    fold (with_activation st self (-1) e n).
    assert (Hdn : data_of (with_activation st self (-1) e n) (length st + 3) = data n)
      by (unfold data_of; by rewrite Hn).
    eexists _, _. split; [reflexivity|].
    intros d. subst d. rewrite !Hdn. unfold prev_of. rewrite Hn. simpl.
    split_and!; [done|done|done|done| | |].
    + intros u Hu. destruct (Hreach u Hu) as [->|Hr]; [by left|right].
      by apply (reachable_in_range st self u).
    + intros tr o st2 Hb. destruct (Hback fuel tr o st2 Hb) as [Htr Hok].
      split; [done|]. intros ->. destruct (Hok eq_refl) as (Hg & Hg1 & Hd).
      rewrite Hg. unfold push. simpl. rewrite decide_True by done.
      rewrite Hg1, Hd. simpl. lra.
    + intros Hr Hf. apply Hpass; [|lia..].
      by apply ready_with_activation.
  - intros Hc. rewrite tanh_run, (Hexp _ Hc) by done.
    set (e := exp (data_of st self * -2)).
    set (n := mkValue (2 / (1 + e) - 1) 0 (bw_tanh self (length st + 3)) [self] OpTanh).
    destruct (with_activation_facts iter_order iter_order_perm st self (-2) e n
                Hwf Hs eq_refl eq_refl eq_refl)
      as (Hwf1 & Hn & Hlen & Hreach & Hback).
    fold (with_activation st self (-2) e n).
    assert (Hdn : data_of (with_activation st self (-2) e n) (length st + 3) = data n)
      by (unfold data_of; by rewrite Hn).
    assert (He0 : 0 < e) by apply exp_pos.
    assert (Hsq : float_pow (2 / (1 + e) - 1) 2
                  = Ok ((2 / (1 + e) - 1) * (2 / (1 + e) - 1))).
    { apply float_pow_2. apply finite_small.
      assert (Hd1 : -1 < 2 / (1 + e) - 1 < 1).
      { assert (0 < / (1 + e) < 1); [|lra]. split.
        - apply Rinv_0_lt_compat. lra.
        - rewrite <- Rinv_1. apply Rinv_lt_contravar; lra. }
      revert Hd1. generalize (2 / (1 + e) - 1). intros d Hd1.
      rewrite Rabs_pos_eq by nra. nra. }
    eexists _, _. split; [reflexivity|].
    intros d. subst d. rewrite !Hdn. unfold prev_of. rewrite Hn. simpl.
    split_and!; [done|done|done|done| | |].
    + intros u Hu. destruct (Hreach u Hu) as [->|Hr]; [by left|right].
      by apply (reachable_in_range st self u).
    + intros tr o st2 Hb. destruct (Hback fuel tr o st2 Hb) as [Htr Hok].
      split; [done|]. intros ->. destruct (Hok eq_refl) as (Hg & Hg1 & Hd).
      rewrite Hg. unfold push. simpl. rewrite decide_True by done.
      rewrite Hg1, Hd. simpl. rewrite Hsq. simpl. lra.
    + intros Hr Hf. apply Hpass; [|lia..].
      apply ready_with_activation; [done..|].
      unfold returns, call_backward, bind, gets, lift, grad_iadd, modify.
      fold n. rewrite Hdn. simpl. by rewrite Hsq.
  - intros Hfa Hf. rewrite sigmoid_run, math_exp_range by done. eauto.
  - intros Hfa Hf. rewrite tanh_run, math_exp_range by done. eauto.
Qed.

End ActivationNodes.

Open Scope R_scope.

Lemma activation_has_single_operand_witness :
  ∃ o1 s1 tr1 s1' o2 s2 tr2 s2',
    sigmoid 0 [leaf 0] = (Ok o1, s1) ∧ prev_of s1 o1 = [0%nat] ∧
    data_of s1 o1 = 1 / (1 + exp (0 * -1)) ∧
    backward tuple_order 6 o1 s1 = (tr1, Ok tt, s1') ∧
    (∀ u, u ∈ tr1 → u = o1 ∨ u = 0%nat) ∧
    grad_of s1' 0 = 0 + data_of s1 o1 * (1 - data_of s1 o1) * 1 ∧
    tanh_ 0 [leaf 0] = (Ok o2, s2) ∧ prev_of s2 o2 = [0%nat] ∧
    data_of s2 o2 = 2 / (1 + exp (0 * -2)) - 1 ∧
    backward tuple_order 6 o2 s2 = (tr2, Ok tt, s2') ∧
    (∀ u, u ∈ tr2 → u = o2 ∨ u = 0%nat) ∧
    grad_of s2' 0 = 0 + (1 - data_of s2 o2 * data_of s2 o2) * 1.
Proof.
  assert (Hwf : well_formed [leaf 0]) by wf_literal.
  assert (H0 : (0 < length [leaf 0])%nat) by (simpl; lia).
  assert (Hfin : ∀ k, finite (exp (data_of [leaf 0] 0 * k))).
  { intros k. unfold data_of. simpl. rewrite Rmult_0_l, exp_0.
    apply finite_small. rewrite Rabs_R1. lra. }
  destruct (activation_has_single_operand tuple_order tuple_order_perm 6
              [leaf 0] 0 Hwf H0) as (Hsig & Htanh & _).
  destruct (Hsig (or_introl (Hfin (-1))))
    as (o1 & s1 & Hr1 & Hp1 & Hd1 & _ & _ & _ & Hb1 & He1).
  destruct (Htanh (or_introl (Hfin (-2))))
    as (o2 & s2 & Hr2 & Hp2 & Hd2 & _ & _ & _ & Hb2 & He2).
  destruct (He1 (ready_one 0)) as (tr1 & s1' & Hpass1); [simpl; lia|].
  destruct (He2 (ready_one 0)) as (tr2 & s2' & Hpass2); [simpl; lia|].
  destruct (Hb1 _ _ _ Hpass1) as [Ht1 Hg1].
  destruct (Hb2 _ _ _ Hpass2) as [Ht2 Hg2].
  exists o1, s1, tr1, s1', o2, s2, tr2, s2'.
  split_and!; try done.
  - intros u Hu. destruct (Ht1 u Hu) as [?|H]; [by left|right]. simpl in H. lia.
  - rewrite (Hg1 eq_refl). unfold grad_of at 1. simpl. done.
  - intros u Hu. destruct (Ht2 u Hu) as [?|H]; [by left|right]. simpl in H. lia.
  - rewrite (Hg2 eq_refl). unfold grad_of at 1. simpl. done.
Defined.

Close Scope R_scope.
Close Scope R_scope.

Open Scope R_scope.

Lemma operand_value_app (st ext : store) x :
  operand_in st x → operand_value (st ++ ext) x = operand_value st x.
Proof. destruct x; [done|]. simpl. intros. by apply data_of_app_old. Qed.

Lemma operand_deriv_app (st ext : store) x t :
  built st → operand_in st x → operand_deriv (st ++ ext) x t = operand_deriv st x t.
Proof. destruct x; [done|]. simpl. intros. by apply deriv_app. Qed.

Lemma operand_in_app (st ext : store) x : operand_in st x → operand_in (st ++ ext) x.
Proof. destruct x; [done|]. simpl. rewrite length_app. lia. Qed.

(** One pair of the sum: [acc + w * x]. *)
Lemma product_step (w : ident) (x : operand) (acc : ident) (st : store) :
  (w < length st)%nat → operand_in st x → (acc < length st)%nat →
  ∃ ext out,
    (let* p := __mul__ w x in __add__ acc (Ref p)) st = (Ok out, st ++ ext) ∧
    (length st ≤ out < length (st ++ ext))%nat ∧
    data_of (st ++ ext) out
      = data_of st acc + data_of st w * operand_value st x ∧
    (ready st → ready (st ++ ext)) ∧
    (built st → built (st ++ ext)) ∧
    (built st → ∀ t, (t < length st)%nat →
       deriv (st ++ ext) out t
         = deriv st acc t
           + (operand_value st x * deriv st w t
              + data_of st w * operand_deriv st x t)).
Proof.
  intros Hw Hx Hacc.
  assert (Hgen : ∀ st0 o, (w < length st0)%nat → (o < length st0)%nat →
            (acc < length st0)%nat →
            ∃ ext out,
              (let* p := __mul__ w (Ref o) in __add__ acc (Ref p)) st0
                = (Ok out, st0 ++ ext) ∧
              (length st0 ≤ out < length (st0 ++ ext))%nat ∧
              data_of (st0 ++ ext) out
                = data_of st0 acc + data_of st0 w * data_of st0 o ∧
              (ready st0 → ready (st0 ++ ext)) ∧
              (built st0 → built (st0 ++ ext)) ∧
              (built st0 → ∀ t, (t < length st0)%nat →
                 deriv (st0 ++ ext) out t
                   = deriv st0 acc t
                     + (data_of st0 o * deriv st0 w t
                        + data_of st0 w * deriv st0 o t))).
  { intros st0 o Hw0 Ho0 Ha0.
    set (m := mkValue (data_of st0 w * data_of st0 o) 0
                (bw_mul w o (length st0)) (set_of [w; o]) OpMul).
    set (st1 := st0 ++ [m]).
    set (a := mkValue (data_of st1 acc + data_of st1 (length st0)) 0
                (bw_add acc (length st0) (length st1))
                (set_of [acc; length st0]) OpAdd).
    exists [m; a], (length st1).
    assert (Hl1 : length st1 = S (length st0)) by (unfold st1; apply length_snoc).
    assert (Heq : st0 ++ [m; a] = st1 ++ [a]).
    { unfold st1. by rewrite <- app_assoc. }
    split_and!.
    - unfold bind at 1. rewrite mul_run. fold m. fold st1.
      rewrite add_run. fold a. by rewrite Heq.
    - lia.
    - rewrite length_app. simpl. lia.
    - rewrite Heq, data_of_snoc_new. simpl. unfold st1.
      rewrite data_of_snoc_old, data_of_snoc_new by done. done.
    - intros Hr. rewrite Heq.
      assert (Hr1 : ready st1) by (by apply ready_binary).
      apply ready_binary; [done|lia..|done|done|done].
    - intros Hb. rewrite Heq.
      assert (Hb1 : built st1) by (by apply built_binary).
      apply built_binary; [done|lia..|done|done].
    - intros Hb t Ht. rewrite Heq.
      assert (Hb1 : built st1) by (by apply built_binary).
      unfold a. rewrite deriv_add_node by (done || lia).
      unfold st1 at 1. rewrite deriv_app by done.
      unfold st1, m. rewrite deriv_mul_node by done. lra. }
  destruct x as [x|o].
  - destruct (Hgen (st ++ [leaf x]) (length st))
      as (ext & out & Hrun & Hlen & Hd & Hr & Hbt & Hdv).
    1-3: rewrite length_snoc; lia.
    exists (leaf x :: ext), out.
    replace (st ++ leaf x :: ext) with ((st ++ [leaf x]) ++ ext)
      by (by rewrite <- app_assoc).
    split_and!.
    + unfold bind at 1. rewrite mul_num. exact Hrun.
    + rewrite length_snoc in Hlen. lia.
    + lia.
    + rewrite Hd. rewrite !data_of_snoc_old, data_of_snoc_new by done. done.
    + intros Hrd. by apply Hr, ready_leaf.
    + intros Hb. by apply Hbt, built_leaf.
    + intros Hb t Ht. rewrite Hdv; [|by apply built_leaf|rewrite length_snoc; lia].
      rewrite data_of_snoc_new, (data_of_snoc_old st _ w) by done.
      rewrite !deriv_app by done. simpl.
      rewrite (deriv_leaf (st ++ [leaf x]) (length st))
        by (by rewrite backward_of_snoc, decide_True).
      rewrite decide_False by lia. lra.
  - simpl in Hx.
    destruct (Hgen st o) as (ext & out & Hrun & Hlen & Hd & Hr & Hbt & Hdv);
      [done..|].
    exists ext, out. simpl. split_and!; [done|lia|lia|done|done|done|done].
Qed.


Lemma weighted_sum_app (st ext : store) ws xs b :
  Forall (λ w, (w < length st)%nat) ws → Forall (operand_in st) xs →
  weighted_sum (st ++ ext) ws xs b = weighted_sum st ws xs b.
Proof.
  unfold weighted_sum. intros Hw. revert xs b.
  induction Hw as [|w ws Hw _ IH]; intros xs b Hx; [done|].
  destruct Hx as [|x xs Hx Hxs]; [done|]. simpl.
  rewrite IH by done. by rewrite data_of_app_old, operand_value_app.
Qed.

Lemma weighted_sum_deriv_app (st ext : store) ws xs t :
  built st →
  Forall (λ w, (w < length st)%nat) ws → Forall (operand_in st) xs →
  weighted_sum_deriv (st ++ ext) ws xs t = weighted_sum_deriv st ws xs t.
Proof.
  unfold weighted_sum_deriv. intros Hb Hw. revert xs.
  induction Hw as [|w ws Hw _ IH]; intros xs Hx; [done|].
  destruct Hx as [|x xs Hx Hxs]; [done|]. csimpl.
  rewrite IH by done.
  by rewrite data_of_app_old, operand_value_app, deriv_app, operand_deriv_app.
Qed.

Lemma sum_products_cons w ws x xs acc (st : store) :
  sum_products (w :: ws) (x :: xs) acc st =
  match (let* p := __mul__ w x in __add__ acc (Ref p)) st with
  | (Ok acc', st') => sum_products ws xs acc' st'
  | (Raise e, st') => (Raise e, st')
  | (Complex, st') => (Complex, st')
  end.
Proof.
  simpl. unfold bind. destruct (__mul__ w x st) as [[p| |] st1]; [|done..].
  by destruct (__add__ acc (Ref p) st1) as [[a| |] st2].
Qed.

Lemma sum_products_run ws : ∀ xs acc st,
  Forall (λ w, (w < length st)%nat) ws → Forall (operand_in st) xs →
  (acc < length st)%nat →
  ∃ ext out,
    sum_products ws xs acc st = (Ok out, st ++ ext) ∧
    (out < length (st ++ ext))%nat ∧
    (zip ws xs = [] → out = acc ∧ ext = []) ∧
    (zip ws xs ≠ [] → (length st ≤ out)%nat) ∧
    data_of (st ++ ext) out = weighted_sum st ws xs (data_of st acc) ∧
    (ready st → ready (st ++ ext)) ∧
    (built st → built (st ++ ext)) ∧
    (built st → ∀ t, (t < length st)%nat →
       deriv (st ++ ext) out t = deriv st acc t + weighted_sum_deriv st ws xs t).
Proof.
  induction ws as [|w ws IH]; intros xs acc st Hws Hxs Hacc.
  { exists [], acc. rewrite app_nil_r. simpl.
    split_and!; try done.
    intros _ t _. unfold weighted_sum_deriv. simpl. lra. }
  destruct xs as [|x xs].
  { exists [], acc. rewrite app_nil_r. simpl.
    split_and!; try done.
    intros _ t _. unfold weighted_sum_deriv. simpl. lra. }
  apply Forall_cons in Hws as [Hw Hws]. apply Forall_cons in Hxs as [Hx Hxs].
  destruct (product_step w x acc st Hw Hx Hacc)
    as (ext1 & out1 & Hrun1 & [Hge1 Hlt1] & Hd1 & Hr1 & Hb1 & Hdv1).
  assert (Hws1 : Forall (λ w, (w < length (st ++ ext1))%nat) ws).
  { eapply Forall_impl; [exact Hws|]. simpl. intros ?. rewrite length_app. lia. }
  assert (Hxs1 : Forall (operand_in (st ++ ext1)) xs).
  { eapply Forall_impl; [exact Hxs|]. intros ?. apply operand_in_app. }
  destruct (IH xs out1 (st ++ ext1) Hws1 Hxs1 Hlt1)
    as (ext2 & out & Hrun2 & Hlt2 & Hnil & Hne & Hd2 & Hr2 & Hb2 & Hdv2).
  exists (ext1 ++ ext2), out. rewrite app_assoc.
  split_and!.
  - rewrite sum_products_cons, Hrun1. exact Hrun2.
  - done.
  - done.
  - intros _.
    assert (Hmono : (length (st ++ ext1) ≤ out)%nat ∨ out = out1).
    { destruct (zip ws xs) eqn:Hz.
      - right. by destruct Hnil.
      - left. by apply Hne. }
    rewrite length_app in Hmono. lia.
  - rewrite Hd2, Hd1, weighted_sum_app by done. done.
  - intros Hr. by apply Hr2, Hr1.
  - intros Hb. by apply Hb2, Hb1.
  - intros Hb t Ht.
    rewrite Hdv2, Hdv1 by (auto || rewrite length_app; lia).
    rewrite weighted_sum_deriv_app by done.
    unfold weighted_sum_deriv. csimpl. lra.
Qed.

Lemma nbind_engine {A B : Type} (m : M A) (k : A → N B) (w : world) a st' :
  m (heap w) = (Ok a, st') →
  nbind (engine m) k w = k a (mkWorld st' (drawn w)).
Proof. intros H. unfold nbind, engine. by rewrite H. Qed.

Lemma engine_run {A : Type} (m : M A) (w : world) o st' :
  m (heap w) = (o, st') → engine m w = (Engine o, mkWorld st' (drawn w)).
Proof. intros H. unfold engine. by rewrite H. Qed.

(** A call of a neuron on a list: it returns, the heap is extended, and
    the output node carries the activation and its path sums. *)
Lemma Neuron_call_run (n : Neuron) (xs : list operand) (w : world) :
  Forall (λ p, (p < length (heap w))%nat) (weights n) →
  (bias n < length (heap w))%nat →
  Forall (operand_in (heap w)) xs →
  ∃ ext out,
    Neuron_call n (Items xs) w
      = (Engine (Ok out), mkWorld (heap w ++ ext) (drawn w)) ∧
    (out < length (heap w ++ ext))%nat ∧
    (out = bias n ∨ (length (heap w) ≤ out)%nat) ∧
    (let pre := weighted_sum (heap w) (weights n) xs (data_of (heap w) (bias n)) in
     data_of (heap w ++ ext) out = activation_of (nonlin n) pre ∧
     (ready (heap w) → ready (heap w ++ ext)) ∧
     (built (heap w) → built (heap w ++ ext)) ∧
     (built (heap w) → ∀ t, (t < length (heap w))%nat →
        deriv (heap w ++ ext) out t
          = gate_of (nonlin n) pre
            * (deriv (heap w) (bias n) t
               + weighted_sum_deriv (heap w) (weights n) xs t))).
Proof.
  intros Hws Hb Hxs. destruct w as [st k]. simpl in *.
  destruct (sum_products_run (weights n) xs (bias n) st Hws Hxs Hb)
    as (ext & act & Hrun & Hlt & Hnil & Hne & Hd & Hr & Hbt & Hdv).
  unfold Neuron_call, nbind, engine. cbn [heap drawn]. rewrite Hrun.
  destruct (nonlin n) eqn:Hnl; cbn [activation_of gate_of heap drawn].
  - rewrite relu_run.
    exists (ext ++ [mkValue (if Rlt_dec (data_of (st ++ ext) act) 0 then 0
                             else data_of (st ++ ext) act) 0
                      (bw_relu act (length (st ++ ext))) [act] OpReLU]),
      (length (st ++ ext)).
    rewrite !app_assoc. split_and!.
    + done.
    + rewrite length_snoc. lia.
    + right. rewrite length_app. lia.
    + by rewrite data_of_snoc_new, Hd.
    + intros Hrd. by apply ready_unary; [apply Hr|..].
    + intros Hbd. by apply built_unary; [apply Hbt|..].
    + intros Hbd t Ht.
      rewrite deriv_relu_node; [|by apply Hbt|done|rewrite length_app; lia].
      rewrite Hdv, Hd by done.
      repeat destruct (Rlt_dec _ _); lra.
  - exists ext, act. split_and!; try done.
    + destruct (zip (weights n) xs) eqn:Hz.
      * left. by destruct Hnil.
      * right. by apply Hne.
    + intros Hbd t Ht. rewrite Hdv by done. lra.
Qed.

Lemma weighted_sum_deriv_none (st : store) ws xs t :
  (∀ w, w ∈ ws → deriv st w t = 0) →
  (∀ x, x ∈ xs → operand_deriv st x t = 0) →
  weighted_sum_deriv st ws xs t = 0.
Proof.
  intros Hw Hx. unfold weighted_sum_deriv. apply Rsum_zero.
  intros [w x] Hin. simpl.
  rewrite Hw, Hx; [lra|by eapply elem_of_zip_r|by eapply elem_of_zip_l].
Qed.

Lemma weighted_sum_deriv_weight (st : store) ws : ∀ xs i t,
  NoDup ws →
  (∀ w, w ∈ ws → backward_of st w = bw_none) →
  (∀ x, x ∈ xs → operand_deriv st x t = 0) →
  ws !! i = Some t →
  weighted_sum_deriv st ws xs t = from_option (operand_value st) 0 (xs !! i).
Proof.
  induction ws as [|w ws IH]; intros xs i t Hnd Hleaf Hx Hi; [done|].
  apply NoDup_cons in Hnd as [Hnin Hnd].
  destruct xs as [|x xs]; [by destruct i|].
  unfold weighted_sum_deriv. csimpl.
  rewrite (Hx x), (deriv_leaf st w) by set_solver.
  destruct i as [|i]; simpl in Hi.
  - simplify_eq. rewrite decide_True by done. simpl.
    fold (weighted_sum_deriv st ws xs t).
    rewrite weighted_sum_deriv_none; [lra| |set_solver].
    intros w Hw. rewrite deriv_leaf by set_solver.
    rewrite decide_False; [done|]. by intros ->.
  - rewrite decide_False.
    2:{ intros ->. apply Hnin. by eapply list_elem_of_lookup_2. }
    fold (weighted_sum_deriv st ws xs t). simpl.
    rewrite (IH xs i t); [lra|done|set_solver|set_solver|done].
Qed.

Close Scope R_scope.

Lemma allocated_neuron (n : Neuron) (st : store) :
  allocated n st ↔ Forall (λ p, p < length st) (weights n) ∧ bias n < length st.
Proof.
  unfold allocated, parameters, Neuron_parameters.
  rewrite Forall_app, Forall_singleton. done.
Qed.

Lemma allocated_layer (l : Layer) (st : store) :
  allocated l st ↔ Forall (λ n, allocated n st) (neurons l).
Proof.
  unfold allocated at 1, parameters at 1, Layer_parameters.
  induction (neurons l) as [|n ns IH]; simpl.
  - split; constructor.
  - rewrite Forall_app, Forall_cons, IH. done.
Qed.

Lemma allocated_MLP (m : MLP) (st : store) :
  allocated m st ↔ Forall (λ l, allocated l st) (layers m).
Proof.
  unfold allocated at 1, parameters at 1, MLP_parameters.
  induction (layers m) as [|l ls IH]; simpl.
  - split; constructor.
  - rewrite Forall_app, Forall_cons, IH. done.
Qed.

Lemma allocated_app {T : Type} `{Module_ T} (self : T) (st ext : store) :
  allocated self st → allocated self (st ++ ext).
Proof.
  unfold allocated. intros Ha. eapply Forall_impl; [exact Ha|].
  intros p. simpl. rewrite length_app. lia.
Qed.

Lemma Forall2_impl_l {A B : Type} (Q : A → Prop) (P P' : A → B → Prop) l k :
  Forall2 P l k → Forall Q l → (∀ x y, Q x → P x y → P' x y) → Forall2 P' l k.
Proof.
  intros H2 HQ Himp. induction H2 as [|x y l k Hxy _ IH]; [constructor|].
  apply Forall_cons in HQ as [Hx HQ]. constructor; [by apply Himp|by apply IH].
Qed.

(** The neurons of a layer, called in turn on a list. *)
Lemma neurons_run (ns : list Neuron) : ∀ (xs : list operand) (w : world),
  Forall (λ n, allocated n (heap w)) ns →
  Forall (operand_in (heap w)) xs →
  ∃ ext outs,
    mapN (λ neuron, Neuron_call neuron (Items xs)) ns w
      = (Engine (Ok outs), mkWorld (heap w ++ ext) (drawn w)) ∧
    length outs = length ns ∧
    Forall (λ o, o < length (heap w ++ ext)) outs ∧
    Forall2 (λ n o,
        data_of (heap w ++ ext) o
          = activation_of (nonlin n)
              (weighted_sum (heap w) (weights n) xs
                 (data_of (heap w) (bias n)))) ns outs ∧
    (ready (heap w) → ready (heap w ++ ext)).
Proof.
  induction ns as [|n ns IH]; intros xs w Hns Hxs.
  { exists [], []. rewrite app_nil_r. destruct w. simpl.
    split_and!; [done|done|constructor|constructor|done]. }
  apply Forall_cons in Hns as [Hn Hns]. apply allocated_neuron in Hn as [Hws Hb].
  destruct (Neuron_call_run n xs w Hws Hb Hxs)
    as (ext1 & o & Hrun1 & Hlt1 & _ & Hd1 & Hr1 & Hbt1 & _).
  set (w1 := mkWorld (heap w ++ ext1) (drawn w)).
  destruct (IH xs w1) as (ext2 & outs & Hrun2 & Hlen & Hin & Hd2 & Hr2).
  { eapply Forall_impl; [exact Hns|]. intros n'. apply allocated_app. }
  { eapply Forall_impl; [exact Hxs|]. intros x. apply operand_in_app. }
  simpl in *.
  exists (ext1 ++ ext2), (o :: outs). rewrite app_assoc. split_and!.
  - unfold nbind at 1. rewrite Hrun1. fold w1.
    unfold nbind at 1. rewrite Hrun2. done.
  - simpl. by rewrite Hlen.
  - constructor; [rewrite length_app; lia|done].
  - constructor.
    + rewrite data_of_app_old by done. exact Hd1.
    + eapply Forall2_impl_l; [exact Hd2|exact Hns|].
      simpl. intros n' o' [Hws' Hb']%allocated_neuron ->.
      by rewrite data_of_app_old, weighted_sum_app.
  - intros Hr. by apply Hr2, Hr1.
Qed.

Lemma Layer_call_Single (l : Layer) (v : ident) (w : world) :
  Layer_call l (Single v) w =
  match neurons l with
  | [] => (Engine (Ok (Items [])), w)
  | _ :: _ => (TypeError, w)
  end.
Proof. unfold Layer_call. by destruct (neurons l). Qed.

(** What [Layer.__call__] returns for the outputs of its neurons. *)
Lemma Layer_call_Items (l : Layer) (xs : list operand) (w : world) :
  allocated l (heap w) → Forall (operand_in (heap w)) xs →
  ∃ ext outs,
    Layer_call l (Items xs) w
      = (Engine (Ok (match outs with
                     | [o] => Single o
                     | _ => Items (Ref <$> outs)
                     end)),
         mkWorld (heap w ++ ext) (drawn w)) ∧
    length outs = length (neurons l) ∧
    Forall (λ o, o < length (heap w ++ ext)) outs ∧
    Forall2 (λ n o,
        data_of (heap w ++ ext) o
          = activation_of (nonlin n)
              (weighted_sum (heap w) (weights n) xs
                 (data_of (heap w) (bias n)))) (neurons l) outs ∧
    (ready (heap w) → ready (heap w ++ ext)).
Proof.
  intros Hl%allocated_layer Hxs.
  destruct (neurons_run (neurons l) xs w Hl Hxs)
    as (ext & outs & Hrun & Hlen & Hin & Hd & Hr).
  exists ext, outs. split_and!; try done.
  unfold Layer_call, nbind. by rewrite Hrun.
Qed.

Lemma meets_single_spec (ws : list nat) : ∀ b,
  meets_single b ws = true ↔
    (b = true ∧ ∃ k, ws !! 0 = Some (S k)) ∨
    (∃ i k, ws !! i = Some 1 ∧ ws !! S i = Some (S k)).
Proof.
  induction ws as [|n ws IH]; intros b; simpl.
  { split; [done|]. intros [[_ [k Hk]]|(i & k & Hi & _)]; done. }
  destruct b.
  - destruct n as [|n].
    + rewrite IH. split.
      * intros [[? _]|(i & k & Hi & Hk)]; [done|].
        right. by exists (S i), k.
      * intros [[_ [k Hk]]|(i & k & Hi & Hk)]; [done|].
        destruct i as [|i]; [done|]. right. by exists i, k.
    + split; [|done]. intros _. left. split; [done|]. by exists n.
  - rewrite IH. split.
    + intros [[Hb [k Hk]]|(i & k & Hi & Hk)].
      * apply bool_decide_eq_true in Hb as ->. right. by exists 0, k.
      * right. by exists (S i), k.
    + intros [[? _]|(i & k & Hi & Hk)]; [done|].
      destruct i as [|i]; simpl in *.
      * left. simplify_eq. split; [by apply bool_decide_eq_true|]. by exists k.
      * right. by exists i, k.
Qed.

(** The layers of a network, called in turn. *)
Lemma layers_run (ls : list Layer) : ∀ (x : input) (w : world),
  Forall (λ l, allocated l (heap w)) ls → input_in (heap w) x →
  ∃ ext,
    if meets_single (match x with Single _ => true | Items _ => false end)
         ((λ l, length (neurons l)) <$> ls)
    then forN ls (λ layer x, Layer_call layer x) x w
           = (TypeError, mkWorld (heap w ++ ext) (drawn w))
    else ∃ y,
      forN ls (λ layer x, Layer_call layer x) x w
        = (Engine (Ok y), mkWorld (heap w ++ ext) (drawn w)) ∧
      input_in (heap w ++ ext) y ∧
      (ls = [] → y = x) ∧
      (∀ k, last ((λ l, length (neurons l)) <$> ls) = Some k →
         match y with
         | Single _ => k = 1
         | Items ys => k ≠ 1 ∧ length ys = k
         end) ∧
      (ready (heap w) → ready (heap w ++ ext)).
Proof.
  induction ls as [|l ls IH]; intros x w Hls Hx.
  { exists []. rewrite app_nil_r. destruct w, x; simpl; eexists; done. }
  apply Forall_cons in Hls as [Hl Hls].
  assert (Hlast : ∀ k y,
            (ls = [] → match y with
                       | Single _ => length (neurons l) = 1
                       | Items ys => length (neurons l) ≠ 1
                                     ∧ length ys = length (neurons l)
                       end) →
            (∀ k, last ((λ l, length (neurons l)) <$> ls) = Some k →
               match y with
               | Single _ => k = 1
               | Items ys => k ≠ 1 ∧ length ys = k
               end) →
            last ((λ l, length (neurons l)) <$> l :: ls) = Some k →
            match y with
            | Single _ => k = 1
            | Items ys => k ≠ 1 ∧ length ys = k
            end).
  { intros k y Hnil Hcons Hk. destruct ls as [|l' ls'].
    - simpl in Hk. simplify_eq. by apply Hnil.
    - apply Hcons. rewrite !fmap_cons, last_cons_cons in Hk.
      by rewrite fmap_cons. }
  destruct x as [xs|v]; cbn [fmap list_fmap meets_single].
  - (* a list *)
    destruct (Layer_call_Items l xs w Hl Hx) as (ext1 & outs & Hrun1 & Hlen & Hin & _ & Hr1).
    set (y1 := match outs with [o] => Single o | _ => Items (Ref <$> outs) end) in *.
    set (w1 := mkWorld (heap w ++ ext1) (drawn w)) in *.
    assert (Hy1 : input_in (heap w1) y1).
    { unfold y1, w1. cbn [heap]. destruct outs as [|o [|o' outs]]; cbn [input_in].
      - constructor.
      - by inversion Hin.
      - rewrite Forall_fmap. eapply Forall_impl; [exact Hin|]. done. }
    assert (Hsingle : match y1 with Single _ => true | Items _ => false end
                      = bool_decide (length (neurons l) = 1)).
    { unfold y1. rewrite <- Hlen. by destruct outs as [|o [|o' outs]]. }
    destruct (IH y1 w1) as [ext2 Hrest]; [|done|].
    { eapply Forall_impl; [exact Hls|]. intros l'. apply allocated_app. }
    rewrite Hsingle in Hrest. fold (@fmap list _ Layer nat).
    exists (ext1 ++ ext2). rewrite app_assoc.
    change (meets_single (bool_decide (length (neurons l) = 1))
              (list_fmap Layer nat (λ l0, length (neurons l0)) ls))
      with (meets_single (bool_decide (length (neurons l) = 1))
              ((λ l0, length (neurons l0)) <$> ls)).
    destruct (meets_single _ _).
    + simpl. unfold nbind at 1. rewrite Hrun1. exact Hrest.
    + destruct Hrest as (y & Hrun2 & Hy & Hnil & Hshape & Hr2).
      exists y. split_and!.
      * simpl. unfold nbind at 1. rewrite Hrun1. exact Hrun2.
      * done.
      * done.
      * intros k. apply Hlast; [|done].
        intros ->. rewrite (Hnil eq_refl). unfold y1. rewrite <- Hlen.
        destruct outs as [|o [|o' outs]]; simpl; try done.
        rewrite length_fmap. simpl. split; lia.
      * intros Hr. by apply Hr2, Hr1.
  - (* a single object *)
    simpl. unfold nbind. rewrite Layer_call_Single.
    destruct (neurons l) as [|n ns] eqn:Hn; simpl.
    + destruct (IH (Items []) w) as [ext Hrest]; [done|constructor|].
      exists ext. simpl in Hrest.
      change (list_fmap Layer nat (λ l0, length (neurons l0)) ls)
        with ((λ l0, length (neurons l0)) <$> ls).
      destruct (meets_single _ _); [done|].
      destruct Hrest as (y & Hrun2 & Hy & Hnil & Hshape & Hr2).
      exists y. split_and!; try done.
      intros k Hk. destruct ls as [|l' ls'].
      * simpl in Hk. simplify_eq. rewrite (Hnil eq_refl). done.
      * apply Hshape. rewrite fmap_cons, last_cons_cons in Hk.
        by rewrite fmap_cons.
    + exists []. rewrite app_nil_r. by destruct w.
Qed.

Close Scope R_scope.

Section Init.

Variable uniform : nat → R.

Lemma Value_init_leaf (x : R) (w : world) :
  engine (Value_init x [] OpLeaf) w
    = (Engine (Ok (length (heap w))), mkWorld (heap w ++ [leaf x]) (drawn w)).
Proof. done. Qed.

Lemma init_weights_run (l : list nat) : ∀ w,
  mapN (λ _, let! u := random_uniform uniform in
             engine (Value_init u [] OpLeaf)) l w
  = (Engine (Ok (seq (length (heap w)) (length l))),
     mkWorld (heap w ++ ((λ j, leaf (uniform j)) <$> seq (drawn w) (length l)))
       (drawn w + length l)).
Proof.
  induction l as [|x l IH]; intros w.
  { destruct w. simpl. by rewrite app_nil_r, Nat.add_0_r. }
  cbn [mapN]. unfold nbind at 1. unfold nbind at 1. unfold random_uniform at 1.
  rewrite Value_init_leaf. cbn [heap drawn].
  unfold nbind at 1. rewrite IH. cbn [heap drawn nret].
  rewrite length_snoc. simpl. rewrite <- app_assoc. simpl.
  do 3 f_equal. lia.
Qed.

Lemma Neuron_init_run (input_size : Z) (nl : bool) (w : world) :
  Neuron_init uniform input_size nl w
  = (Engine (Ok (neuron_at (length (heap w)) (Z.to_nat input_size) nl)),
     mkWorld (heap w ++ neuron_cells uniform (drawn w) (Z.to_nat input_size))
       (drawn w + Z.to_nat input_size)).
Proof.
  unfold Neuron_init, range. unfold nbind at 1. rewrite init_weights_run.
  rewrite length_seq. unfold nbind. rewrite Value_init_leaf. cbn [heap drawn nret].
  unfold neuron_at, neuron_cells. rewrite length_app, length_fmap, length_seq.
  by rewrite <- app_assoc.
Qed.

Lemma length_neuron_cells d k : length (neuron_cells uniform d k) = k + 1.
Proof. unfold neuron_cells. by rewrite length_app, length_fmap, length_seq. Qed.

Lemma init_neurons_run (input_size : Z) (nl : bool) (l : list nat) : ∀ w,
  mapN (λ _, Neuron_init uniform input_size nl) l w
  = (Engine (Ok (neurons_at (length (heap w)) (Z.to_nat input_size) (length l) nl)),
     mkWorld (heap w ++ layer_cells uniform (drawn w) (Z.to_nat input_size) (length l))
       (drawn w + length l * Z.to_nat input_size)).
Proof.
  induction l as [|x l IH]; intros w.
  { destruct w. simpl. by rewrite app_nil_r, Nat.add_0_r. }
  cbn [mapN]. unfold nbind at 1. rewrite Neuron_init_run.
  unfold nbind at 1. rewrite IH. cbn [heap drawn nret length neurons_at layer_cells].
  rewrite length_app, length_neuron_cells, <- app_assoc.
  unfold nret.
  replace (length (heap w) + (Z.to_nat input_size + 1))
    with (length (heap w) + Z.to_nat input_size + 1) by lia.
  replace (drawn w + Z.to_nat input_size + length l * Z.to_nat input_size)
    with (drawn w + S (length l) * Z.to_nat input_size) by lia.
  done.
Qed.

Lemma Layer_init_run (input_size output_size : Z) (kwargs : option bool) (w : world) :
  Layer_init uniform input_size output_size kwargs w
  = (Engine (Ok (mkLayer (neurons_at (length (heap w)) (Z.to_nat input_size)
                            (Z.to_nat output_size) (default true kwargs)))),
     mkWorld (heap w ++ layer_cells uniform (drawn w) (Z.to_nat input_size)
                          (Z.to_nat output_size))
       (drawn w + Z.to_nat output_size * Z.to_nat input_size)).
Proof.
  unfold Layer_init, range. unfold nbind. rewrite init_neurons_run.
  by rewrite length_seq.
Qed.

Lemma length_layer_cells d k m : length (layer_cells uniform d k m) = m * (k + 1).
Proof.
  revert d. induction m as [|m IH]; intros d; [done|]. simpl.
  by rewrite length_app, length_neuron_cells, IH.
Qed.

Lemma length_network_cells arch : ∀ d,
  length (network_cells uniform d arch) = parameter_count arch.
Proof.
  induction arch as [|[[k m] nl] arch IH]; intros d; [done|]. simpl.
  by rewrite length_app, length_layer_cells, IH.
Qed.

Lemma forN_fmap {A B S : Type} (g : A → B) (body : B → S → N S) (l : list A) :
  ∀ s w, forN (g <$> l) body s w = forN l (λ x, body (g x)) s w.
Proof.
  induction l as [|x l IH]; intros s w; [done|]. csimpl. unfold nbind.
  destruct (body (g x) s w) as [[[s'| |]|] w']; [|done..]. apply IH.
Qed.

Lemma architecture_seq (layer_sizes : list Z) : ∀ input_size,
  architecture input_size layer_sizes =
  (λ i, ((input_size :: layer_sizes) !!! i, (input_size :: layer_sizes) !!! S i,
         bool_decide (Z.of_nat i ≠ Z.of_nat (length layer_sizes) - 1)%Z))
    <$> seq 0 (length layer_sizes).
Proof.
  induction layer_sizes as [|m rest IH]; intros input_size; [done|].
  cbn [architecture length seq]. rewrite fmap_cons. f_equal.
  - f_equal. apply bool_decide_ext. destruct rest; simpl; split; intros; (done || lia).
  - rewrite IH, <- fmap_S_seq, <- list_fmap_compose.
    apply list_fmap_ext. intros _ i _. simpl. f_equal.
    apply bool_decide_ext. lia.
Qed.

(** The loop of [MLP.__init__], layer by layer. *)
Lemma layers_init_run (arch : list (Z * Z * bool)) : ∀ acc w,
  forN arch
    (λ a ls, let! layer := Layer_init uniform a.1.1 a.1.2 (Some a.2) in
             nret (ls ++ [layer])) acc w
  = (Engine (Ok (acc ++ layers_at (length (heap w)) arch)),
     mkWorld (heap w ++ network_cells uniform (drawn w) arch)
       (drawn w + weight_count arch)).
Proof.
  induction arch as [|[[k m] nl] arch IH]; intros acc w.
  { destruct w. simpl. by rewrite !app_nil_r, Nat.add_0_r. }
  cbn [forN fst snd]. unfold nbind at 1. unfold nbind at 1.
  rewrite Layer_init_run. cbn [nret heap drawn default].
  rewrite IH. cbn [heap drawn layers_at network_cells weight_count].
  rewrite length_app, length_layer_cells, <- !app_assoc. simpl.
  f_equal. f_equal. lia.
Qed.

Lemma MLP_init_run (input_size : Z) (layer_sizes : list Z) (w : world) :
  MLP_init uniform input_size layer_sizes w
  = (Engine (Ok (mkMLP (layers_at (length (heap w))
                          (architecture input_size layer_sizes)))),
     mkWorld (heap w ++ network_cells uniform (drawn w)
                          (architecture input_size layer_sizes))
       (drawn w + weight_count (architecture input_size layer_sizes))).
Proof.
  unfold MLP_init, range. rewrite Nat2Z.id. unfold nbind.
  match goal with
  | |- context [forN (seq 0 ?n) ?body [] w] =>
      assert (Heq : forN (seq 0 n) body [] w
                = forN (architecture input_size layer_sizes)
                    (λ a ls, let! layer := Layer_init uniform a.1.1 a.1.2 (Some a.2) in
                             nret (ls ++ [layer])) [] w)
        by (rewrite architecture_seq, forN_fmap; reflexivity);
      rewrite Heq
  end.
  by rewrite layers_init_run.
Qed.

End Init.

Lemma parameters_neuron_at base k nl :
  parameters (neuron_at base k nl) = seq base (k + 1).
Proof.
  unfold parameters, Neuron_parameters, neuron_at. simpl.
  by rewrite seq_app.
Qed.

Lemma parameters_neurons_at k nl m : ∀ base,
  concat ((λ n, parameters n) <$> neurons_at base k m nl) = seq base (m * (k + 1)).
Proof.
  induction m as [|m IH]; intros base; [done|].
  cbn [neurons_at]. rewrite fmap_cons. cbn [concat].
  rewrite parameters_neuron_at, IH.
  replace (S m * (k + 1)) with ((k + 1) + m * (k + 1)) by lia.
  rewrite (seq_app (k + 1) (m * (k + 1))).
  by replace (base + k + 1) with (base + (k + 1)) by lia.
Qed.

Lemma parameters_layers_at arch : ∀ base,
  parameters (mkMLP (layers_at base arch)) = seq base (parameter_count arch).
Proof.
  unfold parameters, MLP_parameters. simpl.
  induction arch as [|[[k m] nl] arch IH]; intros base; [done|].
  cbn [layers_at parameter_count]. rewrite fmap_cons. cbn [concat].
  rewrite IH, (seq_app (Z.to_nat m * (Z.to_nat k + 1))). f_equal.
  unfold parameters at 1, Layer_parameters. simpl.
  apply parameters_neurons_at.
Qed.

(** *** The objects allocated are leaves *)

Section Cells.

Variable uniform : nat → R.

Lemma neuron_cells_fresh d k : Forall (fresh_cell uniform) (neuron_cells uniform d k).
Proof.
  unfold neuron_cells. apply Forall_app. split.
  - apply Forall_fmap, Forall_forall. intros j _. simpl.
    exists (uniform j). split; [done|]. right. by exists j.
  - apply Forall_singleton. exists 0%R. split; [done|by left].
Qed.

Lemma layer_cells_fresh k m : ∀ d, Forall (fresh_cell uniform) (layer_cells uniform d k m).
Proof.
  induction m as [|m IH]; intros d; simpl; [constructor|].
  apply Forall_app. split; [apply neuron_cells_fresh|apply IH].
Qed.

Lemma network_cells_fresh arch : ∀ d, Forall (fresh_cell uniform) (network_cells uniform d arch).
Proof.
  induction arch as [|[[k m] nl] arch IH]; intros d; simpl; [constructor|].
  apply Forall_app. split; [apply layer_cells_fresh|apply IH].
Qed.

Lemma ready_fresh_cells (cells : store) :
  Forall (fresh_cell uniform) cells → ∀ st, ready st → ready (st ++ cells).
Proof.
  induction 1 as [|c cells (x & -> & _) _ IH]; intros st Hr.
  - by rewrite app_nil_r.
  - replace (st ++ leaf x :: cells) with ((st ++ [leaf x]) ++ cells)
      by (by rewrite <- app_assoc).
    by apply IH, ready_leaf.
Qed.

End Cells.

Lemma length_neurons_at base k m nl : length (neurons_at base k m nl) = m.
Proof.
  revert base. induction m as [|m IH]; intros base; [done|]. simpl. by rewrite IH.
Qed.

Lemma neurons_at_shape k nl m : ∀ base n,
  n ∈ neurons_at base k m nl → length (weights n) = k ∧ nonlin n = nl.
Proof.
  induction m as [|m IH]; intros base n Hn; simpl in Hn; [by apply elem_of_nil in Hn|].
  apply elem_of_cons in Hn as [->|Hn]; [|by eapply IH].
  simpl. by rewrite length_seq.
Qed.

Lemma widths_layers_at arch : ∀ base,
  widths (mkMLP (layers_at base arch)) = (λ a, Z.to_nat a.1.2) <$> arch.
Proof.
  unfold widths. simpl.
  induction arch as [|[[k m] nl] arch IH]; intros base; [done|].
  cbn [layers_at]. rewrite !fmap_cons. simpl. by rewrite length_neurons_at, IH.
Qed.

Lemma architecture_sizes layer_sizes : ∀ input_size,
  (λ a, a.1.2) <$> architecture input_size layer_sizes = layer_sizes.
Proof.
  induction layer_sizes as [|m rest IH]; intros input_size; [done|].
  simpl. by rewrite IH.
Qed.

Lemma layers_at_lookup arch : ∀ base i layer,
  layers_at base arch !! i = Some layer →
  ∃ a, arch !! i = Some a ∧
    length (neurons layer) = Z.to_nat a.1.2 ∧
    ∀ n, n ∈ neurons layer →
      length (weights n) = Z.to_nat a.1.1 ∧ nonlin n = a.2.
Proof.
  induction arch as [|[[k m] nl] arch IH]; intros base i layer Hi; [done|].
  destruct i as [|i]; simpl in Hi.
  - simplify_eq. exists (k, m, nl). simpl.
    split_and!; [done|apply length_neurons_at|apply neurons_at_shape].
  - destruct (IH _ _ _ Hi) as (a & Ha & H). by exists a.
Qed.

Lemma allocated_layers_at arch base (st cells : store) :
  base = length st → length cells = parameter_count arch →
  allocated (mkMLP (layers_at base arch)) (st ++ cells).
Proof.
  intros -> Hlen. unfold allocated. rewrite parameters_layers_at.
  apply Forall_forall. intros p Hp. apply elem_of_seq in Hp.
  rewrite length_app. lia.
Qed.

Close Scope R_scope.

(** ** The values of the parameters of a fresh network *)

Lemma placed_app (st : store) base (c1 c2 : store) :
  placed st base (c1 ++ c2) →
  placed st base c1 ∧ placed st (base + length c1) c2.
Proof.
  intros Hp. split.
  - intros i c Hi. apply Hp. by apply lookup_app_l_Some.
  - intros i c Hi. rewrite <- Nat.add_assoc. apply Hp.
    rewrite lookup_app_r by lia.
    by replace (length c1 + i - length c1) with i by lia.
Qed.

Lemma placed_here (st cells : store) : placed (st ++ cells) (length st) cells.
Proof.
  intros i c Hi. rewrite lookup_app_r by lia.
  by replace (length st + i - length st) with i by lia.
Qed.

Section FreshValues.

Variable uniform : nat → R.

Lemma neuron_values (st : store) base d k nl :
  placed st base (neuron_cells uniform d k) →
  data_of st <$> weights (neuron_at base k nl) = uniform <$> seq d k ∧
  data_of st (bias (neuron_at base k nl)) = 0%R.
Proof.
  intros Hp. unfold neuron_cells in Hp. apply placed_app in Hp as [Hw Hb].
  rewrite length_fmap, length_seq in Hb. split; simpl.
  - apply list_eq. intros i. rewrite !list_lookup_fmap.
    destruct (decide (i < k)) as [Hi|Hi].
    + rewrite !lookup_seq_lt by done. simpl. f_equal.
      unfold data_of.
      erewrite list_lookup_total_correct;
        [|apply Hw; by rewrite list_lookup_fmap, lookup_seq_lt by done].
      done.
    + by rewrite !lookup_seq_ge by lia.
  - unfold data_of.
    erewrite list_lookup_total_correct;
      [|rewrite <- (Nat.add_0_r (base + k)); by apply Hb].
    done.
Qed.

Lemma layer_values (st : store) k nl m : ∀ base d,
  placed st base (layer_cells uniform d k m) →
  data_of st <$> (neurons_at base k m nl ≫= weights)
    = uniform <$> seq d (m * k) ∧
  Forall (λ b, data_of st b = 0%R) (bias <$> neurons_at base k m nl).
Proof.
  induction m as [|m IH]; intros base d Hp; [done|].
  simpl in Hp. apply placed_app in Hp as [Hn Hrest].
  rewrite length_neuron_cells in Hrest.
  destruct (neuron_values st base d k nl Hn) as [Hw Hb].
  destruct (IH (base + k + 1) (d + k)) as [Hws Hbs].
  { by rewrite <- Nat.add_assoc. }
  split.
  - change (neurons_at base k (S m) nl ≫= weights)
      with (weights (neuron_at base k nl)
            ++ (neurons_at (base + k + 1) k m nl ≫= weights)).
    rewrite fmap_app, Hw, Hws, <- fmap_app. f_equal.
    change (S m * k) with (k + m * k). by rewrite seq_app.
  - change (bias <$> neurons_at base k (S m) nl)
      with (bias (neuron_at base k nl)
            :: (bias <$> neurons_at (base + k + 1) k m nl)).
    by constructor.
Qed.

Lemma network_values (st : store) : ∀ arch base d,
  placed st base (network_cells uniform d arch) →
  data_of st <$> all_weights (mkMLP (layers_at base arch))
    = uniform <$> seq d (weight_count arch) ∧
  Forall (λ b, data_of st b = 0%R) (all_biases (mkMLP (layers_at base arch))).
Proof.
  induction arch as [|[[k m] nl] arch IH]; intros base d Hp; [done|].
  simpl in Hp. apply placed_app in Hp as [Hl Hrest].
  rewrite length_layer_cells in Hrest.
  destruct (layer_values st (Z.to_nat k) nl (Z.to_nat m) base d Hl) as [Hw Hb].
  destruct (IH (base + Z.to_nat m * (Z.to_nat k + 1))
               (d + Z.to_nat m * Z.to_nat k) Hrest) as [Hws Hbs].
  unfold all_weights, all_biases in *. csimpl in *. split.
  - rewrite fmap_app, Hw, Hws, <- fmap_app. f_equal. by rewrite seq_app.
  - by apply Forall_app.
Qed.

(** The weights of a fresh network hold the draws, in order, and its
    biases hold 0. *)
Lemma fresh_network_values (input_size : Z) (layer_sizes : list Z) (w : world) :
  let arch := architecture input_size layer_sizes in
  let m := mkMLP (layers_at (length (heap w)) arch) in
  let st := heap w ++ network_cells uniform (drawn w) arch in
  data_of st <$> all_weights m = uniform <$> seq (drawn w) (weight_count arch) ∧
  Forall (λ b, data_of st b = 0%R) (all_biases m).
Proof. intros arch m st. apply network_values, placed_here. Qed.

End FreshValues.
Close Scope R_scope.


Section EngineTheorems.
Local Open Scope R_scope.

(** X1 — [backward] computes path sums. On a heap built by the operations,
    with the recursion depth above the number of objects, if the closures
    of the nodes reachable from the root return and no gradient is pending
    on a reachable node that has a closure, then [backward] returns, sets
    the gradient of the root to 1 and adds to the gradient of every other
    node [t] the sum, over the paths from the root to [t], of the products
    of the local derivatives the closures apply along the path ([deriv]:
    1 from a node to itself, otherwise the sum over the operands of the
    local derivative times the path sum from the operand). *)
Theorem backward_computes_path_sums
    (iter_order : ident → list ident → list ident) (fuel : nat)
    (st : store) (root : ident) :
  (∀ v l, iter_order v l ≡ₚ l) →
  built st → (root < length st)%nat → (length st < fuel)%nat →
  (∀ u, reachable st root u →
        returns (backward_of st u) st ∧
        (u ≠ root → backward_of st u ≠ bw_none → grad_of st u = 0)) →
  ∃ tr st',
    backward iter_order fuel root st = (tr, Ok tt, st') ∧
    grad_of st' root = 1 ∧
    (∀ t, (t < length st)%nat → t ≠ root →
       grad_of st' t = grad_of st t + deriv st root t) ∧
    (∀ v t, deriv st v t =
       if decide (v = t) then 1
       else Rsum ((λ p, p.2 * deriv st p.1 t) <$> partials st v)).
Proof.
  intros Hperm Hb Hroot Hfuel Hreach.
  destruct (backward_returns iter_order Hperm fuel st root)
    as (tr & st' & Hrun); [done..| |].
  { intros u Hu. by apply Hreach. }
  exists tr, st'.
  destruct (backward_accumulates iter_order Hperm fuel st root tr st'
              (built_well_formed st Hb) Hroot Hrun) as (_ & _ & _ & Hg1 & _).
  split_and!; [done|done| |].
  - eapply backward_deriv; [done..| |done].
    intros u Hu Hne Hc. by apply Hreach.
  - intros v t. apply deriv_unfold. by apply built_upstream.
Qed.

Lemma ready_product : ready [leaf 2; leaf 3; mkValue (2 * 3) 0 (bw_mul 0 1 2) [0; 1]%nat OpMul].
Proof.
  exact (ready_binary [leaf 2; leaf 3] 0 1 (2 * 3) (bw_mul 0 1 2) OpMul
           (ready_two 2 3) ltac:(simpl; lia) ltac:(simpl; lia)
           eq_refl eq_refl eq_refl).
Qed.

Lemma backward_computes_path_sums_witness :
  ∃ tr st',
    backward tuple_order 4 2
      [leaf 2; leaf 3; mkValue (2 * 3) 0 (bw_mul 0 1 2) [0; 1]%nat OpMul]
      = (tr, Ok tt, st') ∧
    grad_of st' 0
      = 0 + deriv [leaf 2; leaf 3;
                   mkValue (2 * 3) 0 (bw_mul 0 1 2) [0; 1]%nat OpMul] 2 0.
Proof.
  destruct (backward_computes_path_sums tuple_order 4
              [leaf 2; leaf 3; mkValue (2 * 3) 0 (bw_mul 0 1 2) [0; 1]%nat OpMul]
              2 tuple_order_perm)
    as (tr & st' & Hrun & _ & Hg & _).
  - apply ready_built, ready_product.
  - simpl. lia.
  - simpl. lia.
  - intros u Hu.
    pose proof (reachable_in_range _ 2%nat u
                  (built_closed _ (ready_built _ ready_product))
                  ltac:(simpl; lia) Hu) as Hlt.
    destruct ready_product as (_ & Hclean & Hret).
    split; [by apply Hret|]. intros _ Hc. by apply Hclean.
  - exists tr, st'. split; [done|]. apply Hg; [simpl; lia|done].
Defined.

(** X2 — Product rule. [a * b] on two objects of a heap that is ready
    for a pass appends one node of value [a.data * b.data]; [backward] on
    it returns and adds to the gradient of every older node [t]
    [b.data * d(a, t) + a.data * d(b, t)]. For two distinct leaves this
    is [b.data] for [a] and [a.data] for [b]; for [a * a] on a leaf it is
    [2 * a.data]: the two additions of the closure go to the same object. *)
Theorem mul_backward_gradients
    (iter_order : ident → list ident → list ident) (fuel : nat)
    (st : store) (a b : ident) :
  (∀ v l, iter_order v l ≡ₚ l) → ready st →
  (a < length st)%nat → (b < length st)%nat → (length st + 1 < fuel)%nat →
  ∃ out st1 tr st2,
    __mul__ a (Ref b) st = (Ok out, st1) ∧
    length st1 = S (length st) ∧
    data_of st1 out = data_of st a * data_of st b ∧
    backward iter_order fuel out st1 = (tr, Ok tt, st2) ∧
    grad_of st2 out = 1 ∧
    (∀ t, (t < length st)%nat →
       grad_of st2 t
         = grad_of st t
           + (data_of st b * deriv st a t + data_of st a * deriv st b t)) ∧
    (backward_of st a = bw_none → backward_of st b = bw_none → a ≠ b →
       grad_of st2 a = grad_of st a + data_of st b ∧
       grad_of st2 b = grad_of st b + data_of st a) ∧
    (backward_of st a = bw_none → a = b →
       grad_of st2 a = grad_of st a + 2 * data_of st a).
Proof.
  intros Hperm Hr Ha Hb Hfuel.
  destruct (mul_facts a b st Ha Hb) as (n & Hrun & Hd & Hg & Hrd & _ & Hdv).
  destruct (backward_new iter_order Hperm fuel st n (Hrd Hr) Hfuel)
    as (tr & st2 & Hback & _ & Hg1 & Hgr).
  pose proof (ready_built st Hr) as Hbt.
  assert (Hall : ∀ t, (t < length st)%nat →
            grad_of st2 t
              = grad_of st t
                + (data_of st b * deriv st a t + data_of st a * deriv st b t)).
  { intros t Ht. by rewrite Hgr, Hdv. }
  exists (length st), (st ++ [n]), tr, st2.
  split_and!; [done|apply length_snoc|by rewrite data_of_snoc_new|done..| |].
  - intros Hla Hlb Hne. rewrite !Hall by done.
    rewrite !(deriv_leaf st a), !(deriv_leaf st b) by done.
    repeat case_decide; try congruence. split; lra.
  - intros Hla ->. rewrite Hall by done.
    rewrite (deriv_leaf st b), decide_True by done. lra.
Qed.

Lemma mul_backward_gradients_witness :
  ∃ out st1 tr st2,
    __mul__ 0 (Ref 1%nat) [leaf 2; leaf 3] = (Ok out, st1) ∧
    backward tuple_order 4 out st1 = (tr, Ok tt, st2) ∧
    grad_of st2 0 = 0 + 3 ∧ grad_of st2 1 = 0 + 2.
Proof.
  destruct (mul_backward_gradients tuple_order 4 [leaf 2; leaf 3] 0 1
              tuple_order_perm (ready_two 2 3))
    as (out & st1 & tr & st2 & Hrun & _ & _ & Hback & _ & _ & Hleaf & _);
    [simpl; lia..|].
  destruct (Hleaf eq_refl eq_refl ltac:(lia)) as [H0 H1].
  exists out, st1, tr, st2. split_and!; [done|done|exact H0|exact H1].
Defined.

(** X3 — [relu]. [a.relu()] appends one node of value [0] when
    [a.data < 0] and [a.data] otherwise; [backward] on it returns and adds
    [d(a, t)] to the gradient of every older node [t] when [a.data > 0]
    and nothing otherwise (so nothing at [a.data = 0]); for a leaf [a]
    that is 1 or 0 added to [a.grad]. *)
Theorem relu_value_and_gradient
    (iter_order : ident → list ident → list ident) (fuel : nat)
    (st : store) (a : ident) :
  (∀ v l, iter_order v l ≡ₚ l) → ready st →
  (a < length st)%nat → (length st + 1 < fuel)%nat →
  ∃ out st1 tr st2,
    relu a st = (Ok out, st1) ∧
    length st1 = S (length st) ∧
    data_of st1 out = (if Rlt_dec (data_of st a) 0 then 0 else data_of st a) ∧
    backward iter_order fuel out st1 = (tr, Ok tt, st2) ∧
    grad_of st2 out = 1 ∧
    (∀ t, (t < length st)%nat →
       grad_of st2 t
         = grad_of st t
           + (if Rlt_dec 0 (data_of st a) then 1 else 0) * deriv st a t) ∧
    (backward_of st a = bw_none →
       grad_of st2 a
         = grad_of st a + (if Rlt_dec 0 (data_of st a) then 1 else 0)).
Proof.
  intros Hperm Hr Ha Hfuel.
  destruct (relu_facts a st Ha) as (n & Hrun & Hd & Hg & Hrd & _ & Hdv).
  destruct (backward_new iter_order Hperm fuel st n (Hrd Hr) Hfuel)
    as (tr & st2 & Hback & _ & Hg1 & Hgr).
  pose proof (ready_built st Hr) as Hbt.
  exists (length st), (st ++ [n]), tr, st2.
  split_and!; [done|apply length_snoc|by rewrite data_of_snoc_new|done..| |].
  - intros t Ht. by rewrite Hgr, Hdv.
  - intros Hla. rewrite Hgr, Hdv, (deriv_leaf st a), decide_True by done. lra.
Qed.

Lemma relu_value_and_gradient_witness :
  ∃ out st1 tr st2,
    relu 0 [leaf 0] = (Ok out, st1) ∧ data_of st1 out = 0 ∧
    backward tuple_order 3 out st1 = (tr, Ok tt, st2) ∧
    grad_of st2 0 = 0.
Proof.
  destruct (relu_value_and_gradient tuple_order 3 [leaf 0] 0
              tuple_order_perm (ready_one 0))
    as (out & st1 & tr & st2 & Hrun & _ & Hd & Hback & _ & _ & Hleaf);
    [simpl; lia..|].
  exists out, st1, tr, st2. split_and!; [done| |done|].
  - rewrite Hd. unfold data_of. simpl. destruct (Rlt_dec 0 0); [lra|done].
  - rewrite (Hleaf eq_refl). unfold data_of, grad_of. simpl.
    destruct (Rlt_dec 0 0); lra.
Defined.

(** X4 — [leaky_relu]. [a.leaky_relu(alpha)] appends one node of value
    [alpha * a.data] when [a.data < 0] and [a.data] otherwise; [backward]
    on it returns and adds [alpha * d(a, t)] to the gradient of every older
    node [t] when [a.data < 0] and [d(a, t)] otherwise: at [a.data = 0] the
    slope is 1, where that of [relu] is 0. *)
Theorem leaky_relu_value_and_gradient
    (iter_order : ident → list ident → list ident) (fuel : nat)
    (st : store) (a : ident) (alpha : R) :
  (∀ v l, iter_order v l ≡ₚ l) → ready st →
  (a < length st)%nat → (length st + 1 < fuel)%nat →
  ∃ out st1 tr st2,
    leaky_relu a alpha st = (Ok out, st1) ∧
    length st1 = S (length st) ∧
    data_of st1 out = (if Rlt_dec (data_of st a) 0 then alpha * data_of st a
                       else data_of st a) ∧
    backward iter_order fuel out st1 = (tr, Ok tt, st2) ∧
    grad_of st2 out = 1 ∧
    (∀ t, (t < length st)%nat →
       grad_of st2 t
         = grad_of st t
           + (if Rlt_dec (data_of st a) 0 then alpha else 1) * deriv st a t) ∧
    (backward_of st a = bw_none →
       grad_of st2 a
         = grad_of st a + (if Rlt_dec (data_of st a) 0 then alpha else 1)) ∧
    (backward_of st a = bw_none → data_of st a = 0 →
       grad_of st2 a = grad_of st a + 1).
Proof.
  intros Hperm Hr Ha Hfuel.
  destruct (leaky_relu_facts a alpha st Ha) as (n & Hrun & Hd & Hg & Hrd & _ & Hdv).
  destruct (backward_new iter_order Hperm fuel st n (Hrd Hr) Hfuel)
    as (tr & st2 & Hback & _ & Hg1 & Hgr).
  pose proof (ready_built st Hr) as Hbt.
  exists (length st), (st ++ [n]), tr, st2.
  split_and!; [done|apply length_snoc|by rewrite data_of_snoc_new|done..| | |].
  - intros t Ht. by rewrite Hgr, Hdv.
  - intros Hla. rewrite Hgr, Hdv, (deriv_leaf st a), decide_True by done. lra.
  - intros Hla H0. rewrite Hgr, Hdv, (deriv_leaf st a), decide_True by done.
    rewrite H0. destruct (Rlt_dec 0 0); lra.
Qed.

Lemma leaky_relu_value_and_gradient_witness :
  ∃ out st1 tr st2,
    leaky_relu 0 (1 / 100) [leaf 0] = (Ok out, st1) ∧
    backward tuple_order 3 out st1 = (tr, Ok tt, st2) ∧
    grad_of st2 0 = 0 + 1.
Proof.
  destruct (leaky_relu_value_and_gradient tuple_order 3 [leaf 0] 0 (1 / 100)
              tuple_order_perm (ready_one 0))
    as (out & st1 & tr & st2 & Hrun & _ & _ & Hback & _ & _ & _ & Hzero);
    [simpl; lia..|].
  exists out, st1, tr, st2. split_and!; [done|done|].
  by rewrite (Hzero eq_refl eq_refl).
Defined.

(** X5 — Negation. [-a] is [a * -1]: it appends the leaf [-1] and a
    product node of value [a.data * -1]; [backward] on that node returns
    and subtracts [d(a, t)] from the gradient of every older node [t]:
    1 from the gradient of a leaf [a]. *)
Theorem neg_value_and_gradient
    (iter_order : ident → list ident → list ident) (fuel : nat)
    (st : store) (a : ident) :
  (∀ v l, iter_order v l ≡ₚ l) → ready st →
  (a < length st)%nat → (length st + 2 < fuel)%nat →
  ∃ out st1 tr st2,
    __neg__ a st = (Ok out, st1) ∧
    length st1 = (length st + 2)%nat ∧
    data_of st1 (length st) = -1 ∧
    data_of st1 out = data_of st a * -1 ∧
    backward iter_order fuel out st1 = (tr, Ok tt, st2) ∧
    grad_of st2 out = 1 ∧
    (∀ t, (t < length st)%nat →
       grad_of st2 t = grad_of st t - deriv st a t) ∧
    (backward_of st a = bw_none → grad_of st2 a = grad_of st a - 1).
Proof.
  intros Hperm Hr Ha Hfuel.
  destruct (neg_facts a st Ha) as (ext & Hrun & Hlen & Hm1 & Hd & Hrd & _ & Hdv).
  destruct (backward_appended iter_order Hperm fuel st ext (S (length st)) (Hrd Hr))
    as (tr & st2 & Hback & _ & Hg1 & Hgr); [rewrite length_app; lia..|].
  pose proof (ready_built st Hr) as Hbt.
  exists (S (length st)), (st ++ ext), tr, st2.
  split_and!; [done|rewrite length_app; lia|done..| |].
  - intros t Ht. rewrite Hgr, Hdv by done. lra.
  - intros Hla. rewrite Hgr, Hdv, (deriv_leaf st a), decide_True by done. lra.
Qed.

Lemma neg_value_and_gradient_witness :
  ∃ out st1 tr st2,
    __neg__ 0 [leaf 2] = (Ok out, st1) ∧
    data_of st1 out = 2 * -1 ∧
    backward tuple_order 4 out st1 = (tr, Ok tt, st2) ∧
    grad_of st2 0 = 0 - 1.
Proof.
  destruct (neg_value_and_gradient tuple_order 4 [leaf 2] 0
              tuple_order_perm (ready_one 2))
    as (out & st1 & tr & st2 & Hrun & _ & _ & Hd & Hback & _ & _ & Hleaf);
    [simpl; lia..|].
  exists out, st1, tr, st2. split_and!; [done|exact Hd|done|exact (Hleaf eq_refl)].
Defined.

(** X6 — Subtraction. [a - b] on two objects is [a + (b * -1)]: it
    appends three nodes (the leaf [-1], the product, the sum), the last of
    value [a.data + b.data * -1]; [backward] on it returns and adds
    [d(a, t) - d(b, t)] to the gradient of every older node [t]. For two
    distinct leaves that is [+1] for [a] and [-1] for [b]; for [a - a] the
    value is 0 and the gradient of the leaf [a] is left as it was. *)
Theorem sub_value_and_gradients
    (iter_order : ident → list ident → list ident) (fuel : nat)
    (st : store) (a b : ident) :
  (∀ v l, iter_order v l ≡ₚ l) → ready st →
  (a < length st)%nat → (b < length st)%nat → (length st + 3 < fuel)%nat →
  ∃ out st1 tr st2,
    __sub__ a (Ref b) st = (Ok out, st1) ∧
    length st1 = (length st + 3)%nat ∧
    data_of st1 out = data_of st a + data_of st b * -1 ∧
    backward iter_order fuel out st1 = (tr, Ok tt, st2) ∧
    grad_of st2 out = 1 ∧
    (∀ t, (t < length st)%nat →
       grad_of st2 t = grad_of st t + (deriv st a t - deriv st b t)) ∧
    (backward_of st a = bw_none → backward_of st b = bw_none → a ≠ b →
       grad_of st2 a = grad_of st a + 1 ∧ grad_of st2 b = grad_of st b - 1) ∧
    (a = b → data_of st1 out = 0 ∧ grad_of st2 a = grad_of st a).
Proof.
  intros Hperm Hr Ha Hb Hfuel.
  destruct (sub_facts a b st Ha Hb) as (ext & Hrun & Hlen & Hd & Hrd & _ & Hdv).
  destruct (backward_appended iter_order Hperm fuel st ext (length st + 2) (Hrd Hr))
    as (tr & st2 & Hback & _ & Hg1 & Hgr); [rewrite length_app; lia..|].
  pose proof (ready_built st Hr) as Hbt.
  assert (Hall : ∀ t, (t < length st)%nat →
            grad_of st2 t = grad_of st t + (deriv st a t - deriv st b t)).
  { intros t Ht. by rewrite Hgr, Hdv. }
  exists (length st + 2)%nat, (st ++ ext), tr, st2.
  split_and!; [done|rewrite length_app; lia|done..| |].
  - intros Hla Hlb Hne. rewrite !Hall by done.
    rewrite !(deriv_leaf st a), !(deriv_leaf st b) by done.
    repeat case_decide; try congruence. split; lra.
  - intros ->. split; [rewrite Hd; lra|]. rewrite Hall by done. lra.
Qed.

Lemma sub_value_and_gradients_witness :
  ∃ out st1 tr st2,
    __sub__ 0 (Ref 1%nat) [leaf 5; leaf 3] = (Ok out, st1) ∧
    data_of st1 out = 5 + 3 * -1 ∧
    backward tuple_order 6 out st1 = (tr, Ok tt, st2) ∧
    grad_of st2 0 = 0 + 1 ∧ grad_of st2 1 = 0 - 1.
Proof.
  destruct (sub_value_and_gradients tuple_order 6 [leaf 5; leaf 3] 0 1
              tuple_order_perm (ready_two 5 3))
    as (out & st1 & tr & st2 & Hrun & _ & Hd & Hback & _ & _ & Hleaf & _);
    [simpl; lia..|].
  destruct (Hleaf eq_refl eq_refl ltac:(lia)) as [H0 H1].
  exists out, st1, tr, st2. split_and!; [done|exact Hd|done|exact H0|exact H1].
Defined.

(** X10 — [exp]. When [e^a.data] is in the double range, [a.exp()]
    appends one node of that value; [backward] on it returns and adds
    [e^a.data * d(a, t)] to the gradient of every older node [t]:
    [e^a.data] to the gradient of a leaf [a]. *)
Theorem exp_value_and_gradient
    (iter_order : ident → list ident → list ident) (fuel : nat)
    (st : store) (a : ident) :
  (∀ v l, iter_order v l ≡ₚ l) → ready st →
  (a < length st)%nat → (length st + 1 < fuel)%nat →
  finite (exp (data_of st a)) →
  ∃ out st1 tr st2,
    exp_ a st = (Ok out, st1) ∧
    length st1 = S (length st) ∧
    data_of st1 out = exp (data_of st a) ∧
    backward iter_order fuel out st1 = (tr, Ok tt, st2) ∧
    grad_of st2 out = 1 ∧
    (∀ t, (t < length st)%nat →
       grad_of st2 t = grad_of st t + exp (data_of st a) * deriv st a t) ∧
    (backward_of st a = bw_none →
       grad_of st2 a = grad_of st a + exp (data_of st a)).
Proof.
  intros Hperm Hr Ha Hfuel Hfin.
  destruct (exp_facts a st Ha Hfin) as (n & Hrun & Hd & Hg & Hrd & _ & Hdv).
  destruct (backward_new iter_order Hperm fuel st n (Hrd Hr) Hfuel)
    as (tr & st2 & Hback & _ & Hg1 & Hgr).
  pose proof (ready_built st Hr) as Hbt.
  exists (length st), (st ++ [n]), tr, st2.
  split_and!; [done|apply length_snoc|by rewrite data_of_snoc_new|done..| |].
  - intros t Ht. by rewrite Hgr, Hdv.
  - intros Hla. rewrite Hgr, Hdv, (deriv_leaf st a), decide_True by done. lra.
Qed.

Lemma exp_value_and_gradient_witness :
  ∃ out st1 tr st2,
    exp_ 0 [leaf 0] = (Ok out, st1) ∧
    data_of st1 out = exp 0 ∧
    backward tuple_order 3 out st1 = (tr, Ok tt, st2) ∧
    grad_of st2 0 = 0 + exp 0.
Proof.
  destruct (exp_value_and_gradient tuple_order 3 [leaf 0] 0
              tuple_order_perm (ready_one 0))
    as (out & st1 & tr & st2 & Hrun & _ & Hd & Hback & _ & _ & Hleaf);
    [simpl; lia..| |].
  - unfold data_of. simpl. rewrite exp_0. apply finite_small.
    rewrite Rabs_R1. lra.
  - exists out, st1, tr, st2.
    split_and!; [done|exact Hd|done|exact (Hleaf eq_refl)].
Defined.

End EngineTheorems.

Close Scope R_scope.
















Close Scope R_scope.

Lemma built_node (st : store) (n : Value) :
  built st →
  (∀ x, x ∈ _prev n → x < length st) →
  (∀ o, closure_out (_backward n) = Some o → o = length st) →
  (∀ t, t ∈ targets (_backward n) →
        t ∈ _prev n ∨ ∃ m, m ∈ _prev n ∧ tc (edge st) m t) →
  built (st ++ [n]).
Proof. destruct n. apply built_alloc. Qed.

Lemma snoc2 {A : Type} (l : list A) x y : l ++ [x; y] = (l ++ [x]) ++ [y].
Proof. by rewrite <- app_assoc. Qed.

Lemma snoc3 {A : Type} (l : list A) x y z : l ++ [x; y; z] = ((l ++ [x]) ++ [y]) ++ [z].
Proof. by rewrite <- !app_assoc. Qed.

Lemma snoc4 {A : Type} (l : list A) x y z u :
  l ++ [x; y; z; u] = (((l ++ [x]) ++ [y]) ++ [z]) ++ [u].
Proof. by rewrite <- !app_assoc. Qed.

(** Conditions on a node whose closure writes to its operands. *)
Ltac node_ok :=
  simpl; rewrite ?length_app; simpl;
  first
    [ intros ? ?; set_unfold; lia
    | intros ? ?; simplify_eq; rewrite ?length_app; simpl; lia
    | intros ? ?; left; set_unfold; tauto ].

Ltac built_simple :=
  repeat first
    [ assumption
    | apply built_leaf
    | apply built_node; [| node_ok | node_ok | node_ok] ].

Lemma grad_of_last (st : store) n : grad_of (st ++ [n]) (length st) = grad n.
Proof. by rewrite grad_of_snoc, decide_True. Qed.

Section AppendOnly.
Local Open Scope R_scope.

Lemma add_appends self other (st : store) :
  (self < length st)%nat → operand_in st other →
  ∃ ext n, __add__ self other st = (Ok (length (st ++ ext)), (st ++ ext) ++ [n]) ∧
    grad n = 0 ∧ (built st → built ((st ++ ext) ++ [n])).
Proof.
  intros Hs Ho. destruct other as [x|o]; simpl in Ho.
  - exists [leaf x]. eexists. rewrite add_num, add_run.
    split_and!; [done|done|].
    intros Hb. apply built_binary; [by apply built_leaf|rewrite length_snoc; lia..|done|done].
  - exists []. eexists. rewrite app_nil_r, add_run.
    split_and!; [done|done|]. intros Hb. by apply built_binary.
Qed.

Lemma mul_appends self other (st : store) :
  (self < length st)%nat → operand_in st other →
  ∃ ext n, __mul__ self other st = (Ok (length (st ++ ext)), (st ++ ext) ++ [n]) ∧
    grad n = 0 ∧ (built st → built ((st ++ ext) ++ [n])).
Proof.
  intros Hs Ho. destruct other as [x|o]; simpl in Ho.
  - exists [leaf x]. eexists. rewrite mul_num, mul_run.
    split_and!; [done|done|].
    intros Hb. apply built_binary; [by apply built_leaf|rewrite length_snoc; lia..|done|done].
  - exists []. eexists. rewrite app_nil_r, mul_run.
    split_and!; [done|done|]. intros Hb. by apply built_binary.
Qed.

Lemma pow_appends self other (st : store) :
  (self < length st)%nat → operand_in st other →
  ∃ ext,
    match float_pow (data_of st self) (operand_value st other) with
    | Ok _ => ∃ n, __pow__ self other st = (Ok (length (st ++ ext)), (st ++ ext) ++ [n]) ∧
                   grad n = 0 ∧ (built st → built ((st ++ ext) ++ [n]))
    | Raise e => __pow__ self other st = (Raise e, st ++ ext)
    | Complex => __pow__ self other st = (Complex, st ++ ext)
    end.
Proof.
  intros Hs Ho. destruct other as [x|o]; simpl in Ho.
  - exists [leaf x]. rewrite pow_num, pow_run. simpl.
    rewrite data_of_snoc_old, data_of_snoc_new by done. simpl.
    destruct (float_pow _ _); [|done..].
    eexists. split_and!; [done|done|].
    intros Hb. apply built_binary; [by apply built_leaf|rewrite length_snoc; lia..|done|done].
  - exists []. rewrite app_nil_r, pow_run. simpl.
    destruct (float_pow _ _); [|done..].
    eexists. split_and!; [done|done|]. intros Hb. by apply built_binary.
Qed.

Lemma appends_intro (m : M ident) (st ext : store) (n : Value) :
  m st = (Ok (length (st ++ ext)), (st ++ ext) ++ [n]) →
  grad n = 0 → (built st → built ((st ++ ext) ++ [n])) →
  appends m st.
Proof.
  intros Hrun Hg Hb. exists (ext ++ [n]). rewrite Hrun, app_assoc. simpl.
  split; [done|]. intros out [= <-]. split_and!.
  - by rewrite length_snoc.
  - rewrite length_app. lia.
  - by rewrite grad_of_last.
  - done.
Qed.

Lemma appends_raise (m : M ident) (st ext : store) :
  (∃ e, m st = (Raise e, st ++ ext)) ∨ m st = (Complex, st ++ ext) →
  appends m st.
Proof.
  intros [[e Hrun]|Hrun]; exists ext; rewrite Hrun; simpl; by split.
Qed.

Lemma grad_of_last_gen (st : store) n k :
  k = length st → grad_of (st ++ [n]) k = grad n.
Proof. intros ->. apply grad_of_last. Qed.

(** X8 — The operations only append. Every operation of [Value] on
    objects of the heap leaves the existing objects as they are (values,
    gradients, operands and closures): the heap after it, whether it
    returns or raises, is the heap before it followed by new objects. When
    it returns, the result is the last object allocated, its gradient is
    0, and a heap in which operands precede their consumers and closures
    write to operands upstream of their node is still such a heap. *)
Theorem operations_only_append (st : store) (self : ident) (other : operand)
    (alpha : R) :
  (self < length st)%nat → operand_in st other →
  appends (__add__ self other) st ∧ appends (__radd__ self other) st ∧
  appends (__mul__ self other) st ∧ appends (__rmul__ self other) st ∧
  appends (__sub__ self other) st ∧ appends (__neg__ self) st ∧
  appends (__pow__ self other) st ∧ appends (__truediv__ self other) st ∧
  appends (relu self) st ∧ appends (leaky_relu self alpha) st ∧
  appends (elu self alpha) st ∧ appends (exp_ self) st ∧
  appends (sigmoid self) st ∧ appends (tanh_ self) st.
Proof.
  intros Hs Ho.
  assert (Hadd : ∀ o, operand_in st o → appends (__add__ self o) st).
  { intros o Hin. destruct (add_appends self o st Hs Hin) as (ext & n & H1 & H2 & H3).
    by eapply appends_intro. }
  assert (Hmul : ∀ o, operand_in st o → appends (__mul__ self o) st).
  { intros o Hin. destruct (mul_appends self o st Hs Hin) as (ext & n & H1 & H2 & H3).
    by eapply appends_intro. }
  split_and!.
  - by apply Hadd.
  - by apply Hadd.
  - by apply Hmul.
  - by apply Hmul.
  - (* sub *)
    destruct other as [x|o]; simpl in Ho.
    + destruct (Hadd (Num (- x)) I) as (ext & Hst & Hout).
      exists ext. by rewrite sub_num.
    + exists [leaf (-1);
              mkValue (data_of st o * -1) 0
                (bw_mul o (length st) (S (length st))) [o; length st] OpMul;
              mkValue (data_of st self + data_of st o * -1) 0
                (bw_add self (S (length st)) (length st + 2)%nat)
                [self; S (length st)] OpAdd].
      rewrite sub_run by done. simpl. split; [done|].
      intros out [= <-]. split_and!.
      * rewrite length_app. simpl. lia.
      * lia.
      * rewrite snoc3. apply grad_of_last_gen. rewrite !length_app. simpl. lia.
      * intros Hb. rewrite snoc3. built_simple.
  - by apply (Hmul (Num (-1))).
  - (* pow *)
    destruct (pow_appends self other st Hs Ho) as (ext & H).
    destruct (float_pow _ _).
    + destruct H as (n & H1 & H2 & H3). by eapply appends_intro.
    + eapply appends_raise. left. by eexists.
    + eapply appends_raise. by right.
  - (* truediv *)
    unfold appends. destruct other as [x|o]; simpl in Ho.
    + rewrite (truediv_num self x st Hs).
      destruct (float_pow x (-1)) as [r|e|]; simpl.
      * eexists. split; [done|]. intros out [= <-]. split_and!.
        -- rewrite length_app. simpl. lia.
        -- lia.
        -- rewrite snoc2. apply grad_of_last_gen. by rewrite length_snoc.
        -- intros Hb. rewrite snoc2. built_simple.
      * exists []. rewrite app_nil_r. by split.
      * exists []. rewrite app_nil_r. by split.
    + rewrite (truediv_run self o st Hs Ho).
      destruct (float_pow (data_of st o) (-1)) as [r|e|]; simpl.
      * eexists. split; [done|]. intros out [= <-]. split_and!.
        -- rewrite length_app. simpl. lia.
        -- lia.
        -- rewrite snoc3. apply grad_of_last_gen. rewrite !length_app. simpl. lia.
        -- intros Hb. rewrite snoc3.
           apply built_node; [built_simple|node_ok|node_ok|].
           simpl. intros t Ht. rewrite !elem_of_cons, elem_of_nil in Ht.
           destruct Ht as [->|[->|[]]]; [left; set_solver|].
           right. exists (S (length st)). split; [set_solver|].
           apply tc_once. unfold edge, prev_of.
           rewrite lookup_total_app_r by (rewrite length_snoc; lia).
           rewrite length_snoc, Nat.sub_diag. simpl. set_solver.
      * eexists. by split.
      * eexists. by split.
  - (* relu *)
    unfold appends. rewrite relu_run. simpl.
    eexists. split; [done|]. intros out [= <-]. split_and!.
    + by rewrite length_snoc.
    + lia.
    + by rewrite grad_of_last.
    + intros Hb. built_simple.
  - (* leaky_relu *)
    unfold appends. rewrite leaky_relu_run. simpl.
    eexists. split; [done|]. intros out [= <-]. split_and!.
    + by rewrite length_snoc.
    + lia.
    + by rewrite grad_of_last.
    + intros Hb. built_simple.
  - (* elu *)
    unfold appends. rewrite elu_run. destruct (Rlt_dec _ _); simpl.
    + eexists. split; [done|]. intros out [= <-]. split_and!.
      * rewrite length_app. simpl. lia.
      * lia.
      * rewrite snoc2. apply grad_of_last_gen. by rewrite length_snoc.
      * intros Hb. rewrite snoc2. built_simple.
    + eexists. split; [done|]. intros out [= <-]. split_and!.
      * by rewrite length_snoc.
      * lia.
      * by rewrite grad_of_last.
      * intros Hb. built_simple.
  - (* exp *)
    unfold appends. rewrite exp_run. destruct (math_exp _); simpl.
    + eexists. split; [done|]. intros out [= <-]. split_and!.
      * by rewrite length_snoc.
      * lia.
      * by rewrite grad_of_last.
      * intros Hb. built_simple.
    + exists []. rewrite app_nil_r. by split.
    + exists []. rewrite app_nil_r. by split.
  - (* sigmoid *)
    unfold appends. rewrite (sigmoid_run self st Hs).
    destruct (math_exp _); simpl.
    + eexists. split; [done|]. intros out [= <-]. split_and!.
      * rewrite length_app. simpl. lia.
      * lia.
      * rewrite snoc4. apply grad_of_last_gen. rewrite !length_app. simpl. lia.
      * intros Hb. rewrite snoc4. built_simple.
    + eexists. by split.
    + eexists. by split.
  - (* tanh *)
    unfold appends. rewrite (tanh_run self st Hs).
    destruct (math_exp _); simpl.
    + eexists. split; [done|]. intros out [= <-]. split_and!.
      * rewrite length_app. simpl. lia.
      * lia.
      * rewrite snoc4. apply grad_of_last_gen. rewrite !length_app. simpl. lia.
      * intros Hb. rewrite snoc4. built_simple.
    + eexists. by split.
    + eexists. by split.
Qed.

Lemma operations_only_append_witness :
  appends (__truediv__ 0 (Ref 1%nat)) [leaf 6; leaf 2] ∧
  appends (sigmoid 0) [leaf 6; leaf 2].
Proof.
  destruct (operations_only_append [leaf 6; leaf 2] 0 (Ref 1%nat) 1)
    as (_ & _ & _ & _ & _ & _ & _ & Hdiv & _ & _ & _ & _ & Hsig & _);
    [simpl; lia..|].
  by split.
Defined.

End AppendOnly.

Close Scope R_scope.

Section ChainRule.
Local Open Scope R_scope.

Lemma finite_of_square x : finite (x * x) → finite x.
Proof.
  unfold finite. intros H.
  destruct (Rle_dec (Rabs x) 1) as [Hle|Hgt].
  - pose proof DBL_MAX_million. lra.
  - rewrite Rabs_mult in H. pose proof (Rabs_pos x). nra.
Qed.

Lemma float_pow_1 x : x ≠ 0 → finite x → float_pow x (2 - 1) = Ok x.
Proof.
  intros Hx Hf. replace (2 - 1) with (IZR 1) by lra.
  rewrite float_pow_int by done. simpl.
  rewrite Rmult_1_r. by apply in_range_finite.
Qed.

Lemma chain_rule_program_run x :
  finite (x * x) → chain_rule_program x [] = (Ok 7%nat, chain_rule_heap x).
Proof.
  intros Hf. unfold chain_rule_program, chain_rule_heap. py_eval.
  rewrite float_pow_2 by done. done.
Qed.

Lemma bw_pow_returns (st : store) a b out :
  (data_of st a ≠ 0 → ∃ p, float_pow (data_of st a) (data_of st b - 1) = Ok p) →
  (0 < data_of st a → ∃ q, float_pow (data_of st a) (data_of st b) = Ok q) →
  returns (bw_pow a b out) st.
Proof.
  intros H1 H2. unfold returns. simpl.
  unfold bind, gets, lift, grad_iadd, modify, ret. simpl.
  destruct (Req_dec_T (data_of st a) 0) as [H0|Hn]; simpl.
  - destruct (Rlt_dec 0 (data_of st a)); [lra|done].
  - destruct (H1 Hn) as [p ->]. simpl.
    destruct (Rlt_dec 0 (data_of st a)) as [Hpos|]; [|done]. simpl.
    destruct (H2 Hpos) as [q ->]. simpl.
    by rewrite math_log_pos.
Qed.

Lemma chain_rule_heap_ready x : finite (x * x) → ready (chain_rule_heap x).
Proof.
  intros Hf. unfold chain_rule_heap. split_and!.
  - change [leaf x; leaf 2;
            mkValue (x * x) 0 (bw_pow 0 1 2) [0; 1]%nat OpPow; leaf 1;
            mkValue (x * x + 1) 0 (bw_add 2 3 4) [2; 3]%nat OpAdd;
            mkValue (if Rlt_dec (x * x + 1) 0 then 0 else x * x + 1) 0
              (bw_relu 4 5) [4]%nat OpReLU; leaf 3;
            mkValue ((if Rlt_dec (x * x + 1) 0 then 0 else x * x + 1) * 3) 0
              (bw_mul 5 6 7) [5; 6]%nat OpMul]
      with (((((((([] ++ [leaf x]) ++ [leaf 2]) ++
            [mkValue (x * x) 0 (bw_pow 0 1 2) [0; 1]%nat OpPow]) ++ [leaf 1]) ++
            [mkValue (x * x + 1) 0 (bw_add 2 3 4) [2; 3]%nat OpAdd]) ++
            [mkValue (if Rlt_dec (x * x + 1) 0 then 0 else x * x + 1) 0
              (bw_relu 4 5) [4]%nat OpReLU]) ++ [leaf 3]) ++
            [mkValue ((if Rlt_dec (x * x + 1) 0 then 0 else x * x + 1) * 3) 0
              (bw_mul 5 6 7) [5; 6]%nat OpMul]).
    pose proof built_nil. built_simple.
  - intros u Hu _. do 8 (destruct u as [|u]; [done|]). simpl in Hu. lia.
  - intros u Hu.
    destruct u as [|[|[|[|[|[|[|[|u]]]]]]]];
      try (by apply never_raises_returns).
    unfold backward_of. simpl.
    apply bw_pow_returns; unfold data_of; simpl.
    + intros Hx. exists x. apply float_pow_1; [done|by apply finite_of_square].
    + intros _. exists (x * x). by apply float_pow_2.
Qed.

(** X9 — The chain rule through [**], [+], [relu] and [*]. For every
    number [x] whose square is in the double range, the graph
    [d = (a ** 2 + 1).relu() * 3] on [a = Value(x)] is built without an
    exception, [d.data] is [(x * x + 1) * 3], and [d.backward()] returns
    and leaves [a.grad = 3 * (2 * x)]: 15 and 12 for [x = 2], the numbers
    of [test_chain_rule]. *)
Theorem chain_rule_through_pow_add_relu_mul
    (iter_order : ident → list ident → list ident) (fuel : nat) (x : R) :
  (∀ v l, iter_order v l ≡ₚ l) → (8 < fuel)%nat → finite (x * x) →
  ∃ st tr st',
    chain_rule_program x [] = (Ok 7%nat, st) ∧
    data_of st 0 = x ∧ grad_of st 0 = 0 ∧
    data_of st 7 = (x * x + 1) * 3 ∧
    backward iter_order fuel 7 st = (tr, Ok tt, st') ∧
    grad_of st' 7 = 1 ∧
    grad_of st' 0 = 3 * (2 * x).
Proof.
  intros Hperm Hfuel Hf.
  pose proof (chain_rule_heap_ready x Hf) as Hr.
  destruct (ready_backward iter_order Hperm fuel (chain_rule_heap x) 7 Hr)
    as (tr & st' & Hrun & _ & Hg1 & Hg); [simpl; lia..|].
  exists (chain_rule_heap x), tr, st'.
  assert (Hpos : ¬ x * x + 1 < 0) by nra.
  split_and!; [by apply chain_rule_program_run|done|done| |done|done|].
  - unfold data_of, chain_rule_heap. simpl.
    destruct (Rlt_dec (x * x + 1) 0); [done|lra].
  - rewrite (Hg 0%nat) by (simpl; lia).
    unfold deriv, chain_rule_heap. py_eval.
    destruct (Rlt_dec (x * x + 1) 0); [done|].
    destruct (Rlt_dec 0 (x * x + 1)); [|nra].
    destruct (Req_dec_T x 0) as [->|Hx]; [lra|].
    rewrite float_pow_1 by (done || by apply finite_of_square). simpl.
    destruct (Rlt_dec 0 x); lra.
Qed.

Lemma chain_rule_through_pow_add_relu_mul_witness :
  ∃ st tr st',
    chain_rule_program 2 [] = (Ok 7%nat, st) ∧
    data_of st 7 = (2 * 2 + 1) * 3 ∧
    backward tuple_order 9 7 st = (tr, Ok tt, st') ∧
    grad_of st' 0 = 3 * (2 * 2).
Proof.
  destruct (chain_rule_through_pow_add_relu_mul tuple_order 9 2 tuple_order_perm)
    as (st & tr & st' & Hrun & _ & _ & Hd & Hback & _ & Hg).
  - lia.
  - apply finite_small. rewrite Rabs_pos_eq; lra.
  - by exists st, tr, st'.
Defined.

End ChainRule.

Close Scope R_scope.

Lemma sum_products_take ws : ∀ xs acc (st : store),
  sum_products ws xs acc st
  = sum_products (take (length xs) ws) (take (length ws) xs) acc st.
Proof.
  induction ws as [|w ws IH]; intros xs acc st; [by destruct xs|].
  destruct xs as [|x xs]; [done|].
  rewrite sum_products_cons. simpl take. rewrite sum_products_cons.
  destruct ((let* p := __mul__ w x in __add__ acc (Ref p)) st) as [[a| |] st1];
    [|done..].
  apply IH.
Qed.

Lemma for_in_set_grad (l : list ident) : ∀ (st : store),
  for_in l (λ p, modify (set_grad p 0%R)) st
  = (Ok tt, foldl (λ s p, set_grad p 0%R s) st l).
Proof.
  induction l as [|p l IH]; intros st; [done|].
  simpl. unfold bind, modify at 1. simpl. apply IH.
Qed.

Lemma foldl_set_grad_facts (l : list ident) : ∀ (st : store),
  let st' := foldl (λ s p, set_grad p 0%R s) st l in
  length st' = length st ∧ same_graph st st' ∧
  (∀ v, v ∈ l → v < length st → grad_of st' v = 0%R) ∧
  (∀ v, v ∉ l → grad_of st' v = grad_of st v).
Proof.
  induction l as [|p l IH]; intros st; simpl.
  { split_and!; [done|apply same_graph_refl|set_solver|done]. }
  destruct (IH (set_grad p 0%R st)) as (Hlen & Hsg & Hin & Hout).
  rewrite length_set_grad in Hlen, Hin.
  split_and!.
  - done.
  - eapply same_graph_trans; [apply same_graph_set_grad|done].
  - intros v Hv Hlt. destruct (decide (v ∈ l)) as [Hl|Hl]; [by apply Hin|].
    rewrite Hout by done. apply elem_of_cons in Hv as [->|?]; [|done].
    rewrite grad_of_set_grad. by rewrite decide_True.
  - intros v Hv. apply not_elem_of_cons in Hv as [Hne Hl].
    rewrite Hout by done. by apply grad_of_set_grad_ne.
Qed.

Section NetworkTheorems.
Local Open Scope R_scope.

(** X20 — [zero_grad]. For every module, [zero_grad] returns and sets
    the gradient of each of its parameters to 0; it changes nothing else:
    values, operands and closures of all objects, and the gradient of every
    object that is not a parameter (the intermediate nodes of a graph
    built earlier keep the gradient a pass left on them). On an object of
    the base class, which has no parameter, it changes nothing. *)
Theorem zero_grad_resets_parameters_only {T : Type} `{Module_ T}
    (self : T) (st : store) :
  ∃ st',
    zero_grad self st = (Ok tt, st') ∧
    length st' = length st ∧ same_graph st st' ∧
    (∀ p, p ∈ parameters self → (p < length st)%nat → grad_of st' p = 0) ∧
    (∀ v, v ∉ parameters self → grad_of st' v = grad_of st v) ∧
    zero_grad mkModule st = (Ok tt, st).
Proof.
  unfold zero_grad. rewrite for_in_set_grad. eexists. split; [done|].
  destruct (foldl_set_grad_facts (parameters self) st) as (H1 & H2 & H3 & H4).
  split_and!; done.
Qed.

(** X12 — Length mismatch. [Neuron.__call__] pairs weights and inputs
    with [zip]: on a list of any length it behaves as on the first
    [len(weights)] inputs with the first [len(x)] weights; inputs in
    excess and weights in excess are ignored, without any exception. *)
Theorem Neuron_call_truncates (self : Neuron) (xs : list operand) (w : world) :
  Neuron_call self (Items xs) w
  = Neuron_call
      (mkNeuron (take (length xs) (weights self)) (bias self) (nonlin self))
      (Items (take (length (weights self)) xs)) w.
Proof.
  unfold Neuron_call, nbind, engine. simpl.
  by rewrite sum_products_take.
Qed.

(** X11 — The value of a neuron. Called on a list of numbers and
    objects, a neuron whose parameters are objects of the heap returns a
    node (no exception), leaves the existing objects as they are and
    draws nothing from [random]; the value of the node is
    [bias + w1 * x1 + ... + wk * xk] over the pairs of [zip(weights, x)],
    passed through [relu] when [nonlin] is set. *)
Theorem Neuron_call_value (self : Neuron) (xs : list operand) (w : world) :
  allocated self (heap w) → Forall (operand_in (heap w)) xs →
  ∃ out ext,
    Neuron_call self (Items xs) w
      = (Engine (Ok out), mkWorld (heap w ++ ext) (drawn w)) ∧
    (out < length (heap w ++ ext))%nat ∧
    data_of (heap w ++ ext) out
      = activation_of (nonlin self)
          (weighted_sum (heap w) (weights self) xs
             (data_of (heap w) (bias self))) ∧
    (ready (heap w) → ready (heap w ++ ext)).
Proof.
  intros [Hws Hb]%allocated_neuron Hxs.
  destruct (Neuron_call_run self xs w Hws Hb Hxs)
    as (ext & out & Hrun & Hlt & _ & Hd & Hr & _).
  by exists out, ext.
Qed.

Lemma Neuron_call_value_witness :
  ∃ out ext,
    Neuron_call (mkNeuron [0; 1]%nat 2%nat false) (Items [Num 4; Num 5])
      (mkWorld [leaf 1; leaf 2; leaf 3] 0)
      = (Engine (Ok out), mkWorld ([leaf 1; leaf 2; leaf 3] ++ ext) 0) ∧
    data_of ([leaf 1; leaf 2; leaf 3] ++ ext) out = 3 + 1 * 4 + 2 * 5.
Proof.
  destruct (Neuron_call_value (mkNeuron [0; 1]%nat 2%nat false)
              [Num 4; Num 5] (mkWorld [leaf 1; leaf 2; leaf 3] 0))
    as (out & ext & Hrun & _ & Hd & _).
  - apply allocated_neuron. simpl. split; [|lia].
    repeat constructor; simpl; lia.
  - by repeat constructor.
  - exists out, ext. split; [exact Hrun|exact Hd].
Defined.

(** X13 — A neuron without pairs. When the list of weights or the list
    of inputs is empty, the sum is its start value: a linear neuron returns
    its bias object itself and allocates nothing, and a neuron with
    [nonlin] returns a [relu] node on the bias, the only object allocated. *)
Theorem Neuron_call_without_pairs (self : Neuron) (xs : list operand) (w : world) :
  weights self = [] ∨ xs = [] →
  Neuron_call self (Items xs) w =
  if nonlin self
  then (Engine (Ok (length (heap w))),
        mkWorld (heap w ++
                 [mkValue (if Rlt_dec (data_of (heap w) (bias self)) 0 then 0
                           else data_of (heap w) (bias self)) 0
                    (bw_relu (bias self) (length (heap w))) [bias self] OpReLU])
          (drawn w))
  else (Engine (Ok (bias self)), w).
Proof.
  intros Hnil. unfold Neuron_call, nbind, engine.
  assert (Hsum : sum_products (weights self) xs (bias self) (heap w)
                 = (Ok (bias self), heap w)).
  { destruct Hnil as [-> | ->]; [done|]. by destruct (weights self). }
  rewrite Hsum. destruct (nonlin self).
  - by rewrite relu_run.
  - by destruct w.
Qed.

Lemma Neuron_call_without_pairs_witness :
  Neuron_call (mkNeuron [0]%nat 1%nat false) (Items [])
    (mkWorld [leaf 1; leaf 2] 0)
  = (Engine (Ok 1%nat), mkWorld [leaf 1; leaf 2] 0).
Proof.
  exact (Neuron_call_without_pairs (mkNeuron [0]%nat 1%nat false) []
           (mkWorld [leaf 1; leaf 2] 0) (or_intror eq_refl)).
Defined.

(** X14 — The gradients of a neuron. Let the parameters of a neuron be
    distinct leaves of a heap that is ready for a pass, and let no input
    depend on them. The neuron called on the list [x] returns a node, and
    [backward] on that node returns (with the recursion depth above the
    number of objects); it has then added to the gradient of each weight
    the input paired with it (nothing for a weight without input) and 1 to
    the gradient of the bias, both multiplied, when [nonlin] is set, by the
    factor of [relu]: 1 when the weighted sum is positive and 0 otherwise. *)
Theorem Neuron_backward_gradients
    (iter_order : ident → list ident → list ident)
    (self : Neuron) (xs : list operand) (w : world) :
  (∀ v l, iter_order v l ≡ₚ l) →
  ready (heap w) → allocated self (heap w) → NoDup (parameters self) →
  (∀ p, p ∈ parameters self → backward_of (heap w) p = bw_none) →
  Forall (operand_in (heap w)) xs →
  (∀ v p, Ref v ∈ xs → p ∈ parameters self → ¬ reachable (heap w) v p) →
  ∃ out w1,
    Neuron_call self (Items xs) w = (Engine (Ok out), w1) ∧
    ∀ fuel, (length (heap w1) < fuel)%nat →
      ∃ tr st2,
        backward iter_order fuel out (heap w1) = (tr, Ok tt, st2) ∧
        grad_of st2 out = 1 ∧
        let g := gate_of (nonlin self)
                   (weighted_sum (heap w) (weights self) xs
                      (data_of (heap w) (bias self))) in
        (out ≠ bias self →
           grad_of st2 (bias self) = grad_of (heap w) (bias self) + g) ∧
        (∀ i wi, weights self !! i = Some wi →
           grad_of st2 wi
             = grad_of (heap w) wi
               + g * from_option (operand_value (heap w)) 0 (xs !! i)).
Proof.
  intros Hperm Hr Hal Hnd Hleaf Hxs Hindep.
  pose proof Hal as [Hws Hb]%allocated_neuron.
  pose proof (ready_built _ Hr) as Hbt.
  destruct (Neuron_call_run self xs w Hws Hb Hxs)
    as (ext & out & Hrun & Hlt & Hout & Hd & Hrd & _ & Hdv).
  exists out, (mkWorld (heap w ++ ext) (drawn w)). split; [done|].
  simpl. intros fuel Hfuel.
  destruct (ready_backward iter_order Hperm fuel (heap w ++ ext) out (Hrd Hr))
    as (tr & st2 & Hback & _ & Hg1 & Hg); [done..|].
  exists tr, st2. split_and!; [done|done| |].
  - (* the bias *)
    intros Hne.
    rewrite Hg by (rewrite ?length_app; (done || lia)).
    rewrite grad_of_app_old, (Hdv Hbt) by done.
    rewrite deriv_refl, weighted_sum_deriv_none; [f_equal; lra| |].
    + intros p Hp. rewrite deriv_leaf.
      * rewrite decide_False; [done|]. intros ->.
        unfold parameters, Neuron_parameters in Hnd.
        apply NoDup_app in Hnd as (_ & Hd' & _). apply (Hd' _ Hp). set_solver.
      * apply Hleaf. unfold parameters, Neuron_parameters. set_solver.
    + intros [x|v] Hx; [done|]. simpl. apply deriv_unreachable; [done|].
      apply Hindep; [done|]. unfold parameters, Neuron_parameters. set_solver.
  - (* a weight *)
    intros i wi Hi.
    assert (Hin : wi ∈ weights self) by (by eapply list_elem_of_lookup_2).
    assert (Hlti : (wi < length (heap w))%nat).
    { by eapply (proj1 (Forall_forall _ _) Hws). }
    assert (Hwb : wi ≠ bias self).
    { intros ->. unfold parameters, Neuron_parameters in Hnd.
      apply NoDup_app in Hnd as (_ & Hd' & _). apply (Hd' _ Hin). set_solver. }
    assert (Hwo : wi ≠ out) by (destruct Hout; (congruence || lia)).
    rewrite Hg by (rewrite ?length_app; (done || lia)).
    rewrite grad_of_app_old, (Hdv Hbt) by done.
    rewrite (deriv_leaf _ (bias self)), decide_False.
    2:{ done. }
    2:{ apply Hleaf. unfold parameters, Neuron_parameters. set_solver. }
    rewrite (weighted_sum_deriv_weight _ _ xs i wi); [f_equal; lra| | | |done].
    + unfold parameters, Neuron_parameters in Hnd.
      by apply NoDup_app in Hnd as (? & _).
    + intros p Hp. apply Hleaf. unfold parameters, Neuron_parameters. set_solver.
    + intros [x|v] Hx; [done|]. simpl. apply deriv_unreachable; [done|].
      apply Hindep; [done|]. unfold parameters, Neuron_parameters. set_solver.
Qed.

Lemma Neuron_backward_gradients_witness :
  ∃ out w1 tr st2,
    Neuron_call (mkNeuron [0; 1]%nat 2%nat false) (Items [Num 4; Num 5])
      (mkWorld [leaf 1; leaf 2; leaf 3] 0) = (Engine (Ok out), w1) ∧
    backward tuple_order (S (length (heap w1))) out (heap w1) = (tr, Ok tt, st2) ∧
    grad_of st2 0 = 0 + 1 * 4 ∧ grad_of st2 1 = 0 + 1 * 5.
Proof.
  destruct (Neuron_backward_gradients tuple_order
              (mkNeuron [0; 1]%nat 2%nat false) [Num 4; Num 5]
              (mkWorld [leaf 1; leaf 2; leaf 3] 0) tuple_order_perm)
    as (out & w1 & Hrun & Hback).
  - exact (ready_leaf [leaf 1; leaf 2] 3
             (ready_leaf [leaf 1] 2 (ready_leaf [] 1 ready_nil))).
  - apply allocated_neuron. simpl. split; [|lia].
    repeat constructor; simpl; lia.
  - unfold parameters, Neuron_parameters. simpl.
    repeat constructor; set_solver.
  - intros p Hp. unfold parameters, Neuron_parameters in Hp. simpl in Hp.
    rewrite !elem_of_cons, elem_of_nil in Hp.
    by destruct Hp as [->|[->|[->|[]]]].
  - by repeat constructor.
  - intros v p Hv. rewrite !elem_of_cons, elem_of_nil in Hv.
    by destruct Hv as [?|[?|[]]].
  - destruct (Hback (S (length (heap w1))) ltac:(lia))
      as (tr & st2 & Hb & _ & _ & Hw).
    exists out, w1, tr, st2. split_and!; [done|done|..].
    + exact (Hw 0%nat 0%nat eq_refl).
    + exact (Hw 1%nat 1%nat eq_refl).
Defined.

End NetworkTheorems.

Close Scope R_scope.

Section NetworkCalls.
Local Open Scope R_scope.

(** X15 — What a layer returns. On a list, a layer whose parameters
    are objects of the heap calls its neurons in order and never raises; it
    returns the single output node when it has exactly one neuron and the
    list of the output nodes otherwise (the empty list when it has no
    neuron), each node carrying the value of its neuron on the list. On a
    single [Value], which is what a layer of one neuron returns, it raises
    [TypeError] as soon as it has a neuron, and returns the empty list
    when it has none. *)
Theorem Layer_call_shape (self : Layer) (x : input) (w : world) :
  allocated self (heap w) → input_in (heap w) x →
  match x with
  | Single _ =>
      Layer_call self x w =
      (if decide (neurons self = []) then (Engine (Ok (Items [])), w)
       else (TypeError, w))
  | Items xs =>
      ∃ outs ext,
        Layer_call self x w
          = (Engine (Ok (match outs with
                         | [o] => Single o
                         | _ => Items (Ref <$> outs)
                         end)),
             mkWorld (heap w ++ ext) (drawn w)) ∧
        length outs = length (neurons self) ∧
        Forall2 (λ n o,
            data_of (heap w ++ ext) o
              = activation_of (nonlin n)
                  (weighted_sum (heap w) (weights n) xs
                     (data_of (heap w) (bias n)))) (neurons self) outs
  end.
Proof.
  intros Hal Hx. destruct x as [xs|v].
  - destruct (Layer_call_Items self xs w Hal Hx)
      as (ext & outs & Hrun & Hlen & _ & Hd & _).
    by exists outs, ext.
  - rewrite Layer_call_Single. by destruct (neurons self).
Qed.

Lemma Layer_call_shape_witness :
  ∃ outs ext,
    Layer_call (mkLayer [mkNeuron [0]%nat 1%nat false])
      (Items [Num 4]) (mkWorld [leaf 2; leaf 3] 0)
      = (Engine (Ok (match outs with
                     | [o] => Single o
                     | _ => Items (Ref <$> outs)
                     end)),
         mkWorld ([leaf 2; leaf 3] ++ ext) 0) ∧
    length outs = 1%nat.
Proof.
  destruct (Layer_call_shape (mkLayer [mkNeuron [0]%nat 1%nat false])
              (Items [Num 4]) (mkWorld [leaf 2; leaf 3] 0))
    as (outs & ext & Hrun & Hlen & _).
  - unfold allocated, parameters, Layer_parameters. simpl.
    repeat constructor; simpl; lia.
  - by repeat constructor.
  - by exists outs, ext.
Defined.

(** X16 — When a network raises. Called on a list, a network whose
    parameters are objects of the heap raises [TypeError] exactly when
    some layer of one neuron is followed by a layer that has a neuron: the
    second one receives a single [Value] where it iterates over a list.
    Otherwise the call returns: the list it was given when the network has
    no layer, a single node when the last layer has exactly one neuron,
    and a list of as many nodes as the last layer has neurons when it has
    none or several. No other exception is raised. *)
Theorem MLP_call_outcome (self : MLP) (xs : list operand) (w : world) :
  allocated self (heap w) → Forall (operand_in (heap w)) xs →
  ((∃ i k, widths self !! i = Some 1%nat ∧ widths self !! S i = Some (S k)) →
     ∃ w', MLP_call self (Items xs) w = (TypeError, w')) ∧
  (¬ (∃ i k, widths self !! i = Some 1%nat ∧ widths self !! S i = Some (S k)) →
     ∃ y w',
       MLP_call self (Items xs) w = (Engine (Ok y), w') ∧
       input_in (heap w') y ∧
       (layers self = [] → y = Items xs) ∧
       (∀ k, last (widths self) = Some k →
          match y with
          | Single _ => k = 1%nat
          | Items ys => k ≠ 1%nat ∧ length ys = k
          end) ∧
       (ready (heap w) → ready (heap w'))).
Proof.
  intros Hal%allocated_MLP Hxs.
  destruct (layers_run (layers self) (Items xs) w Hal Hxs) as [ext Hrun].
  fold (widths self) in Hrun. unfold MLP_call.
  destruct (meets_single false (widths self)) eqn:Hm.
  - split.
    + intros _. by eexists.
    + intros Hn. exfalso. apply Hn.
      apply meets_single_spec in Hm as [[? _]|?]; done.
  - split.
    + intros Hbad. exfalso.
      assert (meets_single false (widths self) = true) as Ht
        by (apply meets_single_spec; by right).
      congruence.
    + intros _. destruct Hrun as (y & Hr & Hy & Hnil & Hshape & Hready).
      exists y. eexists. split; [exact Hr|]. simpl. by split_and!.
Qed.

Lemma MLP_call_outcome_witness :
  ∃ w',
    MLP_call (mkMLP [mkLayer [mkNeuron [0]%nat 1%nat true];
                     mkLayer [mkNeuron [2]%nat 3%nat false]])
      (Items [Num 1]) (mkWorld [leaf 1; leaf 0; leaf 1; leaf 0] 0)
    = (TypeError, w').
Proof.
  destruct (MLP_call_outcome
              (mkMLP [mkLayer [mkNeuron [0]%nat 1%nat true];
                      mkLayer [mkNeuron [2]%nat 3%nat false]])
              [Num 1] (mkWorld [leaf 1; leaf 0; leaf 1; leaf 0] 0))
    as [Hbad _].
  - unfold allocated, parameters, MLP_parameters. simpl.
    repeat constructor; simpl; lia.
  - by repeat constructor.
  - apply Hbad. by exists 0%nat, 0%nat.
Defined.

End NetworkCalls.

Section NetworkInit.
Local Open Scope R_scope.

Variable uniform : nat → R.

(** X17 — A fresh neuron. [Neuron(input_size, nonlin)] never raises. It
    makes [input_size] draws (none when [input_size] is negative) and
    appends as many leaves holding them, then a leaf holding 0; its
    weights are the first ones in order, its bias the last, so that its
    parameters are distinct new objects with gradient 0. *)
Theorem Neuron_init_fresh (input_size : Z) (nl : bool) (w : world) :
  let k := Z.to_nat input_size in
  let base := length (heap w) in
  Neuron_init uniform input_size nl w
  = (Engine (Ok (mkNeuron (seq base k) (base + k) nl)),
     mkWorld (heap w ++ ((λ j, leaf (uniform j)) <$> seq (drawn w) k) ++ [leaf 0])
       (drawn w + k)) ∧
  parameters (mkNeuron (seq base k) (base + k) nl) = seq base (k + 1) ∧
  (input_size ≤ 0 → k = 0%nat)%Z.
Proof.
  intros k base. split_and!.
  - apply Neuron_init_run.
  - apply parameters_neuron_at.
  - subst k. lia.
Qed.

(** X18 — The parameters of a fresh network. [MLP(input_size,
    layer_sizes)] never raises. It appends to the heap one leaf for each
    parameter and makes one draw of [random.uniform(-1, 1)] for each
    weight. The list [parameters()] of the network is the list of these new
    objects in the order of their allocation: they are distinct, and their
    number is the sum over the layers of [neurons * (inputs + 1)], a
    negative size counting as 0. The weights, read in the order of
    [parameters()], hold the draws in the order in which they were made, and
    every bias holds 0. *)
Theorem MLP_init_parameters (input_size : Z) (layer_sizes : list Z) (w : world) :
  let arch := architecture input_size layer_sizes in
  ∃ m cells,
    MLP_init uniform input_size layer_sizes w
      = (Engine (Ok m),
         mkWorld (heap w ++ cells) (drawn w + weight_count arch)) ∧
    parameters m = seq (length (heap w)) (parameter_count arch) ∧
    length cells = parameter_count arch ∧
    Forall (fresh_cell uniform) cells ∧
    data_of (heap w ++ cells) <$> all_weights m
      = uniform <$> seq (drawn w) (weight_count arch) ∧
    Forall (λ b, data_of (heap w ++ cells) b = 0) (all_biases m) ∧
    NoDup (parameters m) ∧
    allocated m (heap w ++ cells) ∧
    (ready (heap w) → ready (heap w ++ cells)).
Proof.
  intros arch. eexists. eexists. split; [apply MLP_init_run|].
  fold arch. split_and!.
  - apply parameters_layers_at.
  - apply length_network_cells.
  - apply network_cells_fresh.
  - apply fresh_network_values.
  - apply fresh_network_values.
  - rewrite parameters_layers_at. apply NoDup_seq.
  - apply allocated_layers_at; [done|apply length_network_cells].
  - intros Hr. eapply ready_fresh_cells; [apply network_cells_fresh|done].
Qed.

(** X19 — The shape of a fresh network. [MLP(input_size, layer_sizes)]
    has one layer for each entry of [layer_sizes]; layer [i] has
    [layer_sizes[i]] neurons, each with as many weights as the layer
    before has neurons ([input_size] for the first layer), a negative size
    counting as 0; the neurons of the last layer are linear and all the
    others apply [relu]. *)
Theorem MLP_init_shape (input_size : Z) (layer_sizes : list Z) (w : world) :
  ∃ m w',
    MLP_init uniform input_size layer_sizes w = (Engine (Ok m), w') ∧
    widths m = (λ z, Z.to_nat z) <$> layer_sizes ∧
    ∀ i layer n,
      layers m !! i = Some layer → n ∈ neurons layer →
      length (weights n) = Z.to_nat ((input_size :: layer_sizes) !!! i) ∧
      nonlin n = bool_decide (S i ≠ length layer_sizes).
Proof.
  eexists. eexists. split; [apply MLP_init_run|]. split.
  - rewrite widths_layers_at.
    transitivity (Z.to_nat <$> ((λ a : Z * Z * bool, a.1.2)
                                  <$> architecture input_size layer_sizes));
      [by rewrite <- list_fmap_compose|by rewrite architecture_sizes].
  - simpl. intros i layer n Hi Hn.
    destruct (layers_at_lookup _ _ _ _ Hi) as (a & Ha & _ & Hshape).
    destruct (Hshape n Hn) as [-> ->].
    rewrite architecture_seq in Ha.
    apply list_lookup_fmap_Some in Ha as (j & -> & Hj).
    apply lookup_seq in Hj as [-> Hlt]. simpl. split; [done|].
    apply bool_decide_ext. lia.
Qed.

End NetworkInit.

Close Scope R_scope.

Section FreshNetwork.
Local Open Scope R_scope.

Variable uniform : nat → R.

(** X22 — The parameters of a fresh network are leaves in [-1, 1].
    When [random.uniform(-1, 1)] returns numbers between -1 and 1, every
    parameter of [MLP(input_size, layer_sizes)] is an object without
    operand and without closure, of gradient 0, whose value is between -1
    and 1; the value of every bias is 0. *)
Theorem fresh_parameters_are_leaves (input_size : Z) (layer_sizes : list Z)
    (w : world) :
  (∀ j, -1 <= uniform j <= 1) →
  ∃ m w',
    MLP_init uniform input_size layer_sizes w = (Engine (Ok m), w') ∧
    (∀ p, p ∈ parameters m →
       -1 <= data_of (heap w') p <= 1 ∧ grad_of (heap w') p = 0 ∧
       prev_of (heap w') p = [] ∧ backward_of (heap w') p = bw_none ∧
       op_of (heap w') p = OpLeaf) ∧
    (∀ layer n, layer ∈ layers m → n ∈ neurons layer →
       data_of (heap w') (bias n) = 0).
Proof.
  intros Hu. eexists. eexists. split; [apply MLP_init_run|]. split.
  2:{ simpl. intros layer n Hl Hn.
      destruct (fresh_network_values uniform input_size layer_sizes w) as [_ Hb].
      apply (proj1 (Forall_forall _ _) Hb).
      unfold all_biases. simpl. apply list_elem_of_bind. exists layer.
      split; [|done]. by apply list_elem_of_fmap_2. }
  simpl. intros p Hp. rewrite parameters_layers_at in Hp.
  apply elem_of_seq in Hp as [Hge Hlt].
  set (cells := network_cells uniform (drawn w)
                  (architecture input_size layer_sizes)) in *.
  assert (Hlen : length cells = parameter_count (architecture input_size layer_sizes))
    by apply length_network_cells.
  assert (Hcell : ∃ c, cells !! (p - length (heap w))%nat = Some c).
  { apply lookup_lt_is_Some. lia. }
  destruct Hcell as [c Hc].
  assert (Hlook : (heap w ++ cells) !!! p = c).
  { apply list_lookup_total_correct. rewrite lookup_app_r by lia. done. }
  pose proof (network_cells_fresh uniform (architecture input_size layer_sizes)
                (drawn w)) as Hfresh.
  fold cells in Hfresh.
  destruct (proj1 (Forall_forall _ _) Hfresh c (list_elem_of_lookup_2 _ _ _ Hc))
    as (x & -> & Hx).
  unfold data_of, grad_of, prev_of, backward_of, op_of. rewrite Hlook. simpl.
  split_and!; try done.
  - destruct Hx as [->|[j ->]]; [lra|]. apply Hu.
  - destruct Hx as [->|[j ->]]; [lra|]. apply Hu.
Qed.

(** X21 — Forward and backward pass of a fresh network. Let
    [layer_sizes] end with 1 and hold no other 1, and let the heap be ready
    for a pass. Then [model = MLP(input_size, layer_sizes)],
    [output = model(x)] on a list [x] of numbers and objects, and
    [output.backward()] run as in [RealTest.py] without any exception (the
    recursion depth being above the number of objects): the output is a
    single node, and after the pass its gradient is 1 and no value, operand
    or closure has changed. *)
Theorem fresh_network_forward_backward
    (iter_order : ident → list ident → list ident)
    (input_size : Z) (layer_sizes : list Z) (xs : list operand) (w : world) :
  (∀ v l, iter_order v l ≡ₚ l) →
  ready (heap w) → Forall (operand_in (heap w)) xs →
  last layer_sizes = Some 1%Z →
  (∀ i z, layer_sizes !! i = Some z → (S i < length layer_sizes)%nat → z ≠ 1%Z) →
  ∃ model w1 output w2,
    MLP_init uniform input_size layer_sizes w = (Engine (Ok model), w1) ∧
    MLP_call model (Items xs) w1 = (Engine (Ok (Single output)), w2) ∧
    drawn w2 = drawn w1 ∧
    ∀ fuel, (length (heap w2) < fuel)%nat →
      ∃ tr st3,
        backward iter_order fuel output (heap w2) = (tr, Ok tt, st3) ∧
        grad_of st3 output = 1 ∧ same_graph (heap w2) st3.
Proof.
  intros Hperm Hr Hxs Hlast Hhidden.
  set (arch := architecture input_size layer_sizes).
  set (cells := network_cells uniform (drawn w) arch).
  set (model := mkMLP (layers_at (length (heap w)) arch)).
  set (w1 := mkWorld (heap w ++ cells) (drawn w + weight_count arch)).
  assert (Hinit : MLP_init uniform input_size layer_sizes w = (Engine (Ok model), w1))
    by apply MLP_init_run.
  assert (Hal : allocated model (heap w1)).
  { apply allocated_layers_at; [done|apply length_network_cells]. }
  assert (Hr1 : ready (heap w1)).
  { eapply ready_fresh_cells; [apply network_cells_fresh|done]. }
  assert (Hxs1 : Forall (operand_in (heap w1)) xs).
  { eapply Forall_impl; [exact Hxs|]. intros x. apply operand_in_app. }
  assert (Hw : widths model = (λ z, Z.to_nat z) <$> layer_sizes).
  { unfold model. rewrite widths_layers_at.
    transitivity (Z.to_nat <$> ((λ a : Z * Z * bool, a.1.2) <$> arch));
      [by rewrite <- list_fmap_compose|by unfold arch; rewrite architecture_sizes]. }
  apply allocated_MLP in Hal.
  destruct (layers_run (layers model) (Items xs) w1 Hal Hxs1) as [ext Hrun].
  fold (widths model) in Hrun.
  assert (Hm : meets_single false (widths model) = false).
  { destruct (meets_single false (widths model)) eqn:Hm; [|done]. exfalso.
    apply meets_single_spec in Hm as [[? _]|(i & k & Hi & Hk)]; [done|].
    rewrite Hw in Hi, Hk.
    apply list_lookup_fmap_Some in Hi as (z & Hz & Hi).
    apply list_lookup_fmap_Some in Hk as (z' & Hz' & Hk).
    apply (Hhidden i z Hi); [by eapply lookup_lt_Some|lia]. }
  rewrite Hm in Hrun. destruct Hrun as (y & Hcall & Hy & _ & Hshape & Hready).
  assert (Hk : last (widths model) = Some 1%nat).
  { rewrite Hw, fmap_last, Hlast. done. }
  specialize (Hshape 1%nat Hk). destruct y as [ys|output]; [by destruct Hshape|].
  exists model, w1, output. eexists. split_and!; [done|exact Hcall|done|].
  simpl. intros fuel Hfuel. simpl in Hy.
  destruct (ready_backward iter_order Hperm fuel (heap w1 ++ ext) output
              (Hready Hr1) Hy Hfuel) as (tr & st3 & Hback & Hsg & Hg1 & _).
  by exists tr, st3.
Qed.

End FreshNetwork.

Lemma fresh_parameters_are_leaves_witness :
  ∃ m w',
    MLP_init (λ _, (1 / 2)%R) 3 [4; 1]%Z (mkWorld [] 0) = (Engine (Ok m), w') ∧
    (∀ p, p ∈ parameters m →
       (-1 <= data_of (heap w') p <= 1)%R ∧ grad_of (heap w') p = 0%R) ∧
    (∀ layer n, layer ∈ layers m → n ∈ neurons layer →
       data_of (heap w') (bias n) = 0%R).
Proof.
  destruct (fresh_parameters_are_leaves (λ _, (1 / 2)%R) 3 [4; 1]%Z (mkWorld [] 0))
    as (m & w' & Hrun & Hp & Hb).
  - intros _. lra.
  - exists m, w'. split; [exact Hrun|]. split; [|exact Hb]. intros p Hin.
    destruct (Hp p Hin) as (Hd & Hg & _). split; [exact Hd|exact Hg].
Defined.

Lemma fresh_network_forward_backward_witness :
  ∃ model w1 output w2 tr st3,
    MLP_init (λ _, (1 / 2)%R) 3 [4; 1]%Z
      (mkWorld [leaf 1; leaf 2; leaf 3] 0) = (Engine (Ok model), w1) ∧
    MLP_call model (Items [Ref 0%nat; Ref 1%nat; Ref 2%nat]) w1
      = (Engine (Ok (Single output)), w2) ∧
    backward tuple_order (S (length (heap w2))) output (heap w2)
      = (tr, Ok tt, st3) ∧
    grad_of st3 output = 1%R.
Proof.
  destruct (fresh_network_forward_backward (λ _, (1 / 2)%R) tuple_order 3 [4; 1]%Z
              [Ref 0%nat; Ref 1%nat; Ref 2%nat]
              (mkWorld [leaf 1; leaf 2; leaf 3] 0) tuple_order_perm)
    as (model & w1 & output & w2 & Hinit & Hcall & _ & Hback).
  - exact (ready_leaf [leaf 1; leaf 2] 3
             (ready_leaf [leaf 1] 2 (ready_leaf [] 1 ready_nil))).
  - repeat constructor; simpl; lia.
  - done.
  - intros [|[|i]] z Hz Hlt; simpl in Hz, Hlt; simplify_eq; (done || lia).
  - destruct (Hback (S (length (heap w2))) ltac:(lia)) as (tr & st3 & Hb & Hg & _).
    exists model, w1, output, w2, tr, st3.
    split; [exact Hinit|]. split; [exact Hcall|]. split; [exact Hb|exact Hg].
Defined.

